(** * Quasigroup analyzer: a shallow embedding of [main.cpp] and [quasigroup.cpp]

    The development models the Cayley-table wrapper ([Quasigroup]), the
    Latin-square validator ([isLatinSquare]), the subquasigroup detector
    ([hasSubquasigroups] with its two closure checks) and the
    sequential-replacement-graph generator, and proves the properties the
    specification states about them.

    Conventions.
    - [int] values are integers in [Z]; the only arithmetic the modelled code
      performs on them, [(row + column) % order], is written with its 32-bit
      wrap-around ([int_add]) and C++'s truncating remainder ([Z.rem]).
    - [std::vector] is a [list], read with [!!] and updated with [<[_:=_]>];
      an access outside the vector is undefined behaviour in C++ and is the
      error [Undefined] here.
    - [std::unordered_set<int>] is a [gset Z]; its iteration order, which the
      C++ standard leaves unspecified, is the order of [elements].
    - [std::unordered_map<int, unordered_set<int>>] is a [gmap nat (gset Z)].
    - A [throw std::out_of_range] is the error [OutOfRange].
    - [while] loops run on a fuel counter; a loop that has not finished when
      the counter reaches zero yields [OutOfFuel].
    - The process-wide [std::mt19937] is an abstract state machine
      [next : G -> nat * G]; every theorem about the generator holds for every
      such machine. *)

From Stdlib Require Import ZArith Zdivisibility.
From stdpp Require Import base numbers list gmap sets.

Local Open Scope Z_scope.

(* ================================================================= *)
(** ** Results, errors and loops *)

Inductive error : Type :=
| OutOfRange   (* std::out_of_range thrown by a bounds check *)
| Undefined    (* undefined behaviour: out-of-bounds access, empty selection *)
| OutOfFuel.   (* the fuel of a modelled while loop ran out *)

Inductive res (A : Type) : Type :=
| Ok (a : A)
| Err (e : error).
Arguments Ok {A} a.
Arguments Err {A} e.

#[global] Instance res_ret : MRet res := λ A a, Ok a.
#[global] Instance res_bind : MBind res := λ A B f m,
  match m with
  | Ok a => f a
  | Err e => Err e
  end.

#[global] Instance error_eq_dec : EqDecision error.
Proof. solve_decision. Defined.

(** What a loop body hands back: go on with a new state, or leave the
    enclosing function with a value ([return] / [break]). *)
Inductive ctl (S R : Type) : Type :=
| Continue (s : S)
| Return (r : R).
Arguments Continue {S R} s.
Arguments Return {S R} r.

(** [for (x : l) body] with early exit. *)
Fixpoint for_each {A S R : Type} (l : list A)
    (body : A → S → res (ctl S R)) (s : S) : res (ctl S R) :=
  match l with
  | [] => Ok (Continue s)
  | x :: l' =>
      c ← body x s;
      match c with
      | Continue s' => for_each l' body s'
      | Return r => Ok (Return r)
      end
  end.

(** [while (...) body] on a fuel counter; the body tests the loop condition
    itself and answers [Return] when the loop is left. *)
Fixpoint while_loop {S R : Type} (fuel : nat)
    (body : S → res (ctl S R)) (s : S) : res R :=
  match fuel with
  | O => Err OutOfFuel
  | Datatypes.S fuel' =>
      c ← body s;
      match c with
      | Continue s' => while_loop fuel' body s'
      | Return r => Ok r
      end
  end.

(** [v[i]] on a vector: undefined outside the vector. *)
Definition vec_get {A : Type} (v : list A) (i : nat) : res A :=
  match v !! i with
  | Some x => Ok x
  | None => Err Undefined
  end.

(** [v[i] = x] on a vector: undefined outside the vector. *)
Definition vec_set {A : Type} (v : list A) (i : nat) (x : A) : res (list A) :=
  if decide (i < length v)%nat then Ok (<[i:=x]> v) else Err Undefined.

(* ================================================================= *)
(** ** 32-bit [int] arithmetic *)

Definition INT_MIN : Z := - 2 ^ 31.
Definition INT_MAX : Z := 2 ^ 31 - 1.

(** Two's-complement wrap-around of a mathematical integer into [int]. *)
Definition wrap_int (z : Z) : Z := (z + 2 ^ 31) `mod` 2 ^ 32 - 2 ^ 31.

Definition int_add (a b : Z) : Z := wrap_int (a + b).

(* ================================================================= *)
(** ** [class Quasigroup] (main.cpp) *)

Record Quasigroup : Type := {
  cayleyTable : list (list Z);
  order : Z
}.

(** The constructor: [order(static_cast<int>(cayleyTable.size()))]. *)
Definition mkQuasigroup (table : list (list Z)) : Quasigroup :=
  {| cayleyTable := table; order := Z.of_nat (length table) |}.

(** [Quasigroup::applyOperation] (main.cpp, lines 69-76). *)
Definition applyOperation (q : Quasigroup) (firstElement secondElement : Z)
    : res Z :=
  if (0 <=? firstElement) && (firstElement <? order q)
     && (0 <=? secondElement) && (secondElement <? order q)
  then
    row ← vec_get (cayleyTable q) (Z.to_nat firstElement);
    vec_get row (Z.to_nat secondElement)
  else Err OutOfRange.

(** [class Quasigroup] of quasigroup.cpp, the earlier variant of the class. *)
Module QuasigroupCpp.

Record Quasigroup : Type := {
  table : list (list Z);
  size : Z
}.

Definition mkQuasigroup (cayleyTable : list (list Z)) : Quasigroup :=
  {| table := cayleyTable; size := Z.of_nat (length cayleyTable) |}.

Definition getSize (q : Quasigroup) : Z := size q.

(** [Quasigroup::multiply] (quasigroup.cpp, lines 24-30). *)
Definition multiply (q : Quasigroup) (x y : Z) : res Z :=
  if (0 <=? x) && (x <? size q) && (0 <=? y) && (y <? size q)
  then
    row ← vec_get (table q) (Z.to_nat x);
    vec_get row (Z.to_nat y)
  else Err OutOfRange.

End QuasigroupCpp.

(* ================================================================= *)
(** ** [isLatinSquare] (main.cpp, lines 502-520) *)

(** The body of the inner [for (column ...)] loop; the state is the pair
    ([rowUsed], [columnUsed]). *)
Definition isLatinSquare_column (table : list (list Z)) (order : Z)
    (row column : nat) (used : list bool * list bool)
    : res (ctl (list bool * list bool) bool) :=
  let '(rowUsed, columnUsed) := used in
  r ← vec_get table row;
  rowValue ← vec_get r column;
  c ← vec_get table column;
  columnValue ← vec_get c row;
  if (rowValue <? 0) || (order <=? rowValue)
     || (columnValue <? 0) || (order <=? columnValue)
     || (rowUsed !!! Z.to_nat rowValue)
     || (columnUsed !!! Z.to_nat columnValue)
  then Ok (Return false)
  else
    let rowUsed' := <[Z.to_nat rowValue := true]> rowUsed in
    let columnUsed' := <[Z.to_nat columnValue := true]> columnUsed in
    Ok (Continue (rowUsed', columnUsed')).

(** The body of the outer [for (row ...)] loop. *)
Definition isLatinSquare_row (table : list (list Z)) (order : Z)
    (row : nat) (_ : unit) : res (ctl unit bool) :=
  let n := Z.to_nat order in
  c ← for_each (seq 0 n) (isLatinSquare_column table order row)
         (replicate n false, replicate n false);
  match c with
  | Continue _ => Ok (Continue ())
  | Return b => Ok (Return b)
  end.

Definition isLatinSquare (table : list (list Z)) : res bool :=
  let order := Z.of_nat (length table) in
  c ← for_each (seq 0 (Z.to_nat order)) (isLatinSquare_row table order) ();
  match c with
  | Continue _ => Ok true
  | Return b => Ok b
  end.

(* ================================================================= *)
(** ** The subquasigroup detector *)

(** [v[i]] and [v[i] = x] with an [int] index. *)
Definition vec_get_int {A : Type} (v : list A) (i : Z) : res A :=
  if decide (0 ≤ i) then vec_get v (Z.to_nat i) else Err Undefined.

Definition vec_set_int {A : Type} (v : list A) (i : Z) (x : A)
    : res (list A) :=
  if decide (0 ≤ i) then vec_set v (Z.to_nat i) x else Err Undefined.

(** The mode flag [checkForProperSubquasigroups]. *)
Definition PROPER : bool := true.
Definition NON_TRIVIAL : bool := false.

(** *** [verifyProperSubquasigroup] (main.cpp, lines 122-147) *)

(** The body of the two nested range-[for] loops; the state is the pair
    ([closedSet], [setChanged]). *)
Definition verifyProper_pair (q : Quasigroup) (firstElement secondElement : Z)
    (st : gset Z * bool) : res (ctl (gset Z * bool) bool) :=
  let '(closedSet, setChanged) := st in
  result ← applyOperation q firstElement secondElement;
  if decide (result ∈ closedSet) then Ok (Continue (closedSet, setChanged))
  else
    let closedSet' := closedSet ∪ {[result]} in
    if Z.of_nat (size closedSet') >? order q `quot` 2
    then Ok (Return false)
    else Ok (Continue (closedSet', true)).

(** One pass of [while (setChanged)]. *)
Definition verifyProper_round (q : Quasigroup) (closedSet : gset Z)
    : res (ctl (gset Z) bool) :=
  let currentElements := elements closedSet in
  c ← for_each (S:=gset Z * bool) (R:=bool) currentElements
        (λ firstElement,
           for_each currentElements (verifyProper_pair q firstElement))
        (closedSet, false);
  match c with
  | Return b => Ok (Return b)
  | Continue (closedSet', setChanged) =>
      if setChanged : bool then Ok (Continue closedSet')
      else Ok (Return (bool_decide (Z.of_nat (size closedSet') < order q)))
  end.

Definition verifyProperSubquasigroup (fuel : nat) (q : Quasigroup)
    (seedSet : gset Z) : res bool :=
  while_loop fuel (verifyProper_round q) seedSet.

(** *** [verifyNonTrivialSubquasigroup] (main.cpp, lines 153-178) *)

Definition verifyNonTrivial_pair (q : Quasigroup)
    (firstElement secondElement : Z) (st : gset Z * bool)
    : res (ctl (gset Z * bool) bool) :=
  let '(closedSet, setChanged) := st in
  result ← applyOperation q firstElement secondElement;
  if decide (result ∈ closedSet) then Ok (Continue (closedSet, setChanged))
  else Ok (Continue (closedSet ∪ {[result]}, true)).

Definition verifyNonTrivial_round (q : Quasigroup) (closedSet : gset Z)
    : res (ctl (gset Z) bool) :=
  let currentElements := elements closedSet in
  c ← for_each (S:=gset Z * bool) (R:=bool) currentElements
        (λ firstElement,
           for_each currentElements (verifyNonTrivial_pair q firstElement))
        (closedSet, false);
  match c with
  | Return b => Ok (Return b)
  | Continue (closedSet', setChanged) =>
      if setChanged : bool then Ok (Continue closedSet')
      else Ok (Return (bool_decide (1 < Z.of_nat (size closedSet'))))
  end.

Definition verifyNonTrivialSubquasigroup (fuel : nat) (q : Quasigroup)
    (seedSet : gset Z) : res bool :=
  if decide (size seedSet = 1%nat) then Ok false
  else while_loop fuel (verifyNonTrivial_round q) seedSet.

(** *** [hasSubquasigroups] (main.cpp, lines 84-115) *)

(** The squaring walk [while (cycleElements.insert(currentElement).second)];
    the state is ([cycleElements], [visitedElements], [currentElement]). *)
Definition cycle_step (q : Quasigroup) (st : gset Z * list bool * Z)
    : res (ctl (gset Z * list bool * Z) (gset Z * list bool)) :=
  let '(cycleElements, visitedElements, currentElement) := st in
  if decide (currentElement ∈ cycleElements)
  then Ok (Return (cycleElements, visitedElements))
  else
    let cycleElements' := cycleElements ∪ {[currentElement]} in
    visitedElements' ← vec_set_int visitedElements currentElement true;
    currentElement' ← applyOperation q currentElement currentElement;
    Ok (Continue (cycleElements', visitedElements', currentElement')).

(** The body of [for (startElement ...)]; the state is [visitedElements]. *)
Definition hasSubquasigroups_start (fuel : nat) (q : Quasigroup)
    (checkForProperSubquasigroups : bool) (startElement : Z)
    (visitedElements : list bool) : res (ctl (list bool) bool) :=
  visited ← vec_get_int visitedElements startElement;
  if visited : bool then Ok (Continue visitedElements)
  else
    '(cycleElements, visitedElements') ←
      while_loop fuel (cycle_step q) (∅, visitedElements, startElement);
    found ←
      (if checkForProperSubquasigroups
       then verifyProperSubquasigroup fuel q cycleElements
       else verifyNonTrivialSubquasigroup fuel q cycleElements);
    if found : bool then Ok (Return true) else Ok (Continue visitedElements').

Definition hasSubquasigroups (fuel : nat) (q : Quasigroup)
    (checkForProperSubquasigroups : bool) : res bool :=
  let visitedElements := replicate (Z.to_nat (order q)) false in
  c ← for_each (seqZ 0 (order q))
        (hasSubquasigroups_start fuel q checkForProperSubquasigroups)
        visitedElements;
  match c with
  | Continue _ => Ok false
  | Return b => Ok b
  end.

(** *** [generateCyclicGroupCayleyTable] (main.cpp, lines 237-248) *)

Definition generateCyclicGroupCayleyTable (order : Z) : list (list Z) :=
  (λ row, (λ column, Z.rem (int_add row column) order) <$> seqZ 0 order)
    <$> seqZ 0 order.

(* ================================================================= *)
(** ** Specification vocabulary *)

(** A table has as many columns in every row as it has rows. *)
Definition square (table : list (list Z)) : Prop :=
  Forall (λ row, length row = length table) table.

(** [table[i][j]], read as 0 outside the table. *)
Definition entry (table : list (list Z)) (i j : nat) : Z :=
  (table !!! i) !!! j.

Definition column_of (table : list (list Z)) (j : nat) : list Z :=
  (λ row, row !!! j) <$> table.

Definition entries_in_range (table : list (list Z)) : Prop :=
  ∀ row v, row ∈ table → v ∈ row → 0 ≤ v < Z.of_nat (length table).

Definition rows_distinct (table : list (list Z)) : Prop :=
  ∀ row, row ∈ table → NoDup row.

Definition columns_distinct (table : list (list Z)) : Prop :=
  ∀ j, (j < length table)%nat → NoDup (column_of table j).

(** The Latin-square invariant of the data model. *)
Definition latin (table : list (list Z)) : Prop :=
  entries_in_range table ∧ rows_distinct table ∧ columns_distinct table.

(** A list of indices that is a rearrangement of [0 .. n-1]. *)
Definition index_permutation (n : nat) (σ : list nat) : Prop :=
  σ ≡ₚ seq 0 n.

Definition permute_rows (σ : list nat) (table : list (list Z))
    : list (list Z) :=
  (λ i, table !!! i) <$> σ.

Definition permute_columns (σ : list nat) (table : list (list Z))
    : list (list Z) :=
  (λ row, (λ j, row !!! j) <$> σ) <$> table.

(** The quasigroup operation as a total function on elements, read as 0
    outside the table. *)
Definition op (q : Quasigroup) (a b : Z) : Z :=
  entry (cayleyTable q) (Z.to_nat a) (Z.to_nat b).

(** A quasigroup value whose table is square with entries in range: the
    input contract of the detector. *)
Definition well_formed (q : Quasigroup) : Prop :=
  order q = Z.of_nat (length (cayleyTable q))
  ∧ square (cayleyTable q)
  ∧ entries_in_range (cayleyTable q).

Definition elements_in_range (q : Quasigroup) (s : gset Z) : Prop :=
  ∀ x, x ∈ s → 0 ≤ x < order q.

(** [s] is closed under the operation. *)
Definition closed_under (q : Quasigroup) (s : gset Z) : Prop :=
  ∀ a b, a ∈ s → b ∈ s → op q a b ∈ s.

Definition idempotent (q : Quasigroup) (x : Z) : Prop := op q x x = x.

(* ================================================================= *)
(** ** The sequential-replacement-graph generator (main.cpp, lines 315-496) *)

(** [for (x : l) body] without early exit. *)
Fixpoint for_loop {A S : Type} (l : list A) (body : A → S → res S) (s : S)
    : res S :=
  match l with
  | [] => Ok s
  | x :: l' => s' ← body x s; for_loop l' body s'
  end.

(** [std::find(row.begin(), row.end(), x) - row.begin()]: the position of the
    first occurrence, or [row.size()]. *)
Definition find_index (x : Z) (row : list Z) : nat :=
  match list_find (λ y, y = x) row with
  | Some (i, _) => i
  | None => length row
  end.

Module SequentialReplacementGraphGenerator.
Section WithRandomSource.

(** The random number generator: a state and the function drawing the next
    raw number from it. *)
Context {G : Type} (next : G → nat * G).

(** [selectRandomElement] (main.cpp, lines 26-32): advance [begin()] by a
    uniformly drawn index; the index is the raw draw reduced to the size of
    the set. On an empty set the C++ code is undefined. *)
Definition selectRandomElement (set : gset Z) (g : G) : res (Z * G) :=
  let items := elements set in
  if decide (items = []) then Err Undefined
  else
    let '(raw, g') := next g in
    x ← vec_get items (raw `mod` length items)%nat;
    Ok (x, g').

(** The members of the class. *)
Record Generator : Type := {
  order : Z;
  cayleyTable : list (list Z);
  availableInColumns : list (gset Z);
  availableSymbols : gset Z
}.

(** The constructor. *)
Definition mkGenerator (order : Z) : Generator :=
  let n := Z.to_nat order in
  let symbols : gset Z := list_to_set (seqZ 0 order) in
  {| order := order;
     cayleyTable := replicate n (replicate n (-1));
     availableInColumns := replicate n symbols;
     availableSymbols := symbols |}.

(** [using ReplacementGraph = std::unordered_map<int, std::unordered_set<int>>]. *)
Abbreviation ReplacementGraph := (gmap nat (gset Z)).

(** [constructReplacementGraph]; the loop runs [column] from
    [currentColumn] down to 0. *)
Definition constructReplacementGraph (row : list Z) (currentColumn : nat)
    (initialAvailable : list (gset Z)) : res ReplacementGraph :=
  for_loop (reverse (seq 0 (S currentColumn)))
    (λ column (graph : ReplacementGraph),
       available ← vec_get initialAvailable column;
       if decide (available = ∅) then Ok graph
       else Ok (<[column := available]> graph))
    ∅.

Definition eraseInitialElementFromGraph (graph : ReplacementGraph)
    (initialElement : Z) : ReplacementGraph :=
  (λ symbols, symbols ∖ {[initialElement]}) <$> graph.

(** What [makeElementAvailable] reads and writes in its [while (true)]
    loop: the caller's [row] and [availableInRow], the member
    [availableInColumns], the locals and the random source. *)
Record WalkState : Type := {
  w_row : list Z;
  w_availableInRow : gset Z;
  w_availableInColumns : list (gset Z);
  w_oldIndex : nat;
  w_oldElement : Z;
  w_visitedPath : gset Z;
  w_rng : G
}.

(** One pass of the [while (true)] loop. [graph[oldIndex]] on a missing key
    yields the empty set. *)
Definition makeElementAvailable_step (initialElement : Z)
    (graph : ReplacementGraph) (st : WalkState)
    : res (ctl WalkState WalkState) :=
  let choices : gset Z := default ∅ (graph !! w_oldIndex st) in
  let availableChoices := choices ∖ w_visitedPath st in
  let '(visitedPath, availableChoices) :=
    if decide (availableChoices = ∅) then (∅, choices)
    else (w_visitedPath st, availableChoices) in
  '(newElement, g) ← selectRandomElement availableChoices (w_rng st);
  let newIndex := find_index newElement (w_row st) in
  row ← vec_set (w_row st) (w_oldIndex st) newElement;
  let visitedPath := visitedPath ∪ {[newElement]} in
  let availableInRow :=
    if decide (w_oldElement st ∈ row)
    then w_availableInRow st
    else w_availableInRow st ∪ {[w_oldElement st]} in
  let availableInRow := availableInRow ∖ {[newElement]} in
  column ← vec_get (w_availableInColumns st) (w_oldIndex st);
  let column := (column ∪ {[w_oldElement st]}) ∖ {[newElement]} in
  columns ← vec_set (w_availableInColumns st) (w_oldIndex st) column;
  let st' := {| w_row := row;
                w_availableInRow := availableInRow;
                w_availableInColumns := columns;
                w_oldIndex := newIndex;
                w_oldElement := newElement;
                w_visitedPath := visitedPath;
                w_rng := g |} in
  if bool_decide (initialElement ∈ availableInRow)
     && bool_decide (length row ≤ newIndex)%nat
  then Ok (Return st')
  else if bool_decide (length row ≤ newIndex)%nat
  then Ok (Return st')
  else Ok (Continue st').

Definition makeElementAvailable (fuel : nat) (oldElement : Z)
    (graph : ReplacementGraph) (row : list Z) (currentColumn : nat)
    (availableInRow : gset Z) (columns : list (gset Z)) (g : G)
    : res WalkState :=
  let initialElement := oldElement in
  let graph := eraseInitialElementFromGraph graph initialElement in
  let oldIndex := find_index oldElement row in
  while_loop fuel (makeElementAvailable_step initialElement graph)
    {| w_row := row;
       w_availableInRow := availableInRow;
       w_availableInColumns := columns;
       w_oldIndex := oldIndex;
       w_oldElement := oldElement;
       w_visitedPath := ∅;
       w_rng := g |}.

(** What [generateRow] reads and writes in its [while] loop. *)
Record RowState : Type := {
  r_availableInRow : gset Z;
  r_row : list Z;
  r_currentColumn : nat;
  r_availableInColumns : list (gset Z);
  r_rng : G
}.

(** One pass of [while (currentColumn < order)]. *)
Definition generateRow_step (fuel : nat) (order : Z)
    (initialAvailable : list (gset Z)) (st : RowState)
    : res (ctl RowState (list Z * list (gset Z) * G)) :=
  let currentColumn := r_currentColumn st in
  if decide (Z.of_nat currentColumn < order) then
    available ← vec_get (r_availableInColumns st) currentColumn;
    let validSymbols : gset Z :=
      filter (λ symbol, symbol ∈ r_availableInRow st) available in
    if decide (validSymbols ≠ ∅) then
      '(selectedSymbol, g) ← selectRandomElement validSymbols (r_rng st);
      columns ← vec_set (r_availableInColumns st) currentColumn
                   (available ∖ {[selectedSymbol]});
      Ok (Continue
            {| r_availableInRow := r_availableInRow st ∖ {[selectedSymbol]};
               r_row := r_row st ++ [selectedSymbol];
               r_currentColumn := S currentColumn;
               r_availableInColumns := columns;
               r_rng := g |})
    else
      replacementGraph ←
        constructReplacementGraph (r_row st) currentColumn initialAvailable;
      '(selectedElement, g) ← selectRandomElement available (r_rng st);
      w ← makeElementAvailable fuel selectedElement replacementGraph
            (r_row st) currentColumn (r_availableInRow st)
            (r_availableInColumns st) g;
      Ok (Continue
            {| r_availableInRow := w_availableInRow w;
               r_row := w_row w;
               r_currentColumn := currentColumn;
               r_availableInColumns := w_availableInColumns w;
               r_rng := w_rng w |})
  else Ok (Return (r_row st, r_availableInColumns st, r_rng st)).

Definition generateRow (fuel : nat) (order : Z) (availableSymbols : gset Z)
    (availableInColumns : list (gset Z)) (g : G)
    : res (list Z * list (gset Z) * G) :=
  let initialAvailable := availableInColumns in
  while_loop fuel (generateRow_step fuel order initialAvailable)
    {| r_availableInRow := availableSymbols;
       r_row := [];
       r_currentColumn := 0;
       r_availableInColumns := availableInColumns;
       r_rng := g |}.

(** The body of [for (row ...)] in [generate]. *)
Definition generate_row (fuel : nat) (row : nat) (st : Generator * G)
    : res (Generator * G) :=
  let '(gen, g) := st in
  '(newRow, columns, g') ←
    generateRow fuel (order gen) (availableSymbols gen)
      (availableInColumns gen) g;
  table ← vec_set (cayleyTable gen) row newRow;
  Ok ({| order := order gen;
         cayleyTable := table;
         availableInColumns := columns;
         availableSymbols := availableSymbols gen |}, g').

Definition generate (fuel : nat) (gen : Generator) (g : G)
    : res (list (list Z) * G) :=
  '(gen', g') ←
    for_loop (seq 0 (Z.to_nat (order gen))) (generate_row fuel) (gen, g);
  Ok (cayleyTable gen', g').

(** [generateSequentialReplacementGraphCayleyTable]. *)
Definition generateSequentialReplacementGraphCayleyTable
    (fuel : nat) (order : Z) (g : G) : res (list (list Z) * G) :=
  generate fuel (mkGenerator order) g.

End WithRandomSource.
End SequentialReplacementGraphGenerator.


(** Row [r] and column [r] of the table, the two lines the validator probes
    in its pass number [r], hold values in range and no value twice. *)
Definition line_ok (table : list (list Z)) (n r : nat) : Prop :=
  (∀ c, (c < n)%nat → 0 ≤ entry table r c < Z.of_nat n
                     ∧ 0 ≤ entry table c r < Z.of_nat n)
  ∧ (∀ c c', (c < n)%nat → (c' < n)%nat →
       entry table r c = entry table r c' → c = c')
  ∧ (∀ c c', (c < n)%nat → (c' < n)%nat →
       entry table c r = entry table c' r → c = c').

(** Every row and every column is a rearrangement of [0 .. n-1]. *)
Definition lines_are_permutations (table : list (list Z)) : Prop :=
  let n := Z.of_nat (length table) in
  (∀ row, row ∈ table → row ≡ₚ seqZ 0 n)
  ∧ (∀ j, (j < length table)%nat → column_of table j ≡ₚ seqZ 0 n).

(** *** Closure growth *)

(** The size bound of a growth step: [Some k] keeps every grown set at size
    at most [k]; [None] sets no bound. *)
Definition within_bound (bound : option Z) (size : nat) : Prop :=
  match bound with
  | Some k => Z.of_nat size ≤ k
  | None => True
  end.

(** [grows q bound s0 s]: the set [s] is reached from [s0] by adding, one at
    a time, products of elements already present that were missing, each
    grown set staying within the bound. *)
Inductive grows (q : Quasigroup) (bound : option Z) (s0 : gset Z)
    : gset Z → Prop :=
| grows_refl : grows q bound s0 s0
| grows_step (s : gset Z) (a b : Z) :
    grows q bound s0 s →
    a ∈ s → b ∈ s → op q a b ∉ s →
    within_bound bound (size (s ∪ {[op q a b]})) →
    grows q bound s0 (s ∪ {[op q a b]}).

(** Growth from [seed] has reached a set in which some missing product, once
    added, pushes the size over [k]. *)
Definition exceeds (q : Quasigroup) (k : Z) (seed : gset Z) : Prop :=
  ∃ s a b, grows q (Some k) seed s ∧ a ∈ s ∧ b ∈ s ∧ (op q a b ∉ s)
           ∧ k < Z.of_nat (size (s ∪ {[op q a b]})).

(* ================================================================= *)
(** ** Loop invariants *)

(** The invariant of the inner loop after [k] columns. *)
Definition column_inv (table : list (list Z)) (n r k : nat)
    (used : list bool * list bool) : Prop :=
  length used.1 = n ∧ length used.2 = n
  ∧ (∀ c, (c < k)%nat → 0 ≤ entry table r c < Z.of_nat n
                       ∧ 0 ≤ entry table c r < Z.of_nat n)
  ∧ (∀ v, used.1 !! v = Some true
          ↔ ∃ c, (c < k)%nat ∧ Z.to_nat (entry table r c) = v)
  ∧ (∀ v, used.2 !! v = Some true
          ↔ ∃ c, (c < k)%nat ∧ Z.to_nat (entry table c r) = v)
  ∧ (∀ c c', (c < k)%nat → (c' < k)%nat →
       entry table r c = entry table r c' → c = c')
  ∧ (∀ c c', (c < k)%nat → (c' < k)%nat →
       entry table c r = entry table c' r → c = c').


(** The two closure checks share the body of their nested loops up to the
    size test; [closure_pair] is that body with the test as a parameter. *)
Definition closure_pair (q : Quasigroup) (bound : option Z)
    (firstElement secondElement : Z) (st : gset Z * bool)
    : res (ctl (gset Z * bool) bool) :=
  let '(closedSet, setChanged) := st in
  result ← applyOperation q firstElement secondElement;
  if decide (result ∈ closedSet) then Ok (Continue (closedSet, setChanged))
  else
    let closedSet' := closedSet ∪ {[result]} in
    let tooLarge :=
      match bound with
      | Some k => Z.of_nat (size closedSet') >? k
      | None => false
      end in
    if tooLarge then Ok (Return false)
    else Ok (Continue (closedSet', true)).

Definition closure_sweep (q : Quasigroup) (bound : option Z)
    (closedSet : gset Z) : res (ctl (gset Z * bool) bool) :=
  let currentElements := elements closedSet in
  for_each currentElements
    (λ firstElement, for_each currentElements (closure_pair q bound firstElement))
    (closedSet, false).

(** The invariant of the nested loops of a closure pass that started from
    [s0]; [P a b] says that the pair (a, b) has been multiplied already. *)
Definition sweep_inv (q : Quasigroup) (bound : option Z) (s0 : gset Z)
    (P : Z → Z → Prop) (st : gset Z * bool) : Prop :=
  grows q bound s0 st.1
  ∧ elements_in_range q st.1
  ∧ (st.2 = false → st.1 = s0)
  ∧ (st.2 = true → (size s0 < size st.1)%nat)
  ∧ (∀ a b, P a b → op q a b ∈ st.1).

(** The invariant of the squaring walk that started at [start]. *)
Definition cycle_inv (q : Quasigroup) (start : Z) (visited0 : list bool)
    (st : gset Z * list bool * Z) : Prop :=
  let '(cycleElements, visitedElements, currentElement) := st in
  elements_in_range q cycleElements
  ∧ 0 ≤ currentElement < order q
  ∧ length visitedElements = length visited0
  ∧ (∀ x : nat, visitedElements !! x = Some true
       ↔ visited0 !! x = Some true ∨ Z.of_nat x ∈ cycleElements)
  ∧ ((cycleElements = ∅ ∧ currentElement = start)
     ∨ (start ∈ cycleElements
        ∧ (op q start start ∈ cycleElements
           ∨ currentElement = op q start start)))
  ∧ (idempotent q start →
       cycleElements ⊆ {[start]} ∧ currentElement = start).

(** What the squaring walk hands back. *)
Definition cycle_post (q : Quasigroup) (start : Z) (visited0 : list bool)
    (r : gset Z * list bool) : Prop :=
  let '(cycleElements, visitedElements) := r in
  elements_in_range q cycleElements
  ∧ length visitedElements = length visited0
  ∧ (∀ x : nat, visitedElements !! x = Some true
       ↔ visited0 !! x = Some true ∨ Z.of_nat x ∈ cycleElements)
  ∧ start ∈ cycleElements
  ∧ op q start start ∈ cycleElements
  ∧ (idempotent q start → cycleElements = {[start]}).

(** One pass of [while (setChanged)], with the size test of the nested loops
    and the verdict after the last pass as parameters. *)
Definition closure_round (q : Quasigroup) (bound : option Z)
    (verdict : gset Z → bool) (closedSet : gset Z)
    : res (ctl (gset Z) bool) :=
  c ← closure_sweep q bound closedSet;
  match c with
  | Return b => Ok (Return b)
  | Continue (closedSet', setChanged) =>
      if setChanged : bool then Ok (Continue closedSet')
      else Ok (Return (verdict closedSet'))
  end.

(** The invariant of [for (startElement ...)] in NON_TRIVIAL mode, before
    start element [k]: every smaller element is marked, and every marked
    element is idempotent. *)
Definition visited_inv (q : Quasigroup) (k : Z) (visited : list bool) : Prop :=
  Z.of_nat (length visited) = order q
  ∧ (∀ x : nat, Z.of_nat x < k → visited !! x = Some true)
  ∧ (∀ x : nat, visited !! x = Some true → idempotent q (Z.of_nat x)).

(** *** The generator *)

Module SRG := SequentialReplacementGraphGenerator.

(** The symbol set [0 .. n-1]. *)
Definition symbols (n : nat) : gset Z := list_to_set (seqZ 0 (Z.of_nat n)).

(** The rows generated so far and the column availability they leave:
    rows are duplicate-free lists of [n] symbols, columns are duplicate-free,
    and a symbol is available in a column exactly when the column does not
    hold it yet. *)
Definition table_inv (n : nat) (rows : list (list Z))
    (columns : list (gset Z)) : Prop :=
  (∀ row, row ∈ rows →
     length row = n ∧ NoDup row ∧ ∀ v, v ∈ row → v ∈ symbols n)
  ∧ length columns = n
  ∧ ∀ c, (c < n)%nat →
      NoDup (column_of rows c)
      ∧ columns !! c = Some (symbols n ∖ list_to_set (column_of rows c)).

(** [initialAvailable]: one set of symbols per column. *)
Definition initial_ok (n : nat) (initial : list (gset Z)) : Prop :=
  length initial = n ∧ ∀ p ini, initial !! p = Some ini → ini ⊆ symbols n.

(** How the live column availability relates to its start-of-row snapshot:
    a filled position holds a symbol of the snapshot and has exactly that
    symbol struck out; an unfilled column is untouched. *)
Definition cols_inv (initial : list (gset Z)) (row : list Z)
    (columns : list (gset Z)) : Prop :=
  ∀ p ini, initial !! p = Some ini →
    match row !! p with
    | Some v => v ∈ ini ∧ columns !! p = Some (ini ∖ {[v]})
    | None => columns !! p = Some ini
    end.

(** The row availability is the complement of the row. *)
Definition avail_inv (n : nat) (row : list Z) (availableInRow : gset Z)
    : Prop :=
  ∀ s, s ∈ availableInRow ↔ s ∈ symbols n ∧ s ∉ row.

(** The row has no repeated symbol except, possibly, the one at position
    [hole]. *)
Definition NoDup_except (hole : nat) (row : list Z) : Prop :=
  ∀ i j v, row !! i = Some v → row !! j = Some v →
    i = j ∨ i = hole ∨ j = hole.

Section GeneratorInvariants.
Context {G : Type}.

(** The invariant of [while (currentColumn < order)]. *)
Definition row_inv (n : nat) (initial : list (gset Z))
    (st : SRG.RowState (G:=G)) : Prop :=
  SRG.r_currentColumn st = length (SRG.r_row st)
  ∧ (length (SRG.r_row st) ≤ n)%nat
  ∧ length (SRG.r_availableInColumns st) = n
  ∧ NoDup (SRG.r_row st)
  ∧ avail_inv n (SRG.r_row st) (SRG.r_availableInRow st)
  ∧ cols_inv initial (SRG.r_row st) (SRG.r_availableInColumns st).

(** The invariant of the [while (true)] loop of [makeElementAvailable]. *)
Definition walk_inv (n : nat) (initial : list (gset Z)) (cc : nat)
    (initialElement : Z) (w : SRG.WalkState (G:=G)) : Prop :=
  length (SRG.w_row w) = cc
  ∧ length (SRG.w_availableInColumns w) = n
  ∧ SRG.w_row w !! SRG.w_oldIndex w = Some (SRG.w_oldElement w)
  ∧ NoDup_except (SRG.w_oldIndex w) (SRG.w_row w)
  ∧ avail_inv n (SRG.w_row w) (SRG.w_availableInRow w)
  ∧ cols_inv initial (SRG.w_row w) (SRG.w_availableInColumns w).

(** What [makeElementAvailable] leaves behind when it returns. *)
Definition walk_post (n : nat) (initial : list (gset Z)) (cc : nat)
    (w : SRG.WalkState (G:=G)) : Prop :=
  length (SRG.w_row w) = cc
  ∧ length (SRG.w_availableInColumns w) = n
  ∧ NoDup (SRG.w_row w)
  ∧ avail_inv n (SRG.w_row w) (SRG.w_availableInRow w)
  ∧ cols_inv initial (SRG.w_row w) (SRG.w_availableInColumns w).

(** The invariant of [for (row ...)] in [generate], before row [r]. *)
Definition generate_inv (n r : nat) (st : SRG.Generator * G) : Prop :=
  SRG.order st.1 = Z.of_nat n
  ∧ SRG.availableSymbols st.1 = symbols n
  ∧ length (SRG.cayleyTable st.1) = n
  ∧ (r ≤ n)%nat
  ∧ table_inv n (take r (SRG.cayleyTable st.1)) (SRG.availableInColumns st.1).

End GeneratorInvariants.

(** No column can run into a conflict: whenever the row so far is consistent
    with the snapshot, the next column still offers a symbol the row does
    not hold. *)
Definition conflict_free (n : nat) (initial : list (gset Z)) : Prop :=
  ∀ (row : list Z) (avail : gset Z) (cols : list (gset Z)) (av : gset Z),
    NoDup row → (length row < n)%nat →
    avail_inv n row avail → cols_inv initial row cols →
    cols !! length row = Some av →
    filter (λ s, s ∈ avail) av ≠ ∅.

(** Every column offers at least two symbols. *)
Definition roomy (initial : list (gset Z)) : Prop :=
  ∀ p ini, initial !! p = Some ini → (2 ≤ size ini)%nat.

(** *** Running loops a fixed number of passes *)

(** [steps k body s]: the first [k] passes of a loop. *)
Fixpoint steps {S R : Type} (k : nat) (body : S → res (ctl S R)) (s : S)
    : res (ctl S R) :=
  match k with
  | O => Ok (Continue s)
  | Datatypes.S k' =>
      c ← body s;
      match c with
      | Continue s' => steps k' body s'
      | Return r => Ok (Return r)
      end
  end.

(** The states a loop goes through in its first [k] passes. *)
Fixpoint orbit {S R : Type} (k : nat) (body : S → res (ctl S R)) (s : S)
    : list S :=
  match k with
  | O => []
  | Datatypes.S k' =>
      s :: match body s with
           | Ok (Continue s') => orbit k' body s'
           | _ => []
           end
  end.

(** Every state of [L] continues into a state of [L]. *)
Definition trapped {S R : Type} `{EqDecision S}
    (body : S → res (ctl S R)) (L : list S) : bool :=
  forallb (λ s, match body s with
                | Ok (Continue s') => bool_decide (s' ∈ L)
                | _ => false
                end) L.

#[global] Instance WalkState_eq_dec : EqDecision (SRG.WalkState (G:=nat)).
Proof. solve_decision. Defined.

(* ================================================================= *)
(** ** A sequence of draws that keeps the repair going *)

(** A sequence of draws written by hand, to show what the repair does when
    the draws are unlucky for ever; nothing here says that the program's
    [std::mt19937] delivers it. The first 25 draws build three rows of an
    order-6 table and five cells of the fourth, choose the symbol to evict
    and make the first displacement; the last four repeat for ever. *)
Definition adversary_prefix : list nat :=
  [2; 4; 3; 2; 0; 0; 0; 2; 1; 0; 0; 0; 1; 1; 0; 2; 0; 0; 0; 1; 0; 0; 0; 2;
   0]%nat.

Definition adversary_cycle : list nat := [1; 1; 0; 0]%nat.

(** The sequence as a source; its state is the position of the next
    draw. *)
Definition adversary (position : nat) : nat * nat :=
  (nth position (adversary_prefix ++ adversary_cycle) 0%nat,
   if (position + 1 <? 29)%nat then (position + 1)%nat else 25%nat).

(** The conflict these draws lead into, in the fourth row of the table
    [[4,0,1,2,5,3],[5,2,4,3,1,0],[2,3,5,0,4,1]]: the row so far is
    [3,4,2,5,0] and column 5 offers 2, 4 and 5, all of them placed. *)
Definition adversary_initial : list (gset Z) :=
  [{[0; 1; 3]}; {[1; 4; 5]}; {[0; 2; 3]}; {[1; 4; 5]}; {[0; 2; 3]};
   {[2; 4; 5]}].

Definition adversary_row : list Z := [3; 4; 2; 5; 0].

Definition adversary_availableInRow : gset Z := {[1]}.

Definition adversary_columns : list (gset Z) :=
  [{[0; 1]}; {[1; 5]}; {[0; 3]}; {[1; 4]}; {[2; 3]}; {[2; 4; 5]}].

Definition adversary_graph : gmap nat (gset Z) :=
  list_to_map (zip (seq 0 6) adversary_initial).

(** The generator's members before the fourth row. *)
Definition adversary_generator : SequentialReplacementGraphGenerator.Generator :=
  {| SequentialReplacementGraphGenerator.order := 6;
     SequentialReplacementGraphGenerator.cayleyTable :=
       [[4; 0; 1; 2; 5; 3]; [5; 2; 4; 3; 1; 0]; [2; 3; 5; 0; 4; 1];
        replicate 6 (-1); replicate 6 (-1); replicate 6 (-1)];
     SequentialReplacementGraphGenerator.availableInColumns :=
       adversary_initial;
     SequentialReplacementGraphGenerator.availableSymbols :=
       list_to_set (seqZ 0 6) |}.

(** A simple linear congruential source, for running the generator. *)
Definition lcg (g : Z) : nat * Z :=
  (Z.to_nat ((g `div` 65536) `mod` 1000),
   (g * 1103515245 + 12345) `mod` 2147483648).

(** The same source, counting the draws it has delivered. *)
Definition lcg_count (s : Z * nat) : nat * (Z * nat) :=
  ((lcg s.1).1, ((lcg s.1).2, S s.2)).
(* ================================================================= *)
(** ** The rest of [main.cpp] and [quasigroup.cpp] *)

From Stdlib Require Ascii String.
Import Ascii.AsciiSyntax String.StringSyntax.
Delimit Scope char_scope with char.
Delimit Scope string_scope with string.

(** *** More 32-bit arithmetic *)

Definition int_mul (a b : Z) : Z := wrap_int (a * b).

(** [a % b]: C++ truncates the quotient towards zero; a zero divisor and
    [INT_MIN % -1] are undefined. *)
Definition int_rem (a b : Z) : res Z :=
  if decide (b = 0) then Err Undefined
  else if decide (a = INT_MIN ∧ b = -1) then Err Undefined
  else Ok (Z.rem a b).

(** *** [computeGreatestCommonDivisor] (main.cpp, lines 40-48) *)

(** One pass of [while (secondNumber)]; the state is the pair
    ([firstNumber], [secondNumber]). *)
Definition computeGreatestCommonDivisor_step (st : Z * Z)
    : res (ctl (Z * Z) Z) :=
  let '(firstNumber, secondNumber) := st in
  if decide (secondNumber = 0) then Ok (Return firstNumber)
  else
    firstNumber' ← int_rem firstNumber secondNumber;
    Ok (Continue (secondNumber, firstNumber')).

Definition computeGreatestCommonDivisor (fuel : nat)
    (firstNumber secondNumber : Z) : res Z :=
  while_loop fuel computeGreatestCommonDivisor_step
    (firstNumber, secondNumber).

(** The two argument pairs on which the remainder [INT_MIN % -1] is taken. *)
Definition gcd_overflows (a b : Z) : Prop :=
  (a = INT_MIN ∧ b = -1) ∨ (a = -1 ∧ b = INT_MIN).

(** *** Writing a cell of a table *)

(** [table[row][column] = value]. *)
Definition table_set (table : list (list Z)) (row column : Z) (value : Z)
    : res (list (list Z)) :=
  r ← vec_get_int table row;
  r' ← vec_set_int r column value;
  vec_set_int table row r'.

(** *** The interactive functions *)

(** What a function hands back when a [std::vector] constructor in it may
    throw: a negative [int] count converts to a [size_t] above [max_size()],
    and the constructor throws [std::length_error]. *)
Inductive outcome (A : Type) : Type :=
| Returned (a : A)
| LengthError.
Arguments Returned {A} a.
Arguments LengthError {A}.

Section Interactive.

(** The standard input is an abstract state [I]; [cin] is [std::cin >> value]
    for an [int] that is there to be read, and hands back the value and the
    rest of the input. The prompts written to [std::cout] are left out.
    [shuffle] is [std::shuffle] with the process-wide generator, whose state
    is [G]. *)
Context {I G : Type} (cin : I → Z * I).
Context (shuffle : list Z → G → list Z * G).

(** The first [k] values of the input, and the input after them. *)
Fixpoint inputs (k : nat) (input : I) : list Z :=
  match k with
  | O => []
  | S k' => (cin input).1 :: inputs k' (cin input).2
  end.

Fixpoint after_inputs (k : nat) (input : I) : I :=
  match k with
  | O => input
  | S k' => after_inputs k' (cin input).2
  end.

(** *** [generateRandomPermutation] (main.cpp, lines 254-260) *)

(** [std::iota] followed by [std::shuffle]; [order] is not negative. *)
Definition generateRandomPermutation (order : Z) (g : G) : list Z * G :=
  shuffle (seqZ 0 order) g.

(** *** [generateAffineQuasigroupCayleyTable] (main.cpp, lines 267-309) *)

(** One pass of [while (computeGreatestCommonDivisor(coefficient, order) != 1)],
    the loop that asks for [alpha] and, after it, for [beta]; the state is the
    coefficient and the input. *)
Definition affine_coefficient_step (fuel : nat) (order : Z) (st : Z * I)
    : res (ctl (Z * I) (Z * I)) :=
  let '(coefficient, input) := st in
  divisor ← computeGreatestCommonDivisor fuel coefficient order;
  if decide (divisor ≠ 1) then Ok (Continue (cin input))
  else Ok (Return (coefficient, input)).

(** One pass of [while (constantC < 0 || constantC >= order)]. *)
Definition affine_constant_step (order : Z) (st : Z * I)
    : res (ctl (Z * I) (Z * I)) :=
  let '(constantC, input) := st in
  if decide (constantC < 0 ∨ order ≤ constantC) then Ok (Continue (cin input))
  else Ok (Return (constantC, input)).

(** The cell [(alpha * row + beta * f[column] + c) % order]. *)
Definition affine_cell (order coefficientAlpha coefficientBeta constantC : Z)
    (permutationFunction : list Z) (row column : Z) : res Z :=
  image ← vec_get_int permutationFunction column;
  int_rem (int_add (int_add (int_mul coefficientAlpha row)
                            (int_mul coefficientBeta image))
                   constantC)
          order.

(** The two nested loops that fill the table. *)
Definition affine_fill (order coefficientAlpha coefficientBeta constantC : Z)
    (permutationFunction : list Z) : res (list (list Z)) :=
  let n := Z.to_nat order in
  for_loop (seqZ 0 order)
    (λ row table,
       for_loop (seqZ 0 order)
         (λ column table,
            value ← affine_cell order coefficientAlpha coefficientBeta
                       constantC permutationFunction row column;
            table_set table row column value)
         table)
    (replicate n (replicate n 0)).

Definition generateAffineQuasigroupCayleyTable (fuel : nat) (order : Z)
    (input : I) (g : G) : res (list (list Z) * I * G) :=
  '(coefficientAlpha, input) ←
    while_loop fuel (affine_coefficient_step fuel order) (cin input);
  '(coefficientBeta, input) ←
    while_loop fuel (affine_coefficient_step fuel order) (cin input);
  '(constantC, input) ←
    while_loop fuel (affine_constant_step order) (cin input);
  let '(permutationFunction, g) := generateRandomPermutation order g in
  cayleyTable ← affine_fill order coefficientAlpha coefficientBeta constantC
                   permutationFunction;
  Ok (cayleyTable, input, g).

(** *** [readCayleyTableFromStandardInput] (main.cpp, lines 209-231) *)

(** One pass of [while (cayleyTable[row][column] > order - 1)]; the state is
    the value of the cell and the input. *)
Definition read_entry_step (order : Z) (st : Z * I)
    : res (ctl (Z * I) (Z * I)) :=
  let '(value, input) := st in
  if decide (value > order - 1) then Ok (Continue (cin input))
  else Ok (Return (value, input)).

(** The body of the inner [for (column ...)] loop. *)
Definition read_entry (fuel : nat) (order row column : Z)
    (st : list (list Z) * I) : res (list (list Z) * I) :=
  let '(cayleyTable, input) := st in
  '(value, input) ← while_loop fuel (read_entry_step order) (cin input);
  cayleyTable ← table_set cayleyTable row column value;
  Ok (cayleyTable, input).

Definition readCayleyTableFromStandardInput (fuel : nat) (input : I)
    : res (outcome (list (list Z) * I)) :=
  let '(order, input) := cin input in
  if decide (order < 0) then Ok LengthError
  else
    let n := Z.to_nat order in
    r ← for_loop (seqZ 0 order)
          (λ row st, for_loop (seqZ 0 order) (read_entry fuel order row) st)
          (replicate n (replicate n 0), input);
    Ok (Returned r).

End Interactive.

(** *** [Quasigroup::isSimple] and its helper (quasigroup.cpp) *)

(** The body of the two nested index loops of [hasProperSubquasigroup]
    (quasigroup.cpp, lines 60-71); the state is the pair ([subquasigroup],
    [changed]). *)
Definition hasProperSubquasigroup_pair (q : QuasigroupCpp.Quasigroup)
    (first second : Z) (st : gset Z * bool)
    : res (ctl (gset Z * bool) bool) :=
  let '(subquasigroup, changed) := st in
  product ← QuasigroupCpp.multiply q first second;
  if decide (product ∈ subquasigroup)
  then Ok (Continue (subquasigroup, changed))
  else
    let subquasigroup' := subquasigroup ∪ {[product]} in
    if Z.of_nat (size subquasigroup') >? QuasigroupCpp.size q `quot` 2
    then Ok (Return false)
    else Ok (Continue (subquasigroup', true)).

(** One pass of [while (changed)]. *)
Definition hasProperSubquasigroup_round (q : QuasigroupCpp.Quasigroup)
    (subquasigroup : gset Z) : res (ctl (gset Z) bool) :=
  let elements := elements subquasigroup in
  c ← for_each (S:=gset Z * bool) (R:=bool) elements
        (λ first, for_each elements (hasProperSubquasigroup_pair q first))
        (subquasigroup, false);
  match c with
  | Return b => Ok (Return b)
  | Continue (subquasigroup', changed) =>
      if changed : bool then Ok (Continue subquasigroup')
      else Ok (Return
                 (bool_decide (1 < Z.of_nat (size subquasigroup'))
                  && bool_decide (Z.of_nat (size subquasigroup')
                                  < QuasigroupCpp.size q)))
  end.

(** [Quasigroup::hasProperSubquasigroup] (quasigroup.cpp, lines 50-74). *)
Definition hasProperSubquasigroup (fuel : nat) (q : QuasigroupCpp.Quasigroup)
    (x : Z) : res bool :=
  let subquasigroup : gset Z := {[x]} in
  fx ← QuasigroupCpp.multiply q x x;
  let subquasigroup := subquasigroup ∪ {[fx]} in
  while_loop fuel (hasProperSubquasigroup_round q) subquasigroup.

(** One pass of [while (cycle.insert(y).second)]; the state is the pair
    ([cycle], [y]). *)
Definition isSimple_cycle_step (q : QuasigroupCpp.Quasigroup)
    (st : gset Z * Z) : res (ctl (gset Z * Z) (gset Z)) :=
  let '(cycle, y) := st in
  if decide (y ∈ cycle) then Ok (Return cycle)
  else
    y' ← QuasigroupCpp.multiply q y y;
    Ok (Continue (cycle ∪ {[y]}, y')).

(** The body of [for (int x = 0; x < size; x++)]; the state is [checked]. *)
Definition isSimple_start (fuel : nat) (q : QuasigroupCpp.Quasigroup)
    (x : Z) (checked : gset Z) : res (ctl (gset Z) bool) :=
  if decide (x ∈ checked) then Ok (Continue checked)
  else
    cycle ← while_loop fuel (isSimple_cycle_step q) (∅, x);
    let checked := checked ∪ cycle in
    found ← hasProperSubquasigroup fuel q x;
    if found : bool then Ok (Return false) else Ok (Continue checked).

(** [Quasigroup::isSimple] (quasigroup.cpp, lines 31-47). *)
Definition isSimple (fuel : nat) (q : QuasigroupCpp.Quasigroup) : res bool :=
  c ← for_each (seqZ 0 (QuasigroupCpp.size q)) (isSimple_start fuel q) ∅;
  match c with
  | Continue _ => Ok true
  | Return b => Ok b
  end.

(** [createCyclicGroup] (quasigroup.cpp, lines 114-124); [n] is not
    negative. *)
Definition createCyclicGroup (n : Z) : list (list Z) :=
  (λ i, (λ j, Z.rem (int_add i j) n) <$> seqZ 0 n) <$> seqZ 0 n.

(** The quasigroup of [main.cpp] on the same table. *)
Definition as_main (q : QuasigroupCpp.Quasigroup) : Quasigroup :=
  {| cayleyTable := QuasigroupCpp.table q; order := QuasigroupCpp.size q |}.

(* ================================================================= *)
(** ** Invariants for the rest of the code *)

(** The loops of [readCayleyTableFromStandardInput] after [m] cells: the
    table has its shape, and its first [m] cells in row-major order are the
    values not above [order - 1] among the [k] values read so far. *)
Definition read_inv {I : Type} (cin : I → Z * I) (order : Z) (rest : I)
    (m : Z) (st : list (list Z) * I) : Prop :=
  length st.1 = Z.to_nat order ∧ square st.1
  ∧ ∃ k, st.2 = after_inputs cin k rest
      ∧ Z.of_nat (length (filter (λ x, x ≤ order - 1) (inputs cin k rest)))
        = m
      ∧ ∀ i j : nat, Z.of_nat j < order →
          Z.of_nat i * order + Z.of_nat j < m →
          entry st.1 i j
          = filter (λ x, x ≤ order - 1) (inputs cin k rest)
              !!! (i * Z.to_nat order + j)%nat.

(** Somewhere in the input, [fuel] values in a row are all above
    [order - 1]. *)
Definition starved {I : Type} (cin : I → Z * I) (order : Z) (rest : I)
    (fuel : nat) : Prop :=
  ∃ k, ∀ t, (t < fuel)%nat →
    ¬ (cin (after_inputs cin (k + t) rest)).1 ≤ order - 1.

(* ================================================================= *)
(** ** Text files: [operator<<] and [operator>>] on [int] *)

(** A file is the list of its characters. The streams are the ones of the
    C++ library in the classic locale: [operator<<] writes an [int] in
    decimal, with a minus sign when it is negative; [operator>>] skips white
    space, reads an optional sign and the decimal digits that follow, and
    sets [failbit] when there is nothing to convert. *)

Definition newline : Ascii.ascii := "010"%char.

Definition code (c : Ascii.ascii) : Z := Z.of_N (Ascii.N_of_ascii c).

(** [isspace]: space, and the control characters 9 to 13. *)
Definition isspace (c : Ascii.ascii) : bool :=
  (code c =? 32) || ((9 <=? code c) && (code c <=? 13)).

Definition isdigit (c : Ascii.ascii) : bool :=
  (48 <=? code c) && (code c <=? 57).

Definition digit_value (c : Ascii.ascii) : Z := code c - 48.

Definition digit_char (d : Z) : Ascii.ascii :=
  Ascii.ascii_of_N (Z.to_N (48 + d)).

(** *** Writing *)

(** The decimal digits of a number that is not negative, most significant
    first, in front of [acc]; an [int] has at most ten of them. *)
Fixpoint show_digits (fuel : nat) (n : Z) (acc : list Ascii.ascii)
    : list Ascii.ascii :=
  match fuel with
  | O => acc
  | S fuel' =>
      let acc' := digit_char (n `mod` 10) :: acc in
      if n <? 10 then acc' else show_digits fuel' (n `div` 10) acc'
  end.

(** [stream << value] for an [int]: the characters written. *)
Definition show_int (value : Z) : list Ascii.ascii :=
  if value <? 0 then "-"%char :: show_digits 10 (- value) []
  else show_digits 10 value [].

(** *** Reading *)

(** An input stream: the characters not read yet and two of the state
    bits. *)
Record istream : Type := {
  chars : list Ascii.ascii;
  eofbit : bool;
  failbit : bool
}.

Definition open_file (content : list Ascii.ascii) : istream :=
  {| chars := content; eofbit := false; failbit := false |}.

Fixpoint skip_space (cs : list Ascii.ascii) : list Ascii.ascii :=
  match cs with
  | c :: cs' => if isspace c then skip_space cs' else cs
  | [] => []
  end.

(** The digits at the front of [cs], accumulated on [acc]: the number of
    digits, the value and the rest. *)
Fixpoint read_digits (cs : list Ascii.ascii) (count : nat) (acc : Z)
    : nat * Z * list Ascii.ascii :=
  match cs with
  | c :: cs' =>
      if isdigit c then read_digits cs' (S count) (acc * 10 + digit_value c)
      else (count, acc, cs)
  | [] => (count, acc, [])
  end.

(** [stream >> value] for an [int]. The first component is the value
    stored, or [None] when the variable is left as it was: the stream was
    not good, or it ended before a field began. A field without digits
    stores 0 and a value outside [int] stores the nearest bound, both with
    [failbit]. *)
Definition extract_int (s : istream) : option Z * istream :=
  if eofbit s || failbit s
  then (None, {| chars := chars s; eofbit := eofbit s; failbit := true |})
  else
    match skip_space (chars s) with
    | [] => (None, {| chars := []; eofbit := true; failbit := true |})
    | c :: cs' =>
        let negative := bool_decide (c = "-"%char) in
        let signed := negative || bool_decide (c = "+"%char) in
        let body := if signed then cs' else c :: cs' in
        let '(count, magnitude, rest) := read_digits body 0 0 in
        let eof := bool_decide (rest = []) in
        if bool_decide (count = 0%nat)
        then (Some 0, {| chars := rest; eofbit := eof; failbit := true |})
        else
          let value := if negative then - magnitude else magnitude in
          if value <? INT_MIN
          then (Some INT_MIN,
                {| chars := rest; eofbit := eof; failbit := true |})
          else if INT_MAX <? value
          then (Some INT_MAX,
                {| chars := rest; eofbit := eof; failbit := true |})
          else (Some value,
                {| chars := rest; eofbit := eof; failbit := false |})
    end.

(** *** [readCayleyTableFromFile] (main.cpp, lines 186-204) *)

(** What the function hands back: the table, or one of the two exceptions
    it can throw. *)
Inductive file_outcome (A : Type) : Type :=
| FileReturned (a : A)
| FileRuntimeError    (* the file could not be opened *)
| FileLengthError.    (* a vector of negative size *)
Arguments FileReturned {A} a.
Arguments FileRuntimeError {A}.
Arguments FileLengthError {A}.

(** The body of the inner [for (column ...)] loop:
    [file >> cayleyTable[row][column]]. *)
Definition read_file_entry (row column : Z) (st : list (list Z) * istream)
    : res (list (list Z) * istream) :=
  let '(cayleyTable, file) := st in
  let '(stored, file) := extract_int file in
  match stored with
  | Some value =>
      cayleyTable ← table_set cayleyTable row column value;
      Ok (cayleyTable, file)
  | None => Ok (cayleyTable, file)
  end.

(** [file] is the content of the file, or [None] when it cannot be opened.
    [int order] is not initialised: when the first extraction leaves it as
    it was, its use is undefined. *)
Definition readCayleyTableFromFile (file : option (list Ascii.ascii))
    : res (file_outcome (list (list Z))) :=
  match file with
  | None => Ok FileRuntimeError
  | Some content =>
      let '(stored, file) := extract_int (open_file content) in
      match stored with
      | None => Err Undefined
      | Some order =>
          if decide (order < 0) then Ok FileLengthError
          else
            let n := Z.to_nat order in
            '(cayleyTable, _) ←
              for_loop (seqZ 0 order)
                (λ row st, for_loop (seqZ 0 order) (read_file_entry row) st)
                (replicate n (replicate n 0), file);
            Ok (FileReturned cayleyTable)
      end
  end.

(** *** [writeResultsToFile] (main.cpp, lines 556-588) *)

Definition text (s : String.string) : list Ascii.ascii :=
  String.list_ascii_of_string s.
Arguments text s%_string.

(** The rows of the table as written: every value followed by a space,
    every row by a newline. *)
Definition write_row (out : list Ascii.ascii) (row : list Z)
    : list Ascii.ascii :=
  foldl (λ out value, out ++ show_int value ++ [" "%char]) out row
    ++ [newline].

Definition write_table (out : list Ascii.ascii) (table : list (list Z))
    : list Ascii.ascii :=
  foldl write_row out table.

(** [opened] says whether the output file could be opened; the result is
    the content of the file. [int order = table.size()] converts to [int].
    The line written to [std::cout] is left out. *)
Definition writeResultsToFile (fuel : nat) (table : list (list Z))
    (quasigroup : Quasigroup) (opened : bool)
    : res (file_outcome (list Ascii.ascii)) :=
  if negb opened then Ok FileRuntimeError
  else
    let order := wrap_int (Z.of_nat (length table)) in
    let file := show_int order ++ [newline] in
    let file := write_table file table in
    hasProperSubquasigroups ← hasSubquasigroups fuel quasigroup true;
    hasNonTrivialSubquasigroups ← hasSubquasigroups fuel quasigroup false;
    let file := file ++ newline :: text "Результаты проверки:" ++ [newline] in
    let file :=
      file ++ text "- Собственные подквазигруппы: "
           ++ text (if hasProperSubquasigroups : bool
                    then "присутствуют" else "отсутствуют")
           ++ [newline] in
    let file :=
      file ++ text "- Нетривиальные подквазигруппы: "
           ++ text (if hasNonTrivialSubquasigroups : bool
                    then "присутствуют" else "отсутствуют")
           ++ [newline] in
    let file :=
      file ++ text (if hasProperSubquasigroups && hasNonTrivialSubquasigroups
                    then "Квазигруппа содержит собственные нетривиальные подквазигруппы."
                    else "Квазигруппа не содержит одновременно собственных и нетривиальных подквазигрупп.")
           ++ [newline] in
    Ok (FileReturned file).

(** A table as [std::vector<std::vector<int>>] holds it: every entry is an
    [int]. *)
Definition int_entries (table : list (list Z)) : Prop :=
  ∀ row v, row ∈ table → v ∈ row → INT_MIN ≤ v ≤ INT_MAX.

(** The cells of a row still to be read from a file: each value comes after
    white space, written in decimal, with a space behind it; [K] describes
    what comes after the row. *)
Fixpoint holds_row (cells : list Z) (K : list Ascii.ascii → Prop)
    (cs : list Ascii.ascii) : Prop :=
  match cells with
  | [] => K cs
  | v :: cells' =>
      ∃ space rest,
        forallb isspace space = true
        ∧ cs = space ++ show_int v ++ " "%char :: rest
        ∧ holds_row cells' K rest
  end.

(** The rows still to be read from a file. *)
Fixpoint holds_rows (rows : list (list Z)) (cs : list Ascii.ascii) : Prop :=
  match rows with
  | [] => True
  | row :: rows' => holds_row row (holds_rows rows') cs
  end.

(** The invariant of the loops of [readCayleyTableFromFile] in row [r]
    before column [c], reading back [table]: the stream is good, the rest of
    the file holds the rest of [table], and the cells read so far are those
    of [table]. *)
Definition read_file_inv (table : list (list Z)) (r c : Z)
    (st : list (list Z) * istream) : Prop :=
  length st.1 = length table ∧ square st.1
  ∧ eofbit st.2 = false ∧ failbit st.2 = false
  ∧ holds_row (drop (Z.to_nat c) (table !!! Z.to_nat r))
      (holds_rows (drop (S (Z.to_nat r)) table)) (chars st.2)
  ∧ ∀ i j : nat,
      (j < length table)%nat →
      (Z.of_nat i < r ∨ (Z.of_nat i = r ∧ Z.of_nat j < c)) →
      entry st.1 i j = entry table i j.

(* ================================================================= *)
(** ** Every sequence of draws at once *)

(** The functions of this section run the generator's loops for all the
    draws a source could deliver, one branch per member of the set a
    selection is made from. They are not part of the program: they decide,
    by computation, how the program's loops end whatever its random source
    does. *)

(** A source that delivers the draw [k]. *)
Definition constant_source (k : nat) (g : unit) : nat * unit := (k, g).

(** [collect l f]: the results of [f] on the members of [l], put together;
    [None] as soon as one member has none. *)
Fixpoint collect {A B : Type} (l : list A) (f : A → option (list B))
    : option (list B) :=
  match l with
  | [] => Some []
  | x :: l' =>
      match f x with
      | Some ys =>
          match collect l' f with
          | Some zs => Some (ys ++ zs)
          | None => None
          end
      | None => None
      end
  end.

Module Explore.
Import SequentialReplacementGraphGenerator.

(** A state of a loop without its random source, and with one. *)
Definition walk_erase {G : Type} (w : WalkState (G:=G))
    : WalkState (G:=unit) :=
  {| w_row := w_row w;
     w_availableInRow := w_availableInRow w;
     w_availableInColumns := w_availableInColumns w;
     w_oldIndex := w_oldIndex w;
     w_oldElement := w_oldElement w;
     w_visitedPath := w_visitedPath w;
     w_rng := () |}.

Definition walk_restore {G : Type} (g : G) (w : WalkState (G:=unit))
    : WalkState (G:=G) :=
  {| w_row := w_row w;
     w_availableInRow := w_availableInRow w;
     w_availableInColumns := w_availableInColumns w;
     w_oldIndex := w_oldIndex w;
     w_oldElement := w_oldElement w;
     w_visitedPath := w_visitedPath w;
     w_rng := g |}.

Definition row_erase {G : Type} (st : RowState (G:=G))
    : RowState (G:=unit) :=
  {| r_availableInRow := r_availableInRow st;
     r_row := r_row st;
     r_currentColumn := r_currentColumn st;
     r_availableInColumns := r_availableInColumns st;
     r_rng := () |}.

Definition row_restore {G : Type} (g : G) (st : RowState (G:=unit))
    : RowState (G:=G) :=
  {| r_availableInRow := r_availableInRow st;
     r_row := r_row st;
     r_currentColumn := r_currentColumn st;
     r_availableInColumns := r_availableInColumns st;
     r_rng := g |}.

(** The set a pass of [makeElementAvailable] selects from. *)
Definition walk_offered (graph : gmap nat (gset Z))
    (w : WalkState (G:=unit)) : gset Z :=
  let choices : gset Z := default ∅ (graph !! w_oldIndex w) in
  if decide (choices ∖ w_visitedPath w = ∅) then choices
  else choices ∖ w_visitedPath w.

(** The states in which the repair can end, whatever is drawn; [None] when
    some sequence of draws keeps it going for [fuel] passes, or fails. *)
Fixpoint walk_all (fuel : nat) (initialElement : Z)
    (graph : gmap nat (gset Z)) (w : WalkState (G:=unit))
    : option (list (WalkState (G:=unit))) :=
  match fuel with
  | O => None
  | S fuel' =>
      if decide (walk_offered graph w = ∅) then None
      else
        collect (seq 0 (size (walk_offered graph w)))
          (λ k,
             match makeElementAvailable_step (constant_source k)
                     initialElement graph w with
             | Ok (Continue w') => walk_all fuel' initialElement graph w'
             | Ok (Return w') => Some [w']
             | Err _ => None
             end)
  end.

(** The state in which [generateRow] goes on after a repair. *)
Definition row_of_walk (currentColumn : nat) (w : WalkState (G:=unit))
    : RowState (G:=unit) :=
  {| r_availableInRow := w_availableInRow w;
     r_row := w_row w;
     r_currentColumn := currentColumn;
     r_availableInColumns := w_availableInColumns w;
     r_rng := () |}.

(** Equal states are explored once: a state is kept under the listing of
    its sets. *)
Definition row_key (st : RowState (G:=unit))
    : list Z * list Z * list (list Z) :=
  (elements (r_availableInRow st), r_row st,
   elements <$> r_availableInColumns st).

Definition row_of_key (currentColumn : nat)
    (k : list Z * list Z * list (list Z)) : RowState (G:=unit) :=
  {| r_availableInRow := list_to_set k.1.1;
     r_row := k.1.2;
     r_currentColumn := currentColumn;
     r_availableInColumns := list_to_set <$> k.2;
     r_rng := () |}.

Definition dedup_rows (currentColumn : nat)
    (l : list (RowState (G:=unit))) : list (RowState (G:=unit)) :=
  row_of_key currentColumn
    <$> elements (list_to_set (C:=gset (list Z * list Z * list (list Z)))
                    (row_key <$> l)).

Definition columns_key (columns : list (gset Z)) : list (list Z) :=
  elements <$> columns.

Definition columns_of_key (k : list (list Z)) : list (gset Z) :=
  list_to_set <$> k.

Definition dedup_columns (l : list (list (gset Z))) : list (list (gset Z)) :=
  columns_of_key
    <$> elements (list_to_set (C:=gset (list (list Z))) (columns_key <$> l)).

(** The values of [availableInColumns] with which [generateRow] can return,
    whatever is drawn; [None] when some sequence of draws keeps a loop going
    beyond the fuel, or fails. *)
Fixpoint row_all (steps fuel : nat) (order : Z)
    (initialAvailable : list (gset Z)) (st : RowState (G:=unit))
    : option (list (list (gset Z))) :=
  match steps with
  | O => None
  | S steps' =>
      let currentColumn := r_currentColumn st in
      if decide (Z.of_nat currentColumn < order) then
        match r_availableInColumns st !! currentColumn with
        | None => None
        | Some available =>
            let validSymbols : gset Z :=
              filter (λ symbol, symbol ∈ r_availableInRow st) available in
            if decide (validSymbols ≠ ∅) then
              collect (seq 0 (size validSymbols))
                (λ k,
                   match generateRow_step (constant_source k) fuel order
                           initialAvailable st with
                   | Ok (Continue st') =>
                       row_all steps' fuel order initialAvailable st'
                   | _ => None
                   end)
            else if decide (available = ∅) then None
            else
              match constructReplacementGraph (r_row st) currentColumn
                      initialAvailable with
              | Err _ => None
              | Ok graph =>
                  match
                    collect (seq 0 (size available))
                      (λ k,
                         match selectRandomElement (constant_source k)
                                 available () with
                         | Err _ => None
                         | Ok (selectedElement, _) =>
                             walk_all fuel selectedElement
                               (eraseInitialElementFromGraph graph
                                  selectedElement)
                               {| w_row := r_row st;
                                  w_availableInRow := r_availableInRow st;
                                  w_availableInColumns :=
                                    r_availableInColumns st;
                                  w_oldIndex :=
                                    find_index selectedElement (r_row st);
                                  w_oldElement := selectedElement;
                                  w_visitedPath := ∅;
                                  w_rng := () |}
                         end)
                  with
                  | None => None
                  | Some exits =>
                      collect
                        (dedup_rows currentColumn
                           (row_of_walk currentColumn <$> exits))
                        (row_all steps' fuel order initialAvailable)
                  end
              end
        end
      else Some [r_availableInColumns st]
  end.

(** Whether the generator gets through [rows] more rows from every one of
    the given values of [availableInColumns], whatever is drawn. *)
Fixpoint generate_all (rows fuel : nat) (order : Z)
    (states : list (list (gset Z))) : bool :=
  match rows with
  | O => true
  | S rows' =>
      match
        collect states
          (λ columns,
             row_all fuel fuel order columns
               {| r_availableInRow := list_to_set (seqZ 0 order);
                  r_row := [];
                  r_currentColumn := 0;
                  r_availableInColumns := columns;
                  r_rng := () |})
      with
      | None => false
      | Some after => generate_all rows' fuel order (dedup_columns after)
      end
  end.

Definition generate_every (fuel : nat) (order : Z) : bool :=
  generate_all (Z.to_nat order) fuel order
    [availableInColumns (mkGenerator order)].

End Explore.
(* ================================================================= *)
(** * Proofs *)

(** ** Loop rules *)

Section LoopRules.
Context {A S R : Type}.

(** Invariant rule for [for_each]: [I done s] relates the state to the
    part of the list already traversed. *)
Lemma for_each_inv (l : list A) (body : A → S → res (ctl S R))
    (I : list A → S → Prop) (Q : R → Prop) (E : error → Prop) (s0 : S) :
  I [] s0 →
  (∀ done x rest s, l = done ++ x :: rest → I done s →
     match body x s with
     | Ok (Continue s') => I (done ++ [x]) s'
     | Ok (Return r) => Q r
     | Err e => E e
     end) →
  match for_each l body s0 with
  | Ok (Continue s) => I l s
  | Ok (Return r) => Q r
  | Err e => E e
  end.
Proof.
  intros H0 Hstep.
  assert (Hgen : ∀ rest done s, l = done ++ rest → I done s →
            match for_each rest body s with
            | Ok (Continue s') => I l s'
            | Ok (Return r) => Q r
            | Err e => E e
            end).
  { induction rest as [|x rest IH]; intros done s Hl Hd; simpl.
    - rewrite app_nil_r in Hl. by subst.
    - specialize (Hstep done x rest s Hl Hd).
      destruct (body x s) as [[s'|r]|e]; simpl; try done.
      apply (IH (done ++ [x])); [by rewrite <-app_assoc|done]. }
  by apply (Hgen l []).
Qed.

(** Partial-correctness rule for [while_loop]. *)
Lemma while_loop_inv (fuel : nat) (body : S → res (ctl S R))
    (I : S → Prop) (Q : res R → Prop) (s0 : S) :
  Q (Err OutOfFuel) →
  (∀ s, I s →
     match body s with
     | Ok (Continue s') => I s'
     | Ok (Return r) => Q (Ok r)
     | Err e => Q (Err e)
     end) →
  I s0 → Q (while_loop fuel body s0).
Proof.
  intros Hfuel Hstep. revert s0.
  induction fuel as [|fuel IH]; intros s0 Hs; simpl; [done|].
  specialize (Hstep s0 Hs).
  destruct (body s0) as [[s'|r]|e]; simpl; auto.
Qed.

(** Total-correctness rule: a measure that every continuing pass
    decreases bounds the fuel the loop needs. *)
Lemma while_loop_total (fuel : nat) (body : S → res (ctl S R))
    (I : S → Prop) (m : S → nat) (Q : R → Prop) (s0 : S) :
  (∀ s, I s →
     match body s with
     | Ok (Continue s') => I s' ∧ (m s' < m s)%nat
     | Ok (Return r) => Q r
     | Err e => False
     end) →
  I s0 → (m s0 < fuel)%nat →
  ∃ r, while_loop fuel body s0 = Ok r ∧ Q r.
Proof.
  intros Hstep. revert s0.
  induction fuel as [|fuel IH]; intros s0 Hs Hm; [lia|]. simpl.
  specialize (Hstep s0 Hs).
  destruct (body s0) as [[s'|r]|e]; simpl; [|eauto|done].
  destruct Hstep as [Hs' Hlt]. apply IH; [done|lia].
Qed.

(** More fuel never changes a result already obtained. *)
Lemma while_loop_mono (fuel fuel' : nat) (body : S → res (ctl S R))
    (s0 : S) (r : R) :
  (fuel ≤ fuel')%nat →
  while_loop fuel body s0 = Ok r → while_loop fuel' body s0 = Ok r.
Proof.
  revert fuel' s0. induction fuel as [|fuel IH]; intros fuel' s0 Hle; [done|].
  destruct fuel' as [|fuel']; [lia|]. simpl.
  destruct (body s0) as [[s'|r']|e]; simpl; try done.
  apply IH. lia.
Qed.

Lemma for_each_mono (l : list A) (body body' : A → S → res (ctl S R))
    (s0 : S) (c : ctl S R) :
  (∀ x s c, body x s = Ok c → body' x s = Ok c) →
  for_each l body s0 = Ok c → for_each l body' s0 = Ok c.
Proof.
  intros Hb. revert s0. induction l as [|x l IH]; intros s0; simpl; [done|].
  destruct (body x s0) as [[s'|r]|e] eqn:Hx; simpl; try done.
  - rewrite (Hb _ _ _ Hx). simpl. apply IH.
  - rewrite (Hb _ _ _ Hx). done.
Qed.

End LoopRules.

(** The same for a loop over [0 .. n-1]. *)
Lemma for_each_seq_inv {S R : Type} (n : nat) (body : nat → S → res (ctl S R))
    (I : nat → S → Prop) (Q : R → Prop) (E : error → Prop) (s0 : S) :
  I 0%nat s0 →
  (∀ k s, (k < n)%nat → I k s →
     match body k s with
     | Ok (Continue s') => I (Datatypes.S k) s'
     | Ok (Return r) => Q r
     | Err e => E e
     end) →
  match for_each (seq 0 n) body s0 with
  | Ok (Continue s) => I n s
  | Ok (Return r) => Q r
  | Err e => E e
  end.
Proof.
  intros H0 Hstep.
  pose proof (for_each_inv (seq 0 n) body (λ done s, I (length done) s)
                Q E s0 H0) as H.
  cbv beta in H. rewrite length_seq in H. apply H. clear H.
  intros done x rest s Hl Hd.
  assert (seq 0 n !! length done = Some x) as Hx.
  { rewrite Hl. by rewrite list_lookup_middle. }
  apply lookup_seq in Hx as [-> Hlt]. simpl.
  specialize (Hstep (length done) s Hlt Hd).
  destruct (body (length done) s) as [[s'|r]|e]; try done.
  rewrite length_app. simpl. by rewrite Nat.add_1_r.
Qed.

Lemma for_each_seqZ_inv {S R : Type} (n : Z)
    (body : Z → S → res (ctl S R))
    (I : Z → S → Prop) (Q : R → Prop) (E : error → Prop) (s0 : S) :
  0 ≤ n →
  I 0 s0 →
  (∀ k s, 0 ≤ k < n → I k s →
     match body k s with
     | Ok (Continue s') => I (k + 1) s'
     | Ok (Return r) => Q r
     | Err e => E e
     end) →
  match for_each (seqZ 0 n) body s0 with
  | Ok (Continue s) => I n s
  | Ok (Return r) => Q r
  | Err e => E e
  end.
Proof.
  intros Hn H0 Hstep.
  pose proof (for_each_inv (seqZ 0 n) body
                (λ done s, I (Z.of_nat (length done)) s) Q E s0 H0) as H.
  cbv beta in H. rewrite length_seqZ, Z2Nat.id in H by done. apply H. clear H.
  intros done x rest s Hl Hd.
  assert (seqZ 0 n !! length done = Some x) as Hx.
  { rewrite Hl. by rewrite list_lookup_middle. }
  apply lookup_seqZ in Hx as [-> Hlt].
  specialize (Hstep (Z.of_nat (length done)) s).
  rewrite Z.add_0_l.
  destruct (body (Z.of_nat (length done)) s) as [[s'|r]|e];
    try (apply Hstep; [lia|done]).
  rewrite length_app. simpl.
  replace (Z.of_nat (length done + 1)) with (Z.of_nat (length done) + 1) by lia.
  apply Hstep; [lia|done].
Qed.

Lemma for_loop_inv {A S : Type} (l : list A) (body : A → S → res S)
    (I : list A → S → Prop) (E : error → Prop) (s0 : S) :
  I [] s0 →
  (∀ done x rest s, l = done ++ x :: rest → I done s →
     match body x s with
     | Ok s' => I (done ++ [x]) s'
     | Err e => E e
     end) →
  match for_loop l body s0 with
  | Ok s => I l s
  | Err e => E e
  end.
Proof.
  intros H0 Hstep.
  assert (Hgen : ∀ rest done s, l = done ++ rest → I done s →
            match for_loop rest body s with
            | Ok s' => I l s'
            | Err e => E e
            end).
  { induction rest as [|x rest IH]; intros done s Hl Hd; simpl.
    - rewrite app_nil_r in Hl. by subst.
    - specialize (Hstep done x rest s Hl Hd).
      destruct (body x s) as [s'|e]; simpl; try done.
      apply (IH (done ++ [x])); [by rewrite <-app_assoc|done]. }
  by apply (Hgen l []).
Qed.

(** ** Reading a square table *)

Lemma square_row_length (table : list (list Z)) (i : nat) (row : list Z) :
  square table → table !! i = Some row → length row = length table.
Proof.
  intros Hsq Hi. unfold square in Hsq. rewrite Forall_lookup in Hsq. eauto.
Qed.

Lemma vec_get_lookup {A : Type} (v : list A) (i : nat) (x : A) :
  v !! i = Some x → vec_get v i = Ok x.
Proof. unfold vec_get. by intros ->. Qed.

Lemma table_lookup_entry (table : list (list Z)) (i j : nat) :
  square table → (i < length table)%nat → (j < length table)%nat →
  ∃ row, table !! i = Some row ∧ row !! j = Some (entry table i j).
Proof.
  intros Hsq Hi Hj.
  destruct (lookup_lt_is_Some_2 table i Hi) as [row Hrow].
  pose proof (square_row_length _ _ _ Hsq Hrow) as Hlen.
  destruct (lookup_lt_is_Some_2 row j ltac:(lia)) as [v Hv].
  exists row. split; [done|].
  unfold entry. rewrite (list_lookup_total_correct _ _ _ Hrow).
  by rewrite (list_lookup_total_correct _ _ _ Hv).
Qed.

Lemma entry_in_range (table : list (list Z)) (i j : nat) :
  square table → entries_in_range table →
  (i < length table)%nat → (j < length table)%nat →
  0 ≤ entry table i j < Z.of_nat (length table).
Proof.
  intros Hsq Hr Hi Hj.
  destruct (table_lookup_entry table i j Hsq Hi Hj) as (row & Hrow & Hv).
  apply (Hr row); [by eapply list_elem_of_lookup_2|by eapply list_elem_of_lookup_2].
Qed.

Lemma range_test (n a b : Z) :
  (0 <=? a) && (a <? n) && (0 <=? b) && (b <? n) = true
  ↔ (0 ≤ a < n ∧ 0 ≤ b < n).
Proof. rewrite !andb_true_iff. lia. Qed.

Lemma applyOperation_table (table : list (list Z)) (a b : Z) :
  square table →
  0 ≤ a < Z.of_nat (length table) → 0 ≤ b < Z.of_nat (length table) →
  ∃ row, table !! Z.to_nat a = Some row
       ∧ row !! Z.to_nat b = Some (entry table (Z.to_nat a) (Z.to_nat b))
       ∧ applyOperation (mkQuasigroup table) a b
         = Ok (entry table (Z.to_nat a) (Z.to_nat b)).
Proof.
  intros Hsq Ha Hb.
  destruct (table_lookup_entry table (Z.to_nat a) (Z.to_nat b) Hsq)
    as (row & Hrow & Hv); [lia..|].
  exists row. split_and!; [done..|].
  unfold applyOperation. simpl.
  rewrite (proj2 (range_test _ a b)) by done.
  rewrite (vec_get_lookup _ _ _ Hrow). simpl.
  by apply vec_get_lookup.
Qed.

Lemma applyOperation_op (q : Quasigroup) (a b : Z) :
  well_formed q → 0 ≤ a < order q → 0 ≤ b < order q →
  applyOperation q a b = Ok (op q a b) ∧ 0 ≤ op q a b < order q.
Proof.
  intros (Hord & Hsq & Hr) Ha Hb. destruct q as [table n]. simpl in *. subst n.
  destruct (applyOperation_table table a b Hsq Ha Hb) as (row & _ & _ & Happ).
  split; [done|]. unfold op. simpl. apply entry_in_range; [done..|lia|lia].
Qed.

Lemma applyOperation_throws (q : Quasigroup) (a b : Z) :
  ¬ (0 ≤ a < order q ∧ 0 ≤ b < order q) →
  applyOperation q a b = Err OutOfRange.
Proof.
  intros Hn. unfold applyOperation.
  destruct ((0 <=? a) && (a <? order q) && (0 <=? b) && (b <? order q)) eqn:H;
    [|done].
  by apply range_test in H.
Qed.

(** C7: for a quasigroup of order n built from a square n-by-n table,
    [apply(a, b)] returns [table[a][b]] when a and b both lie in [0, n) and
    signals OutOfRange, returning no value, when a or b lies outside; this
    holds for [applyOperation] of main.cpp and [multiply] of quasigroup.cpp. *)
Theorem applyOperation_bounds_checked (table : list (list Z)) (a b : Z) :
  square table →
  let n := Z.of_nat (length table) in
  (0 ≤ a < n ∧ 0 ≤ b < n →
     ∃ row v, table !! Z.to_nat a = Some row ∧ row !! Z.to_nat b = Some v
            ∧ applyOperation (mkQuasigroup table) a b = Ok v
            ∧ QuasigroupCpp.multiply (QuasigroupCpp.mkQuasigroup table) a b
              = Ok v)
  ∧ (¬ (0 ≤ a < n ∧ 0 ≤ b < n) →
     applyOperation (mkQuasigroup table) a b = Err OutOfRange
     ∧ QuasigroupCpp.multiply (QuasigroupCpp.mkQuasigroup table) a b
       = Err OutOfRange).
Proof.
  intros Hsq n. split.
  - intros [Ha Hb].
    destruct (applyOperation_table table a b Hsq Ha Hb)
      as (row & Hrow & Hv & Happ).
    exists row, (entry table (Z.to_nat a) (Z.to_nat b)).
    split_and!; [done..|].
    unfold QuasigroupCpp.multiply. simpl.
    rewrite (proj2 (range_test _ a b)) by done.
    rewrite (vec_get_lookup _ _ _ Hrow). simpl.
    by apply vec_get_lookup.
  - intros Hn. split; [by apply applyOperation_throws|].
    unfold QuasigroupCpp.multiply. simpl.
    destruct ((0 <=? a) && (a <? Z.of_nat (length table)) && (0 <=? b)
              && (b <? Z.of_nat (length table))) eqn:H; [|done].
    by apply range_test in H.
Qed.

Lemma applyOperation_bounds_checked_witness :
  (∃ row v, [[0; 1]; [1; 0]] !! Z.to_nat 1 = Some row
          ∧ row !! Z.to_nat 0 = Some v
          ∧ applyOperation (mkQuasigroup [[0; 1]; [1; 0]]) 1 0 = Ok v
          ∧ QuasigroupCpp.multiply
              (QuasigroupCpp.mkQuasigroup [[0; 1]; [1; 0]]) 1 0 = Ok v)
  ∧ applyOperation (mkQuasigroup [[0; 1]; [1; 0]]) 2 0 = Err OutOfRange.
Proof.
  assert (square [[0; 1]; [1; 0]]) as Hsq by (repeat constructor).
  split.
  - apply (applyOperation_bounds_checked [[0; 1]; [1; 0]] 1 0 Hsq). simpl. lia.
  - apply (applyOperation_bounds_checked [[0; 1]; [1; 0]] 2 0 Hsq). simpl. lia.
Defined.

(** ** The Latin-square validator *)

Lemma used_lookup_total (used : list bool) (v : nat) :
  (v < length used)%nat → used !!! v = true ↔ used !! v = Some true.
Proof.
  intros Hv. destruct (lookup_lt_is_Some_2 used v Hv) as [b Hb].
  rewrite (list_lookup_total_correct _ _ _ Hb), Hb.
  split; [by intros ->|by intros [= ->]].
Qed.

Lemma used_insert (used : list bool) (v w : nat) :
  (v < length used)%nat →
  <[v:=true]> used !! w = Some true ↔ w = v ∨ used !! w = Some true.
Proof.
  intros Hv. destruct (decide (w = v)) as [->|Hne].
  - rewrite list_lookup_insert_eq by done. tauto.
  - rewrite list_lookup_insert_ne by done. tauto.
Qed.

Lemma isLatinSquare_column_step (table : list (list Z)) (r k : nat)
    (used : list bool * list bool) :
  let n := length table in
  square table → (r < n)%nat → (k < n)%nat →
  column_inv table n r k used →
  match isLatinSquare_column table (Z.of_nat n) r k used with
  | Ok (Continue used') => column_inv table n r (S k) used'
  | Ok (Return b) => b = false ∧ ¬ line_ok table n r
  | Err _ => False
  end.
Proof.
  intros n Hsq Hr Hk (Hl1 & Hl2 & Hrange & Hru & Hcu & Hinj1 & Hinj2).
  destruct used as [ru cu]. simpl in *.
  destruct (table_lookup_entry table r k Hsq Hr Hk) as (row & Hrow & Hrv).
  destruct (table_lookup_entry table k r Hsq Hk Hr) as (col & Hcol & Hcv).
  unfold isLatinSquare_column.
  rewrite (vec_get_lookup _ _ _ Hrow). simpl.
  rewrite (vec_get_lookup _ _ _ Hrv). simpl.
  rewrite (vec_get_lookup _ _ _ Hcol). simpl.
  rewrite (vec_get_lookup _ _ _ Hcv). simpl.
  set (rv := entry table r k). set (cv := entry table k r).
  destruct (decide (0 ≤ rv < Z.of_nat n ∧ 0 ≤ cv < Z.of_nat n)) as [[Hrv' Hcv']|Hout].
  2: { (* a probed value is out of range *)
    assert ((rv <? 0) || (Z.of_nat n <=? rv) || (cv <? 0) || (Z.of_nat n <=? cv)
            = true) as ->.
    { rewrite !orb_true_iff. lia. }
    simpl. split; [done|]. intros (Hok & _). specialize (Hok k Hk).
    fold rv cv in Hok. lia. }
  assert ((rv <? 0) || (Z.of_nat n <=? rv) || (cv <? 0) || (Z.of_nat n <=? cv)
          = false) as ->.
  { rewrite !orb_false_iff. lia. }
  simpl.
  destruct (ru !!! Z.to_nat rv) eqn:Hur; simpl.
  { (* the row value was seen before in this row *)
    split; [done|]. intros (_ & Hi & _).
    apply used_lookup_total in Hur; [|lia].
    apply Hru in Hur as (c & Hc & Hcv2).
    assert (entry table r c = rv) as Heq.
    { specialize (Hrange c Hc). lia. }
    specialize (Hi c k ltac:(lia) Hk Heq). lia. }
  destruct (cu !!! Z.to_nat cv) eqn:Huc; simpl.
  { split; [done|]. intros (_ & _ & Hi).
    apply used_lookup_total in Huc; [|lia].
    apply Hcu in Huc as (c & Hc & Hcv2).
    assert (entry table c r = cv) as Heq.
    { specialize (Hrange c Hc). lia. }
    specialize (Hi c k ltac:(lia) Hk Heq). lia. }
  assert (ru !! Z.to_nat rv ≠ Some true) as Hur'.
  { intros H. apply used_lookup_total in H; [congruence|lia]. }
  assert (cu !! Z.to_nat cv ≠ Some true) as Huc'.
  { intros H. apply used_lookup_total in H; [congruence|lia]. }
  unfold column_inv. simpl. rewrite !length_insert.
  split_and!; [done|done|..].
  - intros c Hc. destruct (decide (c = k)) as [->|]; [done|].
    apply Hrange. lia.
  - intros v. rewrite used_insert by lia. rewrite Hru. split.
    + intros [->|(c & Hc & Hv)]; [exists k; split; [lia|done]|].
      exists c. split; [lia|done].
    + intros (c & Hc & Hv). destruct (decide (c = k)) as [->|]; [by left|].
      right. exists c. split; [lia|done].
  - intros v. rewrite used_insert by lia. rewrite Hcu. split.
    + intros [->|(c & Hc & Hv)]; [exists k; split; [lia|done]|].
      exists c. split; [lia|done].
    + intros (c & Hc & Hv). destruct (decide (c = k)) as [->|]; [by left|].
      right. exists c. split; [lia|done].
  - intros c c' Hc Hc' Heq.
    destruct (decide (c = k)) as [->|Hck], (decide (c' = k)) as [->|Hck'];
      [done| | |apply Hinj1; [lia|lia|done]].
    + exfalso. apply Hur'. apply Hru. exists c'. split; [lia|].
      fold rv in Heq. by rewrite <-Heq.
    + exfalso. apply Hur'. apply Hru. exists c. split; [lia|].
      fold rv in Heq. by rewrite Heq.
  - intros c c' Hc Hc' Heq.
    destruct (decide (c = k)) as [->|Hck], (decide (c' = k)) as [->|Hck'];
      [done| | |apply Hinj2; [lia|lia|done]].
    + exfalso. apply Huc'. apply Hcu. exists c'. split; [lia|].
      fold cv in Heq. by rewrite <-Heq.
    + exfalso. apply Huc'. apply Hcu. exists c. split; [lia|].
      fold cv in Heq. by rewrite Heq.
Qed.

Lemma column_inv_init (table : list (list Z)) (n r : nat) :
  column_inv table n r 0 (replicate n false, replicate n false).
Proof.
  unfold column_inv. simpl. rewrite !length_replicate.
  split_and!; [done|done|lia|..|lia|lia].
  - intros v. split; [|intros (c & ? & _); lia].
    intros Hv. apply lookup_replicate in Hv as [? _]. done.
  - intros v. split; [|intros (c & ? & _); lia].
    intros Hv. apply lookup_replicate in Hv as [? _]. done.
Qed.

Lemma isLatinSquare_row_spec (table : list (list Z)) (r : nat) :
  let n := length table in
  square table → (r < n)%nat →
  match isLatinSquare_row table (Z.of_nat n) r () with
  | Ok (Continue _) => line_ok table n r
  | Ok (Return b) => b = false ∧ ¬ line_ok table n r
  | Err _ => False
  end.
Proof.
  intros n Hsq Hr. unfold isLatinSquare_row. rewrite Nat2Z.id.
  pose proof (for_each_seq_inv n (isLatinSquare_column table (Z.of_nat n) r)
    (column_inv table n r) (λ b, b = false ∧ ¬ line_ok table n r)
    (λ _, False) (replicate n false, replicate n false)
    (column_inv_init table n r)
    (λ k used Hk Hinv, isLatinSquare_column_step table r k used Hsq Hr Hk Hinv))
    as H.
  destruct (for_each (seq 0 n) _ _) as [[used|b]|e]; simpl; [|done..].
  destruct H as (_ & _ & H1 & _ & _ & H2 & H3). done.
Qed.

Lemma isLatinSquare_lines (table : list (list Z)) :
  let n := length table in
  square table →
  ∃ b, isLatinSquare table = Ok b
       ∧ (b = true ↔ ∀ r, (r < n)%nat → line_ok table n r).
Proof.
  intros n Hsq. unfold isLatinSquare. rewrite Nat2Z.id. fold n.
  pose proof (for_each_seq_inv n (isLatinSquare_row table (Z.of_nat n))
    (λ k _, ∀ r, (r < k)%nat → line_ok table n r)
    (λ b, b = false ∧ ¬ ∀ r, (r < n)%nat → line_ok table n r)
    (λ _, False) ()) as H.
  assert (∀ r, (r < 0)%nat → line_ok table n r) as H0 by (intros; lia).
  specialize (H H0). clear H0.
  assert (∀ k (s : ()), (k < n)%nat →
    (∀ r, (r < k)%nat → line_ok table n r) →
    match isLatinSquare_row table (Z.of_nat n) k s with
    | Ok (Continue _) => ∀ r, (r < S k)%nat → line_ok table n r
    | Ok (Return b) => b = false ∧ ¬ ∀ r, (r < n)%nat → line_ok table n r
    | Err _ => False
    end) as Hstep.
  { intros k [] Hk Hinv.
    pose proof (isLatinSquare_row_spec table k Hsq Hk) as Hrow. fold n in Hrow.
    destruct (isLatinSquare_row table (Z.of_nat n) k ()) as [[[]|b']|e'];
      [|split; [apply Hrow|]|done].
    + intros r Hr. destruct (decide (r = k)) as [->|]; [done|]. apply Hinv. lia.
    + intros Hall. apply Hrow. by apply Hall. }
  specialize (H Hstep). clear Hstep.
  destruct (for_each (seq 0 n) _ _) as [[[]|b]|e]; simpl; [| |done].
  - exists true. by split.
  - exists b. split; [done|]. destruct H as [-> Hn]. by split.
Qed.

(** *** From the probed lines to the Latin-square invariant *)

Lemma row_lookup_entry (table : list (list Z)) (i j : nat) (row : list Z)
    (v : Z) :
  table !! i = Some row → row !! j = Some v → entry table i j = v.
Proof.
  intros Hrow Hv. unfold entry.
  rewrite (list_lookup_total_correct _ _ _ Hrow).
  by rewrite (list_lookup_total_correct _ _ _ Hv).
Qed.

Lemma column_of_lookup (table : list (list Z)) (i j : nat) :
  (i < length table)%nat →
  column_of table j !! i = Some (entry table i j).
Proof.
  intros Hi. unfold column_of. rewrite list_lookup_fmap.
  destruct (lookup_lt_is_Some_2 table i Hi) as [row Hrow].
  rewrite Hrow. simpl. unfold entry.
  by rewrite (list_lookup_total_correct _ _ _ Hrow).
Qed.

Lemma column_of_length (table : list (list Z)) (j : nat) :
  length (column_of table j) = length table.
Proof. unfold column_of. by rewrite length_fmap. Qed.

Lemma lines_ok_latin (table : list (list Z)) :
  square table →
  (∀ r, (r < length table)%nat → line_ok table (length table) r)
  ↔ latin table.
Proof.
  intros Hsq. set (n := length table). split.
  - intros Hall. split_and!.
    + intros row v Hrow Hv.
      apply list_elem_of_lookup in Hrow as [i Hi].
      apply list_elem_of_lookup in Hv as [j Hj].
      pose proof (lookup_lt_Some _ _ _ Hi) as Hi'.
      pose proof (lookup_lt_Some _ _ _ Hj) as Hj'.
      rewrite (square_row_length _ _ _ Hsq Hi) in Hj'.
      destruct (Hall i Hi') as (Hr & _ & _).
      rewrite <-(row_lookup_entry _ _ _ _ _ Hi Hj). by apply Hr.
    + intros row Hrow. apply list_elem_of_lookup in Hrow as [i Hi].
      pose proof (lookup_lt_Some _ _ _ Hi) as Hi'.
      destruct (Hall i Hi') as (_ & Hinj & _).
      apply NoDup_alt. intros c c' v Hc Hc'.
      pose proof (lookup_lt_Some _ _ _ Hc) as Hlc.
      pose proof (lookup_lt_Some _ _ _ Hc') as Hlc'.
      rewrite (square_row_length _ _ _ Hsq Hi) in Hlc, Hlc'.
      apply Hinj; [done..|].
      rewrite (row_lookup_entry _ _ _ _ _ Hi Hc).
      by rewrite (row_lookup_entry _ _ _ _ _ Hi Hc').
    + intros j Hj. destruct (Hall j Hj) as (_ & _ & Hinj).
      apply NoDup_alt. intros c c' v Hc Hc'.
      pose proof (lookup_lt_Some _ _ _ Hc) as Hlc.
      pose proof (lookup_lt_Some _ _ _ Hc') as Hlc'.
      rewrite column_of_length in Hlc, Hlc'.
      rewrite column_of_lookup in Hc, Hc' by done.
      apply Hinj; [done..|]. congruence.
  - intros (Hrange & Hrows & Hcols) r Hr. split_and!.
    + intros c Hc. split; by apply entry_in_range.
    + intros c c' Hc Hc' Heq.
      destruct (table_lookup_entry table r c Hsq Hr Hc) as (row & Hrow & Hv).
      destruct (table_lookup_entry table r c' Hsq Hr Hc') as (row' & Hrow' & Hv').
      assert (row' = row) as -> by congruence.
      assert (NoDup row) as Hnd by (apply Hrows; by eapply list_elem_of_lookup_2).
      rewrite NoDup_alt in Hnd. eapply Hnd; [done|]. by rewrite Heq.
    + intros c c' Hc Hc' Heq.
      specialize (Hcols r Hr). rewrite NoDup_alt in Hcols.
      eapply (Hcols c c'); [by apply column_of_lookup|].
      rewrite Heq. by apply column_of_lookup.
Qed.

(** A duplicate-free list of [n] values in [0, n) is a rearrangement of
    [0 .. n-1]. *)
Lemma NoDup_range_permutation (l : list Z) (n : nat) :
  length l = n → NoDup l → (∀ v, v ∈ l → 0 ≤ v < Z.of_nat n) →
  l ≡ₚ seqZ 0 (Z.of_nat n).
Proof.
  intros Hlen Hnd Hr. apply submseteq_length_Permutation.
  - apply NoDup_submseteq; [done|]. intros v Hv. apply elem_of_seqZ.
    specialize (Hr v Hv). lia.
  - rewrite length_seqZ. lia.
Qed.

Lemma permutation_range (l : list Z) (n : nat) :
  l ≡ₚ seqZ 0 (Z.of_nat n) →
  length l = n ∧ NoDup l ∧ (∀ v, v ∈ l → 0 ≤ v < Z.of_nat n).
Proof.
  intros Hp. split_and!.
  - rewrite Hp, length_seqZ. lia.
  - rewrite Hp. apply NoDup_seqZ.
  - intros v. rewrite Hp, elem_of_seqZ. lia.
Qed.

Lemma latin_lines_are_permutations (table : list (list Z)) :
  square table → latin table ↔ lines_are_permutations table.
Proof.
  intros Hsq. split.
  - intros (Hrange & Hrows & Hcols). split.
    + intros row Hrow. apply NoDup_range_permutation; [|by apply Hrows|].
      * unfold square in Hsq. rewrite Forall_forall in Hsq. by apply Hsq.
      * intros v Hv. by apply (Hrange row).
    + intros j Hj. apply NoDup_range_permutation;
        [apply column_of_length|by apply Hcols|].
      intros v Hv. apply list_elem_of_lookup in Hv as [i Hi].
      pose proof (lookup_lt_Some _ _ _ Hi) as Hi'.
      rewrite column_of_length in Hi'.
      rewrite column_of_lookup in Hi by done. injection Hi as <-.
      by apply entry_in_range.
  - intros [Hrows Hcols]. split_and!.
    + intros row v Hrow Hv.
      destruct (permutation_range _ _ (Hrows row Hrow)) as (_ & _ & H).
      by apply H.
    + intros row Hrow.
      by destruct (permutation_range _ _ (Hrows row Hrow)) as (_ & ? & _).
    + intros j Hj.
      by destruct (permutation_range _ _ (Hcols j Hj)) as (_ & ? & _).
Qed.

Lemma isLatinSquare_latin (table : list (list Z)) :
  square table →
  ∃ b, isLatinSquare table = Ok b ∧ (b = true ↔ latin table).
Proof.
  intros Hsq. destruct (isLatinSquare_lines table Hsq) as (b & Hb & Hiff).
  exists b. split; [done|]. by rewrite Hiff, lines_ok_latin.
Qed.

(** C8: on a square n-by-n table of integers the validator returns a
    verdict, and the verdict is true exactly when every entry lies in [0, n)
    and no value repeats within a row or within a column, which is to say
    exactly when every row and every column is a permutation of 0..n-1. *)
Theorem isLatinSquare_characterization (table : list (list Z)) :
  square table →
  ∃ b, isLatinSquare table = Ok b
       ∧ (b = true ↔
            entries_in_range table ∧ rows_distinct table
            ∧ columns_distinct table)
       ∧ (b = true ↔ lines_are_permutations table).
Proof.
  intros Hsq. destruct (isLatinSquare_latin table Hsq) as (b & Hb & Hiff).
  exists b. split_and!; [done|done|].
  by rewrite Hiff, latin_lines_are_permutations.
Qed.

Lemma isLatinSquare_characterization_witness :
  ∃ b, isLatinSquare [[0; 2; 1]; [2; 1; 0]; [1; 0; 2]] = Ok b
       ∧ (b = true ↔
            entries_in_range [[0; 2; 1]; [2; 1; 0]; [1; 0; 2]]
            ∧ rows_distinct [[0; 2; 1]; [2; 1; 0]; [1; 0; 2]]
            ∧ columns_distinct [[0; 2; 1]; [2; 1; 0]; [1; 0; 2]])
       ∧ (b = true ↔
            lines_are_permutations [[0; 2; 1]; [2; 1; 0]; [1; 0; 2]]).
Proof.
  apply (isLatinSquare_characterization [[0; 2; 1]; [2; 1; 0]; [1; 0; 2]]).
  repeat constructor.
Defined.

(** ** Permuting rows and columns *)

Lemma fmap_lookup_total_seq {A : Type} `{!Inhabited A} (l : list A) :
  (λ i, l !!! i) <$> seq 0 (length l) = l.
Proof.
  apply list_eq. intros i. rewrite list_lookup_fmap.
  destruct (decide (i < length l)%nat) as [Hi|Hi].
  - rewrite lookup_seq_lt by done. simpl.
    by rewrite list_lookup_lookup_total_lt.
  - rewrite lookup_seq_ge by lia. simpl. symmetry.
    apply lookup_ge_None. lia.
Qed.

Lemma permute_rows_permutation (σ : list nat) (table : list (list Z)) :
  index_permutation (length table) σ → permute_rows σ table ≡ₚ table.
Proof.
  intros Hσ. unfold permute_rows. rewrite Hσ.
  by rewrite fmap_lookup_total_seq.
Qed.

Lemma permute_row_permutation (σ : list nat) (row : list Z) :
  index_permutation (length row) σ → (λ j, row !!! j) <$> σ ≡ₚ row.
Proof.
  intros Hσ. rewrite Hσ. by rewrite fmap_lookup_total_seq.
Qed.

Lemma index_permutation_length (n : nat) (σ : list nat) :
  index_permutation n σ → length σ = n.
Proof. intros Hσ. by rewrite Hσ, length_seq. Qed.

Lemma index_permutation_lt (n : nat) (σ : list nat) (j : nat) :
  index_permutation n σ → (j < n)%nat → (σ !!! j < n)%nat.
Proof.
  intros Hσ Hj.
  assert (σ !!! j ∈ σ) as Hin.
  { apply list_elem_of_lookup_total_2. by rewrite (index_permutation_length n). }
  apply (elem_of_Permutation_proper _ _ _ Hσ) in Hin.
  apply elem_of_seq in Hin. lia.
Qed.

Lemma latin_permute_rows (σ : list nat) (table : list (list Z)) :
  index_permutation (length table) σ →
  square table → latin table →
  square (permute_rows σ table) ∧ latin (permute_rows σ table).
Proof.
  intros Hσ Hsq (Hrange & Hrows & Hcols).
  pose proof (permute_rows_permutation σ table Hσ) as Hp.
  assert (length (permute_rows σ table) = length table) as Hlen
    by by rewrite Hp.
  split; [|split_and!].
  - unfold square. rewrite Hlen. unfold square in Hsq. by rewrite Hp.
  - intros row v Hrow Hv. rewrite Hlen. rewrite Hp in Hrow. by eapply Hrange.
  - intros row Hrow. rewrite Hp in Hrow. by apply Hrows.
  - intros j Hj. rewrite Hlen in Hj.
    assert (column_of (permute_rows σ table) j ≡ₚ column_of table j) as ->.
    { unfold column_of. by rewrite Hp. }
    by apply Hcols.
Qed.

Lemma latin_permute_columns (σ : list nat) (table : list (list Z)) :
  index_permutation (length table) σ →
  square table → latin table →
  square (permute_columns σ table) ∧ latin (permute_columns σ table).
Proof.
  intros Hσ Hsq (Hrange & Hrows & Hcols).
  pose proof (index_permutation_length _ _ Hσ) as Hlσ.
  assert (length (permute_columns σ table) = length table) as Hlen.
  { unfold permute_columns. by rewrite length_fmap. }
  assert (∀ row', row' ∈ permute_columns σ table →
            ∃ row, row ∈ table ∧ row' = (λ j, row !!! j) <$> σ
                   ∧ row' ≡ₚ row) as Hrow'.
  { intros row' Hin. unfold permute_columns in Hin.
    apply list_elem_of_fmap in Hin as (row & -> & Hrow).
    exists row. split_and!; [done..|].
    apply permute_row_permutation.
    unfold square in Hsq. rewrite Forall_forall in Hsq.
    by rewrite (Hsq row Hrow). }
  split; [|split_and!].
  - unfold square. rewrite Hlen. apply Forall_forall. intros row' Hin.
    destruct (Hrow' row' Hin) as (row & _ & -> & _).
    by rewrite length_fmap.
  - intros row' v Hin Hv. rewrite Hlen.
    destruct (Hrow' row' Hin) as (row & Hrow & _ & Hp).
    rewrite Hp in Hv. by eapply Hrange.
  - intros row' Hin.
    destruct (Hrow' row' Hin) as (row & Hrow & _ & Hp).
    rewrite Hp. by apply Hrows.
  - intros j Hj. rewrite Hlen in Hj.
    assert (column_of (permute_columns σ table) j
            = column_of table (σ !!! j)) as ->.
    { unfold column_of, permute_columns. rewrite <-list_fmap_compose.
      apply list_fmap_ext. intros i row Hrow. simpl.
      by rewrite (list_lookup_total_fmap (λ j, row !!! j) σ j) by lia. }
    apply Hcols. by apply index_permutation_lt.
Qed.

(** C9: a square table the validator accepts is still accepted after its
    rows are rearranged by any permutation, and after its columns are
    rearranged, in every row alike, by any permutation. *)
Theorem isLatinSquare_permutation_invariant (table : list (list Z))
    (σ : list nat) :
  square table →
  isLatinSquare table = Ok true →
  index_permutation (length table) σ →
  isLatinSquare (permute_rows σ table) = Ok true
  ∧ isLatinSquare (permute_columns σ table) = Ok true.
Proof.
  intros Hsq Hok Hσ.
  assert (latin table) as Hlatin.
  { destruct (isLatinSquare_latin table Hsq) as (b & Hb & Hiff).
    rewrite Hok in Hb. injection Hb as <-. by apply Hiff. }
  split.
  - destruct (latin_permute_rows σ table Hσ Hsq Hlatin) as [Hsq' Hl'].
    destruct (isLatinSquare_latin _ Hsq') as (b & Hb & Hiff).
    rewrite Hb. f_equal. by apply Hiff.
  - destruct (latin_permute_columns σ table Hσ Hsq Hlatin) as [Hsq' Hl'].
    destruct (isLatinSquare_latin _ Hsq') as (b & Hb & Hiff).
    rewrite Hb. f_equal. by apply Hiff.
Qed.

Lemma isLatinSquare_permutation_invariant_witness :
  isLatinSquare (permute_rows [2; 0; 1]%nat [[0; 2; 1]; [2; 1; 0]; [1; 0; 2]])
    = Ok true
  ∧ isLatinSquare
      (permute_columns [2; 0; 1]%nat [[0; 2; 1]; [2; 1; 0]; [1; 0; 2]])
    = Ok true.
Proof.
  apply (isLatinSquare_permutation_invariant
           [[0; 2; 1]; [2; 1; 0]; [1; 0; 2]] [2; 0; 1]%nat).
  - repeat constructor.
  - reflexivity.
  - unfold index_permutation. simpl.
    change [2; 0; 1]%nat with ([2]%nat ++ [0; 1]%nat).
    by rewrite Permutation_app_comm.
Defined.

(** ** The symbol set *)

Lemma size_symbols (n : nat) : size (symbols n) = n.
Proof.
  unfold symbols. rewrite size_list_to_set by apply NoDup_seqZ.
  rewrite length_seqZ. lia.
Qed.

Lemma elem_of_symbols (n : nat) (v : Z) :
  v ∈ symbols n ↔ 0 ≤ v < Z.of_nat n.
Proof. unfold symbols. rewrite elem_of_list_to_set, elem_of_seqZ. lia. Qed.

(** ** Closure passes *)

Lemma grows_subseteq (q : Quasigroup) (bound : option Z) (s0 s : gset Z) :
  grows q bound s0 s → s0 ⊆ s.
Proof. induction 1; set_solver. Qed.

Lemma grows_size (q : Quasigroup) (bound : option Z) (s0 s : gset Z) :
  grows q bound s0 s → (size s0 ≤ size s)%nat.
Proof. intros H. apply subseteq_size. by eapply grows_subseteq. Qed.

Lemma grows_trans (q : Quasigroup) (bound : option Z) (s0 s1 s2 : gset Z) :
  grows q bound s0 s1 → grows q bound s1 s2 → grows q bound s0 s2.
Proof.
  intros H1 H2. induction H2; [done|]. by apply grows_step.
Qed.

Lemma grows_closed (q : Quasigroup) (bound : option Z) (s0 s : gset Z) :
  closed_under q s0 → grows q bound s0 s → s = s0.
Proof.
  intros Hc H. induction H as [|s a b H IH Ha Hb Hn _]; [done|].
  subst s. exfalso. apply Hn. by apply Hc.
Qed.

Lemma exceeds_trans (q : Quasigroup) (k : Z) (s0 s1 : gset Z) :
  grows q (Some k) s0 s1 → exceeds q k s1 → exceeds q k s0.
Proof.
  intros H (s & a & b & Hg & ?). exists s, a, b.
  split; [by eapply grows_trans|done].
Qed.

(** A set of elements of the quasigroup has at most [order] members. *)
Lemma elements_in_range_size (q : Quasigroup) (s : gset Z) :
  0 ≤ order q → elements_in_range q s → Z.of_nat (size s) ≤ order q.
Proof.
  intros Hn Hr.
  assert (s ⊆ list_to_set (seqZ 0 (order q))) as Hsub.
  { intros x Hx. apply elem_of_list_to_set, elem_of_seqZ.
    specialize (Hr x Hx). lia. }
  apply subseteq_size in Hsub.
  rewrite size_list_to_set in Hsub by apply NoDup_seqZ.
  rewrite length_seqZ in Hsub. lia.
Qed.

Lemma closure_pair_step (q : Quasigroup) (bound : option Z) (s0 : gset Z)
    (P : Z → Z → Prop) (a b : Z) (st : gset Z * bool) :
  well_formed q → a ∈ s0 → b ∈ s0 →
  sweep_inv q bound s0 P st →
  match closure_pair q bound a b st with
  | Ok (Continue st') =>
      sweep_inv q bound s0 (λ x y, P x y ∨ (x = a ∧ y = b)) st'
  | Ok (Return r) =>
      r = false ∧ ∃ k, bound = Some k ∧ exceeds q k s0
  | Err _ => False
  end.
Proof.
  intros Hwf Ha Hb (Hg & Hr & Hf & Ht & HP). destruct st as [s ch].
  simpl in *.
  pose proof (grows_subseteq _ _ _ _ Hg) as Hsub.
  assert (a ∈ s) as Has by by apply Hsub.
  assert (b ∈ s) as Hbs by by apply Hsub.
  destruct (applyOperation_op q a b Hwf) as [Happ Hop];
    [by apply Hr..|].
  rewrite Happ. simpl.
  destruct (decide (op q a b ∈ s)) as [Hin|Hnin].
  { split_and!; simpl; [done..|].
    intros x y [?|[-> ->]]; [by apply HP|done]. }
  destruct bound as [k|].
  - destruct (Z.of_nat (size (s ∪ {[op q a b]})) >? k) eqn:Hk; simpl.
    + split; [done|]. exists k. split; [done|].
      exists s, a, b. split_and!; [done|done|done|done|lia].
    + split_and!; simpl.
      * apply grows_step; [done|done|done|done|]. simpl. lia.
      * intros x Hx. apply elem_of_union in Hx as [Hx|Hx]; [by apply Hr|].
        apply elem_of_singleton in Hx as ->. done.
      * done.
      * intros _. rewrite size_union, size_singleton
          by (by apply disjoint_singleton_r).
        pose proof (subseteq_size _ _ Hsub). lia.
      * intros x y [Hxy|[-> ->]].
        -- apply elem_of_union. left. by apply HP.
        -- apply elem_of_union. right. by apply elem_of_singleton.
  - simpl. split_and!; simpl.
    + by apply grows_step.
    + intros x Hx. apply elem_of_union in Hx as [Hx|Hx]; [by apply Hr|].
      apply elem_of_singleton in Hx as ->. done.
    + done.
    + intros _. rewrite size_union, size_singleton
        by (by apply disjoint_singleton_r).
      pose proof (subseteq_size _ _ Hsub). lia.
    + intros x y [Hxy|[-> ->]].
      * apply elem_of_union. left. by apply HP.
      * apply elem_of_union. right. by apply elem_of_singleton.
Qed.

Lemma sweep_inv_weaken (q : Quasigroup) (bound : option Z) (s0 : gset Z)
    (P P' : Z → Z → Prop) (st : gset Z * bool) :
  (∀ a b, P' a b → P a b) →
  sweep_inv q bound s0 P st → sweep_inv q bound s0 P' st.
Proof. intros HPP (?&?&?&?&HP). split_and!; [done..|]. eauto. Qed.

(** The inner loop: [a] against every element of the snapshot. *)
Lemma closure_row_spec (q : Quasigroup) (bound : option Z) (s0 : gset Z)
    (P : Z → Z → Prop) (a : Z) (st : gset Z * bool) :
  well_formed q → a ∈ s0 →
  sweep_inv q bound s0 P st →
  match for_each (elements s0) (closure_pair q bound a) st with
  | Ok (Continue st') =>
      sweep_inv q bound s0 (λ x y, P x y ∨ (x = a ∧ y ∈ s0)) st'
  | Ok (Return r) => r = false ∧ ∃ k, bound = Some k ∧ exceeds q k s0
  | Err _ => False
  end.
Proof.
  intros Hwf Ha Hinv.
  pose proof (for_each_inv (elements s0) (closure_pair q bound a)
    (λ done st', sweep_inv q bound s0 (λ x y, P x y ∨ (x = a ∧ y ∈ done)) st')
    (λ r, r = false ∧ ∃ k, bound = Some k ∧ exceeds q k s0)
    (λ _, False) st) as H.
  cbv beta in H.
  assert (sweep_inv q bound s0 (λ x y, P x y ∨ x = a ∧ y ∈ []) st) as H0.
  { eapply sweep_inv_weaken; [|exact Hinv].
    intros x y [?|[_ Hy]]; [done|]. by apply elem_of_nil in Hy. }
  specialize (H H0). clear H0.
  assert (∀ done b rest st', elements s0 = done ++ b :: rest →
    sweep_inv q bound s0 (λ x y, P x y ∨ x = a ∧ y ∈ done) st' →
    match closure_pair q bound a b st' with
    | Ok (Continue s') =>
        sweep_inv q bound s0 (λ x y, P x y ∨ x = a ∧ y ∈ done ++ [b]) s'
    | Ok (Return r) => r = false ∧ ∃ k, bound = Some k ∧ exceeds q k s0
    | Err _ => False
    end) as Hstep.
  { intros done b rest st' Hcur Hinv'.
    assert (b ∈ s0) as Hb.
    { apply elem_of_elements. rewrite Hcur.
      apply elem_of_app. right. by left. }
    pose proof (closure_pair_step q bound s0 _ a b st' Hwf Ha Hb Hinv')
      as Hstep.
    destruct (closure_pair q bound a b st') as [[st3|r]|e]; [|done..].
    eapply sweep_inv_weaken; [|exact Hstep]. simpl.
    intros x y [?|[-> Hy]]; [by left; left|].
    apply elem_of_app in Hy as [Hy|Hy]; [by left; right|].
    apply list_elem_of_singleton in Hy as ->. by right. }
  specialize (H Hstep). clear Hstep.
  destruct (for_each (elements s0) (closure_pair q bound a) st)
    as [[st'|r]|e]; [|done..].
  eapply sweep_inv_weaken; [|exact H]. simpl.
  intros x y [?|[-> Hy]]; [by left|]. right. split; [done|].
  by apply elem_of_elements.
Qed.

(** One pass over all pairs of the snapshot. *)
Lemma closure_sweep_spec (q : Quasigroup) (bound : option Z) (s0 : gset Z) :
  well_formed q → elements_in_range q s0 →
  match closure_sweep q bound s0 with
  | Ok (Continue st') => sweep_inv q bound s0 (λ a b, a ∈ s0 ∧ b ∈ s0) st'
  | Ok (Return r) => r = false ∧ ∃ k, bound = Some k ∧ exceeds q k s0
  | Err _ => False
  end.
Proof.
  intros Hwf Hr0. unfold closure_sweep.
  pose proof (for_each_inv (elements s0)
    (λ a, for_each (elements s0) (closure_pair q bound a))
    (λ done st, sweep_inv q bound s0 (λ a b, a ∈ done ∧ b ∈ s0) st)
    (λ r, r = false ∧ ∃ k, bound = Some k ∧ exceeds q k s0)
    (λ _, False) (s0, false)) as H.
  cbv beta in H.
  assert (sweep_inv q bound s0 (λ a b, a ∈ [] ∧ b ∈ s0) (s0, false)) as H0.
  { split_and!; simpl; [constructor|done|done|done|].
    intros a b [Ha _]. by apply elem_of_nil in Ha. }
  specialize (H H0). clear H0.
  assert (∀ done a rest st, elements s0 = done ++ a :: rest →
    sweep_inv q bound s0 (λ x y, x ∈ done ∧ y ∈ s0) st →
    match for_each (elements s0) (closure_pair q bound a) st with
    | Ok (Continue s') =>
        sweep_inv q bound s0 (λ x y, x ∈ done ++ [a] ∧ y ∈ s0) s'
    | Ok (Return r) => r = false ∧ ∃ k, bound = Some k ∧ exceeds q k s0
    | Err _ => False
    end) as Hstep.
  { intros done a rest st Hcur Hinv.
    assert (a ∈ s0) as Ha.
    { apply elem_of_elements. rewrite Hcur.
      apply elem_of_app. right. by left. }
    pose proof (closure_row_spec q bound s0 _ a st Hwf Ha Hinv) as Hrow.
    destruct (for_each (elements s0) (closure_pair q bound a) st)
      as [[st'|r]|e]; [|done..].
    eapply sweep_inv_weaken; [|exact Hrow]. simpl.
    intros x y [Hx Hy]. apply elem_of_app in Hx as [Hx|Hx]; [by left|].
    apply list_elem_of_singleton in Hx as ->. by right. }
  specialize (H Hstep). clear Hstep.
  destruct (for_each (elements s0) _ (s0, false)) as [[st'|r]|e]; [|done..].
  eapply sweep_inv_weaken; [|exact H]. simpl.
  intros x y [Hx Hy]. split; [|done]. by apply elem_of_elements.
Qed.

Lemma verifyProper_round_closure (q : Quasigroup) :
  verifyProper_round q
  = closure_round q (Some (order q `quot` 2))
      (λ s, bool_decide (Z.of_nat (size s) < order q)).
Proof. reflexivity. Qed.

Lemma verifyNonTrivial_round_closure (q : Quasigroup) :
  verifyNonTrivial_round q
  = closure_round q None (λ s, bool_decide (1 < Z.of_nat (size s))).
Proof. reflexivity. Qed.

(** The closure loop ends within [order + 1] passes: either growth pushed the
    set over the bound, or the set stopped growing and is closed. *)
Lemma closure_loop_total (q : Quasigroup) (bound : option Z)
    (verdict : gset Z → bool) (fuel : nat) (seed : gset Z) :
  well_formed q → elements_in_range q seed →
  order q < Z.of_nat fuel →
  ∃ b, while_loop fuel (closure_round q bound verdict) seed = Ok b
       ∧ ((b = false ∧ ∃ k, bound = Some k ∧ exceeds q k seed)
          ∨ (∃ s, grows q bound seed s ∧ closed_under q s ∧ b = verdict s)).
Proof.
  intros Hwf Hseed Hfuel.
  assert (0 ≤ order q) as Hn by (destruct Hwf as [-> _]; lia).
  apply (while_loop_total fuel (closure_round q bound verdict)
    (λ s, grows q bound seed s ∧ elements_in_range q s)
    (λ s, (Z.to_nat (order q) - size s)%nat)).
  - intros s [Hg Hr]. unfold closure_round.
    pose proof (closure_sweep_spec q bound s Hwf Hr) as Hsweep.
    destruct (closure_sweep q bound s) as [[[s' ch]|r]|e]; simpl; [| |done].
    + destruct Hsweep as (Hg' & Hr' & Hf & Ht & HP). simpl in *.
      destruct ch.
      * split; [split; [by eapply grows_trans|done]|].
        specialize (Ht eq_refl).
        pose proof (elements_in_range_size q s' Hn Hr'). lia.
      * right. specialize (Hf eq_refl). subst s'. exists s.
        split_and!; [done| |done]. intros a b Ha Hb. by apply HP.
    + destruct Hsweep as (-> & k & -> & Hex). left. split; [done|].
      exists k. split; [done|]. by eapply exceeds_trans.
  - split; [constructor|done].
  - lia.
Qed.

Lemma verifyProper_total (q : Quasigroup) (fuel : nat) (seed : gset Z) :
  well_formed q → elements_in_range q seed →
  order q < Z.of_nat fuel →
  ∃ b, verifyProperSubquasigroup fuel q seed = Ok b
       ∧ ((b = false ∧ exceeds q (order q `quot` 2) seed)
          ∨ (∃ s, grows q (Some (order q `quot` 2)) seed s
                  ∧ closed_under q s
                  ∧ b = bool_decide (Z.of_nat (size s) < order q))).
Proof.
  intros Hwf Hseed Hfuel. unfold verifyProperSubquasigroup.
  rewrite verifyProper_round_closure.
  destruct (closure_loop_total q (Some (order q `quot` 2))
              (λ s, bool_decide (Z.of_nat (size s) < order q))
              fuel seed Hwf Hseed Hfuel) as (b & Hb & H).
  exists b. split; [done|].
  destruct H as [(-> & k & [= <-] & Hex)|H]; [by left|by right].
Qed.

Lemma verifyNonTrivial_total (q : Quasigroup) (fuel : nat) (seed : gset Z) :
  well_formed q → elements_in_range q seed →
  order q < Z.of_nat fuel →
  ∃ b, verifyNonTrivialSubquasigroup fuel q seed = Ok b
       ∧ (size seed = 1%nat → b = false)
       ∧ ((2 ≤ size seed)%nat → b = true).
Proof.
  intros Hwf Hseed Hfuel. unfold verifyNonTrivialSubquasigroup.
  destruct (decide (size seed = 1%nat)) as [H1|H1].
  { exists false. split_and!; [done|done|lia]. }
  rewrite verifyNonTrivial_round_closure.
  destruct (closure_loop_total q None
              (λ s, bool_decide (1 < Z.of_nat (size s)))
              fuel seed Hwf Hseed Hfuel) as (b & Hb & H).
  exists b. split_and!; [done|done|]. intros H2.
  destruct H as [(_ & k & [=] & _)|(s & Hg & _ & ->)].
  apply bool_decide_eq_true. apply grows_size in Hg. lia.
Qed.

(** ** The squaring walk *)

Lemma vec_set_int_ok {A : Type} (v : list A) (i : Z) (x : A) :
  0 ≤ i < Z.of_nat (length v) →
  vec_set_int v i x = Ok (<[Z.to_nat i := x]> v).
Proof.
  intros Hi. unfold vec_set_int, vec_set.
  rewrite decide_True by lia. by rewrite decide_True by lia.
Qed.

Lemma vec_get_int_ok {A : Type} (v : list A) (i : Z) :
  0 ≤ i < Z.of_nat (length v) →
  ∃ x, v !! Z.to_nat i = Some x ∧ vec_get_int v i = Ok x.
Proof.
  intros Hi. unfold vec_get_int, vec_get. rewrite decide_True by lia.
  destruct (lookup_lt_is_Some_2 v (Z.to_nat i)) as [x Hx]; [lia|].
  exists x. by rewrite Hx.
Qed.

Lemma cycle_step_spec (q : Quasigroup) (start : Z) (visited0 : list bool)
    (st : gset Z * list bool * Z) :
  well_formed q → Z.of_nat (length visited0) = order q →
  cycle_inv q start visited0 st →
  match cycle_step q st with
  | Ok (Continue st') =>
      cycle_inv q start visited0 st'
      ∧ (Z.to_nat (order q) - size st'.1.1
         < Z.to_nat (order q) - size st.1.1)%nat
  | Ok (Return r) => cycle_post q start visited0 r
  | Err _ => False
  end.
Proof.
  intros Hwf Hlen. destruct st as [[cycle visited] current].
  intros (Hr & Hcur & Hlv & Hvis & Hstart & Hidem).
  unfold cycle_step.
  destruct (decide (current ∈ cycle)) as [Hin|Hnin].
  - (* the walk has closed *)
    split_and!; [done|done|done|..].
    + destruct Hstart as [[-> _]|[? _]]; [by apply not_elem_of_empty in Hin|done].
    + destruct Hstart as [[-> _]|[_ [?|<-]]];
        [by apply not_elem_of_empty in Hin|done|done].
    + intros Hi. destruct (Hidem Hi) as [Hsub ->].
      apply set_eq. intros x. split; [apply Hsub|].
      intros Hx%elem_of_singleton. by subst x.
  - rewrite vec_set_int_ok by lia. simpl.
    destruct (applyOperation_op q current current Hwf Hcur Hcur)
      as [-> Hop]. simpl.
    assert (elements_in_range q (cycle ∪ {[current]})) as Hr'.
    { intros x [Hx|Hx%elem_of_singleton]%elem_of_union;
        [by apply Hr|by subst x]. }
    split.
    + split; [done|]. split; [done|]. split; [by rewrite length_insert|].
      split; [|split].
      * intros x. rewrite used_insert by lia. rewrite Hvis, elem_of_union,
          elem_of_singleton. split.
        -- intros [->|[?|?]]; [right; right; lia|by left|by right; left].
        -- intros [?|[?|Hx]]; [by right; left|by right; right|left; lia].
      * right. destruct Hstart as [[-> ->]|[Hs [Ho|Ho]]].
        -- split; [|by right]. apply elem_of_union. right.
           by apply elem_of_singleton.
        -- split; [by apply elem_of_union; left|left].
           by apply elem_of_union; left.
        -- split; [by apply elem_of_union; left|left].
           apply elem_of_union. right. by apply elem_of_singleton.
      * intros Hi. destruct (Hidem Hi) as [Hsub ->]. split; [|done].
        intros x [Hx|Hx]%elem_of_union; [by apply Hsub|done].
    + simpl. rewrite size_union, size_singleton
        by (by apply disjoint_singleton_r).
      assert (0 ≤ order q) as Hn by lia.
      pose proof (elements_in_range_size q _ Hn Hr') as Hsz.
      rewrite size_union, size_singleton in Hsz
        by (by apply disjoint_singleton_r).
      lia.
Qed.

Lemma cycle_loop_total (q : Quasigroup) (fuel : nat) (start : Z)
    (visited0 : list bool) :
  well_formed q → Z.of_nat (length visited0) = order q →
  0 ≤ start < order q → order q < Z.of_nat fuel →
  ∃ r, while_loop fuel (cycle_step q) (∅, visited0, start) = Ok r
       ∧ cycle_post q start visited0 r.
Proof.
  intros Hwf Hlen Hstart Hfuel.
  apply (while_loop_total fuel (cycle_step q) (cycle_inv q start visited0)
           (λ st, (Z.to_nat (order q) - size st.1.1)%nat)).
  - intros st Hinv. by apply cycle_step_spec.
  - split; [by intros x Hx%not_elem_of_empty|]. split; [done|].
    split; [done|]. split; [|split].
    + intros x. split; [by left|]. intros [?|Hx]; [done|].
      by apply not_elem_of_empty in Hx.
    + by left.
    + done.
  - cbv beta. change (∅, visited0, start).1.1 with (∅ : gset Z).
    rewrite size_empty. lia.
Qed.

(** ** The detector in NON_TRIVIAL mode *)

Lemma size_one_singleton (s : gset Z) (x : Z) :
  size s = 1%nat → x ∈ s → s = {[x]}.
Proof.
  intros Hs Hx. apply size_1_elem_of in Hs as [y Hy].
  apply leibniz_equiv in Hy. subst s.
  apply elem_of_singleton in Hx. by subst y.
Qed.

Lemma hasSubquasigroups_start_nontrivial (q : Quasigroup) (fuel : nat)
    (k : Z) (visited : list bool) :
  well_formed q → order q < Z.of_nat fuel → 0 ≤ k < order q →
  visited_inv q k visited →
  match hasSubquasigroups_start fuel q NON_TRIVIAL k visited with
  | Ok (Continue visited') => visited_inv q (k + 1) visited'
  | Ok (Return b) =>
      b = true ∧ ∃ x, 0 ≤ x < order q ∧ ¬ idempotent q x
  | Err _ => False
  end.
Proof.
  intros Hwf Hfuel Hk (Hlen & Hbelow & Hidem).
  unfold hasSubquasigroups_start.
  destruct (vec_get_int_ok visited k) as (v & Hv & ->); [lia|]. simpl.
  destruct v.
  { (* already marked *)
    split; [done|]. split; [|done].
    intros x Hx. destruct (decide (Z.of_nat x = k)) as [<-|Hne].
    - by rewrite Nat2Z.id in Hv.
    - apply Hbelow. lia. }
  destruct (cycle_loop_total q fuel k visited Hwf Hlen Hk Hfuel)
    as ([cycle visited'] & -> & Hpost). simpl.
  destruct Hpost as (Hr & Hlen' & Hvis & Hstart & Hsq & Hone).
  destruct (verifyNonTrivial_total q fuel cycle Hwf Hr Hfuel)
    as (b & Hb & H1 & H2).
  unfold NON_TRIVIAL. rewrite Hb. simpl.
  assert (size cycle ≠ 0%nat) as Hne.
  { intros H0. apply size_empty_inv in H0. apply leibniz_equiv in H0.
    subst cycle. by apply not_elem_of_empty in Hstart. }
  destruct (decide (size cycle = 1%nat)) as [Hs1|Hs1].
  - rewrite (H1 Hs1).
    pose proof (size_one_singleton cycle k Hs1 Hstart) as ->.
    apply elem_of_singleton in Hsq.
    split; [lia|]. split.
    + intros x Hx. apply Hvis.
      destruct (decide (Z.of_nat x = k)) as [<-|Hxk].
      * right. by apply elem_of_singleton.
      * left. apply Hbelow. lia.
    + intros x Hx. apply Hvis in Hx as [Hx|Hx]; [by apply Hidem|].
      apply elem_of_singleton in Hx. by rewrite Hx.
  - rewrite H2 by lia. split; [done|]. exists k. split; [done|].
    intros Hi. specialize (Hone Hi). subst cycle.
    by rewrite size_singleton in Hs1.
Qed.

Lemma visited_inv_init (q : Quasigroup) :
  0 ≤ order q → visited_inv q 0 (replicate (Z.to_nat (order q)) false).
Proof.
  intros Hn. split; [rewrite length_replicate; lia|]. split.
  - intros x Hx. lia.
  - intros x Hx. by apply lookup_replicate in Hx as [? _].
Qed.

Lemma hasSubquasigroups_nontrivial_spec (q : Quasigroup) (fuel : nat) :
  well_formed q → order q < Z.of_nat fuel →
  ∃ b, hasSubquasigroups fuel q NON_TRIVIAL = Ok b
       ∧ (b = false ↔ ∀ x, 0 ≤ x < order q → idempotent q x).
Proof.
  intros Hwf Hfuel.
  assert (0 ≤ order q) as Hn by (destruct Hwf as [-> _]; lia).
  unfold hasSubquasigroups.
  pose proof (for_each_seqZ_inv (order q)
    (hasSubquasigroups_start fuel q NON_TRIVIAL)
    (visited_inv q)
    (λ b, b = true ∧ ∃ x, 0 ≤ x < order q ∧ ¬ idempotent q x)
    (λ _, False) (replicate (Z.to_nat (order q)) false) Hn
    (visited_inv_init q Hn)
    (λ k s Hk Hinv,
       hasSubquasigroups_start_nontrivial q fuel k s Hwf Hfuel Hk Hinv)) as H.
  destruct (for_each (seqZ 0 (order q)) _ _) as [[visited|b]|e]; simpl;
    [| |done].
  - exists false. split; [done|]. split; [intros _|done].
    destruct H as (Hlen & Hbelow & Hidem). intros x Hx.
    rewrite <-(Z2Nat.id x) by lia. apply Hidem, Hbelow. lia.
  - exists b. split; [done|]. destruct H as (-> & x & Hx & Hnot).
    split; [done|]. intros Hall. exfalso. by apply Hnot, Hall.
Qed.

Lemma mkQuasigroup_well_formed (table : list (list Z)) :
  square table → entries_in_range table → well_formed (mkQuasigroup table).
Proof. intros Hsq Hr. by split_and!. Qed.

(** C10: for a quasigroup of order n >= 1 whose table is square with all
    entries in [0, n), [hasSubquasigroups(NON_TRIVIAL)] returns, and it
    returns false exactly when every element is idempotent, that is when
    [table[x][x] = x] for every x in [0, n); in particular it returns true
    whenever some diagonal entry differs from its index. *)
Theorem hasSubquasigroups_nontrivial_iff_idempotent (table : list (list Z))
    (fuel : nat) :
  square table → entries_in_range table →
  (1 ≤ length table)%nat → (length table < fuel)%nat →
  ∃ b, hasSubquasigroups fuel (mkQuasigroup table) NON_TRIVIAL = Ok b
       ∧ (b = false ↔
            ∀ x, (x < length table)%nat → entry table x x = Z.of_nat x)
       ∧ ((∃ x, (x < length table)%nat ∧ entry table x x ≠ Z.of_nat x) →
            b = true).
Proof.
  intros Hsq Hr Hn Hfuel.
  pose proof (mkQuasigroup_well_formed table Hsq Hr) as Hwf.
  destruct (hasSubquasigroups_nontrivial_spec (mkQuasigroup table) fuel Hwf)
    as (b & Hb & Hiff); [simpl; lia|].
  assert (b = false ↔
            ∀ x, (x < length table)%nat → entry table x x = Z.of_nat x)
    as Hiff'.
  { rewrite Hiff. unfold idempotent, op. simpl. split.
    - intros H x Hx. specialize (H (Z.of_nat x)).
      rewrite Nat2Z.id in H. apply H. lia.
    - intros H x Hx. rewrite H by lia. lia. }
  exists b. split_and!; [done|done|].
  intros (x & Hx & Hne). destruct b; [done|].
  exfalso. apply Hne. by apply Hiff'.
Qed.

Lemma hasSubquasigroups_nontrivial_iff_idempotent_witness :
  ∃ b, hasSubquasigroups 4 (mkQuasigroup [[0; 2; 1]; [2; 1; 0]; [1; 0; 2]])
         NON_TRIVIAL = Ok b
       ∧ (b = false ↔
            ∀ x, (x < 3)%nat →
                 entry [[0; 2; 1]; [2; 1; 0]; [1; 0; 2]] x x = Z.of_nat x)
       ∧ ((∃ x, (x < 3)%nat
                ∧ entry [[0; 2; 1]; [2; 1; 0]; [1; 0; 2]] x x ≠ Z.of_nat x) →
            b = true).
Proof.
  apply (hasSubquasigroups_nontrivial_iff_idempotent
           [[0; 2; 1]; [2; 1; 0]; [1; 0; 2]] 4).
  - repeat constructor.
  - intros row v Hrow Hv. simpl.
    repeat (apply elem_of_cons in Hrow as [->|Hrow];
            [repeat (apply elem_of_cons in Hv as [->|Hv]; [lia|]);
             by apply elem_of_nil in Hv|]).
    by apply elem_of_nil in Hrow.
  - simpl. lia.
  - simpl. lia.
Defined.

(** ** More fuel does not change the detector's answer *)

Lemma hasSubquasigroups_start_mono (fuel fuel' : nat) (q : Quasigroup)
    (mode : bool) (start : Z) (visited : list bool)
    (c : ctl (list bool) bool) :
  (fuel ≤ fuel')%nat →
  hasSubquasigroups_start fuel q mode start visited = Ok c →
  hasSubquasigroups_start fuel' q mode start visited = Ok c.
Proof.
  intros Hle. unfold hasSubquasigroups_start.
  destruct (vec_get_int visited start) as [[|]|e]; simpl; [done| |done].
  destruct (while_loop fuel (cycle_step q) (∅, visited, start))
    as [[cycle visited']|e] eqn:Hcyc; simpl; [|done].
  rewrite (while_loop_mono fuel fuel' _ _ _ Hle Hcyc). simpl.
  destruct mode.
  - unfold verifyProperSubquasigroup.
    destruct (while_loop fuel (verifyProper_round q) cycle) as [b|e] eqn:Hv;
      simpl; [|done].
    by rewrite (while_loop_mono fuel fuel' _ _ _ Hle Hv).
  - unfold verifyNonTrivialSubquasigroup.
    destruct (decide (size cycle = 1%nat)); [done|].
    destruct (while_loop fuel (verifyNonTrivial_round q) cycle) as [b|e] eqn:Hv;
      simpl; [|done].
    by rewrite (while_loop_mono fuel fuel' _ _ _ Hle Hv).
Qed.

Lemma hasSubquasigroups_mono (fuel fuel' : nat) (q : Quasigroup)
    (mode b : bool) :
  (fuel ≤ fuel')%nat →
  hasSubquasigroups fuel q mode = Ok b →
  hasSubquasigroups fuel' q mode = Ok b.
Proof.
  intros Hle. unfold hasSubquasigroups.
  destruct (for_each (seqZ 0 (order q))
              (hasSubquasigroups_start fuel q mode) _) as [c|e] eqn:Hc;
    simpl; [|done].
  erewrite for_each_mono; [| |exact Hc]; [done|].
  intros x s c'. by apply hasSubquasigroups_start_mono.
Qed.

(** An answer computed with some fuel is the only answer the detector ever
    gives. *)
Lemma hasSubquasigroups_unique (fuel fuel' : nat) (q : Quasigroup)
    (mode b b' : bool) :
  hasSubquasigroups fuel q mode = Ok b →
  hasSubquasigroups fuel' q mode = Ok b' → b = b'.
Proof.
  intros H H'.
  apply (hasSubquasigroups_mono _ (Nat.max fuel fuel')) in H; [|lia].
  apply (hasSubquasigroups_mono _ (Nat.max fuel fuel')) in H'; [|lia].
  congruence.
Qed.

(** ** The detector in PROPER mode when 0 is idempotent *)

Lemma hasSubquasigroups_start_proper_zero (q : Quasigroup) (fuel : nat) :
  well_formed q → order q < Z.of_nat fuel → 2 ≤ order q →
  idempotent q 0 →
  hasSubquasigroups_start fuel q PROPER 0
    (replicate (Z.to_nat (order q)) false) = Ok (Return true).
Proof.
  intros Hwf Hfuel Hn Hidem.
  set (visited := replicate (Z.to_nat (order q)) false).
  assert (Z.of_nat (length visited) = order q) as Hlen.
  { unfold visited. rewrite length_replicate. lia. }
  unfold hasSubquasigroups_start.
  destruct (vec_get_int_ok visited 0) as (v & Hv & ->); [lia|]. simpl.
  apply lookup_replicate in Hv as [-> _].
  destruct (cycle_loop_total q fuel 0 visited Hwf Hlen ltac:(lia) Hfuel)
    as ([cycle visited'] & -> & Hpost). simpl.
  destruct Hpost as (Hr & _ & _ & _ & _ & Hone).
  specialize (Hone Hidem). subst cycle.
  assert (closed_under q {[0]}) as Hclosed.
  { intros a b Ha%elem_of_singleton Hb%elem_of_singleton. subst a b.
    apply elem_of_singleton. apply Hidem. }
  destruct (verifyProper_total q fuel {[0]} Hwf Hr Hfuel) as (b & -> & H).
  simpl.
  assert (b = true) as ->; [|done].
  destruct H as [[_ (s & a & c & Hg & Ha & Hc & Hnin & _)]|(s & Hg & _ & ->)].
  - apply (grows_closed _ _ _ _ Hclosed) in Hg. subst s.
    exfalso. apply Hnin. by apply Hclosed.
  - apply (grows_closed _ _ _ _ Hclosed) in Hg. subst s.
    rewrite size_singleton. apply bool_decide_eq_true. lia.
Qed.

Lemma hasSubquasigroups_proper_idempotent_zero (q : Quasigroup) (fuel : nat) :
  well_formed q → order q < Z.of_nat fuel → 2 ≤ order q →
  idempotent q 0 →
  hasSubquasigroups fuel q PROPER = Ok true.
Proof.
  intros Hwf Hfuel Hn Hidem.
  unfold hasSubquasigroups. rewrite seqZ_cons by lia. cbn [for_each].
  by rewrite hasSubquasigroups_start_proper_zero.
Qed.

(** ** The cyclic-group table *)

Lemma wrap_int_id (z : Z) : INT_MIN ≤ z ≤ INT_MAX → wrap_int z = z.
Proof.
  unfold INT_MIN, INT_MAX, wrap_int. intros Hz.
  rewrite Z.mod_small by lia. lia.
Qed.

Lemma cyclic_length (n : Z) :
  length (generateCyclicGroupCayleyTable n) = Z.to_nat n.
Proof.
  unfold generateCyclicGroupCayleyTable. by rewrite length_fmap, length_seqZ.
Qed.

Lemma cyclic_square (n : Z) : square (generateCyclicGroupCayleyTable n).
Proof.
  unfold square. rewrite cyclic_length.
  unfold generateCyclicGroupCayleyTable. apply Forall_fmap, Forall_forall.
  intros row _. simpl. by rewrite length_fmap, length_seqZ.
Qed.

Lemma cyclic_entry (n : Z) (i j : nat) :
  1 ≤ n ≤ 2 ^ 30 → Z.of_nat i < n → Z.of_nat j < n →
  entry (generateCyclicGroupCayleyTable n) i j
  = (Z.of_nat i + Z.of_nat j) `mod` n.
Proof.
  intros Hn Hi Hj. unfold entry, generateCyclicGroupCayleyTable.
  rewrite (list_lookup_total_fmap _ (seqZ 0 n) i)
    by (rewrite length_seqZ; lia).
  rewrite (list_lookup_total_fmap _ (seqZ 0 n) j)
    by (rewrite length_seqZ; lia).
  rewrite !lookup_total_seqZ_lt by lia. rewrite !Z.add_0_l.
  unfold int_add. rewrite wrap_int_id by (unfold INT_MIN, INT_MAX; lia).
  apply Z.rem_mod_nonneg; lia.
Qed.

Lemma cyclic_well_formed (n : Z) :
  1 ≤ n ≤ 2 ^ 30 →
  well_formed (mkQuasigroup (generateCyclicGroupCayleyTable n)).
Proof.
  intros Hn. apply mkQuasigroup_well_formed; [apply cyclic_square|].
  intros row v Hrow Hv. rewrite cyclic_length, Z2Nat.id by lia.
  apply list_elem_of_lookup in Hrow as [i Hi].
  apply list_elem_of_lookup in Hv as [j Hj].
  pose proof (lookup_lt_Some _ _ _ Hi) as Hi'.
  pose proof (lookup_lt_Some _ _ _ Hj) as Hj'.
  rewrite (square_row_length _ _ _ (cyclic_square n) Hi) in Hj'.
  rewrite cyclic_length in Hi', Hj'.
  rewrite <-(row_lookup_entry _ _ _ _ _ Hi Hj).
  rewrite cyclic_entry by lia. apply Z.mod_pos_bound. lia.
Qed.

Lemma cyclic_order (n : Z) :
  0 ≤ n → order (mkQuasigroup (generateCyclicGroupCayleyTable n)) = n.
Proof. intros Hn. simpl. rewrite cyclic_length. lia. Qed.

Lemma cyclic_op (n a b : Z) :
  1 ≤ n ≤ 2 ^ 30 → 0 ≤ a < n → 0 ≤ b < n →
  op (mkQuasigroup (generateCyclicGroupCayleyTable n)) a b = (a + b) `mod` n.
Proof.
  intros Hn Ha Hb. unfold op. simpl.
  rewrite cyclic_entry by lia. f_equal. lia.
Qed.

(** The detector on the cyclic group of order [n]: both answers are true
    from order 2 on, and both are false for order 1. *)
Lemma cyclic_detection (n : Z) (fuel : nat) :
  1 ≤ n ≤ 2 ^ 30 → n < Z.of_nat fuel →
  hasSubquasigroups fuel (mkQuasigroup (generateCyclicGroupCayleyTable n))
    PROPER = Ok (bool_decide (2 ≤ n))
  ∧ hasSubquasigroups fuel (mkQuasigroup (generateCyclicGroupCayleyTable n))
      NON_TRIVIAL = Ok (bool_decide (2 ≤ n)).
Proof.
  intros Hn Hfuel.
  set (q := mkQuasigroup (generateCyclicGroupCayleyTable n)).
  pose proof (cyclic_well_formed n Hn) as Hwf. fold q in Hwf.
  pose proof (cyclic_order n ltac:(lia)) as Hord. fold q in Hord.
  assert (hasSubquasigroups fuel q NON_TRIVIAL = Ok (bool_decide (2 ≤ n)))
    as Hnt.
  { destruct (hasSubquasigroups_nontrivial_spec q fuel Hwf) as (b & Hb & Hiff);
      [lia|].
    rewrite Hb. f_equal. rewrite Hord in Hiff.
    destruct (decide (2 ≤ n)) as [H2|H2].
    - rewrite bool_decide_eq_true_2 by done. destruct b; [done|].
      exfalso. assert (idempotent q 1) as H1 by (apply Hiff; [done|lia]).
      unfold idempotent, q in H1. rewrite cyclic_op in H1 by lia.
      simpl in H1. destruct (decide (n = 2)) as [->|]; [done|].
      rewrite Z.mod_small in H1 by lia. done.
    - rewrite bool_decide_eq_false_2 by done. apply Hiff.
      intros x Hx. assert (x = 0) as -> by lia.
      unfold idempotent, q. rewrite cyclic_op by lia.
      apply Z.mod_small. lia. }
  split; [|done].
  destruct (decide (2 ≤ n)) as [H2|H2].
  - rewrite bool_decide_eq_true_2 by done.
    apply hasSubquasigroups_proper_idempotent_zero; [done|lia|lia|].
    unfold idempotent, q. rewrite cyclic_op by lia. apply Z.mod_small. lia.
  - rewrite bool_decide_eq_false_2 by done.
    assert (n = 1) as -> by lia.
    apply (hasSubquasigroups_mono 2 fuel); [lia|]. reflexivity.
Qed.

(** C3, as the code has it: on the cyclic-group table of order n the
    detector reports proper-exists = true for every order n >= 2, prime or
    composite (the one-element set {0} is closed and smaller than the
    whole), and false for order 1; non-trivial-exists equals proper-exists
    for every order n >= 1. Orders up to 2^30 keep [row + column] within
    [int]. *)
Theorem cyclic_group_detection (n : Z) (fuel : nat) :
  1 ≤ n ≤ 2 ^ 30 → n < Z.of_nat fuel →
  hasSubquasigroups fuel (mkQuasigroup (generateCyclicGroupCayleyTable n))
    PROPER = Ok (bool_decide (2 ≤ n))
  ∧ hasSubquasigroups fuel (mkQuasigroup (generateCyclicGroupCayleyTable n))
      NON_TRIVIAL
    = hasSubquasigroups fuel (mkQuasigroup (generateCyclicGroupCayleyTable n))
        PROPER.
Proof.
  intros Hn Hfuel. destruct (cyclic_detection n fuel Hn Hfuel) as [Hp Hnt].
  split; [done|]. by rewrite Hp, Hnt.
Qed.

Lemma cyclic_group_detection_witness :
  hasSubquasigroups 6 (mkQuasigroup (generateCyclicGroupCayleyTable 5))
    PROPER = Ok (bool_decide (2 ≤ 5))
  ∧ hasSubquasigroups 6 (mkQuasigroup (generateCyclicGroupCayleyTable 5))
      NON_TRIVIAL
    = hasSubquasigroups 6 (mkQuasigroup (generateCyclicGroupCayleyTable 5))
        PROPER.
Proof. apply (cyclic_group_detection 5 6); simpl; lia. Defined.

(** C3 as stated fails at the prime order 2: the detector reports a proper
    subquasigroup there, with whatever fuel it is run. *)
Lemma cyclic_prime_order_reports_proper :
  Z.prime 2
  ∧ hasSubquasigroups 3 (mkQuasigroup (generateCyclicGroupCayleyTable 2))
      PROPER = Ok true
  ∧ ¬ ∃ fuel,
        hasSubquasigroups fuel (mkQuasigroup (generateCyclicGroupCayleyTable 2))
          PROPER = Ok false.
Proof.
  split; [apply Z.prime_2|]. split; [reflexivity|].
  intros [fuel H].
  by pose proof (hasSubquasigroups_unique fuel 3 _ _ _ _ H eq_refl).
Qed.

(** C6, as the code has it: on the order-2 cyclic table [[0,1],[1,0]]
    [hasSubquasigroups(PROPER)] returns true ({0} is closed and has fewer
    elements than the whole) and [hasSubquasigroups(NON_TRIVIAL)] returns
    true (the closure of the walk from 1 is the whole set, of size 2). *)
Theorem order_two_cyclic_detection (fuel : nat) :
  (3 ≤ fuel)%nat →
  hasSubquasigroups fuel (mkQuasigroup [[0; 1]; [1; 0]]) PROPER = Ok true
  ∧ hasSubquasigroups fuel (mkQuasigroup [[0; 1]; [1; 0]]) NON_TRIVIAL
    = Ok true.
Proof.
  intros Hfuel.
  change [[0; 1]; [1; 0]] with (generateCyclicGroupCayleyTable 2).
  apply (cyclic_detection 2 fuel); lia.
Qed.

Lemma order_two_cyclic_detection_witness :
  hasSubquasigroups 3 (mkQuasigroup [[0; 1]; [1; 0]]) PROPER = Ok true
  ∧ hasSubquasigroups 3 (mkQuasigroup [[0; 1]; [1; 0]]) NON_TRIVIAL = Ok true.
Proof. apply (order_two_cyclic_detection 3). lia. Defined.

(** C6 as stated fails: neither mode ever answers false on this table. *)
Lemma order_two_cyclic_never_false :
  (¬ ∃ fuel,
       hasSubquasigroups fuel (mkQuasigroup [[0; 1]; [1; 0]]) PROPER
       = Ok false)
  ∧ (¬ ∃ fuel,
         hasSubquasigroups fuel (mkQuasigroup [[0; 1]; [1; 0]]) NON_TRIVIAL
         = Ok false).
Proof.
  split; intros [fuel H];
    by pose proof (hasSubquasigroups_unique fuel 3 _ _ _ _ H eq_refl).
Qed.

(** ** The early exit of the PROPER check *)

(** Whatever growth reaches stays inside every closed superset of the
    seed. *)
Lemma grows_below_closed (q : Quasigroup) (bound : option Z)
    (seed s c : gset Z) :
  grows q bound seed s → closed_under q c → seed ⊆ c → s ⊆ c.
Proof.
  intros Hg Hc Hsub. induction Hg as [|s a b Hg IH Ha Hb _ _]; [done|].
  intros x [Hx|Hx%elem_of_singleton]%elem_of_union; [by apply IH|].
  subst x. apply Hc; by apply IH.
Qed.

Lemma grows_bounded (q : Quasigroup) (k : Z) (seed s : gset Z) :
  grows q (Some k) seed s → s = seed ∨ Z.of_nat (size s) ≤ k.
Proof. intros Hg. destruct Hg; [by left|by right]. Qed.

(** The two ways the check can end exclude each other. *)
Lemma exceeds_not_stable (q : Quasigroup) (k : Z) (seed s : gset Z) :
  exceeds q k seed → grows q (Some k) seed s → closed_under q s → False.
Proof.
  intros (s1 & a & b & Hg1 & Ha & Hb & Hnin & Hk) Hg Hc.
  pose proof (grows_subseteq _ _ _ _ Hg) as Hsub.
  pose proof (grows_below_closed _ _ _ _ _ Hg1 Hc Hsub) as Hs1.
  destruct (grows_bounded _ _ _ _ Hg) as [->|Hle].
  - apply (grows_closed _ _ _ _ Hc) in Hg1. subst s1.
    apply Hnin. by apply Hc.
  - assert (s1 ∪ {[op q a b]} ⊆ s) as Hsub'.
    { intros x [Hx|Hx%elem_of_singleton]%elem_of_union; [by apply Hs1|].
      subst x. apply Hc; by apply Hs1. }
    apply subseteq_size in Hsub'. lia.
Qed.

(** ** Closed subsets of a Latin square *)

(** The image of a set under a function that is injective on it has the
    size of the set. *)
Lemma size_image (f : Z → Z) (s : gset Z) :
  (∀ x y, x ∈ s → y ∈ s → f x = f y → x = y) →
  size (list_to_set (f <$> elements s) : gset Z) = size s.
Proof.
  intros Hinj. rewrite size_list_to_set.
  - by rewrite length_fmap.
  - apply NoDup_fmap_2_strong; [|apply NoDup_elements].
    intros x y Hx%elem_of_elements Hy%elem_of_elements. by apply Hinj.
Qed.

Lemma elem_of_image (f : Z → Z) (s : gset Z) (y : Z) :
  y ∈ (list_to_set (f <$> elements s) : gset Z) ↔ ∃ x, x ∈ s ∧ y = f x.
Proof.
  rewrite elem_of_list_to_set, list_elem_of_fmap. split.
  - intros (x & -> & Hx%elem_of_elements). eauto.
  - intros (x & Hx & ->). exists x. split; [done|]. by apply elem_of_elements.
Qed.

Lemma latin_op_injective (q : Quasigroup) :
  well_formed q → latin (cayleyTable q) →
  (∀ a b b', 0 ≤ a < order q → 0 ≤ b < order q → 0 ≤ b' < order q →
     op q a b = op q a b' → b = b')
  ∧ (∀ a a' b, 0 ≤ a < order q → 0 ≤ a' < order q → 0 ≤ b < order q →
       op q a b = op q a' b → a = a').
Proof.
  intros (Hord & Hsq & _) Hlatin.
  pose proof (proj2 (lines_ok_latin _ Hsq) Hlatin) as Hlines.
  clear Hlatin. rename Hlines into Hlatin.
  split.
  - intros a b b' Ha Hb Hb' Heq.
    destruct (Hlatin (Z.to_nat a)) as (_ & Hrow & _); [lia|].
    assert (Z.to_nat b = Z.to_nat b') by (apply Hrow; [lia|lia|done]). lia.
  - intros a a' b Ha Ha' Hb Heq.
    destruct (Hlatin (Z.to_nat b)) as (_ & _ & Hcol); [lia|].
    assert (Z.to_nat a = Z.to_nat a') by (apply Hcol; [lia|lia|done]). lia.
Qed.

(** In a Latin square a closed set that is not the whole set has at most
    half of the elements. *)
Lemma closed_proper_at_most_half (q : Quasigroup) (s : gset Z) :
  well_formed q → latin (cayleyTable q) →
  elements_in_range q s → closed_under q s →
  Z.of_nat (size s) < order q →
  2 * Z.of_nat (size s) ≤ order q.
Proof.
  intros Hwf Hlatin Hr Hc Hlt.
  destruct (latin_op_injective q Hwf Hlatin) as [Hrow Hcol].
  assert (0 ≤ order q) as Hn by (destruct Hwf as [-> _]; lia).
  set (n := Z.to_nat (order q)).
  (* an element outside [s] *)
  assert (∃ x, 0 ≤ x < order q ∧ x ∉ s) as (x & Hx & Hxs).
  { assert (0 < size (symbols n ∖ s))%nat as Hpos.
    { rewrite size_difference_alt, size_symbols.
      assert (size (symbols n ∩ s) ≤ size s)%nat
        by apply subseteq_size, intersection_subseteq_r.
      unfold n in *. lia. }
    apply size_pos_elem_of in Hpos as [x Hxd].
    apply elem_of_difference in Hxd as [Hxn Hxs].
    apply elem_of_symbols in Hxn. exists x. split; [unfold n in Hxn; lia|done]. }
  (* every row of [s] restricted to [s] covers [s] *)
  assert (∀ a y, a ∈ s → y ∈ s → ∃ b, b ∈ s ∧ y = op q a b) as Hcover.
  { intros a y Ha Hy.
    assert ((list_to_set ((λ b, op q a b) <$> elements s) : gset Z) = s)
      as Himg.
    { apply set_subseteq_size_eq.
      - intros z (b & Hb & ->)%elem_of_image. by apply Hc.
      - rewrite size_image; [done|].
        intros b b' Hb Hb'. apply Hrow; by apply Hr. }
    rewrite <-Himg in Hy. by apply elem_of_image in Hy. }
  (* column [x] maps [s] one-to-one outside [s] *)
  set (image := list_to_set ((λ a, op q a x) <$> elements s) : gset Z).
  assert (size image = size s) as Hsize.
  { apply size_image. intros a a' Ha Ha'. apply Hcol; [by apply Hr..|done]. }
  assert (image ## s) as Hdisj.
  { intros y (a & Ha & ->)%elem_of_image Hys.
    destruct (Hcover a _ Ha Hys) as (b & Hb & Heq).
    apply Hrow in Heq; [|by apply Hr|done|by apply Hr]. by subst b. }
  assert (image ∪ s ⊆ symbols n) as Hsub.
  { intros y [(a & Ha & ->)%elem_of_image|Hy]%elem_of_union;
      apply elem_of_symbols; unfold n; rewrite Z2Nat.id by done.
    - by apply applyOperation_op; [|apply Hr|].
    - by apply Hr. }
  apply subseteq_size in Hsub.
  rewrite size_union, size_symbols, Hsize in Hsub by done.
  unfold n in Hsub. lia.
Qed.

(** C5: in PROPER mode the check of a seed stops with the verdict false at
    the first growth step that makes the set larger than [order / 2]
    ([exceeds]); when no growth step does, the closure stabilises in a
    closed set [s], every grown set having stayed within [order / 2], and
    the verdict is true exactly when [s] has fewer than [order] elements.
    On a Latin square a seed that is larger than [order / 2] from the start
    gets the verdict false as well. *)
Theorem verifyProperSubquasigroup_early_exit (q : Quasigroup) (fuel : nat)
    (seed : gset Z) :
  well_formed q → elements_in_range q seed →
  order q < Z.of_nat fuel →
  ∃ b, verifyProperSubquasigroup fuel q seed = Ok b
       ∧ (exceeds q (order q `quot` 2) seed → b = false)
       ∧ (¬ exceeds q (order q `quot` 2) seed →
            ∃ s, grows q (Some (order q `quot` 2)) seed s
                 ∧ closed_under q s
                 ∧ (b = true ↔ Z.of_nat (size s) < order q))
       ∧ (latin (cayleyTable q) →
            order q `quot` 2 < Z.of_nat (size seed) → b = false).
Proof.
  intros Hwf Hseed Hfuel.
  assert (0 ≤ order q) as Hn by (destruct Hwf as [-> _]; lia).
  destruct (verifyProper_total q fuel seed Hwf Hseed Hfuel) as (b & Hb & H).
  exists b. split; [done|].
  destruct H as [[-> Hex]|(s & Hg & Hc & ->)].
  - split_and!; [done| |done]. intros Hne. by destruct Hne.
  - split_and!.
    + intros Hex. exfalso. by eapply exceeds_not_stable.
    + intros _. exists s. split_and!; [done..|].
      by rewrite bool_decide_eq_true.
    + intros Hlatin Hbig. apply bool_decide_eq_false. intros Hlt.
      pose proof (grows_size _ _ _ _ Hg) as Hsize.
      destruct (grows_bounded _ _ _ _ Hg) as [->|Hle]; [|lia].
      pose proof (closed_proper_at_most_half q seed Hwf Hlatin Hseed Hc Hlt)
        as Hhalf.
      assert (Z.of_nat (size seed) ≤ order q `quot` 2); [|lia].
      apply Z.quot_le_lower_bound; lia.
Qed.

Lemma verifyProperSubquasigroup_early_exit_witness :
  ∃ b, verifyProperSubquasigroup 5
         (mkQuasigroup (generateCyclicGroupCayleyTable 4)) {[1; 2]} = Ok b
       ∧ (exceeds (mkQuasigroup (generateCyclicGroupCayleyTable 4))
            (4 `quot` 2) {[1; 2]} → b = false)
       ∧ (¬ exceeds (mkQuasigroup (generateCyclicGroupCayleyTable 4))
              (4 `quot` 2) {[1; 2]} →
            ∃ s, grows (mkQuasigroup (generateCyclicGroupCayleyTable 4))
                   (Some (4 `quot` 2)) {[1; 2]} s
                 ∧ closed_under
                     (mkQuasigroup (generateCyclicGroupCayleyTable 4)) s
                 ∧ (b = true ↔ Z.of_nat (size s) < 4))
       ∧ (latin (cayleyTable (mkQuasigroup (generateCyclicGroupCayleyTable 4)))
          → 4 `quot` 2 < Z.of_nat (size ({[1; 2]} : gset Z)) → b = false).
Proof.
  apply (verifyProperSubquasigroup_early_exit
           (mkQuasigroup (generateCyclicGroupCayleyTable 4)) 5 {[1; 2]}).
  - apply cyclic_well_formed. lia.
  - intros x [Hx|Hx]%elem_of_union; apply elem_of_singleton in Hx;
      subst x; simpl; lia.
  - simpl. lia.
Defined.

(** ** Closed subsets the detector does not find *)

(** C2 fails on the code in both modes. On the Latin square [[1,0],[0,1]]
    the set {1} is closed and smaller than the whole, yet PROPER answers
    false: 1 is reached by the squaring walk from 0 and is never a seed of
    its own. On the idempotent Latin square of order 3 the whole set is
    closed and has more than one element, yet NON_TRIVIAL answers false:
    every seed is a singleton. *)
Theorem hasSubquasigroups_misses_closed_subsets :
  (isLatinSquare [[1; 0]; [0; 1]] = Ok true
   ∧ closed_under (mkQuasigroup [[1; 0]; [0; 1]]) {[1]}
   ∧ Z.of_nat (size ({[1]} : gset Z)) < 2
   ∧ hasSubquasigroups 3 (mkQuasigroup [[1; 0]; [0; 1]]) PROPER = Ok false)
  ∧ (isLatinSquare [[0; 2; 1]; [2; 1; 0]; [1; 0; 2]] = Ok true
     ∧ closed_under (mkQuasigroup [[0; 2; 1]; [2; 1; 0]; [1; 0; 2]])
         {[0; 1; 2]}
     ∧ 1 < Z.of_nat (size ({[0; 1; 2]} : gset Z))
     ∧ hasSubquasigroups 4 (mkQuasigroup [[0; 2; 1]; [2; 1; 0]; [1; 0; 2]])
         NON_TRIVIAL = Ok false).
Proof.
  split; split_and!; try reflexivity.
  - intros a b Ha%elem_of_singleton Hb%elem_of_singleton. subst a b.
    by apply elem_of_singleton.
  - intros a b Ha Hb.
    assert (∀ x : Z, x ∈ ({[0; 1; 2]} : gset Z) ↔ x = 0 ∨ x = 1 ∨ x = 2)
      as Hmem.
    { intros x. rewrite !elem_of_union, !elem_of_singleton. tauto. }
    apply Hmem in Ha, Hb. apply Hmem.
    destruct Ha as [Ha|[Ha|Ha]], Hb as [Hb|[Hb|Hb]]; subst a b;
      vm_compute; tauto.
Qed.

(** ** The generator: selections, searches and the replacement graph *)

Section GeneratorBasics.
Context {G : Type} (next : G → nat * G).

(** A selection from a non-empty set yields one of its members. *)
Lemma selectRandomElement_member (set : gset Z) (g : G) :
  set ≠ ∅ →
  ∃ x g', SRG.selectRandomElement next set g = Ok (x, g') ∧ x ∈ set.
Proof.
  intros Hne. unfold SRG.selectRandomElement.
  destruct (decide (elements set = [])) as [He|He].
  { apply elements_empty_inv, leibniz_equiv in He. done. }
  destruct (next g) as [raw g'].
  assert (raw `mod` length (elements set) < length (elements set))%nat as Hlt.
  { apply Nat.mod_upper_bound. by destruct (elements set). }
  destruct (lookup_lt_is_Some_2 _ _ Hlt) as [x Hx].
  exists x, g'. rewrite (vec_get_lookup _ _ _ Hx). simpl.
  split; [done|]. apply elem_of_elements. by eapply list_elem_of_lookup_2.
Qed.

End GeneratorBasics.

Lemma find_index_found (x : Z) (row : list Z) :
  x ∈ row →
  (find_index x row < length row)%nat
  ∧ row !! find_index x row = Some x.
Proof.
  intros Hx. unfold find_index.
  destruct (list_find (λ y, y = x) row) as [[i y]|] eqn:Hf.
  - apply list_find_Some in Hf as (Hi & -> & _).
    split; [by eapply lookup_lt_Some|done].
  - apply list_find_None in Hf. rewrite Forall_forall in Hf.
    by specialize (Hf x Hx).
Qed.

Lemma find_index_missing (x : Z) (row : list Z) :
  x ∉ row → find_index x row = length row.
Proof.
  intros Hx. unfold find_index.
  destruct (list_find (λ y, y = x) row) as [[i y]|] eqn:Hf; [|done].
  apply list_find_Some in Hf as (Hi & -> & _).
  exfalso. apply Hx. by eapply list_elem_of_lookup_2.
Qed.

(** The replacement graph maps every column up to the current one to its
    start-of-row availability. *)
Lemma constructReplacementGraph_spec (row : list Z) (cc : nat)
    (initial : list (gset Z)) :
  (cc < length initial)%nat →
  ∃ graph, SRG.constructReplacementGraph row cc initial = Ok graph
    ∧ ∀ p ini, (p ≤ cc)%nat → initial !! p = Some ini →
        default ∅ (graph !! p) = ini.
Proof.
  intros Hcc. unfold SRG.constructReplacementGraph.
  set (columns := reverse (seq 0 (S cc))).
  assert (NoDup columns) as Hnd.
  { unfold columns. rewrite reverse_Permutation. apply NoDup_seq. }
  pose proof (for_loop_inv columns
    (λ column (graph : gmap nat (gset Z)),
       available ← vec_get initial column;
       if decide (available = ∅) then Ok graph
       else Ok (<[column := available]> graph))
    (λ done graph, ∀ p,
       (p ∈ done → ∀ ini, initial !! p = Some ini →
                     default ∅ (graph !! p) = ini)
       ∧ (p ∉ done → default ∅ (graph !! p) = ∅))
    (λ _, False) ∅) as H.
  cbv beta in H.
  assert (∀ p : nat,
    (p ∈ [] → ∀ ini, initial !! p = Some ini →
                default ∅ ((∅ : gmap nat (gset Z)) !! p) = ini)
    ∧ (p ∉ [] → default ∅ ((∅ : gmap nat (gset Z)) !! p) = ∅)) as H0.
  { intros p. split; [by intros ?%elem_of_nil|]. intros _.
    by rewrite lookup_empty. }
  specialize (H H0). clear H0.
  assert (∀ done column rest (graph : gmap nat (gset Z)),
    columns = done ++ column :: rest →
    (∀ p, (p ∈ done → ∀ ini, initial !! p = Some ini →
                        default ∅ (graph !! p) = ini)
          ∧ (p ∉ done → default ∅ (graph !! p) = ∅)) →
    match
      available ← vec_get initial column;
      if decide (available = ∅) then Ok graph
      else Ok (<[column := available]> graph)
    with
    | Ok graph' =>
        ∀ p, (p ∈ done ++ [column] → ∀ ini, initial !! p = Some ini →
                default ∅ (graph' !! p) = ini)
             ∧ (p ∉ done ++ [column] → default ∅ (graph' !! p) = ∅)
    | Err _ => False
    end) as Hstep.
  { intros done column rest graph Hl Hinv.
    assert (column ∈ columns) as Hc.
    { rewrite Hl. apply elem_of_app. right. by left. }
    apply elem_of_reverse, elem_of_seq in Hc.
    assert (column ∉ done) as Hfresh.
    { rewrite Hl in Hnd. apply NoDup_app in Hnd as (_ & Hdis & _).
      intros Hin. apply (Hdis column Hin). by left. }
    destruct (lookup_lt_is_Some_2 initial column) as [av Hav]; [lia|].
    rewrite (vec_get_lookup _ _ _ Hav). simpl.
    destruct (decide (av = ∅)) as [->|Hne].
    - intros p. split.
      + intros [Hp|Hp]%elem_of_app ini Hini; [by apply Hinv|].
        apply list_elem_of_singleton in Hp as ->.
        assert (ini = ∅) as -> by congruence. by apply Hinv.
      + intros Hp. apply Hinv. intros Hin. apply Hp, elem_of_app. by left.
    - intros p. destruct (decide (p = column)) as [->|Hnc].
      + rewrite lookup_insert_eq. simpl. split; [intros _ ini; congruence|].
        intros Hp. exfalso. apply Hp, elem_of_app. right. by left.
      + rewrite lookup_insert_ne by done. split.
        * intros [Hp|Hp]%elem_of_app; [by apply Hinv|].
          by apply list_elem_of_singleton in Hp.
        * intros Hp. apply Hinv. intros Hin. apply Hp, elem_of_app. by left. }
  specialize (H Hstep). clear Hstep.
  destruct (for_loop columns _ ∅) as [graph|e]; [|done].
  exists graph. split; [done|]. intros p ini Hp Hini.
  apply H; [|done]. apply elem_of_reverse, elem_of_seq. lia.
Qed.

(** ** One displacement *)

Lemma elem_of_insert_row (row : list Z) (i : nat) (new s : Z) :
  (i < length row)%nat →
  s ∈ <[i:=new]> row ↔ s = new ∨ ∃ j, j ≠ i ∧ row !! j = Some s.
Proof.
  intros Hi. rewrite list_elem_of_lookup. split.
  - intros [j Hj]. destruct (decide (j = i)) as [->|Hne].
    + rewrite list_lookup_insert_eq in Hj by done. left. congruence.
    + rewrite list_lookup_insert_ne in Hj by done. right. eauto.
  - intros [->|(j & Hne & Hj)].
    + exists i. by rewrite list_lookup_insert_eq.
    + exists j. by rewrite list_lookup_insert_ne.
Qed.

Lemma avail_inv_displace (n : nat) (row : list Z) (avail : gset Z)
    (i : nat) (old new : Z) :
  avail_inv n row avail → row !! i = Some old → old ∈ symbols n →
  avail_inv n (<[i:=new]> row)
    ((if decide (old ∈ <[i:=new]> row) then avail else avail ∪ {[old]})
       ∖ {[new]}).
Proof.
  intros Hav Hold Hsym s.
  pose proof (lookup_lt_Some _ _ _ Hold) as Hi.
  rewrite elem_of_difference, elem_of_singleton.
  rewrite (elem_of_insert_row row i new s Hi).
  assert (s ∈ (if decide (old ∈ <[i:=new]> row) then avail
               else avail ∪ {[old]})
          ↔ s ∈ avail ∨ (s = old ∧ old ∉ <[i:=new]> row)) as ->.
  { destruct (decide (old ∈ <[i:=new]> row)) as [Hin|Hnin].
    - split; [by left|]. by intros [?|[_ ?]].
    - rewrite elem_of_union, elem_of_singleton. split.
      + intros [?| ->]; [by left|by right].
      + intros [?|[-> _]]; [by left|by right]. }
  rewrite (elem_of_insert_row row i new old Hi). rewrite (Hav s).
  split.
  - intros [[[Hs Hnin]|[-> Hnin]] Hne].
    + split; [done|]. intros [?|(j & _ & Hj)]; [done|].
      apply Hnin. by eapply list_elem_of_lookup_2.
    + split; [done|]. intros [?|Hj]; [done|]. apply Hnin. by right.
  - intros [Hs Hnin]. split; [|intros ->; apply Hnin; by left].
    destruct (decide (s ∈ row)) as [Hin|Hnotin]; [|by left].
    right. apply list_elem_of_lookup in Hin as [j Hj].
    destruct (decide (j = i)) as [->|Hne].
    + assert (s = old) as -> by congruence. split; [done|].
      intros [->|Hex]; apply Hnin; [by left|by right].
    + exfalso. apply Hnin. right. eauto.
Qed.

Lemma cols_inv_displace (initial : list (gset Z)) (row : list Z)
    (columns : list (gset Z)) (i : nat) (old new : Z) (ini col : gset Z) :
  cols_inv initial row columns →
  initial !! i = Some ini → row !! i = Some old → columns !! i = Some col →
  new ∈ ini →
  cols_inv initial (<[i:=new]> row)
    (<[i:=(col ∪ {[old]}) ∖ {[new]}]> columns).
Proof.
  intros Hcols Hini Hold Hcol Hnew p ini' Hp.
  pose proof (lookup_lt_Some _ _ _ Hold) as Hi.
  pose proof (lookup_lt_Some _ _ _ Hcol) as Hic.
  destruct (decide (p = i)) as [->|Hne].
  - rewrite !list_lookup_insert_eq by done.
    assert (ini' = ini) as -> by congruence. split; [done|].
    specialize (Hcols i ini Hini). rewrite Hold in Hcols.
    destruct Hcols as [Hoi Hc]. assert (col = ini ∖ {[old]}) as -> by congruence.
    f_equal. apply set_eq. intros s.
    rewrite !elem_of_difference, elem_of_union, elem_of_difference,
      !elem_of_singleton.
    split; [intros [[[? ?]| ->] ?]; by split|].
    intros [? ?]. split; [|done].
    destruct (decide (s = old)); [by right|by left].
  - rewrite !list_lookup_insert_ne by done. by apply Hcols.
Qed.

Lemma NoDup_except_fresh (hole : nat) (row : list Z) (new : Z) :
  (hole < length row)%nat →
  NoDup_except hole row → new ∉ row → NoDup (<[hole:=new]> row).
Proof.
  intros Hh Hnd Hnew. apply NoDup_alt. intros i j v Hi Hj.
  destruct (decide (i = hole)) as [->|Hih], (decide (j = hole)) as [->|Hjh];
    [done|..].
  - rewrite list_lookup_insert_eq in Hi by done.
    rewrite list_lookup_insert_ne in Hj by done.
    exfalso. apply Hnew. assert (v = new) as -> by congruence.
    by eapply list_elem_of_lookup_2.
  - rewrite list_lookup_insert_ne in Hi by done.
    rewrite list_lookup_insert_eq in Hj by done.
    exfalso. apply Hnew. assert (v = new) as -> by congruence.
    by eapply list_elem_of_lookup_2.
  - rewrite list_lookup_insert_ne in Hi, Hj by done.
    destruct (Hnd i j v Hi Hj) as [?|[?|?]]; done.
Qed.

Lemma NoDup_except_move (hole : nat) (row : list Z) (new : Z) :
  (hole < length row)%nat →
  NoDup_except hole row → new ∈ row →
  <[hole:=new]> row !! find_index new row = Some new
  ∧ NoDup_except (find_index new row) (<[hole:=new]> row).
Proof.
  intros Hh Hnd Hnew.
  destruct (find_index_found new row Hnew) as [Hlt Hat].
  set (k := find_index new row) in *.
  split.
  - destruct (decide (k = hole)) as [->|Hne].
    + by rewrite list_lookup_insert_eq.
    + by rewrite list_lookup_insert_ne.
  - intros i j v Hi Hj.
    destruct (decide (i = j)) as [|Hij]; [by left|]. right.
    destruct (decide (i = k)) as [|Hik]; [by left|]. right.
    destruct (decide (j = k)) as [|Hjk]; [done|]. exfalso.
    destruct (decide (i = hole)) as [->|Hih].
    + rewrite list_lookup_insert_eq in Hi by done.
      rewrite list_lookup_insert_ne in Hj by done.
      assert (v = new) as -> by congruence.
      destruct (Hnd j k new Hj Hat) as [?|[?|?]]; congruence.
    + rewrite list_lookup_insert_ne in Hi by done.
      destruct (decide (j = hole)) as [->|Hjh].
      * rewrite list_lookup_insert_eq in Hj by done.
        assert (v = new) as -> by congruence.
        destruct (Hnd i k new Hi Hat) as [?|[?|?]]; congruence.
      * rewrite list_lookup_insert_ne in Hj by done.
        destruct (Hnd i j v Hi Hj) as [?|[?|?]]; congruence.
Qed.

Lemma row_symbols (n : nat) (initial : list (gset Z)) (row : list Z)
    (columns : list (gset Z)) (i : nat) (v : Z) :
  initial_ok n initial → cols_inv initial row columns →
  (length row ≤ n)%nat → row !! i = Some v → v ∈ symbols n.
Proof.
  intros [Hlen Hsub] Hcols Hrow Hv.
  pose proof (lookup_lt_Some _ _ _ Hv) as Hi.
  destruct (lookup_lt_is_Some_2 initial i) as [ini Hini]; [lia|].
  specialize (Hcols i ini Hini). rewrite Hv in Hcols.
  destruct Hcols as [Hin _]. by apply (Hsub i ini).
Qed.

(** ** The displacement chain *)

Section GeneratorWalk.
Context {G : Type} (next : G → nat * G).

Lemma makeElementAvailable_step_spec (n : nat) (initial : list (gset Z))
    (cc : nat) (e0 : Z) (graph : gmap nat (gset Z)) (w : SRG.WalkState) :
  initial_ok n initial → (cc ≤ n)%nat →
  (∀ p ini, (p < cc)%nat → initial !! p = Some ini →
     default ∅ (graph !! p) = ini ∖ {[e0]} ∧ ini ∖ {[e0]} ≠ ∅) →
  walk_inv n initial cc e0 w →
  match SRG.makeElementAvailable_step next e0 graph w with
  | Ok (Continue w') => walk_inv n initial cc e0 w'
  | Ok (Return w') => walk_post n initial cc w'
  | Err _ => False
  end.
Proof.
  intros Hinit Hcc Hgraph (Hlen & Hlc & Hold & Hnd & Hav & Hcols).
  destruct w as [row avail cols oldIndex old visited g]. simpl in *.
  pose proof (lookup_lt_Some _ _ _ Hold) as Hi.
  destruct (lookup_lt_is_Some_2 initial oldIndex) as [ini Hini];
    [destruct Hinit; lia|].
  destruct (Hgraph oldIndex ini ltac:(lia) Hini) as [Hch Hne].
  pose proof (Hcols oldIndex ini Hini) as Hc. rewrite Hold in Hc.
  destruct Hc as [Holdini Hcol].
  assert (old ∈ symbols n) as Holdsym.
  { eapply row_symbols; [done..|lia|done]. }
  unfold SRG.makeElementAvailable_step. simpl. rewrite Hch.
  set (pick := if decide (ini ∖ {[e0]} ∖ visited = ∅)
               then (∅, ini ∖ {[e0]})
               else (visited, ini ∖ {[e0]} ∖ visited)).
  assert (pick.2 ≠ ∅ ∧ pick.2 ⊆ ini) as [Hpne Hpsub].
  { unfold pick. destruct (decide (ini ∖ {[e0]} ∖ visited = ∅)); simpl.
    - split; [done|]. intros s Hs.
      by apply elem_of_difference in Hs as [Hs _].
    - split; [done|]. intros s Hs.
      apply elem_of_difference in Hs as [Hs _].
      by apply elem_of_difference in Hs as [Hs _]. }
  destruct pick as [visited' choices]. simpl in *.
  destruct (selectRandomElement_member next choices g Hpne)
    as (new & g' & -> & Hnew). simpl.
  assert (new ∈ ini) as Hnewini by by apply Hpsub.
  unfold vec_set.
  rewrite (decide_True (P:=(oldIndex < length row)%nat)) by lia. simpl.
  rewrite (vec_get_lookup _ _ _ Hcol). simpl.
  rewrite (decide_True (P:=(oldIndex < length cols)%nat)) by lia. simpl.
  set (row' := <[oldIndex:=new]> row).
  set (avail' := (if decide (old ∈ row') then avail else avail ∪ {[old]})
                   ∖ {[new]}).
  set (cols' := <[oldIndex:=(ini ∖ {[old]} ∪ {[old]}) ∖ {[new]}]> cols).
  assert (length row' = cc) as Hlen' by (unfold row'; by rewrite length_insert).
  assert (length cols' = n) as Hlc' by (unfold cols'; by rewrite length_insert).
  assert (avail_inv n row' avail') as Hav' by by apply avail_inv_displace.
  assert (cols_inv initial row' cols') as Hcols'
    by by eapply cols_inv_displace.
  destruct (bool_decide (length row' ≤ find_index new row)%nat) eqn:Hexit.
  - (* the new element was not in the row: the chain ends *)
    apply bool_decide_eq_true in Hexit.
    assert (new ∉ row) as Hfresh.
    { intros Hin. destruct (find_index_found new row Hin) as [Hlt _].
      unfold row' in Hexit. rewrite length_insert in Hexit. lia. }
    assert (walk_post n initial cc
              {| SRG.w_row := row'; SRG.w_availableInRow := avail';
                 SRG.w_availableInColumns := cols';
                 SRG.w_oldIndex := find_index new row;
                 SRG.w_oldElement := new;
                 SRG.w_visitedPath := visited' ∪ {[new]};
                 SRG.w_rng := g' |}) as Hpost.
    { split_and!; simpl; [done|done| |done|done].
      by apply NoDup_except_fresh. }
    rewrite andb_true_r. by destruct (bool_decide (e0 ∈ avail')).
  - (* the new element sits at an earlier position: displace it next *)
    apply bool_decide_eq_false in Hexit.
    assert (new ∈ row) as Hin.
    { destruct (decide (new ∈ row)) as [|Hnin]; [done|].
      rewrite find_index_missing in Hexit by done.
      unfold row' in Hexit. rewrite length_insert in Hexit. lia. }
    rewrite andb_false_r.
    destruct (NoDup_except_move oldIndex row new Hi Hnd Hin) as [Hat Hnd'].
    split_and!; simpl; done.
Qed.

Lemma eraseInitialElementFromGraph_lookup (graph : gmap nat (gset Z))
    (e0 : Z) (p : nat) :
  default ∅ (SRG.eraseInitialElementFromGraph graph e0 !! p)
  = default ∅ (graph !! p) ∖ {[e0]}.
Proof.
  unfold SRG.eraseInitialElementFromGraph. rewrite lookup_fmap.
  destruct (graph !! p); simpl; [done|].
  apply set_eq. intros s. rewrite elem_of_difference.
  split; [by intros ?%not_elem_of_empty|by intros [?%not_elem_of_empty _]].
Qed.

(** [makeElementAvailable] either runs out of fuel or hands back a row
    without repetition and consistent availability sets. *)
Lemma makeElementAvailable_spec (n : nat) (initial : list (gset Z))
    (fuel : nat) (e0 : Z) (graph : gmap nat (gset Z)) (row : list Z)
    (avail : gset Z) (cols : list (gset Z)) (g : G) :
  initial_ok n initial → (length row ≤ n)%nat → length cols = n →
  (∀ p ini, (p < length row)%nat → initial !! p = Some ini →
     default ∅ (graph !! p) = ini ∧ ini ∖ {[e0]} ≠ ∅) →
  NoDup row → avail_inv n row avail → cols_inv initial row cols →
  e0 ∈ row →
  match SRG.makeElementAvailable next fuel e0 graph row (length row) avail
          cols g with
  | Ok w => walk_post n initial (length row) w
  | Err e => e = OutOfFuel
  end.
Proof.
  intros Hinit Hlen Hlc Hgraph Hnd Hav Hcols He0.
  unfold SRG.makeElementAvailable.
  apply (while_loop_inv fuel _ (walk_inv n initial (length row) e0)
           (λ r, match r with
                 | Ok w => walk_post n initial (length row) w
                 | Err e => e = OutOfFuel
                 end)); [done| |].
  - intros w Hw.
    pose proof (makeElementAvailable_step_spec n initial (length row) e0
      (SRG.eraseInitialElementFromGraph graph e0) w Hinit Hlen) as Hstep.
    assert (∀ p ini, (p < length row)%nat → initial !! p = Some ini →
      default ∅ (SRG.eraseInitialElementFromGraph graph e0 !! p)
      = ini ∖ {[e0]} ∧ ini ∖ {[e0]} ≠ ∅) as Hg.
    { intros p ini Hp Hini. rewrite eraseInitialElementFromGraph_lookup.
      by destruct (Hgraph p ini Hp Hini) as [-> ?]. }
    specialize (Hstep Hg Hw).
    by destruct (SRG.makeElementAvailable_step next e0 _ w) as [[w'|w']|e].
  - destruct (find_index_found e0 row He0) as [Hlt Hat].
    split_and!; simpl; [done|done|done| |done|done].
    rewrite NoDup_alt in Hnd. intros i j v Hi Hj. left. by eapply Hnd.
Qed.

End GeneratorWalk.

(** ** Filling one row *)

Section GeneratorRow.
Context {G : Type} (next : G → nat * G).

Lemma size_two_erase (ini : gset Z) (e0 : Z) :
  (2 ≤ size ini)%nat → ini ∖ {[e0]} ≠ ∅.
Proof.
  intros Hs He.
  assert (ini ⊆ {[e0]}) as Hsub.
  { intros s Hs'. destruct (decide (s = e0)) as [->|Hne];
      [by apply elem_of_singleton|].
    exfalso. apply (not_elem_of_empty (C:=gset Z) s). rewrite <-He.
    apply elem_of_difference. split; [done|]. by intros ?%elem_of_singleton. }
  apply subseteq_size in Hsub. rewrite size_singleton in Hsub. lia.
Qed.

Lemma size_two_nonempty (ini : gset Z) : (2 ≤ size ini)%nat → ini ≠ ∅.
Proof. intros Hs ->. rewrite size_empty in Hs. lia. Qed.

Lemma generateRow_step_spec (n : nat) (initial : list (gset Z))
    (fuel : nat) (st : SRG.RowState) :
  initial_ok n initial →
  roomy initial ∨ conflict_free n initial →
  row_inv n initial st →
  match SRG.generateRow_step next fuel (Z.of_nat n) initial st with
  | Ok (Continue st') => row_inv n initial st'
  | Ok (Return (row, cols, _)) =>
      length row = n ∧ NoDup row ∧ length cols = n
      ∧ cols_inv initial row cols
  | Err e => e = OutOfFuel
  end.
Proof.
  intros Hinit Hroom (Hcc & Hlen & Hlc & Hnd & Hav & Hcols).
  destruct st as [avail row cc cols g]. simpl in *. subst cc.
  unfold SRG.generateRow_step. simpl.
  destruct (decide (Z.of_nat (length row) < Z.of_nat n)) as [Hlt|Hge].
  2: { split_and!; [lia|done..]. }
  destruct (lookup_lt_is_Some_2 cols (length row)) as [av Hav']; [lia|].
  rewrite (vec_get_lookup _ _ _ Hav'). simpl.
  destruct (lookup_lt_is_Some_2 initial (length row)) as [ini Hini];
    [destruct Hinit; lia|].
  assert (av = ini) as ->.
  { specialize (Hcols (length row) ini Hini).
    rewrite (lookup_ge_None_2 row (length row)) in Hcols by lia. congruence. }
  destruct (decide (filter (λ symbol, symbol ∈ avail) ini ≠ ∅)) as [Hvalid|Hconf].
  - (* a symbol is free in the row and in the column *)
    destruct (selectRandomElement_member next _ g Hvalid)
      as (sel & g' & -> & Hsel). simpl.
    apply elem_of_filter in Hsel as [Hselav Hselini].
    unfold vec_set. rewrite decide_True by lia. simpl.
    split_and!; simpl.
    + rewrite length_app. simpl. lia.
    + rewrite length_app. simpl. lia.
    + by rewrite length_insert.
    + apply NoDup_app. split_and!; [done| |apply NoDup_singleton].
      intros s Hs ->%list_elem_of_singleton. by apply Hav in Hselav as [_ ?].
    + intros s. split.
      * intros [Hs Hne]%elem_of_difference. apply Hav in Hs as [? Hnr].
        split; [done|].
        intros [?|Hx%list_elem_of_singleton]%elem_of_app; [done|].
        apply Hne. by apply elem_of_singleton.
      * intros [Hs Hnin]. apply elem_of_difference. split.
        -- apply Hav. split; [done|]. intros ?. apply Hnin, elem_of_app.
           by left.
        -- intros Hx%elem_of_singleton. subst s.
           apply Hnin, elem_of_app. right. by left.
    + intros p ini' Hp. specialize (Hcols p ini' Hp).
      destruct (decide (p = length row)) as [->|Hne].
      * rewrite list_lookup_middle by done.
        rewrite list_lookup_insert_eq by lia.
        assert (ini' = ini) as -> by congruence. done.
      * rewrite list_lookup_insert_ne by done.
        destruct (decide (p < length row)%nat) as [Hpl|Hpl].
        -- by rewrite lookup_app_l by done.
        -- rewrite (lookup_ge_None_2 row p) in Hcols by lia.
           rewrite lookup_ge_None_2; [done|]. rewrite length_app. simpl. lia.
  - (* a conflict: repair the row *)
    apply dec_stable in Hconf.
    destruct Hroom as [Hroomy|Hfree].
    2: { exfalso. by apply (Hfree row avail cols ini Hnd ltac:(lia) Hav Hcols). }
    destruct (constructReplacementGraph_spec row (length row) initial)
      as (graph & -> & Hgraph); [destruct Hinit; lia|]. simpl.
    destruct (selectRandomElement_member next ini g) as (e0 & g' & -> & He0).
    { apply size_two_nonempty. apply (Hroomy _ _ Hini). }
    simpl.
    assert (e0 ∈ row) as He0row.
    { destruct (decide (e0 ∈ row)) as [|Hnin]; [done|]. exfalso.
      apply (not_elem_of_empty (C:=gset Z) e0). rewrite <-Hconf.
      apply elem_of_filter. split; [|done]. apply Hav. split; [|done].
      destruct Hinit as [_ Hsub]. by apply (Hsub _ _ Hini). }
    assert (∀ p ini', (p < length row)%nat → initial !! p = Some ini' →
      default ∅ (graph !! p) = ini' ∧ ini' ∖ {[e0]} ≠ ∅) as Hg.
    { intros p ini' Hp Hini'. split; [apply Hgraph; [lia|done]|].
      apply size_two_erase. apply (Hroomy _ _ Hini'). }
    pose proof (makeElementAvailable_spec next n initial fuel e0 graph row
      avail cols g' Hinit Hlen Hlc Hg Hnd Hav Hcols He0row) as Hwalk.
    destruct (SRG.makeElementAvailable next fuel e0 graph row (length row)
                avail cols g') as [w|e]; simpl; [|done].
    destruct Hwalk as (Hl' & Hlc' & Hnd' & Hav'' & Hcols').
    split_and!; simpl; [done|lia|done..].
Qed.

(** [generateRow] either runs out of fuel or returns a full row that fits
    the columns. *)
Lemma generateRow_spec (n : nat) (initial : list (gset Z)) (fuel : nat)
    (g : G) :
  initial_ok n initial →
  roomy initial ∨ conflict_free n initial →
  match SRG.generateRow next fuel (Z.of_nat n) (symbols n) initial g with
  | Ok (row, cols, _) =>
      length row = n ∧ NoDup row ∧ length cols = n
      ∧ cols_inv initial row cols
  | Err e => e = OutOfFuel
  end.
Proof.
  intros Hinit Hroom. unfold SRG.generateRow.
  apply (while_loop_inv fuel _ (row_inv n initial)
    (λ r, match r with
          | Ok (row, cols, _) =>
              length row = n ∧ NoDup row ∧ length cols = n
              ∧ cols_inv initial row cols
          | Err e => e = OutOfFuel
          end)); [done| |].
  - intros st Hst.
    pose proof (generateRow_step_spec n initial fuel st Hinit Hroom Hst).
    by destruct (SRG.generateRow_step next fuel (Z.of_nat n) initial st)
      as [[st'|[[row cols] g']]|e].
  - split_and!; simpl; [done|lia|by destruct Hinit|apply NoDup_nil_2| |].
    + intros s. split; [intros Hs; split; [done|by intros ?%elem_of_nil]|].
      by intros [? _].
    + intros p ini Hp. by rewrite lookup_nil.
Qed.

End GeneratorRow.

(** ** From one row to the next *)

Lemma table_inv_initial_ok (n : nat) (rows : list (list Z))
    (columns : list (gset Z)) :
  table_inv n rows columns → initial_ok n columns.
Proof.
  intros (_ & Hlen & Hcols). split; [done|]. intros p ini Hp.
  pose proof (lookup_lt_Some _ _ _ Hp) as Hlt. rewrite Hlen in Hlt.
  destruct (Hcols p Hlt) as [_ Hc]. assert (ini = symbols n ∖
    list_to_set (column_of rows p)) as -> by congruence.
  intros s Hs. by apply elem_of_difference in Hs as [? _].
Qed.

(** After [r] rows every column still offers at least [n - r] symbols. *)
Lemma table_inv_size (n : nat) (rows : list (list Z))
    (columns : list (gset Z)) (p : nat) (ini : gset Z) :
  table_inv n rows columns → columns !! p = Some ini →
  (n - length rows ≤ size ini)%nat.
Proof.
  intros (_ & Hlen & Hcols) Hp.
  pose proof (lookup_lt_Some _ _ _ Hp) as Hlt. rewrite Hlen in Hlt.
  destruct (Hcols p Hlt) as [Hnd Hc]. assert (ini = symbols n ∖
    list_to_set (column_of rows p)) as -> by congruence.
  rewrite size_difference_alt, size_symbols.
  assert (size (symbols n ∩ list_to_set (column_of rows p))
          ≤ length rows)%nat; [|lia].
  etrans; [apply subseteq_size, intersection_subseteq_r|].
  rewrite size_list_to_set by done. by rewrite column_of_length.
Qed.

Lemma table_inv_roomy (n : nat) (rows : list (list Z))
    (columns : list (gset Z)) :
  table_inv n rows columns → (length rows + 2 ≤ n)%nat → roomy columns.
Proof.
  intros Hinv Hr p ini Hp.
  pose proof (table_inv_size n rows columns p ini Hinv Hp). lia.
Qed.

(** A full row holds every symbol. *)
Lemma full_row_holds (n : nat) (row : list Z) (s : Z) :
  length row = n → NoDup row → (∀ v, v ∈ row → v ∈ symbols n) →
  s ∈ symbols n → s ∈ row.
Proof.
  intros Hlen Hnd Hsub Hs.
  assert (row ≡ₚ seqZ 0 (Z.of_nat n)) as Hp.
  { apply NoDup_range_permutation; [done..|].
    intros v Hv. by apply elem_of_symbols, Hsub. }
  rewrite Hp. apply elem_of_seqZ. apply elem_of_symbols in Hs. lia.
Qed.

(** A duplicate-free list of indices below [n] that avoids two distinct
    indices below [n] has at most [n - 2] members. *)
Lemma NoDup_avoiding_two (n p c : nat) (js : list nat) :
  NoDup js → (∀ j, j ∈ js → (j < n)%nat ∧ j ≠ p ∧ j ≠ c) →
  (p < n)%nat → (c < n)%nat → p ≠ c →
  (length js + 2 ≤ n)%nat.
Proof.
  intros Hnd Hjs Hp Hc Hpc.
  assert (NoDup (p :: c :: js)) as Hnd'.
  { apply NoDup_cons. split.
    - intros [?|Hin]%elem_of_cons; [done|]. by destruct (Hjs p Hin) as (_ & ? & _).
    - apply NoDup_cons. split; [|done].
      intros Hin. by destruct (Hjs c Hin) as (_ & _ & ?). }
  assert (p :: c :: js ⊆+ seq 0 n) as Hsub.
  { apply NoDup_submseteq; [done|]. intros j Hj. apply elem_of_seq.
    apply elem_of_cons in Hj as [->|Hj]; [lia|].
    apply elem_of_cons in Hj as [->|Hj]; [lia|].
    destruct (Hjs j Hj). lia. }
  apply submseteq_length in Hsub. rewrite length_seq in Hsub. simpl in Hsub.
  lia.
Qed.

(** In the last row no column runs into a conflict: a symbol missing from
    two columns would have to occur in [n - 1] rows at [n - 1] distinct
    positions among the [n - 2] other columns. *)
Lemma table_inv_conflict_free (n : nat) (rows : list (list Z))
    (columns : list (gset Z)) :
  table_inv n rows columns → (length rows + 1 = n)%nat →
  conflict_free n columns.
Proof.
  intros Hinv Hr row avail cols av Hnd Hlen Hav Hcols Hcc.
  pose proof (table_inv_initial_ok _ _ _ Hinv) as [Hlenc Hsub].
  destruct Hinv as (Hrows & _ & Hcolumns).
  set (cc := length row) in *.
  destruct (lookup_lt_is_Some_2 columns cc) as [ini Hini]; [lia|].
  assert (av = ini) as ->.
  { specialize (Hcols cc ini Hini).
    rewrite (lookup_ge_None_2 row cc) in Hcols by (unfold cc; lia).
    congruence. }
  assert (1 ≤ size ini)%nat as Hsize.
  { pose proof (table_inv_size n rows columns cc ini) as Hs.
    assert (table_inv n rows columns) as Hinv by by split_and!.
    specialize (Hs Hinv Hini). lia. }
  destruct (size_pos_elem_of ini ltac:(lia)) as [s Hs].
  intros Hempty. apply (not_elem_of_empty (C:=gset Z) s). rewrite <-Hempty.
  apply elem_of_filter. split; [|done].
  destruct (decide (s ∈ avail)) as [|Hnav]; [done|]. exfalso.
  assert (s ∈ symbols n) as Hsym by by apply (Hsub _ _ Hini).
  assert (s ∈ row) as Hrow.
  { destruct (decide (s ∈ row)) as [|Hn]; [done|]. exfalso.
    apply Hnav, Hav. by split. }
  apply list_elem_of_lookup in Hrow as [p Hp].
  pose proof (lookup_lt_Some _ _ _ Hp) as Hpl. fold cc in Hpl.
  destruct (lookup_lt_is_Some_2 columns p) as [inip Hinip]; [lia|].
  pose proof (Hcols p inip Hinip) as Hc. rewrite Hp in Hc.
  destruct Hc as [Hsp _].
  (* [s] occurs neither in column [p] nor in column [cc] *)
  destruct (Hcolumns p ltac:(lia)) as [_ Hcp].
  destruct (Hcolumns cc ltac:(lia)) as [_ Hccc].
  assert (s ∉ column_of rows p) as Hnp.
  { assert (inip = symbols n ∖ list_to_set (column_of rows p)) as ->
      by congruence.
    apply elem_of_difference in Hsp as [_ Hn]. intros Hin. apply Hn.
    by apply elem_of_list_to_set. }
  assert (s ∉ column_of rows cc) as Hncc.
  { assert (ini = symbols n ∖ list_to_set (column_of rows cc)) as ->
      by congruence.
    apply elem_of_difference in Hs as [_ Hn]. intros Hin. apply Hn.
    by apply elem_of_list_to_set. }
  (* where [s] sits in each of the rows *)
  set (js := (λ r, find_index s r) <$> rows).
  assert (∀ i j, js !! i = Some j →
            (j < n)%nat ∧ column_of rows j !! i = Some s) as Hjs.
  { intros i j Hij. unfold js in Hij. rewrite list_lookup_fmap in Hij.
    destruct (rows !! i) as [r|] eqn:Hri; [|done]. simpl in Hij.
    injection Hij as <-.
    destruct (Hrows r) as (Hlr & Hndr & Hsr); [by eapply list_elem_of_lookup_2|].
    pose proof (full_row_holds n r s Hlr Hndr Hsr Hsym) as Hin.
    destruct (find_index_found s r Hin) as [Hlt Hat].
    split; [lia|]. rewrite column_of_lookup by by eapply lookup_lt_Some.
    f_equal. by eapply row_lookup_entry. }
  assert (length js + 2 ≤ n)%nat as Hcount.
  { apply (NoDup_avoiding_two n p cc js); [| |lia|lia|lia].
    - apply NoDup_alt. intros i i' j Hi Hi'.
      destruct (Hjs i j Hi) as [Hj Hci]. destruct (Hjs i' j Hi') as [_ Hci'].
      destruct (Hcolumns j Hj) as [Hndj _]. rewrite NoDup_alt in Hndj.
      by eapply Hndj.
    - intros j Hj. apply list_elem_of_lookup in Hj as [i Hi].
      destruct (Hjs i j Hi) as [Hlt Hci]. split; [done|].
      split; intros ->; [apply Hnp|apply Hncc];
        by eapply list_elem_of_lookup_2. }
  unfold js in Hcount. rewrite length_fmap in Hcount. lia.
Qed.

(** A finished row extends the table. *)
Lemma table_inv_extend (n : nat) (rows : list (list Z))
    (columns cols' : list (gset Z)) (row : list Z) :
  table_inv n rows columns →
  length row = n → NoDup row → length cols' = n →
  cols_inv columns row cols' →
  table_inv n (rows ++ [row]) cols'.
Proof.
  intros Hinv Hlen Hnd Hlc Hcols.
  pose proof (table_inv_initial_ok _ _ _ Hinv) as [Hlenc Hsub].
  destruct Hinv as (Hrows & _ & Hcolumns).
  split_and!; [|done|].
  - intros r [Hr|Hr%list_elem_of_singleton]%elem_of_app; [by apply Hrows|].
    subst r. split_and!; [done..|].
    intros v [i Hi]%list_elem_of_lookup.
    pose proof (lookup_lt_Some _ _ _ Hi) as Hlt.
    destruct (lookup_lt_is_Some_2 columns i) as [ini Hini]; [lia|].
    specialize (Hcols i ini Hini). rewrite Hi in Hcols.
    destruct Hcols as [Hv _]. by apply (Hsub _ _ Hini).
  - intros c Hc. destruct (Hcolumns c Hc) as [Hndc Hcc].
    destruct (lookup_lt_is_Some_2 row c) as [v Hv]; [lia|].
    specialize (Hcols c _ Hcc). rewrite Hv in Hcols.
    destruct Hcols as [Hvin Hc'].
    assert (column_of (rows ++ [row]) c = column_of rows c ++ [v]) as ->.
    { unfold column_of. rewrite fmap_app. simpl.
      by rewrite (list_lookup_total_correct _ _ _ Hv). }
    apply elem_of_difference in Hvin as [Hvsym Hvcol].
    split.
    + apply NoDup_app. split_and!; [done| |apply NoDup_singleton].
      intros x Hx ->%list_elem_of_singleton. apply Hvcol.
      by apply elem_of_list_to_set.
    + rewrite Hc'. f_equal. apply set_eq. intros x.
      rewrite !elem_of_difference, !elem_of_list_to_set, elem_of_app,
        list_elem_of_singleton, elem_of_singleton. tauto.
Qed.

(** ** The whole table *)

Lemma table_inv_latin (n : nat) (table : list (list Z))
    (columns : list (gset Z)) :
  table_inv n table columns → length table = n →
  square table ∧ latin table.
Proof.
  intros (Hrows & _ & Hcols) Hlen. split; [|split_and!].
  - apply Forall_forall. intros row Hrow. rewrite Hlen.
    by destruct (Hrows row Hrow).
  - intros row v Hrow Hv. rewrite Hlen. apply elem_of_symbols.
    destruct (Hrows row Hrow) as (_ & _ & Hsym). by apply Hsym.
  - intros row Hrow. by destruct (Hrows row Hrow) as (_ & ? & _).
  - intros j Hj. rewrite Hlen in Hj. by destruct (Hcols j Hj).
Qed.

Section GeneratorTable.
Context {G : Type} (next : G → nat * G).

Lemma generate_row_spec (n r : nat) (fuel : nat) (st : SRG.Generator * G) :
  (r < n)%nat → generate_inv n r st →
  match SRG.generate_row next fuel r st with
  | Ok st' => generate_inv n (S r) st'
  | Err e => e = OutOfFuel
  end.
Proof.
  intros Hr (Hord & Hsym & Hlen & _ & Hinv).
  destruct st as [gen g]. simpl in *.
  unfold SRG.generate_row. rewrite Hord, Hsym.
  assert (length (take r (SRG.cayleyTable gen)) = r) as Hlt
    by (rewrite length_take; lia).
  pose proof (generateRow_spec next n (SRG.availableInColumns gen) fuel g
    (table_inv_initial_ok _ _ _ Hinv)) as Hrow.
  destruct (SRG.generateRow next fuel (Z.of_nat n) (symbols n)
              (SRG.availableInColumns gen) g) as [[[row cols] g']|e]; simpl.
  2: { apply Hrow. destruct (decide (r + 2 ≤ n)%nat).
       - left. eapply table_inv_roomy; [done|lia].
       - right. eapply table_inv_conflict_free; [done|lia]. }
  destruct Hrow as (Hlrow & Hnd & Hlc & Hcols).
  { destruct (decide (r + 2 ≤ n)%nat).
    - left. eapply table_inv_roomy; [done|lia].
    - right. eapply table_inv_conflict_free; [done|lia]. }
  unfold vec_set. rewrite decide_True by lia. simpl.
  split_and!; simpl; [done|done|by rewrite length_insert|lia|].
  rewrite (take_S_r _ _ row) by (apply list_lookup_insert_eq; lia).
  rewrite take_insert_ge by lia.
  by apply (table_inv_extend n _ (SRG.availableInColumns gen)).
Qed.

Lemma mkGenerator_inv (n : nat) (g : G) :
  generate_inv n 0 (SRG.mkGenerator (Z.of_nat n), g).
Proof.
  split_and!; simpl.
  - done.
  - done.
  - rewrite length_replicate. lia.
  - lia.
  - rewrite Nat2Z.id. split_and!.
    + by intros row ?%elem_of_nil.
    + by rewrite length_replicate.
    + intros c Hc. split; [apply NoDup_nil_2|].
      rewrite lookup_replicate_2 by done. f_equal. simpl.
      apply set_eq. intros x. rewrite elem_of_difference.
      split; [by intros ?; split; [|apply not_elem_of_empty]|by intros [? _]].
Qed.

(** The generator either runs out of fuel or returns a square table with
    the Latin-square property; it has no other outcome. *)
Lemma generate_outcome (fuel : nat) (order : Z) (g : G) :
  0 ≤ order →
  match SRG.generateSequentialReplacementGraphCayleyTable next fuel order g
  with
  | Ok (table, _) =>
      length table = Z.to_nat order ∧ square table ∧ latin table
  | Err e => e = OutOfFuel
  end.
Proof.
  intros Hord. set (n := Z.to_nat order).
  unfold SRG.generateSequentialReplacementGraphCayleyTable, SRG.generate.
  replace order with (Z.of_nat n) by lia. simpl. rewrite Nat2Z.id.
  pose proof (for_loop_inv (seq 0 n) (SRG.generate_row next fuel)
    (λ done st, generate_inv n (length done) st)
    (λ e, e = OutOfFuel) (SRG.mkGenerator (Z.of_nat n), g)
    (mkGenerator_inv n g)) as H.
  cbv beta in H. rewrite length_seq in H.
  assert (∀ done r rest st, seq 0 n = done ++ r :: rest →
    generate_inv n (length done) st →
    match SRG.generate_row next fuel r st with
    | Ok s' => generate_inv n (length (done ++ [r])) s'
    | Err e => e = OutOfFuel
    end) as Hstep.
  { intros done r rest st Hl Hinv.
    assert (seq 0 n !! length done = Some r) as Hx.
    { rewrite Hl. by rewrite list_lookup_middle. }
    apply lookup_seq in Hx as [-> Hlt]. simpl.
    rewrite length_app. simpl. rewrite Nat.add_1_r.
    by apply generate_row_spec. }
  specialize (H Hstep). clear Hstep.
  destruct (for_loop (seq 0 n) _ _) as [[gen g']|e]; simpl; [|done].
  destruct H as (_ & _ & Hlen & _ & Hinv). simpl in *.
  rewrite take_ge in Hinv by lia.
  split; [done|]. by eapply table_inv_latin.
Qed.

End GeneratorTable.

(** ** Loops that never end *)

Lemma while_loop_trapped {S R : Type} `{EqDecision S}
    (body : S → res (ctl S R)) (L : list S) :
  trapped body L = true →
  ∀ fuel s, s ∈ L → while_loop fuel body s = Err OutOfFuel.
Proof.
  intros Htrap. unfold trapped in Htrap. rewrite forallb_forall in Htrap.
  induction fuel as [|fuel IH]; intros s Hs; [done|]. simpl.
  specialize (Htrap s). rewrite <-list_elem_of_In in Htrap.
  specialize (Htrap Hs).
  destruct (body s) as [[s'|r]|e]; [|done..]. simpl.
  apply IH. by apply bool_decide_eq_true in Htrap.
Qed.

Lemma while_loop_steps {S R : Type} (k f : nat)
    (body : S → res (ctl S R)) (s : S) :
  while_loop (k + f) body s
  = match steps k body s with
    | Ok (Continue s') => while_loop f body s'
    | Ok (Return r) => Ok r
    | Err e => Err e
    end.
Proof.
  revert s. induction k as [|k IH]; intros s; simpl; [done|].
  destruct (body s) as [[s'|r]|e]; simpl; [apply IH|done..].
Qed.

(** From the conflict of the fourth row the hand-written draws take the
    displacement chain through five states, the last of which leads back to
    the second. *)
Lemma adversary_walk_diverges (fuel : nat) :
  SRG.makeElementAvailable adversary fuel 2 adversary_graph adversary_row 5
    adversary_availableInRow adversary_columns 24%nat
  = Err OutOfFuel.
Proof.
  unfold SRG.makeElementAvailable.
  set (body := SRG.makeElementAvailable_step adversary 2
                 (SRG.eraseInitialElementFromGraph adversary_graph 2)).
  set (start := {| SRG.w_row := adversary_row;
                   SRG.w_availableInRow := adversary_availableInRow;
                   SRG.w_availableInColumns := adversary_columns;
                   SRG.w_oldIndex := find_index 2 adversary_row;
                   SRG.w_oldElement := 2;
                   SRG.w_visitedPath := ∅;
                   SRG.w_rng := 24%nat |}).
  apply (while_loop_trapped body (orbit 5 body start)).
  - vm_compute. reflexivity.
  - vm_compute. left.
Qed.

(** ** More fuel does not change the generator's result *)

Lemma while_loop_mono_body {S R : Type} (fuel fuel' : nat)
    (body body' : S → res (ctl S R)) (s0 : S) (r : R) :
  (∀ s c, body s = Ok c → body' s = Ok c) →
  (fuel ≤ fuel')%nat →
  while_loop fuel body s0 = Ok r → while_loop fuel' body' s0 = Ok r.
Proof.
  intros Hb. revert fuel' s0.
  induction fuel as [|fuel IH]; intros fuel' s0 Hle; [done|].
  destruct fuel' as [|fuel']; [lia|]. simpl.
  destruct (body s0) as [c|e] eqn:Hc; simpl; [|done].
  rewrite (Hb _ _ Hc). simpl. destruct c as [s'|r']; [|done].
  apply IH. lia.
Qed.

Lemma for_loop_mono {A S : Type} (l : list A) (body body' : A → S → res S)
    (s0 r : S) :
  (∀ x s s', body x s = Ok s' → body' x s = Ok s') →
  for_loop l body s0 = Ok r → for_loop l body' s0 = Ok r.
Proof.
  intros Hb. revert s0. induction l as [|x l IH]; intros s0; simpl; [done|].
  destruct (body x s0) as [s'|e] eqn:Hx; simpl; [|done].
  rewrite (Hb _ _ _ Hx). simpl. apply IH.
Qed.

Lemma for_loop_app {A S : Type} (l1 l2 : list A) (body : A → S → res S)
    (s0 : S) :
  for_loop (l1 ++ l2) body s0 = s ← for_loop l1 body s0; for_loop l2 body s.
Proof.
  revert s0. induction l1 as [|x l1 IH]; intros s0; simpl; [done|].
  destruct (body x s0) as [s'|e]; simpl; [apply IH|done].
Qed.

Section GeneratorFuel.
Context {G : Type} (next : G → nat * G).

Lemma generateRow_step_mono (fuel fuel' : nat) (order : Z)
    (initial : list (gset Z)) (st : SRG.RowState)
    (c : ctl SRG.RowState (list Z * list (gset Z) * G)) :
  (fuel ≤ fuel')%nat →
  SRG.generateRow_step next fuel order initial st = Ok c →
  SRG.generateRow_step next fuel' order initial st = Ok c.
Proof.
  intros Hle. unfold SRG.generateRow_step.
  destruct (decide (Z.of_nat (SRG.r_currentColumn st) < order)); [|done].
  destruct (vec_get _ _) as [available|e]; simpl; [|done].
  destruct (decide (filter _ available ≠ ∅)); [done|].
  destruct (SRG.constructReplacementGraph _ _ _) as [graph|e]; simpl; [|done].
  destruct (SRG.selectRandomElement next available _) as [[e0 g]|e]; simpl;
    [|done].
  unfold SRG.makeElementAvailable.
  destruct (while_loop fuel _ _) as [w|e] eqn:Hw; simpl; [|done].
  by rewrite (while_loop_mono fuel fuel' _ _ _ Hle Hw).
Qed.

Lemma generate_row_mono (fuel fuel' : nat) (row : nat)
    (st st' : SRG.Generator * G) :
  (fuel ≤ fuel')%nat →
  SRG.generate_row next fuel row st = Ok st' →
  SRG.generate_row next fuel' row st = Ok st'.
Proof.
  intros Hle. destruct st as [gen g]. unfold SRG.generate_row, SRG.generateRow.
  destruct (while_loop fuel _ _) as [[[newRow columns] g']|e] eqn:Hr; simpl;
    [|done].
  rewrite (while_loop_mono_body fuel fuel' _
             (SRG.generateRow_step next fuel' (SRG.order gen)
                (SRG.availableInColumns gen)) _ _
             (λ s c, generateRow_step_mono fuel fuel' _ _ s c Hle) Hle Hr).
  done.
Qed.

Lemma generate_mono (fuel fuel' : nat) (order : Z) (g : G)
    (r : list (list Z) * G) :
  (fuel ≤ fuel')%nat →
  SRG.generateSequentialReplacementGraphCayleyTable next fuel order g = Ok r →
  SRG.generateSequentialReplacementGraphCayleyTable next fuel' order g = Ok r.
Proof.
  intros Hle.
  unfold SRG.generateSequentialReplacementGraphCayleyTable, SRG.generate.
  destruct (for_loop _ (SRG.generate_row next fuel) _) as [[gen' g']|e] eqn:Hf;
    [|done].
  rewrite (for_loop_mono _ _ (SRG.generate_row next fuel') _ _
             (λ x s s', generate_row_mono fuel fuel' x s s' Hle) Hf).
  done.
Qed.

End GeneratorFuel.

(** ** The run of the generator on the hand-written draws *)

Lemma adversary_first_rows (f : nat) :
  for_loop [0; 1; 2]%nat (SRG.generate_row adversary (7 + f))
    (SRG.mkGenerator 6, 0%nat)
  = Ok (adversary_generator, 18%nat).
Proof.
  apply (for_loop_mono _ (SRG.generate_row adversary 7)).
  - intros x s s'. apply generate_row_mono. lia.
  - vm_compute. reflexivity.
Qed.

Lemma adversary_conflict_step (fuel : nat) :
  SRG.generateRow_step adversary fuel 6 adversary_initial
    {| SRG.r_availableInRow := adversary_availableInRow;
       SRG.r_row := adversary_row;
       SRG.r_currentColumn := 5;
       SRG.r_availableInColumns := adversary_columns;
       SRG.r_rng := 23%nat |}
  = Err OutOfFuel.
Proof.
  unfold SRG.generateRow_step.
  cbn [SRG.r_currentColumn SRG.r_availableInColumns SRG.r_availableInRow
       SRG.r_row SRG.r_rng].
  rewrite decide_True by lia.
  assert (vec_get adversary_columns 5 = Ok ({[2; 4; 5]} : gset Z)) as ->
    by reflexivity.
  cbn [mbind res_bind].
  rewrite decide_False.
  2: { intros Hne. apply Hne. vm_compute. reflexivity. }
  assert (SRG.constructReplacementGraph adversary_row 5 adversary_initial
          = Ok adversary_graph) as -> by (vm_compute; reflexivity).
  cbn [mbind res_bind].
  assert (SRG.selectRandomElement adversary {[2; 4; 5]} 23%nat
          = Ok (2, 24%nat)) as -> by (vm_compute; reflexivity).
  cbn [mbind res_bind].
  by rewrite adversary_walk_diverges.
Qed.

Lemma adversary_fourth_row (f : nat) :
  SRG.generate_row adversary (7 + f) 3 (adversary_generator, 18%nat)
  = Err OutOfFuel.
Proof.
  unfold SRG.generate_row, SRG.generateRow.
  change (7 + f)%nat with (5 + (2 + f))%nat at 1.
  rewrite while_loop_steps.
  assert (steps 5
            (SRG.generateRow_step adversary (7 + f)
               (SRG.order adversary_generator)
               (SRG.availableInColumns adversary_generator))
            {| SRG.r_availableInRow := SRG.availableSymbols adversary_generator;
               SRG.r_row := [];
               SRG.r_currentColumn := 0;
               SRG.r_availableInColumns :=
                 SRG.availableInColumns adversary_generator;
               SRG.r_rng := 18%nat |}
          = Ok (Continue
                  {| SRG.r_availableInRow := adversary_availableInRow;
                     SRG.r_row := adversary_row;
                     SRG.r_currentColumn := 5;
                     SRG.r_availableInColumns := adversary_columns;
                     SRG.r_rng := 23%nat |})) as ->.
  { vm_compute. reflexivity. }
  change (2 + f)%nat with (S (1 + f)). cbn [while_loop].
  change (SRG.order adversary_generator) with 6.
  change (SRG.availableInColumns adversary_generator) with adversary_initial.
  by rewrite adversary_conflict_step.
Qed.

Lemma adversary_generate_diverges (f : nat) :
  SRG.generateSequentialReplacementGraphCayleyTable adversary (7 + f) 6 0%nat
  = Err OutOfFuel.
Proof.
  unfold SRG.generateSequentialReplacementGraphCayleyTable, SRG.generate.
  change (seq 0 (Z.to_nat (SRG.order (SRG.mkGenerator 6))))
    with ([0; 1; 2] ++ [3; 4; 5])%nat.
  rewrite for_loop_app, adversary_first_rows.
  cbn [mbind res_bind for_loop].
  by rewrite adversary_fourth_row.
Qed.

(** ** What the generator guarantees *)

Section GeneratorClaims.
Context {G : Type} (next : G → nat * G).

(** A displacement pass ends the chain exactly when the symbol it draws is
    not in the row. *)
Lemma makeElementAvailable_step_end (e0 : Z) (graph : gmap nat (gset Z))
    (w w' : SRG.WalkState) :
  (SRG.makeElementAvailable_step next e0 graph w = Ok (Return w') →
     SRG.w_oldElement w' ∉ SRG.w_row w)
  ∧ (SRG.makeElementAvailable_step next e0 graph w = Ok (Continue w') →
     SRG.w_oldElement w' ∈ SRG.w_row w).
Proof.
  unfold SRG.makeElementAvailable_step.
  destruct (if decide (default ∅ (graph !! SRG.w_oldIndex w)
                       ∖ SRG.w_visitedPath w = ∅)
            then (∅, default ∅ (graph !! SRG.w_oldIndex w))
            else (SRG.w_visitedPath w,
                  default ∅ (graph !! SRG.w_oldIndex w)
                  ∖ SRG.w_visitedPath w)) as [visited choices].
  destruct (SRG.selectRandomElement next choices (SRG.w_rng w))
    as [[new g]|e]; simpl; [|split; intros H; discriminate H].
  unfold vec_set.
  destruct (decide (SRG.w_oldIndex w < length (SRG.w_row w))%nat); simpl;
    [|split; intros H; discriminate H].
  destruct (vec_get _ _) as [column|e]; simpl;
    [|split; intros H; discriminate H].
  destruct (decide (SRG.w_oldIndex w
                    < length (SRG.w_availableInColumns w))%nat); simpl;
    [|split; intros H; discriminate H].
  rewrite length_insert.
  destruct (bool_decide (length (SRG.w_row w) ≤ find_index new (SRG.w_row w))%nat)
    eqn:Hexit.
  - apply bool_decide_eq_true in Hexit. rewrite andb_true_r.
    split; [|by destruct (bool_decide _)].
    intros Hret Hin.
    assert (SRG.w_oldElement w' = new) as Hnew
      by (destruct (bool_decide _); by injection Hret as <-).
    rewrite Hnew in Hin.
    destruct (find_index_found new _ Hin). lia.
  - apply bool_decide_eq_false in Hexit. rewrite andb_false_r.
    split; [done|]. intros [= <-]. simpl.
    destruct (decide (new ∈ SRG.w_row w)) as [|Hnin]; [done|].
    rewrite find_index_missing in Hexit by done. lia.
Qed.

End GeneratorClaims.

(** X23 (SequentialReplacementGraphGenerator::generate and generateRow,
    main.cpp lines 341-399; isLatinSquare, lines 502-520): for every order
    n >= 1 and every random source, whenever the generator returns a table,
    the table is n by n and passes the Latin-square validator. *)
Theorem generate_returns_latin_square {G : Type} (next : G → nat * G)
    (fuel : nat) (order : Z) (g g' : G) (table : list (list Z)) :
  1 ≤ order →
  SRG.generateSequentialReplacementGraphCayleyTable next fuel order g
    = Ok (table, g') →
  length table = Z.to_nat order
  ∧ square table
  ∧ isLatinSquare table = Ok true.
Proof.
  intros Hord Hgen.
  pose proof (generate_outcome next fuel order g ltac:(lia)) as H.
  rewrite Hgen in H. destruct H as (Hlen & Hsq & Hlatin).
  split_and!; [done..|].
  destruct (isLatinSquare_latin table Hsq) as (b & -> & Hiff).
  f_equal. by apply Hiff.
Qed.

(** The run the theorems below are tried on: order 4 with the source [lcg]
    from the seed 11. It takes 19 draws for 16 cells: the third row runs
    into a conflict and is repaired by [makeElementAvailable] in two
    passes. *)
Lemma lcg_run_is_repaired :
  SRG.generateSequentialReplacementGraphCayleyTable lcg_count 6 4 (11, 0%nat)
  = Ok ([[3; 2; 1; 0]; [1; 0; 3; 2]; [0; 1; 2; 3]; [2; 3; 0; 1]],
        (1709302358, 19%nat)).
Proof. vm_compute. reflexivity. Qed.

Lemma generate_returns_latin_square_witness :
  length [[3; 2; 1; 0]; [1; 0; 3; 2]; [0; 1; 2; 3]; [2; 3; 0; 1]]
  = Z.to_nat 4
  ∧ square [[3; 2; 1; 0]; [1; 0; 3; 2]; [0; 1; 2; 3]; [2; 3; 0; 1]]
  ∧ isLatinSquare [[3; 2; 1; 0]; [1; 0; 3; 2]; [0; 1; 2; 3]; [2; 3; 0; 1]]
    = Ok true.
Proof.
  eapply (generate_returns_latin_square lcg_count 6 4 (11, 0%nat)).
  - lia.
  - vm_compute. reflexivity.
Defined.

(** With the hand-written draws the generator of order 6 never returns a
    table, whatever the fuel: that the generator returns rests on what is
    drawn, not on the algorithm alone. *)
Lemma generator_may_never_return :
  ¬ ∃ fuel table g,
      SRG.generateSequentialReplacementGraphCayleyTable adversary fuel 6 0%nat
      = Ok (table, g).
Proof.
  intros (fuel & table & g & H).
  apply (generate_mono adversary fuel (7 + fuel)) in H; [|lia].
  by rewrite adversary_generate_diverges in H.
Qed.

(** X24 (SequentialReplacementGraphGenerator::generateRow and
    makeElementAvailable, main.cpp lines 365-474): for every order n >= 1
    and every random source the generator has no failure outcome: no
    selection from an empty set, no access out of bounds, no exception; a
    run returns the table or is still at work when the fuel ends. A
    displacement pass ends the repair exactly when the symbol it draws is
    not in the row. *)
Theorem generator_has_no_failure_outcome {G : Type} (next : G → nat * G)
    (fuel : nat) (order : Z) (g : G) :
  1 ≤ order →
  ((∃ table g',
      SRG.generateSequentialReplacementGraphCayleyTable next fuel order g
      = Ok (table, g'))
   ∨ SRG.generateSequentialReplacementGraphCayleyTable next fuel order g
     = Err OutOfFuel)
  ∧ (∀ e0 graph w w',
       (SRG.makeElementAvailable_step next e0 graph w = Ok (Return w') →
          SRG.w_oldElement w' ∉ SRG.w_row w)
       ∧ (SRG.makeElementAvailable_step next e0 graph w = Ok (Continue w') →
          SRG.w_oldElement w' ∈ SRG.w_row w)).
Proof.
  intros Hord. split; [|apply makeElementAvailable_step_end].
  pose proof (generate_outcome next fuel order g ltac:(lia)) as H.
  destruct (SRG.generateSequentialReplacementGraphCayleyTable next fuel order g)
    as [[table g']|e]; [left; eauto|right; by subst e].
Qed.

Lemma generator_has_no_failure_outcome_witness :
  ((∃ table g',
      SRG.generateSequentialReplacementGraphCayleyTable lcg_count 6 4
        (11, 0%nat)
      = Ok (table, g'))
   ∨ SRG.generateSequentialReplacementGraphCayleyTable lcg_count 6 4
       (11, 0%nat)
     = Err OutOfFuel)
  ∧ (∀ e0 graph w w',
       (SRG.makeElementAvailable_step lcg_count e0 graph w = Ok (Return w') →
          SRG.w_oldElement w' ∉ SRG.w_row w)
       ∧ (SRG.makeElementAvailable_step lcg_count e0 graph w
          = Ok (Continue w') →
          SRG.w_oldElement w' ∈ SRG.w_row w)).
Proof.
  apply (generator_has_no_failure_outcome lcg_count 6 4 (11, 0%nat)). lia.
Defined.

(** The hand-written draws lead the generator of order 6 through three rows
    and five cells of the fourth into a conflict whose repair never ends,
    whatever the fuel. *)
Lemma repair_may_never_terminate :
  for_loop [0; 1; 2]%nat (SRG.generate_row adversary 7)
    (SRG.mkGenerator 6, 0%nat)
  = Ok (adversary_generator, 18%nat)
  ∧ steps 5 (SRG.generateRow_step adversary 7 6 adversary_initial)
      {| SRG.r_availableInRow := symbols 6;
         SRG.r_row := [];
         SRG.r_currentColumn := 0;
         SRG.r_availableInColumns := adversary_initial;
         SRG.r_rng := 18%nat |}
    = Ok (Continue
            {| SRG.r_availableInRow := adversary_availableInRow;
               SRG.r_row := adversary_row;
               SRG.r_currentColumn := 5;
               SRG.r_availableInColumns := adversary_columns;
               SRG.r_rng := 23%nat |})
  ∧ SRG.constructReplacementGraph adversary_row 5 adversary_initial
    = Ok adversary_graph
  ∧ SRG.selectRandomElement adversary {[2; 4; 5]} 23%nat = Ok (2, 24%nat)
  ∧ ¬ ∃ fuel w,
        SRG.makeElementAvailable adversary fuel 2 adversary_graph
          adversary_row 5 adversary_availableInRow adversary_columns 24%nat
        = Ok w.
Proof.
  split_and!; try (vm_compute; reflexivity).
  intros (fuel & w & H). by rewrite adversary_walk_diverges in H.
Qed.
(** ** Every sequence of draws at once *)

Lemma collect_spec {A B : Type} (l : list A) (f : A → option (list B))
    (out : list B) :
  collect l f = Some out →
  ∀ x, x ∈ l → ∃ ys, f x = Some ys ∧ ∀ y, y ∈ ys → y ∈ out.
Proof.
  revert out. induction l as [|a l IH]; intros out Hc x Hx.
  { by apply elem_of_nil in Hx. }
  simpl in Hc. destruct (f a) as [ys|] eqn:Hfa; [|done].
  destruct (collect l f) as [zs|]; [|done]. injection Hc as <-.
  apply elem_of_cons in Hx as [->|Hx].
  - exists ys. split; [done|]. intros y Hy. apply elem_of_app. by left.
  - destruct (IH zs eq_refl x Hx) as (ys' & Hfx & Hsub).
    exists ys'. split; [done|]. intros y Hy. apply elem_of_app.
    right. by apply Hsub.
Qed.

Lemma dedup_rows_elem (currentColumn : nat)
    (l : list (SRG.RowState (G:=unit))) (st : SRG.RowState (G:=unit)) :
  st ∈ l → SRG.r_currentColumn st = currentColumn →
  st ∈ Explore.dedup_rows currentColumn l.
Proof.
  intros Hst Hcol. unfold Explore.dedup_rows.
  apply list_elem_of_fmap. exists (Explore.row_key st). split.
  - destruct st as [inRow row col columns []]. simpl in Hcol. subst col.
    unfold Explore.row_of_key, Explore.row_key. simpl. f_equal.
    + by rewrite list_to_set_elements_L.
    + rewrite <-list_fmap_compose. rewrite <-(list_fmap_id columns) at 1.
      apply list_fmap_ext. intros i s _. simpl.
      by rewrite list_to_set_elements_L.
  - apply elem_of_elements, elem_of_list_to_set, list_elem_of_fmap.
    by exists st.
Qed.

Lemma dedup_columns_elem (l : list (list (gset Z))) (columns : list (gset Z)) :
  columns ∈ l → columns ∈ Explore.dedup_columns l.
Proof.
  intros Hc. unfold Explore.dedup_columns.
  apply list_elem_of_fmap. exists (Explore.columns_key columns). split.
  - unfold Explore.columns_of_key, Explore.columns_key.
    rewrite <-list_fmap_compose. rewrite <-(list_fmap_id columns) at 1.
    apply list_fmap_ext. intros i s _. simpl.
    by rewrite list_to_set_elements_L.
  - apply elem_of_elements, elem_of_list_to_set, list_elem_of_fmap.
    by exists columns.
Qed.

Section ExploreSound.
Context {G : Type} (next : G → nat * G).

(** A selection depends on the draw through its remainder only. *)
Lemma selectRandomElement_constant (set : gset Z) (g : G) :
  set ≠ ∅ →
  ∃ k x, (k < size set)%nat
    ∧ SRG.selectRandomElement (constant_source k) set () = Ok (x, ())
    ∧ SRG.selectRandomElement next set g = Ok (x, (next g).2).
Proof.
  intros Hne. unfold SRG.selectRandomElement.
  destruct (decide (elements set = [])) as [He|He].
  { apply elements_empty_inv, leibniz_equiv in He. done. }
  destruct (next g) as [raw g'] eqn:Hnext.
  assert (raw `mod` length (elements set) < length (elements set))%nat as Hlt.
  { apply Nat.mod_upper_bound. by destruct (elements set). }
  destruct (lookup_lt_is_Some_2 _ _ Hlt) as [x Hx].
  exists (raw `mod` length (elements set))%nat, x.
  split; [done|]. unfold constant_source.
  rewrite Nat.Div0.mod_mod.
  by rewrite (vec_get_lookup _ _ _ Hx).
Qed.


Lemma walk_erase_restore (g : G) (w : SRG.WalkState (G:=unit)) :
  Explore.walk_erase (Explore.walk_restore g w) = w.
Proof. by destruct w as [? ? ? ? ? ? []]. Qed.

(** A pass of the repair with the program's source is the pass with one of
    the constant sources. *)
Lemma makeElementAvailable_step_constant (e0 : Z)
    (graph : gmap nat (gset Z)) (w : SRG.WalkState) :
  Explore.walk_offered graph (Explore.walk_erase w) ≠ ∅ →
  ∃ k, (k < size (Explore.walk_offered graph (Explore.walk_erase w)))%nat
    ∧ match SRG.makeElementAvailable_step (constant_source k) e0 graph
              (Explore.walk_erase w) with
      | Ok (Continue w') =>
          SRG.makeElementAvailable_step next e0 graph w
          = Ok (Continue (Explore.walk_restore (next (SRG.w_rng w)).2 w'))
      | Ok (Return w') =>
          SRG.makeElementAvailable_step next e0 graph w
          = Ok (Return (Explore.walk_restore (next (SRG.w_rng w)).2 w'))
      | Err e => SRG.makeElementAvailable_step next e0 graph w = Err e
      end.
Proof.
  unfold Explore.walk_offered, SRG.makeElementAvailable_step. simpl.
  set (choices := default ∅ (graph !! SRG.w_oldIndex w)).
  destruct (decide (choices ∖ SRG.w_visitedPath w = ∅)) as [Hall|Hsome];
    intros Hne.
  - destruct (selectRandomElement_constant choices (SRG.w_rng w) Hne)
      as (k & x & Hk & Hconst & Hreal).
    exists k. split; [done|]. rewrite Hconst, Hreal. simpl.
    destruct (vec_set (SRG.w_row w) _ _) as [row|e]; simpl; [|done].
    destruct (vec_get (SRG.w_availableInColumns w) _) as [column|e]; simpl;
      [|done].
    destruct (vec_set (SRG.w_availableInColumns w) _ _) as [columns|e];
      simpl; [|done].
    repeat case_bool_decide; simpl; done.
  - destruct (selectRandomElement_constant _ (SRG.w_rng w) Hne)
      as (k & x & Hk & Hconst & Hreal).
    exists k. split; [done|]. rewrite Hconst, Hreal. simpl.
    destruct (vec_set (SRG.w_row w) _ _) as [row|e]; simpl; [|done].
    destruct (vec_get (SRG.w_availableInColumns w) _) as [column|e]; simpl;
      [|done].
    destruct (vec_set (SRG.w_availableInColumns w) _ _) as [columns|e];
      simpl; [|done].
    repeat case_bool_decide; simpl; done.
Qed.

(** When [walk_all] lists the ends of the repair, the repair ends in one of
    them with the program's source. *)
Lemma walk_all_sound (fuel : nat) (e0 : Z) (graph : gmap nat (gset Z))
    (w : SRG.WalkState) (exits : list (SRG.WalkState (G:=unit))) :
  Explore.walk_all fuel e0 graph (Explore.walk_erase w) = Some exits →
  ∃ w', while_loop fuel (SRG.makeElementAvailable_step next e0 graph) w
        = Ok w'
        ∧ Explore.walk_erase w' ∈ exits.
Proof.
  revert w exits. induction fuel as [|fuel IH]; intros w exits; [done|].
  cbn [Explore.walk_all].
  destruct (decide (Explore.walk_offered graph (Explore.walk_erase w) = ∅))
    as [|Hne]; [done|].
  intros Hall.
  destruct (makeElementAvailable_step_constant e0 graph w Hne)
    as (k & Hk & Hstep).
  destruct (collect_spec _ _ _ Hall k) as (ys & Hys & Hsub).
  { apply elem_of_seq. lia. }
  cbn [while_loop].
  destruct (SRG.makeElementAvailable_step (constant_source k) e0 graph
              (Explore.walk_erase w)) as [[w'|w']|e]; [| |done].
  - rewrite Hstep. simpl.
    destruct (IH (Explore.walk_restore (next (SRG.w_rng w)).2 w') ys)
      as (w'' & Hloop & Hin).
    { by rewrite walk_erase_restore. }
    exists w''. split; [done|]. by apply Hsub.
  - rewrite Hstep. simpl. eexists. split; [done|].
    rewrite walk_erase_restore. apply Hsub. injection Hys as <-.
    apply list_elem_of_singleton. done.
Qed.

Lemma row_erase_restore (g : G) (st : SRG.RowState (G:=unit)) :
  Explore.row_erase (Explore.row_restore g st) = st.
Proof. by destruct st as [? ? ? ? []]. Qed.

(** A pass of [generateRow] that finds a valid symbol is the pass with one
    of the constant sources. *)
Lemma generateRow_step_constant (fuel : nat) (order : Z)
    (initial : list (gset Z)) (st : SRG.RowState) (available : gset Z) :
  Z.of_nat (SRG.r_currentColumn st) < order →
  SRG.r_availableInColumns st !! SRG.r_currentColumn st = Some available →
  filter (λ symbol, symbol ∈ SRG.r_availableInRow st) available ≠ ∅ →
  ∃ k,
    (k < size (filter (λ symbol, symbol ∈ SRG.r_availableInRow st)
                 available))%nat
    ∧ ∀ st',
        SRG.generateRow_step (constant_source k) fuel order initial
          (Explore.row_erase st) = Ok (Continue st') →
        SRG.generateRow_step next fuel order initial st
        = Ok (Continue (Explore.row_restore (next (SRG.r_rng st)).2 st')).
Proof.
  intros Hcol Hav Hvalid.
  destruct (selectRandomElement_constant _ (SRG.r_rng st) Hvalid)
    as (k & x & Hk & Hconst & Hreal).
  exists k. split; [done|]. intros st'. unfold SRG.generateRow_step.
  cbn [Explore.row_erase SRG.r_currentColumn SRG.r_availableInColumns
       SRG.r_availableInRow SRG.r_row SRG.r_rng].
  destruct (decide (Z.of_nat (SRG.r_currentColumn st) < order)); [|done].
  unfold vec_get. rewrite Hav. cbn [mbind res_bind].
  destruct (decide (filter (λ symbol, symbol ∈ SRG.r_availableInRow st)
                      available ≠ ∅)); [|done].
  rewrite Hconst, Hreal. cbn [mbind res_bind].
  destruct (vec_set (SRG.r_availableInColumns st) _ _) as [columns|e];
    [|done].
  cbn [mbind res_bind]. by intros [= <-].
Qed.

(** A pass of [generateRow] that finds no valid symbol evicts one of the
    symbols of the column and repairs the row. *)
Lemma generateRow_step_conflict (fuel : nat) (order : Z)
    (initial : list (gset Z)) (st : SRG.RowState) (available : gset Z)
    (graph : gmap nat (gset Z)) :
  Z.of_nat (SRG.r_currentColumn st) < order →
  SRG.r_availableInColumns st !! SRG.r_currentColumn st = Some available →
  ¬ filter (λ symbol, symbol ∈ SRG.r_availableInRow st) available ≠ ∅ →
  available ≠ ∅ →
  SRG.constructReplacementGraph (SRG.r_row st) (SRG.r_currentColumn st)
    initial = Ok graph →
  ∃ k selected,
    (k < size available)%nat
    ∧ SRG.selectRandomElement (constant_source k) available ()
      = Ok (selected, ())
    ∧ SRG.generateRow_step next fuel order initial st
      = (w ← SRG.makeElementAvailable next fuel selected graph (SRG.r_row st)
               (SRG.r_currentColumn st) (SRG.r_availableInRow st)
               (SRG.r_availableInColumns st) (next (SRG.r_rng st)).2;
         Ok (Continue
               {| SRG.r_availableInRow := SRG.w_availableInRow w;
                  SRG.r_row := SRG.w_row w;
                  SRG.r_currentColumn := SRG.r_currentColumn st;
                  SRG.r_availableInColumns := SRG.w_availableInColumns w;
                  SRG.r_rng := SRG.w_rng w |})).
Proof.
  intros Hcol Hav Hvalid Hne Hgraph.
  destruct (selectRandomElement_constant _ (SRG.r_rng st) Hne)
    as (k & x & Hk & Hconst & Hreal).
  exists k, x. split; [done|]. split; [done|]. unfold SRG.generateRow_step.
  destruct (decide (Z.of_nat (SRG.r_currentColumn st) < order)); [|done].
  unfold vec_get. rewrite Hav. cbn [mbind res_bind].
  destruct (decide (filter (λ symbol, symbol ∈ SRG.r_availableInRow st)
                      available ≠ ∅)); [done|].
  rewrite Hgraph. cbn [mbind res_bind]. by rewrite Hreal.
Qed.

Lemma generateRow_step_done (fuel : nat) (order : Z)
    (initial : list (gset Z)) (st : SRG.RowState) :
  ¬ Z.of_nat (SRG.r_currentColumn st) < order →
  SRG.generateRow_step next fuel order initial st
  = Ok (Return (SRG.r_row st, SRG.r_availableInColumns st, SRG.r_rng st)).
Proof.
  intros Hcol. unfold SRG.generateRow_step.
  by destruct (decide (Z.of_nat (SRG.r_currentColumn st) < order)).
Qed.

(** When [row_all] lists the ends of a row, [generateRow] ends in one of
    them with the program's source. *)
Lemma row_all_sound (steps fuel : nat) (order : Z)
    (initial : list (gset Z)) (st : SRG.RowState)
    (outs : list (list (gset Z))) :
  Explore.row_all steps fuel order initial (Explore.row_erase st)
  = Some outs →
  ∃ row columns g',
    while_loop steps (SRG.generateRow_step next fuel order initial) st
    = Ok (row, columns, g')
    ∧ columns ∈ outs.
Proof.
  revert st outs. induction steps as [|steps IH]; intros st outs; [done|].
  cbn [Explore.row_all while_loop].
  cbn [Explore.row_erase SRG.r_currentColumn SRG.r_availableInColumns
       SRG.r_availableInRow SRG.r_row SRG.r_rng].
  destruct (decide (Z.of_nat (SRG.r_currentColumn st) < order)) as [Hcol|Hcol].
  2:{ intros [= <-]. rewrite generateRow_step_done by done. simpl.
      eexists _, _, _. split; [done|]. by apply list_elem_of_singleton. }
  destruct (SRG.r_availableInColumns st !! SRG.r_currentColumn st)
    as [available|] eqn:Hav; [|done].
  destruct (decide (filter (λ symbol, symbol ∈ SRG.r_availableInRow st)
                      available ≠ ∅)) as [Hvalid|Hvalid].
  - intros Hall.
    destruct (generateRow_step_constant fuel order initial st available
                Hcol Hav Hvalid) as (k & Hk & Hstep).
    destruct (collect_spec _ _ _ Hall k) as (ys & Hys & Hsub).
    { apply elem_of_seq. lia. }
    destruct (SRG.generateRow_step (constant_source k) fuel order initial _)
      as [[st'|?]|?] eqn:Hconst; [|done..].
    rewrite (Hstep st' eq_refl). cbn [mbind res_bind].
    destruct (IH (Explore.row_restore (next (SRG.r_rng st)).2 st') ys)
      as (row & columns' & g' & Hloop & Hin).
    { by rewrite row_erase_restore. }
    exists row, columns', g'. split; [done|]. by apply Hsub.
  - destruct (decide (available = ∅)) as [|Hne]; [done|].
    destruct (SRG.constructReplacementGraph (SRG.r_row st)
                (SRG.r_currentColumn st) initial) as [graph|e] eqn:Hgraph;
      [|done].
    destruct (collect (seq 0 (size available)) _) as [exits|] eqn:Hexits;
      [|done].
    intros Hall.
    destruct (generateRow_step_conflict fuel order initial st available graph
                Hcol Hav Hvalid Hne Hgraph)
      as (k & x & Hk & Hconst & Hstep).
    destruct (collect_spec _ _ _ Hexits k) as (ws & Hws & Hsubw).
    { apply elem_of_seq. lia. }
    rewrite Hconst in Hws. rewrite Hstep.
    unfold SRG.makeElementAvailable.
    match goal with
    | |- context [while_loop fuel _ ?w0] =>
        destruct (walk_all_sound fuel x
                    (SRG.eraseInitialElementFromGraph graph x) w0 ws Hws)
          as (w' & Hwalk & Hw')
    end.
    rewrite Hwalk. cbn [mbind res_bind].
    destruct (collect_spec _ _ _ Hall
                (Explore.row_of_walk (SRG.r_currentColumn st)
                   (Explore.walk_erase w'))) as (ys & Hys & Hsub).
    { apply dedup_rows_elem; [|done]. apply list_elem_of_fmap.
      exists (Explore.walk_erase w'). split; [done|]. by apply Hsubw. }
    match goal with
    | |- context [while_loop steps _ ?st'] =>
        destruct (IH st' ys Hys) as (row & columns' & g' & Hloop & Hin)
    end.
    exists row, columns', g'. split; [done|]. by apply Hsub.
Qed.

Lemma generate_row_sound (fuel first : nat) (gen : SRG.Generator) (g : G)
    (outs : list (list (gset Z))) :
  Explore.row_all fuel fuel (SRG.order gen) (SRG.availableInColumns gen)
    {| SRG.r_availableInRow := SRG.availableSymbols gen;
       SRG.r_row := [];
       SRG.r_currentColumn := 0;
       SRG.r_availableInColumns := SRG.availableInColumns gen;
       SRG.r_rng := () |} = Some outs →
  (first < length (SRG.cayleyTable gen))%nat →
  ∃ gen' g',
    SRG.generate_row next fuel first (gen, g) = Ok (gen', g')
    ∧ SRG.order gen' = SRG.order gen
    ∧ SRG.availableSymbols gen' = SRG.availableSymbols gen
    ∧ length (SRG.cayleyTable gen') = length (SRG.cayleyTable gen)
    ∧ SRG.availableInColumns gen' ∈ outs.
Proof.
  intros Houts Hlen. unfold SRG.generate_row, SRG.generateRow.
  match goal with
  | |- context [while_loop fuel _ ?st0] =>
      destruct (row_all_sound fuel fuel (SRG.order gen)
                  (SRG.availableInColumns gen) st0 outs Houts)
        as (row & columns & g' & Hloop & Hcols)
  end.
  rewrite Hloop. cbn [mbind res_bind].
  unfold vec_set. destruct (decide (first < length (SRG.cayleyTable gen))%nat);
    [|lia].
  cbn [mbind res_bind]. eexists _, _. split; [done|].
  cbn [SRG.order SRG.availableSymbols SRG.cayleyTable SRG.availableInColumns].
  by rewrite length_insert.
Qed.

(** When [generate_all] says yes, the rows that remain are generated with
    the program's source. *)
Lemma generate_all_sound (rows fuel first : nat) (order : Z)
    (states : list (list (gset Z))) (gen : SRG.Generator) (g : G) :
  Explore.generate_all rows fuel order states = true →
  SRG.order gen = order →
  SRG.availableSymbols gen = list_to_set (seqZ 0 order) →
  SRG.availableInColumns gen ∈ states →
  (first + rows ≤ length (SRG.cayleyTable gen))%nat →
  ∃ st, for_loop (seq first rows) (SRG.generate_row next fuel) (gen, g)
        = Ok st.
Proof.
  revert first states gen g.
  induction rows as [|rows IH]; intros first states gen g Hall Hord Hsym Hin
    Hlen; [by eexists|].
  cbn [Explore.generate_all] in Hall.
  destruct (collect states _) as [after|] eqn:Hafter; [|done].
  destruct (collect_spec _ _ _ Hafter _ Hin) as (outs & Houts & Hsub).
  rewrite <-Hsym in Houts. rewrite <-Hord in Houts.
  destruct (generate_row_sound fuel first gen g outs Houts)
    as (gen' & g' & Hrow & Hord' & Hsym' & Hlen' & Hcols); [lia|].
  cbn [seq for_loop]. rewrite Hrow. cbn [mbind res_bind].
  apply (IH (S first) (Explore.dedup_columns after)); try done.
  - congruence.
  - congruence.
  - apply dedup_columns_elem. by apply Hsub.
  - lia.
Qed.

(** What [generate_every] decides. *)
Lemma generate_every_sound (fuel : nat) (order : Z) (g : G) :
  0 ≤ order →
  Explore.generate_every fuel order = true →
  ∃ table g',
    SRG.generateSequentialReplacementGraphCayleyTable next fuel order g
    = Ok (table, g').
Proof.
  intros Hord Hall.
  unfold SRG.generateSequentialReplacementGraphCayleyTable, SRG.generate.
  destruct (generate_all_sound (Z.to_nat order) fuel 0 order _
              (SRG.mkGenerator order) g Hall) as ([gen' g'] & Hloop);
    [done|done|by apply list_elem_of_singleton| |].
  { cbn [SRG.mkGenerator SRG.cayleyTable]. rewrite length_replicate. lia. }
  cbn [SRG.order SRG.mkGenerator]. rewrite Hloop. by eexists _, _.
Qed.

End ExploreSound.

(** The generator of order 0 to 4 gets through every sequence of draws,
    with six passes for each of its loops. *)
Lemma generate_every_small (order : Z) :
  0 ≤ order ≤ 4 → Explore.generate_every 6 order = true.
Proof.
  intros Hord.
  assert (order = 0 ∨ order = 1 ∨ order = 2 ∨ order = 3 ∨ order = 4)
    as Hcases by lia.
  destruct Hcases as [Ho|[Ho|[Ho|[Ho| Ho]]]]; subst order;
    vm_compute; reflexivity.
Qed.

(** X25 (SequentialReplacementGraphGenerator::generate, generateRow and
    makeElementAvailable, main.cpp lines 341-474): for the orders 0 to 4
    the generator returns whatever the random source delivers: on every
    sequence of draws the row loop and the repair loop end within six
    passes each, and the table returned is a Latin square. *)
Theorem generate_returns_up_to_order_four {G : Type} (next : G → nat * G)
    (fuel : nat) (order : Z) (g : G) :
  0 ≤ order ≤ 4 → (6 ≤ fuel)%nat →
  ∃ table g',
    SRG.generateSequentialReplacementGraphCayleyTable next fuel order g
    = Ok (table, g')
    ∧ length table = Z.to_nat order ∧ square table
    ∧ isLatinSquare table = Ok true.
Proof.
  intros Hord Hfuel.
  destruct (generate_every_sound next 6 order g ltac:(lia)
              (generate_every_small order Hord)) as (table & g' & Hgen).
  apply (generate_mono next 6 fuel) in Hgen; [|done].
  pose proof (generate_outcome next fuel order g ltac:(lia)) as Hout.
  rewrite Hgen in Hout. destruct Hout as (Hlen & Hsq & Hlatin).
  exists table, g'. split; [done|]. split; [done|]. split; [done|].
  destruct (isLatinSquare_latin _ Hsq) as (b & -> & Hb).
  f_equal. by apply Hb.
Qed.

Lemma generate_returns_up_to_order_four_witness :
  ∃ table g',
    SRG.generateSequentialReplacementGraphCayleyTable lcg_count 6 4
      (11, 0%nat)
    = Ok (table, g')
    ∧ length table = Z.to_nat 4 ∧ square table
    ∧ isLatinSquare table = Ok true.
Proof.
  apply (generate_returns_up_to_order_four lcg_count 6 4 (11, 0%nat)); lia.
Defined.
(* ================================================================= *)
(** ** The greatest common divisor *)

Lemma gcd_rem_step (x y : Z) : y ≠ 0 → Z.gcd y (Z.rem x y) = Z.gcd x y.
Proof.
  intros Hy.
  assert (Z.rem x y = x + (- (x ÷ y)) * y) as ->.
  { pose proof (Z.quot_rem' x y). lia. }
  rewrite Z.gcd_add_mult_diag_r. apply Z.gcd_comm.
Qed.

Lemma int_rem_ok (x y : Z) :
  y ≠ 0 → ¬ (x = INT_MIN ∧ y = -1) → int_rem x y = Ok (Z.rem x y).
Proof.
  intros Hy Hxy. unfold int_rem.
  rewrite decide_False by done. by rewrite decide_False by done.
Qed.

Lemma computeGreatestCommonDivisor_ok (a b : Z) (fuel : nat) :
  INT_MIN ≤ a ≤ INT_MAX → INT_MIN ≤ b ≤ INT_MAX →
  ¬ gcd_overflows a b → Z.abs b < Z.of_nat fuel →
  ∃ r, computeGreatestCommonDivisor fuel a b = Ok r
       ∧ Z.abs r = Z.gcd a b
       ∧ (0 ≤ a → 0 ≤ b → 0 ≤ r)
       ∧ (a ≤ 0 → b ≤ 0 → r ≤ 0).
Proof.
  intros Ha Hb Hno Hfuel. unfold computeGreatestCommonDivisor.
  apply (while_loop_total fuel computeGreatestCommonDivisor_step
    (λ st, INT_MIN ≤ st.1 ≤ INT_MAX ∧ INT_MIN ≤ st.2 ≤ INT_MAX
           ∧ ¬ gcd_overflows st.1 st.2
           ∧ Z.gcd st.1 st.2 = Z.gcd a b
           ∧ (0 ≤ a → 0 ≤ b → 0 ≤ st.1 ∧ 0 ≤ st.2)
           ∧ (a ≤ 0 → b ≤ 0 → st.1 ≤ 0 ∧ st.2 ≤ 0))
    (λ st, Z.to_nat (Z.abs st.2))).
  - intros [x y] (Hx & Hy & Hxy & Hg & Hpos & Hneg). cbn [fst snd] in *.
    unfold computeGreatestCommonDivisor_step.
    destruct (decide (y = 0)) as [->|Hy0].
    + rewrite Z.gcd_0_r in Hg. split; [done|]. split.
      * intros H1 H2. by apply Hpos.
      * intros H1 H2. by apply Hneg.
    + rewrite int_rem_ok; [|done|]. 2:{ intros H. apply Hxy. by left. }
      cbn. pose proof (Z.rem_bound_abs x y Hy0) as Hlt.
      unfold INT_MIN, INT_MAX in *.
      split; [|lia]. split; [lia|]. split; [lia|]. split.
      { unfold gcd_overflows, INT_MIN. intros [[-> H]|[-> H]].
        - apply Hxy. right. split; [|done].
          unfold INT_MIN.
          destruct (decide (x = - 2 ^ 31)) as [->|Hx'].
          + by rewrite Z.rem_same in H.
          + assert (Z.rem x (- 2 ^ 31) = x) as Hr
              by (apply Z.rem_small_iff; lia).
            by rewrite Hr in H.
        - lia. }
      split; [by rewrite gcd_rem_step|]. split.
      * intros H1 H2. destruct (Hpos H1 H2). split; [done|].
        by apply Z.rem_nonneg.
      * intros H1 H2. destruct (Hneg H1 H2). split; [done|].
        by apply Z.rem_nonpos.
  - cbn [fst snd]. split_and!; try done; intros; lia.
  - cbn [snd]. lia.
Qed.

(** X1 (computeGreatestCommonDivisor, main.cpp lines 40-48):
    on [int] arguments the Euclidean loop ends within [|secondNumber| + 1]
    passes. It takes the undefined remainder [INT_MIN % -1] exactly for the
    argument pairs [(INT_MIN, -1)] and [(-1, INT_MIN)]; on every other pair
    it returns the greatest common divisor up to sign: the divisor itself
    when both arguments are non-negative, its negation when both are
    non-positive. *)
Theorem computeGreatestCommonDivisor_gcd (a b : Z) (fuel : nat) :
  INT_MIN ≤ a ≤ INT_MAX → INT_MIN ≤ b ≤ INT_MAX →
  Z.abs b < Z.of_nat fuel →
  (gcd_overflows a b →
     computeGreatestCommonDivisor fuel a b = Err Undefined)
  ∧ (¬ gcd_overflows a b →
       ∃ r, computeGreatestCommonDivisor fuel a b = Ok r
            ∧ Z.abs r = Z.gcd a b
            ∧ (0 ≤ a → 0 ≤ b → r = Z.gcd a b)
            ∧ (a ≤ 0 → b ≤ 0 → r = - Z.gcd a b)).
Proof.
  intros Ha Hb Hfuel. split.
  - intros [[-> ->]|[-> ->]].
    + destruct fuel as [|fuel]; [simpl in Hfuel; lia|]. reflexivity.
    + destruct fuel as [|[|fuel]]; [simpl in Hfuel; lia..|]. reflexivity.
  - intros Hno.
    destruct (computeGreatestCommonDivisor_ok a b fuel Ha Hb Hno Hfuel)
      as (r & Hr & Habs & Hpos & Hneg).
    exists r. split; [done|]. split; [done|]. split.
    + intros H1 H2. specialize (Hpos H1 H2). lia.
    + intros H1 H2. specialize (Hneg H1 H2). lia.
Qed.

Lemma computeGreatestCommonDivisor_gcd_witness :
  (gcd_overflows 12 (-8) →
     computeGreatestCommonDivisor 9 12 (-8) = Err Undefined)
  ∧ (¬ gcd_overflows 12 (-8) →
       ∃ r, computeGreatestCommonDivisor 9 12 (-8) = Ok r
            ∧ Z.abs r = Z.gcd 12 (-8)
            ∧ (0 ≤ 12 → 0 ≤ -8 → r = Z.gcd 12 (-8))
            ∧ (12 ≤ 0 → -8 ≤ 0 → r = - Z.gcd 12 (-8))).
Proof.
  apply (computeGreatestCommonDivisor_gcd 12 (-8) 9);
    unfold INT_MIN, INT_MAX; lia.
Defined.
(* ================================================================= *)
(** ** Filling a table cell by cell *)

Lemma for_loop_seqZ_inv {S : Type} (n : Z) (body : Z → S → res S)
    (I : Z → S → Prop) (E : error → Prop) (s0 : S) :
  0 ≤ n →
  I 0 s0 →
  (∀ k s, 0 ≤ k < n → I k s →
     match body k s with
     | Ok s' => I (k + 1) s'
     | Err e => E e
     end) →
  match for_loop (seqZ 0 n) body s0 with
  | Ok s => I n s
  | Err e => E e
  end.
Proof.
  intros Hn H0 Hstep.
  pose proof (for_loop_inv (seqZ 0 n) body
                (λ done s, I (Z.of_nat (length done)) s) E s0 H0) as H.
  cbv beta in H. rewrite length_seqZ, Z2Nat.id in H by done. apply H. clear H.
  intros done x rest s Hl Hd.
  assert (seqZ 0 n !! length done = Some x) as Hx.
  { rewrite Hl. by rewrite list_lookup_middle. }
  apply lookup_seqZ in Hx as [-> Hlt].
  specialize (Hstep (Z.of_nat (length done)) s).
  rewrite Z.add_0_l.
  destruct (body (Z.of_nat (length done)) s) as [s'|e];
    try (apply Hstep; [lia|done]).
  rewrite length_app. simpl.
  replace (Z.of_nat (length done + 1)) with (Z.of_nat (length done) + 1) by lia.
  apply Hstep; [lia|done].
Qed.

Lemma table_set_spec (table : list (list Z)) (r c v : Z) :
  square table →
  0 ≤ r < Z.of_nat (length table) → 0 ≤ c < Z.of_nat (length table) →
  ∃ table', table_set table r c v = Ok table'
    ∧ length table' = length table ∧ square table'
    ∧ entry table' (Z.to_nat r) (Z.to_nat c) = v
    ∧ ∀ i j, ¬ (i = Z.to_nat r ∧ j = Z.to_nat c) →
        entry table' i j = entry table i j.
Proof.
  intros Hsq Hr Hc. unfold table_set.
  destruct (vec_get_int_ok table r Hr) as (row & Hrow & ->). cbn.
  pose proof (square_row_length _ _ _ Hsq Hrow) as Hlen.
  rewrite vec_set_int_ok by lia. cbn.
  rewrite vec_set_int_ok by lia.
  eexists. split; [done|].
  split; [by rewrite length_insert|]. split.
  { unfold square. rewrite length_insert.
    apply Forall_insert; [done|]. by rewrite length_insert. }
  split.
  { unfold entry. rewrite list_lookup_total_insert_eq by lia.
    by rewrite list_lookup_total_insert_eq by lia. }
  intros i j Hij. unfold entry.
  destruct (decide (i = Z.to_nat r)) as [->|Hi].
  - rewrite list_lookup_total_insert_eq by lia.
    rewrite list_lookup_total_insert_ne by (intros <-; by apply Hij).
    by rewrite (list_lookup_total_correct _ _ _ Hrow).
  - by rewrite list_lookup_total_insert_ne by done.
Qed.

Lemma for_loop_seqZ_total {S : Type} (n : Z) (body : Z → S → res S)
    (I : Z → S → Prop) (s0 : S) :
  0 ≤ n →
  I 0 s0 →
  (∀ k s, 0 ≤ k < n → I k s → ∃ s', body k s = Ok s' ∧ I (k + 1) s') →
  ∃ s, for_loop (seqZ 0 n) body s0 = Ok s ∧ I n s.
Proof.
  intros Hn H0 Hstep.
  pose proof (for_loop_seqZ_inv n body I (λ _, False) s0 Hn H0) as H.
  destruct (for_loop (seqZ 0 n) body s0) as [s|e].
  - exists s. split; [done|]. apply H. intros k s1 Hk Hs.
    by destruct (Hstep k s1 Hk Hs) as (s' & -> & Hs').
  - exfalso. apply H. intros k s1 Hk Hs.
    by destruct (Hstep k s1 Hk Hs) as (s' & -> & Hs').
Qed.

Lemma fill_row_spec (order : Z) (cell : Z → Z → res Z) (val : Z → Z → Z)
    (k : Z) (table0 : list (list Z)) :
  0 ≤ k < order →
  (∀ c, 0 ≤ c < order → cell k c = Ok (val k c)) →
  length table0 = Z.to_nat order → square table0 →
  ∃ table,
    for_loop (seqZ 0 order)
      (λ column table,
         value ← cell k column; table_set table k column value)
      table0
    = Ok table
    ∧ length table = Z.to_nat order ∧ square table
    ∧ (∀ j, Z.of_nat j < order →
         entry table (Z.to_nat k) j = val k (Z.of_nat j))
    ∧ (∀ i j, i ≠ Z.to_nat k → entry table i j = entry table0 i j).
Proof.
  intros Hk Hcell Hlen Hsq.
  apply (for_loop_seqZ_total order _
    (λ c table, length table = Z.to_nat order ∧ square table
       ∧ (∀ j, Z.of_nat j < c →
            entry table (Z.to_nat k) j = val k (Z.of_nat j))
       ∧ (∀ i j, i ≠ Z.to_nat k → entry table i j = entry table0 i j)));
    [lia| |].
  - split; [done|]. split; [done|]. split; [intros; lia|done].
  - intros c table2 Hc (Hlen2 & Hsq2 & Hrow2 & Hrest2).
    rewrite Hcell by lia. cbn.
    destruct (table_set_spec table2 k c (val k c) Hsq2)
      as (table3 & -> & Hlen3 & Hsq3 & Hnew & Hold); [lia..|].
    exists table3. split; [done|].
    split; [lia|]. split; [done|]. split.
    + intros j Hj. destruct (decide (Z.of_nat j = c)) as [<-|Hne].
      * by rewrite Nat2Z.id in Hnew.
      * rewrite Hold by lia. apply Hrow2. lia.
    + intros i j Hi. rewrite Hold by (intros [? _]; done). by apply Hrest2.
Qed.

Lemma fill_loop_spec (order : Z) (cell : Z → Z → res Z) (val : Z → Z → Z) :
  0 ≤ order →
  (∀ r c, 0 ≤ r < order → 0 ≤ c < order → cell r c = Ok (val r c)) →
  ∃ table,
    for_loop (seqZ 0 order)
      (λ row table,
         for_loop (seqZ 0 order)
           (λ column table,
              value ← cell row column; table_set table row column value)
           table)
      (replicate (Z.to_nat order) (replicate (Z.to_nat order) 0))
    = Ok table
    ∧ length table = Z.to_nat order ∧ square table
    ∧ ∀ i j, Z.of_nat i < order → Z.of_nat j < order →
        entry table i j = val (Z.of_nat i) (Z.of_nat j).
Proof.
  intros Hn Hcell.
  apply (for_loop_seqZ_total order _
    (λ k table, length table = Z.to_nat order ∧ square table
       ∧ ∀ i j, Z.of_nat i < k → Z.of_nat j < order →
           entry table i j = val (Z.of_nat i) (Z.of_nat j))); [done| |].
  - split; [by rewrite length_replicate|]. split.
    + unfold square. rewrite length_replicate. apply Forall_replicate.
      by rewrite length_replicate.
    + intros; lia.
  - intros k table0 Hk (Hlen & Hsq & Hdone).
    destruct (fill_row_spec order cell val k table0 Hk) as
      (table & -> & Hlen1 & Hsq1 & Hrow & Hrest); [|done..|].
    { intros c Hc. by apply Hcell. }
    exists table. split; [done|]. split; [done|]. split; [done|].
    intros i j Hi Hj. destruct (decide (i = Z.to_nat k)) as [->|Hne].
    + rewrite Hrow by done. by rewrite Z2Nat.id by lia.
    + rewrite Hrest by done. apply Hdone; lia.
Qed.
(* ================================================================= *)
(** ** The affine quasigroup generator *)

Lemma mod_eq_divide (n a b : Z) :
  n ≠ 0 → a `mod` n = b `mod` n → (n | a - b).
Proof.
  intros Hn Hab. exists (a `div` n - b `div` n).
  pose proof (Z.div_mod a n Hn). pose proof (Z.div_mod b n Hn). lia.
Qed.

Lemma divide_small (n d : Z) : (n | d) → Z.abs d < n → d = 0.
Proof.
  intros [k ->] Hlt. rewrite Z.abs_mul in Hlt.
  destruct (decide (k = 0)) as [->|Hk]; [lia|].
  assert (1 ≤ Z.abs k) as Hk1 by lia.
  assert (n ≤ Z.abs n) as Hn1 by lia. nia.
Qed.

Lemma coprime_mul_mod_cancel (n g x y k : Z) :
  1 ≤ n → Z.gcd g n = 1 → 0 ≤ x < n → 0 ≤ y < n →
  (g * x + k) `mod` n = (g * y + k) `mod` n → x = y.
Proof.
  intros Hn Hg Hx Hy Heq.
  apply mod_eq_divide in Heq; [|lia].
  replace (g * x + k - (g * y + k)) with (g * (x - y)) in Heq by lia.
  apply Z.gauss in Heq; [|by rewrite Z.gcd_comm].
  apply divide_small in Heq; lia.
Qed.

(** The value of a cell when nothing overflows. *)
Lemma affine_cell_value (order α β c : Z) (f : list Z) (row column : Z) :
  1 ≤ order → 0 ≤ α → 0 ≤ β → 0 ≤ c < order →
  (α + β + 1) * order < 2 ^ 31 →
  length f = Z.to_nat order → (∀ v, v ∈ f → 0 ≤ v < order) →
  0 ≤ row < order → 0 ≤ column < order →
  affine_cell order α β c f row column
  = Ok ((α * row + β * (f !!! Z.to_nat column) + c) `mod` order).
Proof.
  intros Hn Hα Hβ Hc Hsmall Hlen Hf Hrow Hcol. unfold affine_cell.
  destruct (vec_get_int_ok f column) as (v & Hv & ->); [lia|]. cbn.
  rewrite (list_lookup_total_correct _ _ _ Hv).
  assert (0 ≤ v < order) as Hvr.
  { apply Hf. by eapply list_elem_of_lookup_2. }
  assert (0 ≤ α * row ≤ α * order) as H1 by nia.
  assert (0 ≤ β * v ≤ β * order) as H2 by nia.
  assert (int_mul α row = α * row) as ->.
  { apply wrap_int_id. unfold INT_MIN, INT_MAX. nia. }
  assert (int_mul β v = β * v) as ->.
  { apply wrap_int_id. unfold INT_MIN, INT_MAX. nia. }
  assert (int_add (α * row) (β * v) = α * row + β * v) as ->.
  { apply wrap_int_id. unfold INT_MIN, INT_MAX. nia. }
  assert (int_add (α * row + β * v) c = α * row + β * v + c) as ->.
  { apply wrap_int_id. unfold INT_MIN, INT_MAX. nia. }
  rewrite int_rem_ok; [|lia|lia].
  by rewrite Z.rem_mod_nonneg by lia.
Qed.

(** The table [(α·i + β·f(j) + c) mod n] is a Latin square when [α] and
    [β] are coprime to [n] and [f] is a rearrangement of [0 .. n-1]. *)
Lemma affine_table_lines (table : list (list Z)) (α β c : Z) (f : list Z) :
  let n := length table in
  1 ≤ Z.of_nat n →
  Z.gcd α (Z.of_nat n) = 1 → Z.gcd β (Z.of_nat n) = 1 →
  f ≡ₚ seqZ 0 (Z.of_nat n) →
  (∀ i j, (i < n)%nat → (j < n)%nat →
     entry table i j
     = (α * Z.of_nat i + β * (f !!! j) + c) `mod` Z.of_nat n) →
  ∀ r, (r < n)%nat → line_ok table n r.
Proof.
  intros n Hn Hα Hβ Hf Hentry r Hr.
  apply permutation_range in Hf as (Hlen & Hnd & Hrange).
  assert (∀ j, (j < n)%nat → 0 ≤ f !!! j < Z.of_nat n) as Hfj.
  { intros j Hj. apply Hrange. apply list_elem_of_lookup_total_2. lia. }
  assert (∀ j j', (j < n)%nat → (j' < n)%nat → f !!! j = f !!! j' → j = j')
    as Hinj.
  { intros j j' Hj Hj' Heq.
    apply (NoDup_lookup f j j' (f !!! j) Hnd).
    - apply list_lookup_lookup_total_lt. lia.
    - rewrite Heq. apply list_lookup_lookup_total_lt. lia. }
  split; [|split].
  - intros k Hk. rewrite !Hentry by done.
    split; apply Z.mod_pos_bound; lia.
  - intros k k' Hk Hk'. rewrite !Hentry by done. intros Heq.
    apply Hinj; [done..|].
    apply (coprime_mul_mod_cancel (Z.of_nat n) β _ _ (α * Z.of_nat r + c));
      [lia|done|by apply Hfj..|].
    etrans; [|etrans; [exact Heq|]]; f_equal; lia.
  - intros k k' Hk Hk'. rewrite !Hentry by done. intros Heq.
    apply Nat2Z.inj.
    apply (coprime_mul_mod_cancel (Z.of_nat n) α _ _ (β * f !!! r + c));
      [lia|done|lia..|].
    etrans; [|etrans; [exact Heq|]]; f_equal; lia.
Qed.

Lemma computeGreatestCommonDivisor_partial (a b r : Z) (fuel : nat) :
  0 ≤ a ≤ INT_MAX → 0 ≤ b ≤ INT_MAX →
  computeGreatestCommonDivisor fuel a b = Ok r → r = Z.gcd a b.
Proof.
  intros Ha Hb Hr.
  assert (¬ gcd_overflows a b) as Hno.
  { unfold gcd_overflows, INT_MIN. lia. }
  destruct (computeGreatestCommonDivisor_ok a b
              (fuel `max` S (Z.to_nat (Z.abs b)))) as (r' & Hr' & Habs & Hpos & _);
    [unfold INT_MIN in *; lia..|done|lia|].
  apply (while_loop_mono fuel (fuel `max` S (Z.to_nat (Z.abs b)))) in Hr;
    [|lia].
  unfold computeGreatestCommonDivisor in Hr'. rewrite Hr in Hr'.
  injection Hr' as <-. specialize (Hpos ltac:(lia) ltac:(lia)). lia.
Qed.

Section AffineQuasigroup.
Context {I G : Type} (cin : I → Z * I).
Context (shuffle : list Z → G → list Z * G).

Lemma after_inputs_S (k : nat) (input : I) :
  after_inputs cin (S k) input = (cin (after_inputs cin k input)).2.
Proof.
  revert input. induction k as [|k IH]; intros input; [done|].
  change (after_inputs cin (S (S k)) input)
    with (after_inputs cin (S k) (cin input).2).
  by rewrite IH.
Qed.

Lemma affine_coefficient_accept (fuel : nat) (order v : Z) (input : I) :
  1 ≤ order ≤ INT_MAX → 0 ≤ v ≤ INT_MAX → Z.gcd v order = 1 →
  order < Z.of_nat fuel →
  while_loop fuel (affine_coefficient_step cin fuel order) (v, input)
  = Ok (v, input).
Proof.
  intros Hn Hv Hg Hfuel.
  destruct (computeGreatestCommonDivisor_ok v order fuel)
    as (r & Hr & Habs & Hpos & _);
    [unfold INT_MIN in *; lia..| |lia|].
  { unfold gcd_overflows, INT_MIN. lia. }
  specialize (Hpos ltac:(lia) ltac:(lia)).
  assert (r = 1) as -> by lia.
  assert (affine_coefficient_step cin fuel order (v, input)
          = Ok (Return (v, input))) as Hstep.
  { unfold affine_coefficient_step. rewrite Hr. cbn.
    by rewrite decide_False by (intros H; by apply H). }
  destruct fuel as [|fuel']; [simpl in Hfuel; lia|].
  cbn [while_loop]. by rewrite Hstep.
Qed.

Lemma affine_constant_accept (fuel : nat) (order c : Z) (input : I) :
  0 ≤ c < order →
  while_loop (S fuel) (affine_constant_step cin order) (c, input)
  = Ok (c, input).
Proof.
  intros Hc. cbn [while_loop]. unfold affine_constant_step.
  by rewrite decide_False by lia.
Qed.

(** The coefficient loop hands back a value of the input that passes the
    coprimality test. *)
Lemma affine_coefficient_loop (fuel : nat) (order : Z) (input : I)
    (k : nat) (v : Z) (input' : I) :
  while_loop fuel (affine_coefficient_step cin fuel order)
    (cin (after_inputs cin k input)) = Ok (v, input') →
  ∃ k', (k ≤ k')%nat ∧ (v, input') = cin (after_inputs cin k' input)
        ∧ computeGreatestCommonDivisor fuel v order = Ok 1.
Proof.
  intros Hloop.
  pose proof (while_loop_inv fuel (affine_coefficient_step cin fuel order)
    (λ st, ∃ k', (k ≤ k')%nat ∧ st = cin (after_inputs cin k' input))
    (λ r, match r with
          | Ok st => ∃ k', (k ≤ k')%nat ∧ st = cin (after_inputs cin k' input)
                     ∧ computeGreatestCommonDivisor fuel st.1 order = Ok 1
          | Err _ => True
          end)
    (cin (after_inputs cin k input))) as H.
  rewrite Hloop in H. apply H; [done| |by exists k].
  intros [x i] (k' & Hk' & Hst). unfold affine_coefficient_step.
  destruct (computeGreatestCommonDivisor fuel x order) as [d|e] eqn:Hd;
    [|done]. cbn.
  destruct (decide (d ≠ 1)) as [Hne|Heq].
  - exists (S k'). split; [lia|]. rewrite after_inputs_S. by rewrite <-Hst.
  - exists k'. split; [done|]. split; [done|]. cbn.
    destruct (decide (d = 1)) as [->|]; done.
Qed.

Lemma affine_constant_loop (fuel : nat) (order : Z) (input : I)
    (k : nat) (v : Z) (input' : I) :
  while_loop fuel (affine_constant_step cin order)
    (cin (after_inputs cin k input)) = Ok (v, input') →
  ∃ k', (k ≤ k')%nat ∧ (v, input') = cin (after_inputs cin k' input)
        ∧ 0 ≤ v < order.
Proof.
  intros Hloop.
  pose proof (while_loop_inv fuel (affine_constant_step cin order)
    (λ st, ∃ k', (k ≤ k')%nat ∧ st = cin (after_inputs cin k' input))
    (λ r, match r with
          | Ok st => ∃ k', (k ≤ k')%nat ∧ st = cin (after_inputs cin k' input)
                     ∧ 0 ≤ st.1 < order
          | Err _ => True
          end)
    (cin (after_inputs cin k input))) as H.
  rewrite Hloop in H. apply H; [done| |by exists k].
  intros [x i] (k' & Hk' & Hst). unfold affine_constant_step.
  destruct (decide (x < 0 ∨ order ≤ x)) as [Hout|Hin].
  - exists (S k'). split; [lia|]. rewrite after_inputs_S. by rewrite <-Hst.
  - exists k'. split; [done|]. split; [done|]. cbn. lia.
Qed.

(** With nothing to overflow, the table is there and is a Latin square. *)
Lemma affine_fill_latin (order α β c : Z) (f : list Z) :
  1 ≤ order → 0 ≤ α → 0 ≤ β → 0 ≤ c < order →
  (α + β + 1) * order < 2 ^ 31 →
  Z.gcd α order = 1 → Z.gcd β order = 1 →
  f ≡ₚ seqZ 0 order →
  ∃ table, affine_fill order α β c f = Ok table
    ∧ length table = Z.to_nat order ∧ square table
    ∧ (∀ i j, Z.of_nat i < order → Z.of_nat j < order →
         entry table i j
         = (α * Z.of_nat i + β * (f !!! j) + c) `mod` order)
    ∧ isLatinSquare table = Ok true.
Proof.
  intros Hn Hα Hβ Hc Hsmall Hgα Hgβ Hf.
  assert (order = Z.of_nat (Z.to_nat order)) as Hnat by lia.
  pose proof Hf as Hf'. rewrite Hnat in Hf'.
  apply permutation_range in Hf' as (Hlen & _ & Hrange).
  destruct (fill_loop_spec order (affine_cell order α β c f)
              (λ r k, (α * r + β * (f !!! Z.to_nat k) + c) `mod` order))
    as (table & Htable & Hlent & Hsq & Hentry); [lia| |].
  { intros r k Hr Hk. apply affine_cell_value; try done.
    intros v Hv. apply Hrange in Hv. lia. }
  exists table. split; [exact Htable|]. split; [done|]. split; [done|].
  assert (∀ i j, Z.of_nat i < order → Z.of_nat j < order →
            entry table i j
            = (α * Z.of_nat i + β * f !!! j + c) `mod` order) as Hentry'.
  { intros i j Hi Hj. rewrite Hentry by done. by rewrite Nat2Z.id. }
  split; [done|].
  destruct (isLatinSquare_lines table Hsq) as (b & -> & Hb).
  f_equal. apply Hb. rewrite Hlent.
  pose proof (affine_table_lines table α β c f) as Hlines.
  cbv zeta in Hlines. rewrite Hlent in Hlines. rewrite <-Hnat in Hlines.
  apply Hlines; try done. intros i j Hi Hj. apply Hentry'; lia.
Qed.

End AffineQuasigroup.

Lemma gcd_negative_accepted (n : Z) (fuel : nat) :
  3 ≤ n ≤ INT_MAX → (4 ≤ fuel)%nat →
  computeGreatestCommonDivisor fuel (1 - n) n = Ok 1.
Proof.
  intros Hn Hfuel.
  do 4 (destruct fuel as [|fuel]; [lia|]).
  unfold computeGreatestCommonDivisor.
  assert (Z.rem (1 - n) n = 1 - n) as H1 by (apply Z.rem_small_iff; lia).
  assert (Z.rem n (1 - n) = 1) as H2.
  { replace (1 - n) with (- (n - 1)) by lia.
    rewrite Z.rem_opp_r by lia. rewrite Z.rem_mod_nonneg by lia.
    replace n with (1 + 1 * (n - 1)) at 1 by lia.
    rewrite Z_mod_plus_full. apply Z.mod_small. lia. }
  assert (computeGreatestCommonDivisor_step (1 - n, n)
          = Ok (Continue (n, 1 - n))) as S1.
  { unfold computeGreatestCommonDivisor_step.
    rewrite decide_False by lia.
    rewrite int_rem_ok by (unfold INT_MIN; lia). by rewrite H1. }
  assert (computeGreatestCommonDivisor_step (n, 1 - n)
          = Ok (Continue (1 - n, 1))) as S2.
  { unfold computeGreatestCommonDivisor_step.
    rewrite decide_False by lia.
    rewrite int_rem_ok by (unfold INT_MIN; lia). by rewrite H2. }
  assert (computeGreatestCommonDivisor_step (1 - n, 1)
          = Ok (Continue (1, 0))) as S3.
  { unfold computeGreatestCommonDivisor_step.
    rewrite decide_False by lia.
    rewrite int_rem_ok by (unfold INT_MIN; lia). by rewrite Z.rem_1_r. }
  cbn [while_loop]. rewrite S1. cbn [mbind res_bind].
  rewrite S2. cbn [mbind res_bind]. rewrite S3. cbn [mbind res_bind].
  reflexivity.
Qed.

Section AffineTheorems.
Context {I G : Type} (cin : I → Z * I).
Context (shuffle : list Z → G → list Z * G).

Lemma affine_constant_diverges (fuel : nat) (order : Z) (st : Z * I) :
  order ≤ 0 →
  while_loop fuel (affine_constant_step cin order) st = Err OutOfFuel.
Proof.
  intros Hn. revert st. induction fuel as [|fuel IH]; intros [c i]; [done|].
  cbn [while_loop]. unfold affine_constant_step at 2.
  rewrite decide_True by lia. cbn. apply IH.
Qed.

End AffineTheorems.

(** X2 (generateAffineQuasigroupCayleyTable, main.cpp lines
    267-309; generateRandomPermutation, lines 254-260): when the first three
    values of the input are coefficients [alpha], [beta] that are not
    negative and coprime to the order and a constant [c] in range, and the
    arithmetic stays within [int], the function returns after reading
    exactly these three values; the cell in row [i] and column [j] of its
    table is [(alpha * i + beta * f(j) + c) mod order] for the shuffled
    permutation [f], and the table passes [isLatinSquare]. *)
Theorem generateAffineQuasigroupCayleyTable_latin {I G : Type}
    (cin : I → Z * I) (shuffle : list Z → G → list Z * G)
    (fuel : nat) (order : Z) (input : I) (g : G) (α β c : Z) :
  (∀ l g, (shuffle l g).1 ≡ₚ l) →
  1 ≤ order →
  inputs cin 3 input = [α; β; c] →
  0 ≤ α → 0 ≤ β → Z.gcd α order = 1 → Z.gcd β order = 1 →
  0 ≤ c < order →
  (α + β + 1) * order < 2 ^ 31 →
  order < Z.of_nat fuel →
  ∃ table,
    generateAffineQuasigroupCayleyTable cin shuffle fuel order input g
    = Ok (table, after_inputs cin 3 input, (shuffle (seqZ 0 order) g).2)
    ∧ length table = Z.to_nat order ∧ square table
    ∧ (∀ i j, Z.of_nat i < order → Z.of_nat j < order →
         entry table i j
         = (α * Z.of_nat i + β * ((shuffle (seqZ 0 order) g).1 !!! j) + c)
           `mod` order)
    ∧ isLatinSquare table = Ok true.
Proof.
  intros Hshuffle Hn Hin Hα Hβ Hgα Hgβ Hc Hsmall Hfuel.
  cbn [inputs] in Hin. cbn [after_inputs].
  unfold generateAffineQuasigroupCayleyTable.
  destruct (cin input) as [a i1]. cbn [fst snd] in *.
  destruct (cin i1) as [b i2] eqn:Hi1. cbn [fst snd] in *.
  destruct (cin i2) as [c' i3] eqn:Hi2. cbn [fst snd] in *.
  injection Hin as -> -> ->.
  destruct (affine_fill_latin order α β c (shuffle (seqZ 0 order) g).1)
    as (table & Hfill & Hlen & Hsq & Hentry & Hlatin); try done.
  exists table. split; [|done].
  rewrite affine_coefficient_accept; [|unfold INT_MAX; nia..|done|done].
  cbn. rewrite Hi1.
  rewrite affine_coefficient_accept; [|unfold INT_MAX; nia..|done|done].
  cbn. rewrite Hi2.
  destruct fuel as [|fuel']; [simpl in Hfuel; lia|].
  rewrite affine_constant_accept by done. cbn.
  unfold generateRandomPermutation.
  destruct (shuffle (seqZ 0 order) g) as [f g'] eqn:Hf. cbn [fst snd] in *.
  by rewrite Hfill.
Qed.

Lemma generateAffineQuasigroupCayleyTable_latin_witness :
  ∃ table,
    generateAffineQuasigroupCayleyTable
      (λ input : list Z, (hd 0 input, tl input))
      (λ (l : list Z) (g : unit), (reverse l, g)) 6 5 [3; 2; 4] ()
    = Ok (table,
          after_inputs (λ input : list Z, (hd 0 input, tl input)) 3 [3; 2; 4],
          ())
    ∧ length table = Z.to_nat 5 ∧ square table
    ∧ (∀ i j, Z.of_nat i < 5 → Z.of_nat j < 5 →
         entry table i j
         = (3 * Z.of_nat i + 2 * (reverse (seqZ 0 5) !!! j) + 4) `mod` 5)
    ∧ isLatinSquare table = Ok true.
Proof.
  apply (generateAffineQuasigroupCayleyTable_latin
           (λ input : list Z, (hd 0 input, tl input))
           (λ (l : list Z) (g : unit), (reverse l, g)) 6 5 [3; 2; 4] () 3 2 4);
    try reflexivity; try lia.
  intros l g. apply reverse_Permutation.
Defined.

(** X3 (generateAffineQuasigroupCayleyTable, main.cpp lines
    284-290): for an order that is zero or negative no constant [c] passes
    the range test [0 <= c < order], so the function never returns, whatever
    is typed. *)
Theorem generateAffineQuasigroupCayleyTable_needs_positive_order
    {I G : Type} (cin : I → Z * I) (shuffle : list Z → G → list Z * G)
    (fuel : nat) (order : Z) (input : I) (g : G) :
  order ≤ 0 →
  ¬ ∃ r, generateAffineQuasigroupCayleyTable cin shuffle fuel order input g
         = Ok r.
Proof.
  intros Hn [r Hr]. revert Hr. unfold generateAffineQuasigroupCayleyTable.
  destruct (while_loop fuel (affine_coefficient_step cin fuel order)
              (cin input)) as [[a i1]|e]; [|done]. cbn.
  destruct (while_loop fuel (affine_coefficient_step cin fuel order)
              (cin i1)) as [[b i2]|e]; [|done]. cbn.
  by rewrite affine_constant_diverges.
Qed.

Lemma generateAffineQuasigroupCayleyTable_needs_positive_order_witness :
  ¬ ∃ r, generateAffineQuasigroupCayleyTable
           (λ input : list Z, (hd 0 input, tl input))
           (λ (l : list Z) (g : unit), (reverse l, g)) 6 0 [1; 1; 0] ()
         = Ok r.
Proof.
  apply (generateAffineQuasigroupCayleyTable_needs_positive_order
           (λ input : list Z, (hd 0 input, tl input))
           (λ (l : list Z) (g : unit), (reverse l, g)) 6 0 [1; 1; 0] ()).
  lia.
Defined.

(** X4 (generateAffineQuasigroupCayleyTable, main.cpp lines
    267-309): whatever is re-typed along the way, if every value the input
    delivers lies between 0 and a bound [B] that keeps the arithmetic within
    [int], a table the function returns has [order] rows and columns and
    passes [isLatinSquare]. *)
Theorem generateAffineQuasigroupCayleyTable_returns_latin {I G : Type}
    (cin : I → Z * I) (shuffle : list Z → G → list Z * G)
    (fuel : nat) (order B : Z) (input input' : I) (g g' : G)
    (table : list (list Z)) :
  (∀ l g, (shuffle l g).1 ≡ₚ l) →
  1 ≤ order →
  (∀ k, 0 ≤ (cin (after_inputs cin k input)).1 ≤ B) →
  (2 * B + 1) * order < 2 ^ 31 →
  generateAffineQuasigroupCayleyTable cin shuffle fuel order input g
  = Ok (table, input', g') →
  length table = Z.to_nat order ∧ square table
  ∧ isLatinSquare table = Ok true.
Proof.
  intros Hshuffle Hn Hbound Hsmall.
  unfold generateAffineQuasigroupCayleyTable.
  assert (0 ≤ B) as HB by (specialize (Hbound 0%nat); lia).
  assert (order ≤ INT_MAX) as Hmax by (unfold INT_MAX; nia).
  assert (B ≤ INT_MAX) as HBmax by (unfold INT_MAX; nia).
  destruct (while_loop fuel (affine_coefficient_step cin fuel order)
              (cin input)) as [[α i1]|e] eqn:Hα; [|done]. cbn.
  apply (affine_coefficient_loop cin fuel order input 0) in Hα
    as (k1 & _ & Hk1 & Hgα).
  assert (i1 = after_inputs cin (S k1) input) as ->.
  { rewrite after_inputs_S. by rewrite <-Hk1. }
  destruct (while_loop fuel (affine_coefficient_step cin fuel order)
              (cin (after_inputs cin (S k1) input))) as [[β i2]|e] eqn:Hβ;
    [|done]. cbn.
  apply affine_coefficient_loop in Hβ as (k2 & _ & Hk2 & Hgβ).
  assert (i2 = after_inputs cin (S k2) input) as ->.
  { rewrite after_inputs_S. by rewrite <-Hk2. }
  destruct (while_loop fuel (affine_constant_step cin order)
              (cin (after_inputs cin (S k2) input))) as [[c i3]|e] eqn:Hc;
    [|done]. cbn.
  apply affine_constant_loop in Hc as (k3 & _ & Hk3 & Hc).
  pose proof (Hbound k1) as Hα. rewrite <-Hk1 in Hα. cbn in Hα.
  pose proof (Hbound k2) as Hβ. rewrite <-Hk2 in Hβ. cbn in Hβ.
  apply computeGreatestCommonDivisor_partial in Hgα; [|lia..].
  apply computeGreatestCommonDivisor_partial in Hgβ; [|lia..].
  unfold generateRandomPermutation.
  destruct (shuffle (seqZ 0 order) g) as [f g1] eqn:Hf.
  destruct (affine_fill_latin order α β c f)
    as (table' & -> & Hlen & Hsq & _ & Hlatin); try done; try lia.
  { nia. }
  { replace f with (shuffle (seqZ 0 order) g).1 by by rewrite Hf.
    apply Hshuffle. }
  cbn. intros [= <- _ _]. done.
Qed.

Lemma generateAffineQuasigroupCayleyTable_returns_latin_witness :
  length [[2; 0; 3; 1; 4]; [0; 3; 1; 4; 2]; [3; 1; 4; 2; 0];
          [1; 4; 2; 0; 3]; [4; 2; 0; 3; 1]] = Z.to_nat 5
  ∧ square [[2; 0; 3; 1; 4]; [0; 3; 1; 4; 2]; [3; 1; 4; 2; 0];
            [1; 4; 2; 0; 3]; [4; 2; 0; 3; 1]]
  ∧ isLatinSquare [[2; 0; 3; 1; 4]; [0; 3; 1; 4; 2]; [3; 1; 4; 2; 0];
                   [1; 4; 2; 0; 3]; [4; 2; 0; 3; 1]] = Ok true.
Proof.
  apply (generateAffineQuasigroupCayleyTable_returns_latin
           (λ input : list Z, (hd 0 input, tl input))
           (λ (l : list Z) (g : unit), (reverse l, g)) 6 5 5
           [5; 3; 0; 2; 5; 4] [] () ()).
  - intros l g. apply reverse_Permutation.
  - lia.
  - intros k. do 7 (destruct k as [|k]; [cbn; lia|]).
    assert (∀ m, after_inputs (λ input : list Z, (hd 0 input, tl input)) m []
                 = []) as Hnil.
    { induction m as [|m IH]; [done|]. exact IH. }
    cbn. rewrite Hnil. cbn. lia.
  - lia.
  - reflexivity.
Defined.

Section AffineNegative.
Context {I G : Type} (cin : I → Z * I).
Context (shuffle : list Z → G → list Z * G).

Lemma affine_coefficient_passes (fuel : nat) (order v : Z) (input : I) :
  computeGreatestCommonDivisor fuel v order = Ok 1 →
  while_loop fuel (affine_coefficient_step cin fuel order) (v, input)
  = Ok (v, input).
Proof.
  intros Hr.
  assert (affine_coefficient_step cin fuel order (v, input)
          = Ok (Return (v, input))) as Hstep.
  { unfold affine_coefficient_step. rewrite Hr. cbn.
    by rewrite decide_False by (intros H; by apply H). }
  destruct fuel as [|fuel']; [done|].
  cbn [while_loop]. by rewrite Hstep.
Qed.

Lemma affine_cell_negative (order : Z) (f : list Z) (row column : Z) :
  3 ≤ order ≤ 2 ^ 15 →
  length f = Z.to_nat order → (∀ v, v ∈ f → 0 ≤ v < order) →
  0 ≤ row < order → 0 ≤ column < order →
  affine_cell order (1 - order) 1 0 f row column
  = Ok (Z.rem ((1 - order) * row + f !!! Z.to_nat column) order).
Proof.
  intros Hn Hlen Hf Hrow Hcol. unfold affine_cell.
  destruct (vec_get_int_ok f column) as (v & Hv & ->); [lia|]. cbn.
  rewrite (list_lookup_total_correct _ _ _ Hv).
  assert (0 ≤ v < order) as Hvr.
  { apply Hf. by eapply list_elem_of_lookup_2. }
  assert (- (2 ^ 30) ≤ (1 - order) * row ≤ 0) as H1 by nia.
  assert (int_mul (1 - order) row = (1 - order) * row) as ->.
  { apply wrap_int_id. unfold INT_MIN, INT_MAX. lia. }
  assert (int_mul 1 v = v) as ->.
  { unfold int_mul. rewrite Z.mul_1_l. apply wrap_int_id.
    unfold INT_MIN, INT_MAX. lia. }
  assert (int_add ((1 - order) * row) v = (1 - order) * row + v) as ->.
  { apply wrap_int_id. unfold INT_MIN, INT_MAX. lia. }
  assert (int_add ((1 - order) * row + v) 0 = (1 - order) * row + v) as ->.
  { unfold int_add. rewrite Z.add_0_r. apply wrap_int_id.
    unfold INT_MIN, INT_MAX. lia. }
  by rewrite int_rem_ok by lia.
Qed.

End AffineNegative.

(** X5 (generateAffineQuasigroupCayleyTable, main.cpp lines
    272-276 and 300-307; computeGreatestCommonDivisor, lines 40-48): the
    coprimality test also lets negative coefficients through. For an order
    of at least 3, the inputs [alpha = 1 - order], [beta = 1], [c = 0] are
    accepted as typed, and the table returned holds the negative entry
    [1 - order] in row 1, so [isLatinSquare] rejects it. *)
Theorem generateAffineQuasigroupCayleyTable_negative_coefficient
    {I G : Type} (cin : I → Z * I) (shuffle : list Z → G → list Z * G)
    (fuel : nat) (order : Z) (input : I) (g : G) :
  (∀ l g, (shuffle l g).1 ≡ₚ l) →
  3 ≤ order ≤ 2 ^ 15 →
  inputs cin 3 input = [1 - order; 1; 0] →
  order < Z.of_nat fuel →
  ∃ table,
    generateAffineQuasigroupCayleyTable cin shuffle fuel order input g
    = Ok (table, after_inputs cin 3 input, (shuffle (seqZ 0 order) g).2)
    ∧ (∃ j, Z.of_nat j < order ∧ entry table 1 j = 1 - order)
    ∧ isLatinSquare table = Ok false.
Proof.
  intros Hshuffle Hn Hin Hfuel.
  cbn [inputs] in Hin. cbn [after_inputs].
  unfold generateAffineQuasigroupCayleyTable.
  destruct (cin input) as [a i1]. cbn [fst snd] in *.
  destruct (cin i1) as [b i2] eqn:Hi1. cbn [fst snd] in *.
  destruct (cin i2) as [c' i3] eqn:Hi2. cbn [fst snd] in *.
  injection Hin as -> -> ->.
  rewrite affine_coefficient_passes
    by (apply gcd_negative_accepted; [unfold INT_MAX|]; lia).
  cbn. rewrite Hi1.
  rewrite affine_coefficient_accept;
    [|unfold INT_MAX; lia..|by rewrite Z.gcd_1_l|done].
  cbn. rewrite Hi2.
  destruct fuel as [|fuel']; [simpl in Hfuel; lia|].
  rewrite affine_constant_accept by lia. cbn.
  unfold generateRandomPermutation.
  pose proof (Hshuffle (seqZ 0 order) g) as Hf.
  destruct (shuffle (seqZ 0 order) g) as [f g'] eqn:Hsh. cbn [fst snd] in *.
  assert (order = Z.of_nat (Z.to_nat order)) as Hnat by lia.
  pose proof Hf as Hf'. rewrite Hnat in Hf'.
  apply permutation_range in Hf' as (Hlen & _ & Hrange).
  destruct (fill_loop_spec order (affine_cell order (1 - order) 1 0 f)
              (λ r k, Z.rem ((1 - order) * r + f !!! Z.to_nat k) order))
    as (table & Htable & Hlent & Hsq & Hentry); [lia| |].
  { intros r k Hr Hk. apply affine_cell_negative; try done.
    intros v Hv. apply Hrange in Hv. lia. }
  unfold affine_fill. rewrite Htable. cbn.
  exists table. split; [done|].
  assert (0 ∈ f) as H0.
  { rewrite Hf. apply elem_of_seqZ. lia. }
  apply list_elem_of_lookup_1 in H0 as [j Hj].
  assert (Z.of_nat j < order) as Hjn.
  { apply lookup_lt_Some in Hj. lia. }
  assert (entry table 1 j = 1 - order) as Hneg.
  { rewrite Hentry by lia. rewrite Nat2Z.id.
    rewrite (list_lookup_total_correct _ _ _ Hj).
    replace ((1 - order) * Z.of_nat 1 + 0) with (1 - order) by lia.
    apply Z.rem_small_iff; lia. }
  split; [by exists j|].
  destruct (isLatinSquare_lines table Hsq) as (b & -> & Hb).
  f_equal. destruct b; [|done]. exfalso.
  destruct Hb as [Hb _]. specialize (Hb eq_refl 1%nat ltac:(lia)).
  destruct Hb as (Hrange1 & _). specialize (Hrange1 j ltac:(lia)).
  rewrite Hneg in Hrange1. lia.
Qed.

Lemma generateAffineQuasigroupCayleyTable_negative_coefficient_witness :
  ∃ table,
    generateAffineQuasigroupCayleyTable
      (λ input : list Z, (hd 0 input, tl input))
      (λ (l : list Z) (g : unit), (reverse l, g)) 6 5 [1 - 5; 1; 0] ()
    = Ok (table,
          after_inputs (λ input : list Z, (hd 0 input, tl input)) 3
            [1 - 5; 1; 0],
          ())
    ∧ (∃ j, Z.of_nat j < 5 ∧ entry table 1 j = 1 - 5)
    ∧ isLatinSquare table = Ok false.
Proof.
  apply (generateAffineQuasigroupCayleyTable_negative_coefficient
           (λ input : list Z, (hd 0 input, tl input))
           (λ (l : list Z) (g : unit), (reverse l, g)) 6 5 [1 - 5; 1; 0] ());
    try reflexivity; try lia.
  intros l g. apply reverse_Permutation.
Defined.
(* ================================================================= *)
(** ** Reading a table from the standard input *)

Lemma row_major_inj (n i j r c : Z) :
  0 ≤ j < n → 0 ≤ c < n → i * n + j = r * n + c → i = r ∧ j = c.
Proof.
  intros Hj Hc Heq.
  assert (i = r) as ->; [|lia].
  destruct (Z.lt_trichotomy i r) as [Hlt|[Heq'|Hgt]]; [|done|]; nia.
Qed.

Section ReadTable.
Context {I : Type} (cin : I → Z * I).

Lemma inputs_snoc (k : nat) (input : I) :
  inputs cin (S k) input
  = inputs cin k input ++ [(cin (after_inputs cin k input)).1].
Proof.
  revert input. induction k as [|k IH]; intros input; [done|].
  change (inputs cin (S (S k)) input)
    with ((cin input).1 :: inputs cin (S k) (cin input).2).
  rewrite IH. done.
Qed.

(** The loop that asks for a cell again: it hands back the first value of
    the input that is not above [order - 1], or runs out of fuel on [fuel]
    values that all are. *)
Lemma read_entry_loop (fuel : nat) (order : Z) (rest : I) (k : nat) :
  match while_loop fuel (read_entry_step cin order)
          (cin (after_inputs cin k rest)) with
  | Ok (v, input') =>
      ∃ t, input' = after_inputs cin (S (k + t)) rest
        ∧ v ≤ order - 1
        ∧ filter (λ x, x ≤ order - 1) (inputs cin (S (k + t)) rest)
          = filter (λ x, x ≤ order - 1) (inputs cin k rest) ++ [v]
  | Err e =>
      e = OutOfFuel
      ∧ ∀ t, (t < fuel)%nat →
          ¬ (cin (after_inputs cin (k + t) rest)).1 ≤ order - 1
  end.
Proof.
  revert k. induction fuel as [|fuel IH]; intros k.
  { cbn. split; [done|]. intros; lia. }
  cbn [while_loop].
  destruct (cin (after_inputs cin k rest)) as [x i] eqn:Hk.
  unfold read_entry_step at 2.
  destruct (decide (x > order - 1)) as [Hrej|Hacc]; cbn [mbind res_bind].
  - assert (i = after_inputs cin (S k) rest) as ->.
    { rewrite after_inputs_S. by rewrite Hk. }
    specialize (IH (S k)).
    destruct (while_loop fuel (read_entry_step cin order)
                (cin (after_inputs cin (S k) rest))) as [[v i']|e].
    + destruct IH as (t & -> & Hv & Hfilter).
      exists (S t). replace (k + S t)%nat with (S k + t)%nat by lia.
      split; [done|]. split; [done|].
      rewrite Hfilter. rewrite inputs_snoc, filter_app, Hk. cbn [fst].
      rewrite filter_cons_False by lia. by rewrite filter_nil, app_nil_r.
    + destruct IH as [-> IH]. split; [done|].
      intros [|t] Ht.
      * rewrite Nat.add_0_r, Hk. cbn [fst]. lia.
      * replace (k + S t)%nat with (S k + t)%nat by lia. apply IH. lia.
  - exists 0%nat. rewrite Nat.add_0_r.
    split; [rewrite after_inputs_S; by rewrite Hk|]. split; [lia|].
    rewrite inputs_snoc, filter_app, Hk. cbn [fst].
    by rewrite filter_cons_True by lia.
Qed.

End ReadTable.

Section ReadTable2.
Context {I : Type} (cin : I → Z * I).

Lemma read_entry_spec (fuel : nat) (order : Z) (rest : I) (r c : Z)
    (st : list (list Z) * I) :
  0 ≤ r < order → 0 ≤ c < order →
  read_inv cin order rest (r * order + c) st →
  match read_entry cin fuel order r c st with
  | Ok st' => read_inv cin order rest (r * order + c + 1) st'
  | Err e => e = OutOfFuel ∧ starved cin order rest fuel
  end.
Proof.
  intros Hr Hc (Hlen & Hsq & k & Hk & Hcount & Hcells).
  destruct st as [table input]. cbn [fst snd] in *. subst input.
  unfold read_entry.
  pose proof (read_entry_loop cin fuel order rest k) as Hloop.
  destruct (while_loop fuel (read_entry_step cin order)
              (cin (after_inputs cin k rest))) as [[v input']|e].
  - destruct Hloop as (t & -> & Hv & Hfilter). cbn [mbind res_bind].
    destruct (table_set_spec table r c v Hsq)
      as (table' & -> & Hlen' & Hsq' & Hnew & Hold); [lia..|].
    cbn [mbind res_bind]. split; [cbn; lia|]. split; [done|].
    exists (S (k + t)). cbn [fst snd]. split; [done|].
    rewrite Hfilter. rewrite length_app. cbn [length].
    split; [lia|].
    intros i j Hj Hij.
    destruct (decide (Z.of_nat i * order + Z.of_nat j = r * order + c))
      as [Heq|Hne].
    + apply row_major_inj in Heq as [<- <-]; [|lia..].
      rewrite !Nat2Z.id in Hnew. rewrite Hnew.
      rewrite lookup_total_app_r by lia.
      replace (i * Z.to_nat order + j - _)%nat with 0%nat; [done|]. nia.
    + rewrite Hold.
      2:{ intros [-> ->]. apply Hne. lia. }
      rewrite Hcells by lia.
      rewrite lookup_total_app_l; [done|]. nia.
  - destruct Hloop as [-> Hloop]. cbn. split; [done|]. by exists k.
Qed.

Lemma read_rows_spec (fuel : nat) (order : Z) (rest : I)
    (st : list (list Z) * I) :
  0 ≤ order →
  read_inv cin order rest 0 st →
  match for_loop (seqZ 0 order)
          (λ row st,
             for_loop (seqZ 0 order) (read_entry cin fuel order row) st)
          st with
  | Ok st' => read_inv cin order rest (order * order) st'
  | Err e => e = OutOfFuel ∧ starved cin order rest fuel
  end.
Proof.
  intros Hn H0.
  apply (for_loop_seqZ_inv order _
           (λ r st, read_inv cin order rest (r * order) st)
           (λ e, e = OutOfFuel ∧ starved cin order rest fuel));
    [done|done|].
  intros r st1 Hr Hst1.
  replace ((r + 1) * order) with (r * order + order) by lia.
  apply (for_loop_seqZ_inv order _
           (λ c st, read_inv cin order rest (r * order + c) st)
           (λ e, e = OutOfFuel ∧ starved cin order rest fuel));
    [done|by rewrite Z.add_0_r|].
  intros c st2 Hc Hst2.
  pose proof (read_entry_spec fuel order rest r c st2 Hr Hc Hst2) as H.
  destruct (read_entry cin fuel order r c st2); [|done].
  by rewrite Z.add_assoc.
Qed.

Lemma read_inv_init (order : Z) (rest : I) :
  0 ≤ order →
  read_inv cin order rest 0
    (replicate (Z.to_nat order) (replicate (Z.to_nat order) 0), rest).
Proof.
  intros Hn. unfold read_inv. cbn [fst snd].
  split; [by rewrite length_replicate|]. split.
  - unfold square. rewrite length_replicate.
    apply Forall_replicate. by rewrite length_replicate.
  - exists 0%nat. cbn. split; [done|]. split; [done|]. intros; nia.
Qed.

End ReadTable2.


(* ================================================================= *)
(** ** More on the detector of [main.cpp] *)

Lemma grows_in_range (q : Quasigroup) (bound : option Z) (seed s : gset Z) :
  well_formed q → elements_in_range q seed → grows q bound seed s →
  elements_in_range q s.
Proof.
  intros Hwf Hseed Hg. induction Hg as [|s a b Hg IH Ha Hb Hnin Hbound];
    [done|].
  intros x [Hx|Hx%elem_of_singleton]%elem_of_union; [by apply IH|].
  subst x. apply (applyOperation_op q a b Hwf); by apply IH.
Qed.

Lemma hasSubquasigroups_start_proper (q : Quasigroup) (fuel : nat) (k : Z)
    (visited : list bool) :
  well_formed q → order q < Z.of_nat fuel → 0 ≤ k < order q →
  Z.of_nat (length visited) = order q →
  match hasSubquasigroups_start fuel q PROPER k visited with
  | Ok (Continue visited') => Z.of_nat (length visited') = order q
  | Ok (Return b) =>
      b = true
      ∧ ∃ s, s ≠ ∅ ∧ elements_in_range q s ∧ closed_under q s
             ∧ Z.of_nat (size s) < order q
  | Err _ => False
  end.
Proof.
  intros Hwf Hfuel Hk Hlen. unfold hasSubquasigroups_start.
  destruct (vec_get_int_ok visited k) as (v & Hv & ->); [lia|].
  cbn [mbind res_bind]. destruct v; [done|].
  destruct (cycle_loop_total q fuel k visited Hwf Hlen Hk Hfuel)
    as ([cycle visited'] & -> & Hpost). cbn [mbind res_bind].
  destruct Hpost as (Hr & Hlen' & _ & Hstart & _).
  destruct (verifyProper_total q fuel cycle Hwf Hr Hfuel) as (b & -> & H).
  cbn [mbind res_bind PROPER]. destruct b; [|lia].
  split; [done|].
  destruct H as [[? _]|(s & Hg & Hclosed & Hb)]; [done|].
  exists s. split.
  { apply grows_subseteq in Hg. intros ->. by apply Hg in Hstart. }
  split; [by eapply grows_in_range|]. split; [done|].
  symmetry in Hb. by apply bool_decide_eq_true in Hb.
Qed.

(** X7 (Quasigroup::hasSubquasigroups and
    verifyProperSubquasigroup, main.cpp lines 84-147): on a square table with
    entries in range the check for proper subquasigroups returns, and a
    positive answer is never wrong: when it says true, some non-empty set of
    elements with fewer members than the order is closed under the
    operation. *)
Theorem hasSubquasigroups_proper_sound (table : list (list Z)) (fuel : nat) :
  square table → entries_in_range table →
  (length table < fuel)%nat →
  ∃ b, hasSubquasigroups fuel (mkQuasigroup table) PROPER = Ok b
       ∧ (b = true →
            ∃ s : gset Z,
              s ≠ ∅
              ∧ (∀ x, x ∈ s → 0 ≤ x < Z.of_nat (length table))
              ∧ closed_under (mkQuasigroup table) s
              ∧ (size s < length table)%nat).
Proof.
  intros Hsq Hrange Hfuel.
  pose proof (mkQuasigroup_well_formed table Hsq Hrange) as Hwf.
  set (q := mkQuasigroup table) in *.
  assert (order q = Z.of_nat (length table)) as Hn by done.
  unfold hasSubquasigroups.
  pose proof (for_each_seqZ_inv (order q)
    (hasSubquasigroups_start fuel q PROPER)
    (λ _ visited, Z.of_nat (length visited) = order q)
    (λ b, b = true
          ∧ ∃ s, s ≠ ∅ ∧ elements_in_range q s ∧ closed_under q s
                 ∧ Z.of_nat (size s) < order q)
    (λ _, False)
    (replicate (Z.to_nat (order q)) false)) as H.
  destruct (for_each _ _ _) as [[visited|b]|e]; cbn [mbind res_bind].
  - exists false. split; [done|]. done.
  - exists b. split; [done|]. intros _.
    destruct H as (_ & s & Hne & Hr & Hclosed & Hsize).
    + lia.
    + rewrite length_replicate. lia.
    + intros k visited Hk Hlen.
      apply hasSubquasigroups_start_proper; [done|lia|done..].
    + exists s. split; [done|]. split; [|split; [done|lia]].
      intros x Hx. rewrite <-Hn. by apply Hr.
  - exfalso. apply H.
    + lia.
    + rewrite length_replicate. lia.
    + intros k visited Hk Hlen.
      apply hasSubquasigroups_start_proper; [done|lia|done..].
Qed.

Lemma hasSubquasigroups_proper_sound_witness :
  ∃ b, hasSubquasigroups 4 (mkQuasigroup [[0; 2; 1]; [2; 1; 0]; [1; 0; 2]])
         PROPER = Ok b
       ∧ (b = true →
            ∃ s : gset Z,
              s ≠ ∅
              ∧ (∀ x, x ∈ s → 0 ≤ x < Z.of_nat 3)
              ∧ closed_under
                  (mkQuasigroup [[0; 2; 1]; [2; 1; 0]; [1; 0; 2]]) s
              ∧ (size s < 3)%nat).
Proof.
  apply (hasSubquasigroups_proper_sound
           [[0; 2; 1]; [2; 1; 0]; [1; 0; 2]] 4).
  - by repeat constructor.
  - intros row v Hrow Hv.
    repeat (apply elem_of_cons in Hrow as [->|Hrow]);
      [..|by apply elem_of_nil in Hrow];
      repeat (apply elem_of_cons in Hv as [->|Hv]);
      try (by apply elem_of_nil in Hv); cbn; lia.
  - cbn. lia.
Defined.

(** X8 (Quasigroup::verifyNonTrivialSubquasigroup, main.cpp
    lines 153-178): on a table with entries in range the closure loop never
    changes the verdict: the function returns true exactly when the seed set
    has at least two elements. *)
Theorem verifyNonTrivialSubquasigroup_counts_seed (q : Quasigroup)
    (fuel : nat) (seed : gset Z) :
  well_formed q → elements_in_range q seed →
  order q < Z.of_nat fuel →
  verifyNonTrivialSubquasigroup fuel q seed
  = Ok (bool_decide (2 ≤ size seed)%nat).
Proof.
  intros Hwf Hseed Hfuel.
  destruct (verifyNonTrivial_total q fuel seed Hwf Hseed Hfuel)
    as (b & Hb & H1 & H2).
  destruct (decide (size seed = 0%nat)) as [H0|H0].
  - apply size_empty_inv in H0. apply leibniz_equiv in H0. subst seed.
    destruct fuel as [|fuel]; [destruct Hwf as [Hn _]; simpl in Hfuel; lia|].
    reflexivity.
  - rewrite Hb. f_equal.
    destruct (decide (size seed = 1%nat)) as [Hone|Hmore].
    + rewrite H1 by done. symmetry. apply bool_decide_eq_false. lia.
    + rewrite H2 by lia. symmetry. apply bool_decide_eq_true. lia.
Qed.

Lemma verifyNonTrivialSubquasigroup_counts_seed_witness :
  verifyNonTrivialSubquasigroup 4
    (mkQuasigroup [[0; 2; 1]; [2; 1; 0]; [1; 0; 2]]) {[0; 1]}
  = Ok (bool_decide (2 ≤ size ({[0%Z; 1%Z]} : gset Z))%nat).
Proof.
  apply (verifyNonTrivialSubquasigroup_counts_seed
           (mkQuasigroup [[0; 2; 1]; [2; 1; 0]; [1; 0; 2]]) 4 {[0; 1]}).
  - apply mkQuasigroup_well_formed.
    + by repeat constructor.
    + intros row v Hrow Hv.
      repeat (apply elem_of_cons in Hrow as [->|Hrow]);
        [..|by apply elem_of_nil in Hrow];
        repeat (apply elem_of_cons in Hv as [->|Hv]);
        try (by apply elem_of_nil in Hv); cbn; lia.
  - intros x [H%elem_of_singleton | H%elem_of_singleton]%elem_of_union;
      subst x; cbn; lia.
  - cbn. lia.
Defined.

(** X9 (Quasigroup::hasSubquasigroups, main.cpp lines 86-97):
    the squaring walk marks [visitedElements[currentElement]] before the
    bounds-checked [applyOperation] sees the element. On a square table
    whose entry at (0, 0) is not an element, the second pass of the walk
    from 0 therefore writes outside [visitedElements]: the behaviour is
    undefined, in either mode, and no [std::out_of_range] is thrown. *)
Theorem hasSubquasigroups_unchecked_mark (table : list (list Z))
    (fuel : nat) (mode : bool) :
  square table → (1 ≤ length table)%nat →
  ¬ (0 ≤ entry table 0 0 < Z.of_nat (length table)) →
  (2 ≤ fuel)%nat →
  hasSubquasigroups fuel (mkQuasigroup table) mode = Err Undefined.
Proof.
  intros Hsq Hn Hbad Hfuel.
  destruct (applyOperation_table table 0 0 Hsq)
    as (row & Hrow & Hcell & Happ); [lia..|].
  set (q := mkQuasigroup table) in *.
  assert (order q = Z.of_nat (length table)) as Hord by done.
  set (v := entry table (Z.to_nat 0) (Z.to_nat 0)) in *.
  assert (¬ (0 ≤ v < Z.of_nat (length table))) as Hv by done.
  set (visited := replicate (Z.to_nat (order q)) false).
  assert (length visited = length table) as Hlen.
  { unfold visited. rewrite length_replicate. lia. }
  assert (hasSubquasigroups_start fuel q mode 0 visited = Err Undefined)
    as Hstart.
  { unfold hasSubquasigroups_start.
    destruct (vec_get_int_ok visited 0) as (b & Hb & ->); [lia|].
    apply lookup_replicate in Hb as [-> _]. cbn [mbind res_bind].
    do 2 (destruct fuel as [|fuel]; [lia|]).
    assert (cycle_step q (∅, visited, 0)
            = Ok (Continue ({[0]}, <[0%nat:=true]> visited, v))) as S1.
    { unfold cycle_step. rewrite decide_False by set_solver.
      rewrite vec_set_int_ok by lia. cbn [mbind res_bind].
      rewrite Happ. cbn [mbind res_bind]. by rewrite union_empty_l_L. }
    assert (cycle_step q ({[0]}, <[0%nat:=true]> visited, v)
            = Err Undefined) as S2.
    { unfold cycle_step. rewrite decide_False.
      2:{ intros ->%elem_of_singleton. lia. }
      unfold vec_set_int, vec_set.
      destruct (decide (0 ≤ v)) as [Hpos|]; [|done].
      rewrite decide_False; [done|]. rewrite length_insert. lia. }
    cbn [while_loop]. rewrite S1. cbn [mbind res_bind]. by rewrite S2. }
  unfold hasSubquasigroups. rewrite seqZ_cons by lia. cbn [for_each].
  fold visited. by rewrite Hstart.
Qed.

Lemma hasSubquasigroups_unchecked_mark_witness :
  hasSubquasigroups 2 (mkQuasigroup [[2; 0]; [0; 1]]) PROPER = Err Undefined.
Proof.
  apply (hasSubquasigroups_unchecked_mark [[2; 0]; [0; 1]] 2 PROPER).
  - by repeat constructor.
  - cbn. lia.
  - cbn. lia.
  - lia.
Defined.
(* ================================================================= *)
(** ** [Quasigroup::isSimple] of [quasigroup.cpp] *)

Lemma multiply_as_main (q : QuasigroupCpp.Quasigroup) (x y : Z) :
  QuasigroupCpp.multiply q x y = applyOperation (as_main q) x y.
Proof. reflexivity. Qed.

Lemma as_main_mkQuasigroup (table : list (list Z)) :
  as_main (QuasigroupCpp.mkQuasigroup table) = mkQuasigroup table.
Proof. reflexivity. Qed.

Lemma hasProperSubquasigroup_round_closure (q : QuasigroupCpp.Quasigroup) :
  hasProperSubquasigroup_round q
  = closure_round (as_main q) (Some (QuasigroupCpp.size q `quot` 2))
      (λ s, bool_decide (1 < Z.of_nat (size s))
            && bool_decide (Z.of_nat (size s) < QuasigroupCpp.size q)).
Proof. reflexivity. Qed.

(** The squaring walk of [isSimple] ends. *)
Lemma isSimple_cycle_total (q : QuasigroupCpp.Quasigroup) (fuel : nat)
    (x : Z) :
  well_formed (as_main q) → 0 ≤ x < QuasigroupCpp.size q →
  QuasigroupCpp.size q < Z.of_nat fuel →
  ∃ cycle, while_loop fuel (isSimple_cycle_step q) (∅, x) = Ok cycle.
Proof.
  intros Hwf Hx Hfuel. set (n := QuasigroupCpp.size q) in *.
  destruct (while_loop_total fuel (isSimple_cycle_step q)
    (λ st, elements_in_range (as_main q) st.1 ∧ 0 ≤ st.2 < n)
    (λ st, (Z.to_nat n - size st.1)%nat) (λ _, True) (∅, x))
    as (cycle & Hcycle & _); [| |cbn; rewrite size_empty; lia|by exists cycle].
  - intros [cycle y] [Hr Hy]. cbn [fst snd] in *.
    unfold isSimple_cycle_step.
    destruct (decide (y ∈ cycle)) as [Hin|Hnin]; [done|].
    rewrite multiply_as_main.
    destruct (applyOperation_op (as_main q) y y Hwf Hy Hy) as [-> Hop].
    cbn [mbind res_bind fst snd].
    assert (elements_in_range (as_main q) (cycle ∪ {[y]})) as Hr'.
    { intros z [Hz|Hz%elem_of_singleton]%elem_of_union;
        [by apply Hr|by subst z]. }
    split; [done|].
    pose proof (elements_in_range_size (as_main q) _ ltac:(cbn; lia) Hr')
      as Hsz.
    rewrite size_union, size_singleton in *
      by (by apply disjoint_singleton_r).
    cbn in Hsz. lia.
  - split; [by intros z Hz%not_elem_of_empty|done].
Qed.

Lemma hasProperSubquasigroup_total (q : QuasigroupCpp.Quasigroup)
    (fuel : nat) (x : Z) :
  well_formed (as_main q) → 0 ≤ x < QuasigroupCpp.size q →
  QuasigroupCpp.size q < Z.of_nat fuel →
  ∃ b, hasProperSubquasigroup fuel q x = Ok b
       ∧ (b = true →
            ∃ s, x ∈ s ∧ elements_in_range (as_main q) s
                 ∧ closed_under (as_main q) s
                 ∧ 1 < Z.of_nat (size s) < QuasigroupCpp.size q)
       ∧ (idempotent (as_main q) x → b = false).
Proof.
  intros Hwf Hx Hfuel. unfold hasProperSubquasigroup.
  rewrite multiply_as_main.
  destruct (applyOperation_op (as_main q) x x Hwf Hx Hx) as [-> Hop].
  cbn [mbind res_bind]. rewrite hasProperSubquasigroup_round_closure.
  assert (elements_in_range (as_main q) ({[x]} ∪ {[op (as_main q) x x]}))
    as Hseed.
  { intros z [Hz%elem_of_singleton|Hz%elem_of_singleton]%elem_of_union;
      by subst z. }
  destruct (closure_loop_total (as_main q)
              (Some (QuasigroupCpp.size q `quot` 2))
              (λ s, bool_decide (1 < Z.of_nat (size s))
                    && bool_decide (Z.of_nat (size s) < QuasigroupCpp.size q))
              fuel _ Hwf Hseed Hfuel) as (b & Hb & H).
  exists b. split; [exact Hb|]. split.
  - intros ->. destruct H as [[? _]|(s & Hg & Hclosed & Hv)]; [done|].
    symmetry in Hv. apply andb_true_iff in Hv as [H1 H2].
    apply bool_decide_eq_true in H1, H2.
    exists s. split.
    { apply grows_subseteq in Hg. apply Hg. apply elem_of_union. left.
      by apply elem_of_singleton. }
    split; [by eapply grows_in_range|]. split; [done|lia].
  - intros Hidem. unfold idempotent in Hidem. rewrite Hidem in *.
    assert (({[x]} ∪ {[x]} : gset Z) = {[x]}) as Hxx by apply union_idemp_L.
    rewrite Hxx in *.
    assert (closed_under (as_main q) {[x]}) as Hclosed.
    { intros a c Ha%elem_of_singleton Hc%elem_of_singleton. subst a c.
      apply elem_of_singleton. apply Hidem. }
    destruct H as [[-> _]|(s & Hg & _ & ->)]; [done|].
    apply (grows_closed _ _ _ _ Hclosed) in Hg. subst s.
    rewrite size_singleton. done.
Qed.

Lemma isSimple_start_spec (q : QuasigroupCpp.Quasigroup) (fuel : nat)
    (x : Z) (checked : gset Z) :
  well_formed (as_main q) → 0 ≤ x < QuasigroupCpp.size q →
  QuasigroupCpp.size q < Z.of_nat fuel →
  match isSimple_start fuel q x checked with
  | Ok (Continue _) => True
  | Ok (Return b) =>
      b = false
      ∧ (∃ s, elements_in_range (as_main q) s
              ∧ closed_under (as_main q) s
              ∧ 1 < Z.of_nat (size s) < QuasigroupCpp.size q)
      ∧ ∃ y, 0 ≤ y < QuasigroupCpp.size q ∧ ¬ idempotent (as_main q) y
  | Err _ => False
  end.
Proof.
  intros Hwf Hx Hfuel. unfold isSimple_start.
  destruct (decide (x ∈ checked)); [done|].
  destruct (isSimple_cycle_total q fuel x Hwf Hx Hfuel) as (cycle & ->).
  cbn [mbind res_bind].
  destruct (hasProperSubquasigroup_total q fuel x Hwf Hx Hfuel)
    as (b & -> & Htrue & Hidem).
  cbn [mbind res_bind]. destruct b; [|done].
  split; [done|]. split.
  - destruct (Htrue eq_refl) as (s & _ & Hs). by exists s.
  - exists x. split; [done|]. intros H. by specialize (Hidem H).
Qed.

Lemma isSimple_spec (q : QuasigroupCpp.Quasigroup) (fuel : nat) :
  well_formed (as_main q) →
  QuasigroupCpp.size q < Z.of_nat fuel →
  ∃ b, isSimple fuel q = Ok b
       ∧ (b = false →
            (∃ s, elements_in_range (as_main q) s
                  ∧ closed_under (as_main q) s
                  ∧ 1 < Z.of_nat (size s) < QuasigroupCpp.size q)
            ∧ ∃ y, 0 ≤ y < QuasigroupCpp.size q
                   ∧ ¬ idempotent (as_main q) y).
Proof.
  intros Hwf Hfuel. unfold isSimple.
  assert (0 ≤ QuasigroupCpp.size q) as Hn.
  { destruct Hwf as [Hn _]. cbn in Hn. lia. }
  pose proof (for_each_seqZ_inv (QuasigroupCpp.size q)
    (isSimple_start fuel q) (λ _ _, True)
    (λ b, b = false
          ∧ (∃ s, elements_in_range (as_main q) s
                  ∧ closed_under (as_main q) s
                  ∧ 1 < Z.of_nat (size s) < QuasigroupCpp.size q)
          ∧ ∃ y, 0 ≤ y < QuasigroupCpp.size q
                 ∧ ¬ idempotent (as_main q) y)
    (λ _, False) ∅ Hn I) as H.
  assert (∀ k s, 0 ≤ k < QuasigroupCpp.size q → True →
            match isSimple_start fuel q k s with
            | Ok (Continue _) => True
            | Ok (Return b) =>
                b = false
                ∧ (∃ s, elements_in_range (as_main q) s
                        ∧ closed_under (as_main q) s
                        ∧ 1 < Z.of_nat (size s) < QuasigroupCpp.size q)
                ∧ ∃ y, 0 ≤ y < QuasigroupCpp.size q
                       ∧ ¬ idempotent (as_main q) y
            | Err _ => False
            end) as Hstep.
  { intros k s Hk _. by apply isSimple_start_spec. }
  specialize (H Hstep).
  destruct (for_each _ _ _) as [[checked|b]|e]; cbn [mbind res_bind];
    [| |done].
  - exists true. by split.
  - exists b. split; [done|]. intros _. by destruct H as (_ & H1 & H2).
Qed.

(** On a square table the bounds check of [multiply] guards every read. *)
Lemma multiply_square (table : list (list Z)) (x y : Z) :
  square table →
  match QuasigroupCpp.multiply (QuasigroupCpp.mkQuasigroup table) x y with
  | Ok _ => True
  | Err e => e = OutOfRange
             ∧ ¬ (0 ≤ x < Z.of_nat (length table)
                  ∧ 0 ≤ y < Z.of_nat (length table))
  end.
Proof.
  intros Hsq. rewrite multiply_as_main, as_main_mkQuasigroup.
  destruct (decide (0 ≤ x < Z.of_nat (length table)
                    ∧ 0 ≤ y < Z.of_nat (length table))) as [[Hx Hy]|Hout].
  - by destruct (applyOperation_table table x y Hsq Hx Hy)
      as (row & _ & _ & ->).
  - by rewrite applyOperation_throws.
Qed.

Lemma hasProperSubquasigroup_checked (table : list (list Z)) (fuel : nat)
    (x : Z) :
  square table →
  hasProperSubquasigroup fuel (QuasigroupCpp.mkQuasigroup table) x
  ≠ Err Undefined.
Proof.
  intros Hsq. unfold hasProperSubquasigroup.
  pose proof (multiply_square table x x Hsq) as Hm.
  destruct (QuasigroupCpp.multiply _ x x) as [fx|e]; cbn [mbind res_bind].
  2:{ destruct Hm as [-> _]. done. }
  apply (while_loop_inv fuel _ (λ _, True)
           (λ r : res bool, r ≠ Err Undefined)); [done| |done].
  intros s _. unfold hasProperSubquasigroup_round.
  pose proof (for_each_inv (elements s)
    (λ first,
       for_each (elements s)
         (hasProperSubquasigroup_pair (QuasigroupCpp.mkQuasigroup table)
            first))
    (λ _ _, True) (λ _, True) (λ e, e ≠ Undefined) (s, false) I) as H.
  cbv beta in H.
  match type of H with
  | _ → match ?t with _ => _ end => destruct t as [[[s' ch]|b]|e]
  end; cbn [mbind res_bind].
  - by destruct ch.
  - done.
  - intros [= ->]. revert H. intros H. apply H; [|done].
    intros done0 a rest st _ _.
    pose proof (for_each_inv (elements s)
      (hasProperSubquasigroup_pair (QuasigroupCpp.mkQuasigroup table) a)
      (λ _ _, True) (λ _, True) (λ e, e ≠ Undefined) st I) as H'.
    cbv beta in H'.
    match type of H' with
    | _ → match ?t with _ => _ end => destruct t as [[?|?]|e]
    end; [done|done|].
    apply H'. intros done1 c rest1 [s1 ch1] _ _.
    unfold hasProperSubquasigroup_pair.
    pose proof (multiply_square table a c Hsq) as Hm'.
    destruct (QuasigroupCpp.multiply _ a c) as [product|e'];
      cbn [mbind res_bind].
    + destruct (decide (product ∈ s1)); [done|].
      by destruct (_ >? _).
    + destruct Hm' as [-> _]. done.
Qed.

(** A set closed under addition modulo [n] that holds a residue coprime to
    [n] holds every residue. *)
Lemma closed_mod_coprime (n : Z) (s : gset Z) (x : Z) :
  1 ≤ n → Z.gcd n x = 1 →
  (∀ a b, a ∈ s → b ∈ s → (a + b) `mod` n ∈ s) →
  x ∈ s → 0 ≤ x < n →
  ∀ y, 0 ≤ y < n → y ∈ s.
Proof.
  intros Hn Hg Hclosed Hx Hxr y Hy.
  assert (∀ k : nat, (Z.of_nat (S k) * x) `mod` n ∈ s) as Hmult.
  { induction k as [|k IH].
    - replace (Z.of_nat 1 * x) with x by lia. by rewrite Z.mod_small by lia.
    - replace (Z.of_nat (S (S k)) * x) with (Z.of_nat (S k) * x + x) by lia.
      rewrite <-Zplus_mod_idemp_l. by apply Hclosed. }
  destruct (Z.Bezout_coprime n x Hg) as (v & u & Hbez).
  set (k0 := (y * u) `mod` n).
  assert (0 ≤ k0 < n) as Hk0 by (apply Z.mod_pos_bound; lia).
  specialize (Hmult (Z.to_nat (k0 + n - 1))).
  replace (Z.of_nat (S (Z.to_nat (k0 + n - 1)))) with (k0 + n) in Hmult
    by lia.
  replace (((k0 + n) * x) `mod` n) with y in Hmult; [done|].
  replace ((k0 + n) * x) with (k0 * x + x * n) by lia.
  rewrite Z_mod_plus_full. unfold k0.
  rewrite Zmult_mod_idemp_l.
  replace (y * u * x) with (y + (- (y * v)) * n) by nia.
  rewrite Z_mod_plus_full. by rewrite Z.mod_small by lia.
Qed.

(** X10 (Quasigroup::isSimple and hasProperSubquasigroup,
    quasigroup.cpp lines 31-74): on a square table with entries in range
    [isSimple] returns, and the answer "not simple" is never wrong: when it
    says false, some set of more than one and fewer than all elements is
    closed under the operation. *)
Theorem isSimple_sound (table : list (list Z)) (fuel : nat) :
  square table → entries_in_range table →
  (length table < fuel)%nat →
  ∃ b, isSimple fuel (QuasigroupCpp.mkQuasigroup table) = Ok b
       ∧ (b = false →
            ∃ s : gset Z,
              (∀ x, x ∈ s → 0 ≤ x < Z.of_nat (length table))
              ∧ closed_under (mkQuasigroup table) s
              ∧ (1 < size s < length table)%nat).
Proof.
  intros Hsq Hrange Hfuel.
  pose proof (mkQuasigroup_well_formed table Hsq Hrange) as Hwf.
  destruct (isSimple_spec (QuasigroupCpp.mkQuasigroup table) fuel)
    as (b & Hb & H); [done|cbn; lia|].
  exists b. split; [done|]. intros Hfalse.
  destruct (H Hfalse) as [(s & Hr & Hclosed & Hsize) _].
  exists s. split; [exact Hr|]. split; [exact Hclosed|].
  cbn in Hsize. lia.
Qed.

Lemma isSimple_sound_witness :
  ∃ b, isSimple 7
         (QuasigroupCpp.mkQuasigroup
            [[0; 1; 2; 3; 4; 5]; [1; 2; 3; 4; 5; 0]; [2; 3; 4; 5; 0; 1];
             [3; 4; 5; 0; 1; 2]; [4; 5; 0; 1; 2; 3]; [5; 0; 1; 2; 3; 4]])
       = Ok b
       ∧ (b = false →
            ∃ s : gset Z,
              (∀ x, x ∈ s → 0 ≤ x < Z.of_nat 6)
              ∧ closed_under
                  (mkQuasigroup
                     [[0; 1; 2; 3; 4; 5]; [1; 2; 3; 4; 5; 0];
                      [2; 3; 4; 5; 0; 1]; [3; 4; 5; 0; 1; 2];
                      [4; 5; 0; 1; 2; 3]; [5; 0; 1; 2; 3; 4]]) s
              ∧ (1 < size s < 6)%nat).
Proof.
  apply (isSimple_sound
           [[0; 1; 2; 3; 4; 5]; [1; 2; 3; 4; 5; 0]; [2; 3; 4; 5; 0; 1];
            [3; 4; 5; 0; 1; 2]; [4; 5; 0; 1; 2; 3]; [5; 0; 1; 2; 3; 4]] 7).
  - by repeat constructor.
  - intros row v Hrow Hv.
    repeat (apply elem_of_cons in Hrow as [->|Hrow]);
      [..|by apply elem_of_nil in Hrow];
      repeat (apply elem_of_cons in Hv as [->|Hv]);
      try (by apply elem_of_nil in Hv); cbn; lia.
  - cbn. lia.
Defined.

(** X11 (Quasigroup::isSimple, quasigroup.cpp lines 31-74): the
    check only closes the sets generated by single elements, so on a table
    in which every element is idempotent it finds nothing and returns
    true. *)
Theorem isSimple_idempotent (table : list (list Z)) (fuel : nat) :
  square table → entries_in_range table →
  (length table < fuel)%nat →
  (∀ x, (x < length table)%nat → entry table x x = Z.of_nat x) →
  isSimple fuel (QuasigroupCpp.mkQuasigroup table) = Ok true.
Proof.
  intros Hsq Hrange Hfuel Hidem.
  pose proof (mkQuasigroup_well_formed table Hsq Hrange) as Hwf.
  destruct (isSimple_spec (QuasigroupCpp.mkQuasigroup table) fuel)
    as (b & Hb & H); [done|cbn; lia|].
  rewrite Hb. f_equal. destruct b; [done|]. exfalso.
  destruct (H eq_refl) as [_ (y & Hy & Hny)]. apply Hny.
  cbn in Hy. unfold idempotent, op. cbn.
  rewrite Hidem by lia. lia.
Qed.

Lemma isSimple_idempotent_witness :
  isSimple 4 (QuasigroupCpp.mkQuasigroup [[0; 2; 1]; [2; 1; 0]; [1; 0; 2]])
  = Ok true.
Proof.
  apply (isSimple_idempotent [[0; 2; 1]; [2; 1; 0]; [1; 0; 2]] 4).
  - by repeat constructor.
  - intros row v Hrow Hv.
    repeat (apply elem_of_cons in Hrow as [->|Hrow]);
      [..|by apply elem_of_nil in Hrow];
      repeat (apply elem_of_cons in Hv as [->|Hv]);
      try (by apply elem_of_nil in Hv); cbn; lia.
  - cbn. lia.
  - intros x Hx. cbn in Hx. do 3 (destruct x as [|x]; [done|]). lia.
Defined.

(** X12 (Quasigroup::isSimple with createCyclicGroup,
    quasigroup.cpp lines 31-74 and 114-124): the cyclic group of prime order
    is reported simple. *)
Theorem isSimple_prime_cyclic (p : Z) (fuel : nat) :
  Z.prime p → p ≤ 2 ^ 30 → p < Z.of_nat fuel →
  isSimple fuel (QuasigroupCpp.mkQuasigroup (createCyclicGroup p)) = Ok true.
Proof.
  intros Hp Hsmall Hfuel. pose proof (Z.prime_ge_2 p Hp) as Hp2.
  change (createCyclicGroup p) with (generateCyclicGroupCayleyTable p).
  pose proof (cyclic_well_formed p ltac:(lia)) as Hwf.
  pose proof (cyclic_order p ltac:(lia)) as Hord.
  set (table := generateCyclicGroupCayleyTable p) in *.
  destruct (isSimple_spec (QuasigroupCpp.mkQuasigroup table) fuel)
    as (b & Hb & H); [done|by rewrite <-Hord in Hfuel|].
  rewrite Hb. f_equal. destruct b; [done|]. exfalso.
  destruct (H eq_refl) as [(s & Hr & Hclosed & Hsize) _].
  rewrite as_main_mkQuasigroup in Hr, Hclosed.
  change (QuasigroupCpp.size (QuasigroupCpp.mkQuasigroup table))
    with (order (mkQuasigroup table)) in Hsize.
  rewrite Hord in Hsize. unfold elements_in_range in Hr.
  rewrite Hord in Hr.
  assert (s ∖ {[0]} ≠ ∅) as Hne.
  { intros He.
    assert (s ⊆ {[0]}) as Hsub.
    { intros z Hz. destruct (decide (z = 0)) as [->|Hz0].
      - by apply elem_of_singleton.
      - exfalso. apply (not_elem_of_empty (C:=gset Z) z). rewrite <-He.
        apply elem_of_difference. split; [done|].
        by intros ?%elem_of_singleton. }
    apply subseteq_size in Hsub. rewrite size_singleton in Hsub. lia. }
  apply set_choose_L in Hne as [x Hx].
  apply elem_of_difference in Hx as [Hx Hx0].
  assert (x ≠ 0) as Hx0' by (intros ->; apply Hx0; by apply elem_of_singleton).
  pose proof (Hr x Hx) as Hxr.
  assert (symbols (Z.to_nat p) ⊆ s) as Hall.
  { intros y Hy%elem_of_symbols.
    apply (closed_mod_coprime p s x); [lia| | |done|lia|lia].
    { apply Z.coprime_prime_small; [done|lia]. }
    intros a c Ha Hc.
    rewrite <-(cyclic_op p a c) by (try lia; by apply Hr).
    by apply Hclosed. }
  apply subseteq_size in Hall. rewrite size_symbols in Hall. lia.
Qed.

Lemma isSimple_prime_cyclic_witness :
  isSimple 6 (QuasigroupCpp.mkQuasigroup (createCyclicGroup 5)) = Ok true.
Proof.
  apply (isSimple_prime_cyclic 5 6); [|lia..].
  split; [lia|]. intros n Hn [k Hk].
  assert (n = 2 ∨ n = 3 ∨ n = 4) as [H|[H|H]] by lia; subst n; lia.
Defined.

Lemma isSimple_start_checked (table : list (list Z)) (fuel : nat) (k : Z)
    (checked : gset Z) :
  square table →
  match isSimple_start fuel (QuasigroupCpp.mkQuasigroup table) k checked with
  | Ok _ => True
  | Err e => e ≠ Undefined
  end.
Proof.
  intros Hsq. set (q := QuasigroupCpp.mkQuasigroup table).
  unfold isSimple_start.
  destruct (decide (k ∈ checked)); [done|].
  pose proof (while_loop_inv fuel (isSimple_cycle_step q) (λ _, True)
                (λ r : res (gset Z), r ≠ Err Undefined) (∅, k)) as Hc.
  destruct (while_loop fuel (isSimple_cycle_step q) (∅, k))
    as [cycle|e]; cbn [mbind res_bind].
  - pose proof (hasProperSubquasigroup_checked table fuel k Hsq) as Hp.
    fold q in Hp.
    destruct (hasProperSubquasigroup fuel q k) as [[|]|e];
      cbn [mbind res_bind]; [done|done|]. by intros ->.
  - intros ->. apply Hc; [done| |done|done].
    intros [cycle y] _. unfold isSimple_cycle_step.
    destruct (decide (y ∈ cycle)); [done|].
    pose proof (multiply_square table y y Hsq) as Hm. fold q in Hm.
    destruct (QuasigroupCpp.multiply q y y); cbn [mbind res_bind];
      [done|]. destruct Hm as [-> _]. done.
Qed.

(** X13 (Quasigroup::isSimple and Quasigroup::multiply,
    quasigroup.cpp lines 24-74): on a square table every read of the table
    goes through the bounds check of [multiply], so [isSimple] never reads
    outside the table, whatever the entries are. *)
Theorem isSimple_never_undefined (table : list (list Z)) (fuel : nat) :
  square table →
  isSimple fuel (QuasigroupCpp.mkQuasigroup table) ≠ Err Undefined.
Proof.
  intros Hsq. set (q := QuasigroupCpp.mkQuasigroup table).
  unfold isSimple.
  pose proof (for_each_inv (seqZ 0 (QuasigroupCpp.size q))
    (isSimple_start fuel q) (λ _ _, True) (λ _, True)
    (λ e, e ≠ Undefined) ∅ I) as H.
  cbv beta in H.
  destruct (for_each _ _ _) as [[?|?]|e]; cbn [mbind res_bind];
    [done|done|].
  intros [= ->]. apply H; [|done].
  intros done0 k rest checked _ _.
  pose proof (isSimple_start_checked table fuel k checked Hsq) as Hstart.
  fold q in Hstart.
  by destruct (isSimple_start fuel q k checked) as [[?|?]|?].
Qed.

Lemma isSimple_never_undefined_witness :
  isSimple 3 (QuasigroupCpp.mkQuasigroup [[1; 5]; [0; 1]]) ≠ Err Undefined.
Proof.
  apply (isSimple_never_undefined [[1; 5]; [0; 1]] 3).
  by repeat constructor.
Defined.

(** X14 (Quasigroup::isSimple, quasigroup.cpp lines 36-39): an
    entry that is not an element surfaces as [std::out_of_range]. On a
    square table whose entry at (0, 0) is out of range, the squaring walk
    from 0 throws on its second pass. *)
Theorem isSimple_bad_entry_throws (table : list (list Z)) (fuel : nat) :
  square table → (1 ≤ length table)%nat →
  ¬ (0 ≤ entry table 0 0 < Z.of_nat (length table)) →
  (2 ≤ fuel)%nat →
  isSimple fuel (QuasigroupCpp.mkQuasigroup table) = Err OutOfRange.
Proof.
  intros Hsq Hn Hbad Hfuel. set (q := QuasigroupCpp.mkQuasigroup table).
  destruct (applyOperation_table table 0 0 Hsq)
    as (row & Hrow & Hcell & Happ); [lia..|].
  set (v := entry table (Z.to_nat 0) (Z.to_nat 0)) in *.
  assert (¬ (0 ≤ v < Z.of_nat (length table))) as Hv by done.
  assert (isSimple_start fuel q 0 ∅ = Err OutOfRange) as H0.
  { unfold isSimple_start. rewrite decide_False by apply not_elem_of_empty.
    do 2 (destruct fuel as [|fuel]; [lia|]).
    assert (isSimple_cycle_step q (∅, 0) = Ok (Continue ({[0]}, v)))
      as S1.
    { unfold isSimple_cycle_step.
      rewrite decide_False by apply not_elem_of_empty.
      unfold q. rewrite multiply_as_main, as_main_mkQuasigroup, Happ.
      cbn [mbind res_bind]. by rewrite union_empty_l_L. }
    assert (isSimple_cycle_step q ({[0]}, v) = Err OutOfRange) as S2.
    { unfold isSimple_cycle_step. rewrite decide_False.
      2:{ intros ->%elem_of_singleton. lia. }
      unfold q. rewrite multiply_as_main, as_main_mkQuasigroup.
      rewrite applyOperation_throws; [done|]. cbn. lia. }
    cbn [while_loop]. rewrite S1. cbn [mbind res_bind]. by rewrite S2. }
  unfold isSimple. change (QuasigroupCpp.size q)
    with (Z.of_nat (length table)).
  rewrite seqZ_cons by lia. cbn [for_each]. by rewrite H0.
Qed.

Lemma isSimple_bad_entry_throws_witness :
  isSimple 2 (QuasigroupCpp.mkQuasigroup [[2; 0]; [0; 1]]) = Err OutOfRange.
Proof.
  apply (isSimple_bad_entry_throws [[2; 0]; [0; 1]] 2).
  - by repeat constructor.
  - cbn. lia.
  - cbn. lia.
  - lia.
Defined.
(** The squaring walk of [isSimple] hands back a set that holds its start
    and the square of each of its members. *)
Lemma isSimple_cycle_spec (q : QuasigroupCpp.Quasigroup) (fuel : nat)
    (x : Z) :
  well_formed (as_main q) → 0 ≤ x < QuasigroupCpp.size q →
  QuasigroupCpp.size q < Z.of_nat fuel →
  ∃ cycle, while_loop fuel (isSimple_cycle_step q) (∅, x) = Ok cycle
    ∧ x ∈ cycle ∧ elements_in_range (as_main q) cycle
    ∧ ∀ y, y ∈ cycle → op (as_main q) y y ∈ cycle.
Proof.
  intros Hwf Hx Hfuel. set (n := QuasigroupCpp.size q) in *.
  apply (while_loop_total fuel (isSimple_cycle_step q)
    (λ st, elements_in_range (as_main q) st.1 ∧ 0 ≤ st.2 < n
           ∧ ((st.1 = ∅ ∧ st.2 = x) ∨ x ∈ st.1)
           ∧ ∀ y, y ∈ st.1 →
               op (as_main q) y y ∈ st.1 ∨ op (as_main q) y y = st.2)
    (λ st, (Z.to_nat n - size st.1)%nat)).
  - intros [cycle y] (Hr & Hy & Hstart & Hsq). cbn [fst snd] in *.
    unfold isSimple_cycle_step.
    destruct (decide (y ∈ cycle)) as [Hin|Hnin].
    + split.
      { destruct Hstart as [[-> _]|?]; [|done].
        by apply not_elem_of_empty in Hin. }
      split; [done|]. intros z Hz.
      destruct (Hsq z Hz) as [?|Heq]; [done|by rewrite Heq].
    + rewrite multiply_as_main.
      destruct (applyOperation_op (as_main q) y y Hwf Hy Hy) as [-> Hop].
      cbn [mbind res_bind fst snd].
      assert (elements_in_range (as_main q) (cycle ∪ {[y]})) as Hr'.
      { intros z [Hz|Hz%elem_of_singleton]%elem_of_union;
          [by apply Hr|by subst z]. }
      split.
      * split; [done|]. split; [done|]. split.
        -- right. destruct Hstart as [[_ ->]|?];
             apply elem_of_union; [right; by apply elem_of_singleton|by left].
        -- intros z [Hz|Hz%elem_of_singleton]%elem_of_union.
           ++ destruct (Hsq z Hz) as [?|Heq].
              ** left. apply elem_of_union. by left.
              ** left. apply elem_of_union. right.
                 by apply elem_of_singleton.
           ++ subst z. by right.
      * pose proof (elements_in_range_size (as_main q) _ ltac:(cbn; lia) Hr')
          as Hsz.
        rewrite size_union, size_singleton in *
          by (by apply disjoint_singleton_r).
        cbn in Hsz. lia.
  - cbn [fst snd]. split; [by intros z Hz%not_elem_of_empty|].
    split; [done|]. split; [by left|].
    by intros z Hz%not_elem_of_empty.
  - cbn. rewrite size_empty. lia.
Qed.

Lemma coprime_two_odd (x : Z) : x `mod` 2 = 1 → Z.gcd 2 x = 1.
Proof.
  intros Hodd.
  pose proof (Z.gcd_divide_l 2 x) as H2.
  pose proof (Z.gcd_divide_r 2 x) as Hx.
  pose proof (Z.gcd_nonneg 2 x) as Hpos.
  apply Z.divide_pos_le in H2 as Hle; [|lia].
  assert (Z.gcd 2 x ≠ 0) as Hne.
  { intros H0. rewrite H0 in H2. destruct H2 as [k Hk]. lia. }
  assert (Z.gcd 2 x = 1 ∨ Z.gcd 2 x = 2) as [H|H] by lia; [done|].
  rewrite H in Hx. apply Z.mod_divide in Hx; lia.
Qed.

(** In the cyclic group an element coprime to the order generates
    everything, and 0 generates itself: neither is a witness. *)
Lemma hasProperSubquasigroup_cyclic_generator (n x : Z) (fuel : nat) :
  1 ≤ n ≤ 2 ^ 30 → n < Z.of_nat fuel → 0 ≤ x < n →
  x = 0 ∨ Z.gcd n x = 1 →
  hasProperSubquasigroup fuel
    (QuasigroupCpp.mkQuasigroup (createCyclicGroup n)) x = Ok false.
Proof.
  intros Hn Hfuel Hx Hgen.
  change (createCyclicGroup n) with (generateCyclicGroupCayleyTable n).
  pose proof (cyclic_well_formed n Hn) as Hwf.
  pose proof (cyclic_order n ltac:(lia)) as Hord.
  set (table := generateCyclicGroupCayleyTable n) in *.
  destruct (hasProperSubquasigroup_total
              (QuasigroupCpp.mkQuasigroup table) fuel x)
    as (b & -> & Htrue & Hidem);
    [done|by rewrite <-Hord in Hx|by rewrite <-Hord in Hfuel|].
  f_equal. destruct b; [|done].
  destruct Hgen as [H0|Hg]; [subst x|].
  - apply Hidem. unfold idempotent. rewrite as_main_mkQuasigroup.
    unfold table. rewrite cyclic_op by lia. by rewrite Z.mod_small by lia.
  - exfalso. destruct (Htrue eq_refl) as (s & Hxs & Hr & Hclosed & Hsize).
    rewrite as_main_mkQuasigroup in Hr, Hclosed.
    change (QuasigroupCpp.size (QuasigroupCpp.mkQuasigroup table))
      with (order (mkQuasigroup table)) in Hsize.
    rewrite Hord in Hsize. unfold elements_in_range in Hr.
    rewrite Hord in Hr.
    assert (symbols (Z.to_nat n) ⊆ s) as Hall.
    { intros y Hy%elem_of_symbols.
      apply (closed_mod_coprime n s x); [lia|done| |done|lia|lia].
      intros a c Ha Hc.
      rewrite <-(cyclic_op n a c) by (try lia; by apply Hr).
      by apply Hclosed. }
    apply subseteq_size in Hall. rewrite size_symbols in Hall. lia.
Qed.
Lemma isSimple_start_power_of_two (e : Z) (fuel : nat) (k : Z)
    (checked : gset Z) :
  let n := 2 ^ e in
  1 ≤ e ≤ 30 → n < Z.of_nat fuel → 0 ≤ k < n →
  (∀ z, 0 ≤ z < k → z ∈ checked) →
  (∀ y, y ∈ checked → 0 ≤ y < n ∧ (2 * y) `mod` n ∈ checked) →
  ∃ checked',
    isSimple_start fuel (QuasigroupCpp.mkQuasigroup (createCyclicGroup n))
      k checked = Ok (Continue checked')
    ∧ (∀ z, 0 ≤ z < k + 1 → z ∈ checked')
    ∧ (∀ y, y ∈ checked' → 0 ≤ y < n ∧ (2 * y) `mod` n ∈ checked').
Proof.
  intros n He Hfuel Hk Hbelow Hdouble.
  assert (2 ≤ n ≤ 2 ^ 30) as Hn.
  { unfold n. split.
    - change 2 with (2 ^ 1) at 1. apply Z.pow_le_mono_r; lia.
    - apply Z.pow_le_mono_r; lia. }
  change (createCyclicGroup n) with (generateCyclicGroupCayleyTable n).
  pose proof (cyclic_well_formed n ltac:(lia)) as Hwf.
  pose proof (cyclic_order n ltac:(lia)) as Hord.
  unfold isSimple_start.
  destruct (decide (k ∈ checked)) as [Hin|Hnin].
  { exists checked. split; [done|]. split; [|done].
    intros z Hz. destruct (decide (z = k)) as [->|]; [done|].
    apply Hbelow. lia. }
  assert (k = 0 ∨ k `mod` 2 = 1) as Hodd.
  { destruct (decide (k = 0)) as [|Hk0]; [by left|]. right.
    pose proof (Z.mod_pos_bound k 2 ltac:(lia)) as Hb.
    destruct (decide (k `mod` 2 = 0)) as [Heven|]; [|lia].
    exfalso. apply Hnin.
    pose proof (Z.div_mod k 2 ltac:(lia)) as Hdiv.
    destruct (Hdouble (k `div` 2)) as [_ H2].
    { apply Hbelow. lia. }
    replace (2 * k `div` 2) with k in H2 by lia.
    by rewrite Z.mod_small in H2 by lia. }
  destruct (isSimple_cycle_spec
              (QuasigroupCpp.mkQuasigroup (generateCyclicGroupCayleyTable n))
              fuel k Hwf)
    as (cycle & -> & Hkc & Hr & Hsq);
    [by rewrite <-Hord in Hk|by rewrite <-Hord in Hfuel|].
  cbn [mbind res_bind].
  change (generateCyclicGroupCayleyTable n) with (createCyclicGroup n).
  rewrite hasProperSubquasigroup_cyclic_generator; [|lia|done|done|].
  2:{ destruct Hodd as [?|Hodd]; [by left|right].
      apply Z.coprime_pow_l; [lia|]. by apply coprime_two_odd. }
  cbn [mbind res_bind]. eexists. split; [done|]. split.
  - intros z Hz. apply elem_of_union.
    destruct (decide (z = k)) as [->|]; [by right|].
    left. apply Hbelow. lia.
  - rewrite as_main_mkQuasigroup in Hr, Hsq.
    unfold elements_in_range in Hr.
    change (createCyclicGroup n) with (generateCyclicGroupCayleyTable n)
      in Hr, Hsq.
    rewrite Hord in Hr.
    intros y [Hy|Hy]%elem_of_union.
    + destruct (Hdouble y Hy) as [? ?]. split; [done|].
      apply elem_of_union. by left.
    + split; [by apply Hr|]. apply elem_of_union. right.
      specialize (Hsq y Hy).
      rewrite cyclic_op in Hsq by (try lia; by apply Hr).
      by replace (2 * y) with (y + y) by lia.
Qed.

(** X15 (Quasigroup::isSimple with createCyclicGroup,
    quasigroup.cpp lines 31-74): [isSimple] skips an element that an earlier
    squaring walk has passed, and only tries the sets generated by the
    elements it does not skip. In the cyclic group of order [2^e] with
    [e >= 2] it skips every even element but 0, finds that each odd element
    generates the whole group, and returns true, although [{0, 2^(e-1)}] is
    closed and has two elements. *)
Theorem isSimple_misses_power_of_two (e : Z) (fuel : nat) :
  2 ≤ e ≤ 30 → 2 ^ e < Z.of_nat fuel →
  isSimple fuel (QuasigroupCpp.mkQuasigroup (createCyclicGroup (2 ^ e)))
  = Ok true
  ∧ closed_under (mkQuasigroup (createCyclicGroup (2 ^ e)))
      {[0; 2 ^ (e - 1)]}
  ∧ size ({[0; 2 ^ (e - 1)]} : gset Z) = 2%nat
  ∧ 2 < 2 ^ e.
Proof.
  intros He Hfuel. set (n := 2 ^ e) in *.
  assert (n = 2 * 2 ^ (e - 1)) as Hhalf.
  { unfold n. rewrite <-Z.pow_succ_r by lia. f_equal. lia. }
  assert (2 ≤ 2 ^ (e - 1)) as Hh.
  { change 2 with (2 ^ 1) at 1. apply Z.pow_le_mono_r; lia. }
  assert (4 ≤ n ≤ 2 ^ 30) as Hn.
  { split; [lia|]. apply Z.pow_le_mono_r; lia. }
  split; [|split; [|split]].
  - unfold isSimple.
    assert (QuasigroupCpp.size
              (QuasigroupCpp.mkQuasigroup (createCyclicGroup n)) = n)
      as Hsize.
    { change (createCyclicGroup n) with (generateCyclicGroupCayleyTable n).
      apply (cyclic_order n). lia. }
    rewrite Hsize.
    pose proof (for_each_seqZ_inv n
      (isSimple_start fuel (QuasigroupCpp.mkQuasigroup (createCyclicGroup n)))
      (λ k checked,
         (∀ z, 0 ≤ z < k → z ∈ checked)
         ∧ (∀ y, y ∈ checked → 0 ≤ y < n ∧ (2 * y) `mod` n ∈ checked))
      (λ _, False) (λ _, False) ∅) as H.
    cbv beta in H.
    destruct (for_each _ _ _) as [[checked|b]|err]; cbn [mbind res_bind];
      [done|exfalso|exfalso]; (apply H; clear H;
      [lia
      |split; [intros; lia|by intros y Hy%not_elem_of_empty]
      |intros k checked Hk [Hbelow Hdouble];
       destruct (isSimple_start_power_of_two e fuel k checked)
         as (checked' & Hs & H1 & H2); [lia|done|done|done|done|];
       fold n in Hs, H2; by rewrite Hs]).
  - change (createCyclicGroup n) with (generateCyclicGroupCayleyTable n).
    intros a b Ha Hb. rewrite cyclic_op; [|lia|..].
    + apply elem_of_union in Ha as [Ha%elem_of_singleton|Ha%elem_of_singleton];
        apply elem_of_union in Hb
          as [Hb%elem_of_singleton|Hb%elem_of_singleton]; subst a b.
      * rewrite Z.mod_small by lia. apply elem_of_union. left.
        by apply elem_of_singleton.
      * rewrite Z.mod_small by lia. apply elem_of_union. right.
        by apply elem_of_singleton.
      * rewrite Z.mod_small by lia. apply elem_of_union. right.
        apply elem_of_singleton. lia.
      * replace (2 ^ (e - 1) + 2 ^ (e - 1)) with n by lia.
        rewrite Z.mod_same by lia. apply elem_of_union. left.
        by apply elem_of_singleton.
    + apply elem_of_union in Ha as [Ha%elem_of_singleton|Ha%elem_of_singleton];
        subst a; lia.
    + apply elem_of_union in Hb as [Hb%elem_of_singleton|Hb%elem_of_singleton];
        subst b; lia.
  - rewrite size_union, !size_singleton; [done|].
    apply disjoint_singleton_l. intros H%elem_of_singleton. lia.
  - lia.
Qed.

Lemma isSimple_misses_power_of_two_witness :
  isSimple 5 (QuasigroupCpp.mkQuasigroup (createCyclicGroup (2 ^ 2)))
  = Ok true
  ∧ closed_under (mkQuasigroup (createCyclicGroup (2 ^ 2)))
      {[0; 2 ^ (2 - 1)]}
  ∧ size ({[0; 2 ^ (2 - 1)]} : gset Z) = 2%nat
  ∧ 2 < 2 ^ 2.
Proof.
  apply (isSimple_misses_power_of_two 2 5); [lia|].
  change (2 ^ 2) with 4. lia.
Defined.
(* ================================================================= *)
(** ** The generator on small orders *)

Section GeneratorSmall.
Context {G : Type} (next : G → nat * G).

(** Where no column can run into a conflict, a pass of the row loop places
    a symbol and moves on. *)
Lemma generateRow_step_free (n : nat) (initial : list (gset Z))
    (fuel : nat) (st : SRG.RowState) :
  initial_ok n initial → conflict_free n initial →
  row_inv n initial st → (SRG.r_currentColumn st < n)%nat →
  ∃ st', SRG.generateRow_step next fuel (Z.of_nat n) initial st
         = Ok (Continue st')
    ∧ SRG.r_currentColumn st' = S (SRG.r_currentColumn st)
    ∧ row_inv n initial st'.
Proof.
  intros Hinit Hfree Hinv Hcur.
  pose proof (generateRow_step_spec next n initial fuel st Hinit
                (or_intror Hfree) Hinv) as Hspec.
  destruct Hinv as (Hcc & Hlen & Hlc & Hnd & Hav & Hcols).
  destruct st as [avail row cc cols g]. cbn [SRG.r_currentColumn
    SRG.r_row SRG.r_availableInRow SRG.r_availableInColumns SRG.r_rng] in *.
  subst cc. revert Hspec. unfold SRG.generateRow_step.
  cbn [SRG.r_currentColumn SRG.r_row SRG.r_availableInRow
       SRG.r_availableInColumns SRG.r_rng].
  rewrite decide_True by lia.
  destruct (lookup_lt_is_Some_2 cols (length row)) as [av Hav']; [lia|].
  rewrite (vec_get_lookup _ _ _ Hav'). cbn [mbind res_bind].
  pose proof (Hfree row avail cols av Hnd Hcur Hav Hcols Hav') as Hvalid.
  rewrite decide_True by done.
  destruct (selectRandomElement_member next _ g Hvalid)
    as (sel & g' & -> & Hsel). cbn [mbind res_bind].
  unfold vec_set. rewrite decide_True by lia. cbn [mbind res_bind].
  intros Hspec. eexists. split; [done|]. split; [done|]. exact Hspec.
Qed.

Lemma generateRow_free_total (n : nat) (initial : list (gset Z))
    (fuel : nat) (g : G) :
  initial_ok n initial → conflict_free n initial → (n < fuel)%nat →
  ∃ r, SRG.generateRow next fuel (Z.of_nat n) (symbols n) initial g = Ok r.
Proof.
  intros Hinit Hfree Hfuel. unfold SRG.generateRow.
  destruct (while_loop_total fuel
    (SRG.generateRow_step next fuel (Z.of_nat n) initial)
    (row_inv n initial)
    (λ st, (n - SRG.r_currentColumn st)%nat) (λ _, True)
    {| SRG.r_availableInRow := symbols n; SRG.r_row := [];
       SRG.r_currentColumn := 0; SRG.r_availableInColumns := initial;
       SRG.r_rng := g |}) as (r & Hr & _); [| |cbn; lia|by exists r].
  - intros st Hst.
    destruct (decide (SRG.r_currentColumn st < n)%nat) as [Hlt|Hge].
    + destruct (generateRow_step_free n initial fuel st Hinit Hfree Hst Hlt)
        as (st' & -> & Hcc & Hinv'). split; [done|]. lia.
    + pose proof (generateRow_step_spec next n initial fuel st Hinit
                    (or_intror Hfree) Hst) as Hspec.
      revert Hspec. unfold SRG.generateRow_step.
      by rewrite decide_False by lia.
  - split_and!; cbn; [done|lia|by destruct Hinit|apply NoDup_nil_2| |].
    + intros s. split; [intros Hs; split; [done|by intros ?%elem_of_nil]|].
      by intros [? _].
    + intros p ini Hp. by rewrite lookup_nil.
Qed.

(** The first row never runs into a conflict. *)
Lemma table_inv_first_row (n : nat) (columns : list (gset Z)) :
  table_inv n [] columns → conflict_free n columns.
Proof.
  intros (_ & Hlc & Hcols) row avail cols av Hnd Hlen Hav Hci Hav'.
  destruct (Hcols (length row) Hlen) as [_ Hini]. cbn in Hini.
  pose proof (Hci _ _ Hini) as Hc.
  rewrite (lookup_ge_None_2 row (length row)) in Hc by lia.
  assert (av = symbols n) as ->.
  { rewrite Hav' in Hc. injection Hc as ->. apply set_eq. intros x.
    rewrite elem_of_difference. split; [by intros [? _]|].
    intros ?. split; [done|]. apply not_elem_of_empty. }
  assert (symbols n ∖ list_to_set row ≠ (∅ : gset Z)) as Hne.
  { intros He.
    assert (symbols n ⊆ (list_to_set row : gset Z)) as Hsub.
    { intros s Hs. destruct (decide (s ∈ (list_to_set row : gset Z)));
        [done|]. exfalso. apply (not_elem_of_empty (C:=gset Z) s).
      rewrite <-He. by apply elem_of_difference. }
    apply subseteq_size in Hsub.
    rewrite size_symbols, size_list_to_set in Hsub by done. lia. }
  apply set_choose_L in Hne as [s Hs].
  apply elem_of_difference in Hs as [Hs Hnin].
  rewrite elem_of_list_to_set in Hnin.
  intros He. apply (not_elem_of_empty (C:=gset Z) s). rewrite <-He.
  apply elem_of_filter. split; [|done]. apply Hav. by split.
Qed.

Lemma generate_row_free_total (n r : nat) (fuel : nat)
    (st : SRG.Generator * G) :
  (r < n)%nat → (r = 0 ∨ r + 1 = n)%nat → (n < fuel)%nat →
  generate_inv n r st →
  ∃ st', SRG.generate_row next fuel r st = Ok st'
         ∧ generate_inv n (S r) st'.
Proof.
  intros Hr Hfree Hfuel Hinv.
  pose proof (generate_row_spec next n r fuel st Hr Hinv) as Hspec.
  destruct Hinv as (Hord & Hsym & Hlen & _ & Hinv).
  destruct st as [gen g]. cbn [fst snd] in *.
  revert Hspec. unfold SRG.generate_row. rewrite Hord, Hsym.
  assert (length (take r (SRG.cayleyTable gen)) = r) as Hlt
    by (rewrite length_take; lia).
  destruct (generateRow_free_total n (SRG.availableInColumns gen) fuel g)
    as ([[row cols] g'] & Hrow); [by eapply table_inv_initial_ok| |done|].
  { destruct Hfree as [->|Hlast].
    - apply table_inv_first_row. by rewrite take_0 in Hinv.
    - eapply table_inv_conflict_free; [done|lia]. }
  rewrite Hrow. cbn [mbind res_bind].
  unfold vec_set. rewrite decide_True by lia. cbn [mbind res_bind].
  intros Hspec. eexists. by split.
Qed.

End GeneratorSmall.

(** X16 (SequentialReplacementGraphGenerator::generate and
    generateRow, main.cpp lines 341-399): the first and the last row of a
    table never run into a conflict, so for the orders 0, 1 and 2, where
    there is no other row, the generator returns for every random source,
    without a repair, and what it returns is a Latin square. *)
Theorem generate_small_order_returns {G : Type} (next : G → nat * G)
    (fuel : nat) (order : Z) (g : G) :
  0 ≤ order ≤ 2 → order < Z.of_nat fuel →
  ∃ table g',
    SRG.generateSequentialReplacementGraphCayleyTable next fuel order g
    = Ok (table, g')
    ∧ length table = Z.to_nat order ∧ square table
    ∧ isLatinSquare table = Ok true.
Proof.
  intros Hord Hfuel. set (n := Z.to_nat order).
  pose proof (generate_outcome next fuel order g ltac:(lia)) as Hout.
  revert Hout.
  unfold SRG.generateSequentialReplacementGraphCayleyTable, SRG.generate.
  replace order with (Z.of_nat n) by lia.
  cbn [SRG.order SRG.mkGenerator]. rewrite Nat2Z.id.
  pose proof (for_loop_inv (seq 0 n) (SRG.generate_row next fuel)
    (λ done st, generate_inv n (length done) st)
    (λ _, False) (SRG.mkGenerator (Z.of_nat n), g)
    (mkGenerator_inv n g)) as H.
  cbv beta in H.
  assert (∀ done r rest st, seq 0 n = done ++ r :: rest →
    generate_inv n (length done) st →
    match SRG.generate_row next fuel r st with
    | Ok s' => generate_inv n (length (done ++ [r])) s'
    | Err _ => False
    end) as Hstep.
  { intros done r rest st Hl Hinv.
    assert (seq 0 n !! length done = Some r) as Hx.
    { rewrite Hl. by rewrite list_lookup_middle. }
    apply lookup_seq in Hx as [-> Hlt]. cbn [Nat.add] in *.
    destruct (generate_row_free_total next n (length done) fuel st)
      as (st' & -> & Hinv'); [done|lia|lia|done|].
    rewrite length_app. cbn [length]. by rewrite Nat.add_1_r. }
  specialize (H Hstep). clear Hstep.
  destruct (for_loop (seq 0 n) _ _) as [[gen g']|e]; [|done].
  cbn [mbind res_bind]. intros (Hlen & Hsq & Hlatin).
  exists (SRG.cayleyTable gen), g'. split; [done|]. split; [done|].
  split; [done|].
  destruct (isLatinSquare_latin _ Hsq) as (b & -> & Hb).
  f_equal. by apply Hb.
Qed.

Lemma generate_small_order_returns_witness :
  ∃ table g',
    SRG.generateSequentialReplacementGraphCayleyTable lcg 3 2 1
    = Ok (table, g')
    ∧ length table = Z.to_nat 2 ∧ square table
    ∧ isLatinSquare table = Ok true.
Proof.
  apply (generate_small_order_returns lcg 3 2 1); lia.
Defined.
(* ================================================================= *)
(** ** The cyclic table and the two modes of the detector *)

(** X17 (generateCyclicGroupCayleyTable, main.cpp lines 237-248;
    createCyclicGroup, quasigroup.cpp lines 114-124; isLatinSquare, main.cpp
    lines 502-520): for an order from 0 to [2^30] the cyclic table has
    [order] rows and columns, its cell in row [i] and column [j] is
    [(i + j) mod order], and [isLatinSquare] accepts it; the function of
    quasigroup.cpp builds the same table. *)
Theorem generateCyclicGroupCayleyTable_latin (n : Z) :
  0 ≤ n ≤ 2 ^ 30 →
  length (generateCyclicGroupCayleyTable n) = Z.to_nat n
  ∧ square (generateCyclicGroupCayleyTable n)
  ∧ (∀ i j, Z.of_nat i < n → Z.of_nat j < n →
       entry (generateCyclicGroupCayleyTable n) i j
       = (Z.of_nat i + Z.of_nat j) `mod` n)
  ∧ isLatinSquare (generateCyclicGroupCayleyTable n) = Ok true
  ∧ createCyclicGroup n = generateCyclicGroupCayleyTable n.
Proof.
  intros Hn.
  split; [apply cyclic_length|]. split; [apply cyclic_square|].
  split; [|split; [|done]].
  { intros i j Hi Hj. apply cyclic_entry; lia. }
  destruct (decide (n = 0)) as [->|Hn0]; [done|].
  destruct (isLatinSquare_lines _ (cyclic_square n)) as (b & -> & Hb).
  f_equal. apply Hb. rewrite cyclic_length.
  pose proof (affine_table_lines (generateCyclicGroupCayleyTable n) 1 1 0
                (seqZ 0 n)) as Hlines.
  cbv zeta in Hlines. rewrite cyclic_length, Z2Nat.id in Hlines by lia.
  apply Hlines; [lia|apply Z.gcd_1_l..|done|].
  intros i j Hi Hj. rewrite cyclic_entry by lia.
  rewrite lookup_total_seqZ_lt by lia. f_equal. lia.
Qed.

Lemma generateCyclicGroupCayleyTable_latin_witness :
  length (generateCyclicGroupCayleyTable 4) = Z.to_nat 4
  ∧ square (generateCyclicGroupCayleyTable 4)
  ∧ (∀ i j, Z.of_nat i < 4 → Z.of_nat j < 4 →
       entry (generateCyclicGroupCayleyTable 4) i j
       = (Z.of_nat i + Z.of_nat j) `mod` 4)
  ∧ isLatinSquare (generateCyclicGroupCayleyTable 4) = Ok true
  ∧ createCyclicGroup 4 = generateCyclicGroupCayleyTable 4.
Proof. apply (generateCyclicGroupCayleyTable_latin 4). lia. Defined.

(** X18 (Quasigroup::hasSubquasigroups, main.cpp lines 84-115):
    on a square table of order at least 2 with entries in range the two
    checks are never both negative: when the check for non-trivial
    subquasigroups says false, every element is idempotent, and the check
    for proper subquasigroups then accepts the one-element set [{0}]. *)
Theorem hasSubquasigroups_modes_not_both_false (table : list (list Z))
    (fuel : nat) :
  square table → entries_in_range table →
  (2 ≤ length table)%nat → (length table < fuel)%nat →
  hasSubquasigroups fuel (mkQuasigroup table) NON_TRIVIAL = Ok true
  ∨ (hasSubquasigroups fuel (mkQuasigroup table) NON_TRIVIAL = Ok false
     ∧ hasSubquasigroups fuel (mkQuasigroup table) PROPER = Ok true).
Proof.
  intros Hsq Hrange Hn Hfuel.
  pose proof (mkQuasigroup_well_formed table Hsq Hrange) as Hwf.
  destruct (hasSubquasigroups_nontrivial_spec (mkQuasigroup table) fuel Hwf)
    as (b & Hb & Hiff); [cbn; lia|].
  destruct b; [by left|right]. split; [done|].
  apply hasSubquasigroups_proper_idempotent_zero; [done|cbn; lia..|].
  apply Hiff; [done|cbn; lia].
Qed.

Lemma hasSubquasigroups_modes_not_both_false_witness :
  hasSubquasigroups 4 (mkQuasigroup [[0; 2; 1]; [2; 1; 0]; [1; 0; 2]])
    NON_TRIVIAL = Ok true
  ∨ (hasSubquasigroups 4 (mkQuasigroup [[0; 2; 1]; [2; 1; 0]; [1; 0; 2]])
       NON_TRIVIAL = Ok false
     ∧ hasSubquasigroups 4 (mkQuasigroup [[0; 2; 1]; [2; 1; 0]; [1; 0; 2]])
         PROPER = Ok true).
Proof.
  apply (hasSubquasigroups_modes_not_both_false
           [[0; 2; 1]; [2; 1; 0]; [1; 0; 2]] 4).
  - by repeat constructor.
  - intros row v Hrow Hv.
    repeat (apply elem_of_cons in Hrow as [->|Hrow]);
      [..|by apply elem_of_nil in Hrow];
      repeat (apply elem_of_cons in Hv as [->|Hv]);
      try (by apply elem_of_nil in Hv); cbn; lia.
  - cbn. lia.
  - cbn. lia.
Defined.
(* ================================================================= *)
(** ** The two programs side by side *)

(** The squaring walks of the two files visit the same elements. *)
Lemma cycle_walks_agree (q : QuasigroupCpp.Quasigroup) (fuel : nat)
    (cycle : gset Z) (visited : list bool) (y : Z) :
  well_formed (as_main q) →
  Z.of_nat (length visited) = QuasigroupCpp.size q →
  0 ≤ y < QuasigroupCpp.size q →
  while_loop fuel (isSimple_cycle_step q) (cycle, y)
  = r ← while_loop fuel (cycle_step (as_main q)) (cycle, visited, y);
    Ok r.1.
Proof.
  intros Hwf. revert cycle visited y.
  induction fuel as [|fuel IH]; intros cycle visited y Hlen Hy; [done|].
  cbn [while_loop]. unfold isSimple_cycle_step at 2, cycle_step at 2.
  destruct (decide (y ∈ cycle)) as [Hin|Hnin]; [done|].
  rewrite vec_set_int_ok by lia. cbn [mbind res_bind].
  rewrite multiply_as_main.
  destruct (applyOperation_op (as_main q) y y Hwf Hy Hy) as [-> Hop].
  cbn [mbind res_bind]. apply IH; [by rewrite length_insert|done].
Qed.

(** The walk stays inside every set that holds its start and the square of
    each of its members. *)
Lemma isSimple_cycle_least (q : QuasigroupCpp.Quasigroup) (fuel : nat)
    (x : Z) (T cycle : gset Z) :
  well_formed (as_main q) → elements_in_range (as_main q) T →
  x ∈ T → (∀ y, y ∈ T → op (as_main q) y y ∈ T) →
  while_loop fuel (isSimple_cycle_step q) (∅, x) = Ok cycle →
  cycle ⊆ T.
Proof.
  intros Hwf HT Hx Hsq Hloop.
  pose proof (while_loop_inv fuel (isSimple_cycle_step q)
    (λ st, st.1 ⊆ T ∧ st.2 ∈ T)
    (λ r, match r with Ok cycle => cycle ⊆ T | Err _ => True end)
    (∅, x)) as H.
  rewrite Hloop in H. apply H; [done| |].
  - intros [c y] [Hc Hy]. cbn [fst snd] in *. unfold isSimple_cycle_step.
    destruct (decide (y ∈ c)); [done|].
    rewrite multiply_as_main.
    destruct (applyOperation_op (as_main q) y y Hwf) as [-> _];
      [by apply HT..|].
    cbn [mbind res_bind fst snd]. split; [|by apply Hsq].
    intros z [Hz|Hz%elem_of_singleton]%elem_of_union; [by apply Hc|].
    by subst z.
  - cbn. split; [|done]. by intros z Hz%not_elem_of_empty.
Qed.

(** What [hasProperSubquasigroup] accepts for [x], [verifyProperSubquasigroup]
    accepts for the squaring walk from [x]. *)
Lemma hasProper_verifyProper (q : QuasigroupCpp.Quasigroup) (fuel : nat)
    (x : Z) (orbit : gset Z) :
  well_formed (as_main q) → 0 ≤ x < QuasigroupCpp.size q →
  QuasigroupCpp.size q < Z.of_nat fuel →
  while_loop fuel (isSimple_cycle_step q) (∅, x) = Ok orbit →
  hasProperSubquasigroup fuel q x = Ok true →
  verifyProperSubquasigroup fuel (as_main q) orbit = Ok true.
Proof.
  intros Hwf Hx Hfuel Horbit Hproper.
  destruct (isSimple_cycle_spec q fuel x Hwf Hx Hfuel)
    as (orbit' & Horbit' & Hxo & Hro & Hsqo).
  rewrite Horbit in Horbit'. injection Horbit' as <-.
  (* the closed set found from {x, x·x} *)
  revert Hproper. unfold hasProperSubquasigroup. rewrite multiply_as_main.
  destruct (applyOperation_op (as_main q) x x Hwf Hx Hx) as [-> Hop].
  cbn [mbind res_bind]. rewrite hasProperSubquasigroup_round_closure.
  assert (elements_in_range (as_main q) ({[x]} ∪ {[op (as_main q) x x]}))
    as Hseed.
  { intros z [Hz%elem_of_singleton|Hz%elem_of_singleton]%elem_of_union;
      by subst z. }
  destruct (closure_loop_total (as_main q)
              (Some (QuasigroupCpp.size q `quot` 2))
              (λ s, bool_decide (1 < Z.of_nat (size s))
                    && bool_decide (Z.of_nat (size s) < QuasigroupCpp.size q))
              fuel _ Hwf Hseed Hfuel) as (b & -> & H).
  intros [= ->].
  destruct H as [[? _]|(s & Hg & Hclosed & Hv)]; [done|].
  symmetry in Hv. apply andb_true_iff in Hv as [_ Hlt].
  apply bool_decide_eq_true in Hlt.
  pose proof (grows_in_range _ _ _ _ Hwf Hseed Hg) as Hrs.
  assert (x ∈ s) as Hxs.
  { apply grows_subseteq in Hg. apply Hg, elem_of_union. left.
    by apply elem_of_singleton. }
  assert (orbit ⊆ s) as Hsub.
  { apply (isSimple_cycle_least q fuel x s orbit Hwf Hrs Hxs); [|done].
    intros y Hy. by apply Hclosed. }
  (* the closure of the walk *)
  destruct (verifyProper_total (as_main q) fuel orbit Hwf Hro Hfuel)
    as (b' & -> & H').
  f_equal.
  destruct H' as [[_ Hex]|(s' & Hg' & Hclosed' & ->)].
  - exfalso. destruct Hex as (s0 & a & c & Hg0 & Ha & Hc & Hnin & Hbig).
    pose proof (grows_below_closed _ _ _ _ _ Hg0 Hclosed Hsub) as Hs0.
    assert (s0 ∪ {[op (as_main q) a c]} ⊆ s) as Hs1.
    { intros z [Hz|Hz%elem_of_singleton]%elem_of_union; [by apply Hs0|].
      subst z. apply Hclosed; by apply Hs0. }
    apply subseteq_size in Hs1.
    destruct (grows_bounded _ _ _ _ Hg) as [->|Hsmall]; [|cbn in *; lia].
    (* no growth from {x, x·x}: the walk is that set, and is closed *)
    assert (orbit = {[x]} ∪ {[op (as_main q) x x]}) as Heq.
    { apply set_eq. intros z. split; [apply Hsub|].
      intros [Hz%elem_of_singleton|Hz%elem_of_singleton]%elem_of_union;
        subst z; [done|by apply Hsqo]. }
    rewrite <-Heq in Hclosed.
    apply (grows_closed _ _ _ _ Hclosed) in Hg0. subst s0.
    apply Hnin. by apply Hclosed.
  - apply bool_decide_eq_true.
    pose proof (grows_below_closed _ _ _ _ _ Hg' Hclosed Hsub) as Hs'.
    apply subseteq_size in Hs'. cbn in *. lia.
Qed.

(** One start element in the two loops, run side by side: what is marked
    as visited in [main.cpp] is what is checked in [quasigroup.cpp]. *)
Lemma start_side_by_side (q : QuasigroupCpp.Quasigroup) (fuel : nat)
    (k : Z) (checked : gset Z) (visited : list bool) :
  well_formed (as_main q) → QuasigroupCpp.size q < Z.of_nat fuel →
  0 ≤ k < QuasigroupCpp.size q →
  Z.of_nat (length visited) = QuasigroupCpp.size q →
  (∀ z : nat, visited !! z = Some true ↔ Z.of_nat z ∈ checked) →
  match isSimple_start fuel q k checked with
  | Ok (Continue checked') =>
      hasSubquasigroups_start fuel (as_main q) PROPER k visited
      = Ok (Return true)
      ∨ ∃ visited',
          hasSubquasigroups_start fuel (as_main q) PROPER k visited
          = Ok (Continue visited')
          ∧ Z.of_nat (length visited') = QuasigroupCpp.size q
          ∧ ∀ z : nat, visited' !! z = Some true ↔ Z.of_nat z ∈ checked'
  | Ok (Return b) =>
      b = false
      ∧ hasSubquasigroups_start fuel (as_main q) PROPER k visited
        = Ok (Return true)
  | Err _ => False
  end.
Proof.
  intros Hwf Hfuel Hk Hlen Hmarks.
  unfold isSimple_start, hasSubquasigroups_start.
  destruct (vec_get_int_ok visited k) as (v & Hv & ->); [lia|].
  cbn [mbind res_bind].
  destruct (decide (k ∈ checked)) as [Hin|Hnin].
  { assert (v = true) as ->.
    { pose proof (proj2 (Hmarks (Z.to_nat k))) as H.
      rewrite Z2Nat.id in H by lia. specialize (H Hin). congruence. }
    right. by exists visited. }
  assert (v = false) as ->.
  { destruct v; [|done]. exfalso. apply Hnin.
    apply Hmarks in Hv. by rewrite Z2Nat.id in Hv by lia. }
  destruct (cycle_loop_total (as_main q) fuel k visited Hwf Hlen Hk Hfuel)
    as ([cycle visited'] & Hmain & Hpost).
  pose proof (cycle_walks_agree q fuel ∅ visited k Hwf Hlen Hk) as Hagree.
  rewrite Hmain in Hagree. cbn [mbind res_bind fst] in Hagree.
  rewrite Hagree, Hmain. cbn [mbind res_bind].
  destruct Hpost as (Hr & Hlen' & Hvis & _).
  destruct (hasProperSubquasigroup_total q fuel k Hwf Hk Hfuel)
    as (b & Hb & _).
  rewrite Hb. cbn [mbind res_bind]. destruct b.
  - split; [done|].
    rewrite (hasProper_verifyProper q fuel k cycle Hwf Hk Hfuel Hagree Hb).
    done.
  - destruct (verifyProper_total (as_main q) fuel cycle Hwf Hr Hfuel)
      as (b' & -> & _). cbn [mbind res_bind PROPER].
    destruct b'; [by left|right].
    exists visited'. split; [done|]. split; [lia|].
    intros z. rewrite Hvis, elem_of_union. by rewrite Hmarks.
Qed.

Lemma starts_side_by_side (q : QuasigroupCpp.Quasigroup) (fuel : nat)
    (l : list Z) (checked : gset Z) (visited : list bool) :
  well_formed (as_main q) → QuasigroupCpp.size q < Z.of_nat fuel →
  (∀ k, k ∈ l → 0 ≤ k < QuasigroupCpp.size q) →
  Z.of_nat (length visited) = QuasigroupCpp.size q →
  (∀ z : nat, visited !! z = Some true ↔ Z.of_nat z ∈ checked) →
  for_each l (isSimple_start fuel q) checked = Ok (Return false) →
  for_each l (hasSubquasigroups_start fuel (as_main q) PROPER) visited
  = Ok (Return true).
Proof.
  intros Hwf Hfuel. revert checked visited.
  induction l as [|k l IH]; intros checked visited Hl Hlen Hmarks;
    [done|].
  cbn [for_each].
  pose proof (start_side_by_side q fuel k checked visited Hwf Hfuel
                (Hl k ltac:(by left)) Hlen Hmarks) as H.
  destruct (isSimple_start fuel q k checked) as [[checked'|b]|e];
    cbn [mbind res_bind]; [| |done].
  - intros Hrest. destruct H as [->|(visited' & -> & Hlen' & Hmarks')];
      [done|]. cbn [mbind res_bind].
    apply (IH checked'); [|done..].
    intros k' Hk'. apply Hl. by right.
  - intros _. by destruct H as [_ ->].
Qed.

(** X19 (Quasigroup::isSimple, quasigroup.cpp lines 31-74, against
    Quasigroup::hasSubquasigroups, main.cpp lines 84-147): the two programs
    agree on a negative verdict. On a square table with entries in range,
    whenever [isSimple] of quasigroup.cpp says false, [hasSubquasigroups] of
    main.cpp says true in both modes. *)
Theorem isSimple_false_hasSubquasigroups (table : list (list Z))
    (fuel : nat) :
  square table → entries_in_range table →
  (length table < fuel)%nat →
  isSimple fuel (QuasigroupCpp.mkQuasigroup table) = Ok false →
  hasSubquasigroups fuel (mkQuasigroup table) PROPER = Ok true
  ∧ hasSubquasigroups fuel (mkQuasigroup table) NON_TRIVIAL = Ok true.
Proof.
  intros Hsq Hrange Hfuel Hsimple.
  pose proof (mkQuasigroup_well_formed table Hsq Hrange) as Hwf.
  set (q := QuasigroupCpp.mkQuasigroup table) in *.
  assert (QuasigroupCpp.size q = Z.of_nat (length table)) as Hsize by done.
  split.
  - revert Hsimple. unfold isSimple, hasSubquasigroups.
    change (order (mkQuasigroup table)) with (QuasigroupCpp.size q).
    destruct (for_each (seqZ 0 (QuasigroupCpp.size q))
                (isSimple_start fuel q) ∅) as [[?|b]|?] eqn:Hloop;
      cbn [mbind res_bind]; [done| |done].
    intros [= ->].
    rewrite (starts_side_by_side q fuel _ ∅
               (replicate (Z.to_nat (QuasigroupCpp.size q)) false));
      [done|done|lia| | | |done].
    + intros k Hk%elem_of_seqZ. lia.
    + rewrite length_replicate. lia.
    + intros z. split.
      * by intros [? _]%lookup_replicate.
      * by intros ?%not_elem_of_empty.
  - destruct (isSimple_spec q fuel Hwf ltac:(lia)) as (b & Hb & H).
    rewrite Hsimple in Hb. injection Hb as <-.
    destruct (H eq_refl) as [_ (y & Hy & Hny)].
    destruct (hasSubquasigroups_nontrivial_spec (mkQuasigroup table) fuel
                Hwf) as (b & -> & Hiff); [cbn; lia|].
    f_equal. destruct b; [done|]. exfalso. apply Hny.
    by apply Hiff.
Qed.

Lemma isSimple_false_hasSubquasigroups_witness :
  hasSubquasigroups 7
    (mkQuasigroup
       [[0; 1; 2; 3; 4; 5]; [1; 2; 3; 4; 5; 0]; [2; 3; 4; 5; 0; 1];
        [3; 4; 5; 0; 1; 2]; [4; 5; 0; 1; 2; 3]; [5; 0; 1; 2; 3; 4]])
    PROPER = Ok true
  ∧ hasSubquasigroups 7
      (mkQuasigroup
         [[0; 1; 2; 3; 4; 5]; [1; 2; 3; 4; 5; 0]; [2; 3; 4; 5; 0; 1];
          [3; 4; 5; 0; 1; 2]; [4; 5; 0; 1; 2; 3]; [5; 0; 1; 2; 3; 4]])
      NON_TRIVIAL = Ok true.
Proof.
  apply (isSimple_false_hasSubquasigroups
           [[0; 1; 2; 3; 4; 5]; [1; 2; 3; 4; 5; 0]; [2; 3; 4; 5; 0; 1];
            [3; 4; 5; 0; 1; 2]; [4; 5; 0; 1; 2; 3]; [5; 0; 1; 2; 3; 4]] 7).
  - by repeat constructor.
  - intros row v Hrow Hv.
    repeat (apply elem_of_cons in Hrow as [->|Hrow]);
      [..|by apply elem_of_nil in Hrow];
      repeat (apply elem_of_cons in Hv as [->|Hv]);
      try (by apply elem_of_nil in Hv); cbn; lia.
  - cbn. lia.
  - reflexivity.
Defined.

(* ================================================================= *)
(** ** Saving a table and loading it again *)


Lemma digit_char_spec (d : Z) :
  0 ≤ d ≤ 9 →
  isdigit (digit_char d) = true ∧ digit_value (digit_char d) = d
  ∧ isspace (digit_char d) = false
  ∧ digit_char d ≠ "-"%char ∧ digit_char d ≠ "+"%char.
Proof.
  intros Hd.
  assert (d = 0 ∨ d = 1 ∨ d = 2 ∨ d = 3 ∨ d = 4 ∨ d = 5 ∨ d = 6 ∨ d = 7
          ∨ d = 8 ∨ d = 9) as H by lia.
  repeat (destruct H as [H|H]; [subst d; by repeat split|]).
  subst d. by repeat split.
Qed.

(** The digits written for [n] read back as [n]. *)
Lemma show_digits_spec (fuel : nat) (n : Z) (acc : list Ascii.ascii) :
  0 ≤ n < 10 ^ Z.of_nat (S fuel) →
  ∃ c ds,
    show_digits (S fuel) n acc = (c :: ds) ++ acc
    ∧ isdigit c = true
    ∧ ∀ rest count a,
        read_digits ((c :: ds) ++ rest) count a
        = read_digits rest (count + S (length ds))
            (a * 10 ^ Z.of_nat (S (length ds)) + n).
Proof.
  revert n acc. induction fuel as [|fuel IH]; intros n acc Hn.
  - assert (n < 10) as Hlt by (change (10 ^ Z.of_nat 1) with 10 in Hn; lia).
    cbn [show_digits]. rewrite (proj2 (Z.ltb_lt n 10)) by done.
    rewrite Z.mod_small by lia.
    destruct (digit_char_spec n) as (Hdig & Hval & _); [lia|].
    exists (digit_char n), []. split; [done|]. split; [done|].
    intros rest count a. cbn [app read_digits length]. rewrite Hdig, Hval.
    change (10 ^ Z.of_nat 1) with 10.
    by replace (count + 1)%nat with (S count) by lia.
  - cbn [show_digits]. destruct (n <? 10) eqn:Hlt.
    + apply Z.ltb_lt in Hlt. rewrite Z.mod_small by lia.
      destruct (digit_char_spec n) as (Hdig & Hval & _); [lia|].
      exists (digit_char n), []. split; [done|]. split; [done|].
      intros rest count a. cbn [app read_digits length]. rewrite Hdig, Hval.
      change (10 ^ Z.of_nat 1) with 10.
      by replace (count + 1)%nat with (S count) by lia.
    + apply Z.ltb_ge in Hlt.
      pose proof (Z.mod_pos_bound n 10 ltac:(lia)) as Hm.
      pose proof (Z.div_mod n 10 ltac:(lia)) as Hdm.
      destruct (digit_char_spec (n `mod` 10)) as (Hdig & Hval & _); [lia|].
      destruct (IH (n `div` 10) (digit_char (n `mod` 10) :: acc))
        as (c & ds & Hshow & Hc & Hread).
      { split; [apply Z.div_pos; lia|].
        apply Z.div_lt_upper_bound; [lia|].
        rewrite <-Z.pow_succ_r by lia.
        replace (Z.succ (Z.of_nat (S fuel))) with (Z.of_nat (S (S fuel)))
          by lia. lia. }
      exists c, (ds ++ [digit_char (n `mod` 10)]).
      split.
      { cbn [show_digits] in Hshow. rewrite Hshow.
        cbn [app]. by rewrite <-app_assoc. }
      split; [done|].
      intros rest count a.
      replace ((c :: ds ++ [digit_char (n `mod` 10)]) ++ rest)
        with ((c :: ds) ++ digit_char (n `mod` 10) :: rest)
        by (cbn [app]; by rewrite <-app_assoc).
      rewrite Hread. cbn [read_digits]. rewrite Hdig, Hval.
      rewrite length_app. cbn [length].
      replace (Z.of_nat (S (length ds + 1)))
        with (Z.succ (Z.of_nat (S (length ds)))) by lia.
      rewrite Z.pow_succ_r by lia.
      replace (S (count + S (length ds))) with (count + S (length ds + 1))%nat
        by lia.
      f_equal. lia.
Qed.

Lemma isdigit_other (c : Ascii.ascii) :
  isdigit c = true →
  isspace c = false ∧ c ≠ "-"%char ∧ c ≠ "+"%char.
Proof.
  unfold isdigit, isspace. intros [H1 H2]%andb_true_iff.
  apply Z.leb_le in H1, H2. split; [|split].
  - apply orb_false_iff. split; [apply Z.eqb_neq; lia|].
    apply andb_false_iff. right. apply Z.leb_gt. lia.
  - intros ->. vm_compute in H1. done.
  - intros ->. vm_compute in H1. done.
Qed.

Lemma skip_space_app (w cs : list Ascii.ascii) :
  forallb isspace w = true → skip_space (w ++ cs) = skip_space cs.
Proof.
  induction w as [|c w IH]; [done|]. cbn [forallb app skip_space].
  intros [Hc Hw]%andb_true_iff. rewrite Hc. by apply IH.
Qed.

(** A value written by [operator<<] and followed by a character that is no
    digit is read back by [operator>>], which stops in front of that
    character. *)
Lemma extract_show (v : Z) (w rest : list Ascii.ascii) (d : Ascii.ascii) :
  INT_MIN ≤ v ≤ INT_MAX → forallb isspace w = true → isdigit d = false →
  extract_int {| chars := w ++ show_int v ++ d :: rest;
                 eofbit := false; failbit := false |}
  = (Some v, {| chars := d :: rest; eofbit := false; failbit := false |}).
Proof.
  intros Hv Hw Hd. unfold extract_int. cbn [eofbit failbit chars orb].
  rewrite skip_space_app by done.
  assert (2 ^ 31 < 10 ^ Z.of_nat 10) as Hten by done.
  unfold INT_MIN, INT_MAX in Hv. unfold show_int.
  destruct (v <? 0) eqn:Hneg.
  - apply Z.ltb_lt in Hneg.
    destruct (show_digits_spec 9 (- v) []) as (c & ds & -> & Hc & Hread);
      [lia|].
    rewrite app_nil_r. cbn [app skip_space].
    change (isspace "-"%char) with false. cbv iota.
    rewrite bool_decide_eq_true_2 by done. cbn [orb].
    specialize (Hread (d :: rest) 0%nat 0). cbn [app] in Hread.
    rewrite Hread. cbn [read_digits]. rewrite Hd.
    rewrite bool_decide_eq_false_2 by done.
    rewrite bool_decide_eq_false_2 by done.
    rewrite Z.mul_0_l, Z.add_0_l, Z.opp_involutive.
    rewrite (proj2 (Z.ltb_ge v INT_MIN)) by (unfold INT_MIN; lia).
    by rewrite (proj2 (Z.ltb_ge INT_MAX v)) by (unfold INT_MAX; lia).
  - apply Z.ltb_ge in Hneg.
    destruct (show_digits_spec 9 v []) as (c & ds & -> & Hc & Hread);
      [lia|].
    destruct (isdigit_other c Hc) as (Hsp & Hminus & Hplus).
    rewrite app_nil_r. cbn [app skip_space]. rewrite Hsp.
    rewrite !bool_decide_eq_false_2 by done. cbn [orb].
    specialize (Hread (d :: rest) 0%nat 0). cbn [app] in Hread.
    rewrite Hread. cbn [read_digits]. rewrite Hd.
    rewrite bool_decide_eq_false_2 by done.
    rewrite bool_decide_eq_false_2 by done.
    rewrite Z.mul_0_l, Z.add_0_l.
    rewrite (proj2 (Z.ltb_ge v INT_MIN)) by (unfold INT_MIN; lia).
    by rewrite (proj2 (Z.ltb_ge INT_MAX v)) by (unfold INT_MAX; lia).
Qed.

Lemma holds_row_space (cells : list Z) (K : list Ascii.ascii → Prop)
    (w cs : list Ascii.ascii) :
  forallb isspace w = true →
  (∀ cs, K cs → K (w ++ cs)) →
  holds_row cells K cs → holds_row cells K (w ++ cs).
Proof.
  intros Hw HK. destruct cells as [|v cells]; cbn [holds_row]; [apply HK|].
  intros (space & rest & Hspace & -> & Hrest).
  exists (w ++ space), rest. split; [|split; [by rewrite <-app_assoc|done]].
  rewrite forallb_app. by rewrite Hw, Hspace.
Qed.

Lemma holds_rows_space (rows : list (list Z)) (w cs : list Ascii.ascii) :
  forallb isspace w = true →
  holds_rows rows cs → holds_rows rows (w ++ cs).
Proof.
  intros Hw. revert cs. induction rows as [|row rows IH]; intros cs; [done|].
  cbn [holds_rows]. apply holds_row_space; [done|]. apply IH.
Qed.

(** What [write_row] appends, and that it can be read back. *)
Lemma write_row_spec (row : list Z) :
  ∃ body, (∀ out, write_row out row = out ++ body)
    ∧ ∀ (K : list Ascii.ascii → Prop) rest,
        K (newline :: rest) → holds_row row K (body ++ rest).
Proof.
  unfold write_row.
  assert (∃ txt,
    (∀ out, foldl (λ out value, out ++ show_int value ++ [" "%char]) out row
            = out ++ txt)
    ∧ ∀ (K : list Ascii.ascii → Prop) rest,
        K rest → holds_row row K (txt ++ rest)) as (txt & Htxt & Hholds).
  { induction row as [|v row (txt & Htxt & Hholds)].
    - exists []. split; [intros out; by rewrite app_nil_r|]. by intros K rest.
    - exists (show_int v ++ " "%char :: txt). split.
      + intros out. cbn [foldl]. rewrite Htxt.
        rewrite <-!app_assoc. done.
      + intros K rest HK. cbn [holds_row].
        exists [], (txt ++ rest). split; [done|]. split; [|by apply Hholds].
        cbn [app]. by rewrite <-app_assoc. }
  exists (txt ++ [newline]). split.
  - intros out. by rewrite Htxt, <-app_assoc.
  - intros K rest HK. rewrite <-app_assoc. by apply Hholds.
Qed.

Lemma write_table_spec (table : list (list Z)) :
  ∃ body, (∀ out, write_table out table = out ++ body)
    ∧ ∀ rest, holds_rows table (body ++ rest).
Proof.
  unfold write_table.
  induction table as [|row table (body & Hbody & Hholds)].
  - exists []. split; [intros out; by rewrite app_nil_r|done].
  - destruct (write_row_spec row) as (rbody & Hrow & Hrholds).
    exists (rbody ++ body). split.
    + intros out. cbn [foldl]. rewrite Hbody, Hrow. by rewrite <-app_assoc.
    + intros rest. cbn [holds_rows]. rewrite <-app_assoc.
      apply Hrholds. apply (holds_rows_space table [newline]); [done|].
      apply Hholds.
Qed.

Lemma table_ext (a b : list (list Z)) :
  length a = length b → square a → square b →
  (∀ i j, (i < length a)%nat → (j < length a)%nat →
     entry a i j = entry b i j) →
  a = b.
Proof.
  intros Hlen Ha Hb Hentry. apply list_eq_same_length with (length a);
    [lia|lia|].
  intros i ra rb Hi Hra Hrb.
  pose proof (square_row_length _ _ _ Ha Hra) as Hla.
  pose proof (square_row_length _ _ _ Hb Hrb) as Hlb.
  apply list_eq_same_length with (length a); [lia|lia|].
  intros j x y Hj Hx Hy.
  rewrite <-(row_lookup_entry a i j ra x Hra Hx).
  rewrite <-(row_lookup_entry b i j rb y Hrb Hy).
  by apply Hentry.
Qed.

Lemma read_file_entry_spec (table : list (list Z)) (r c : Z)
    (st : list (list Z) * istream) :
  square table → int_entries table →
  0 ≤ r < Z.of_nat (length table) → 0 ≤ c < Z.of_nat (length table) →
  read_file_inv table r c st →
  ∃ st', read_file_entry r c st = Ok st'
         ∧ read_file_inv table r (c + 1) st'.
Proof.
  intros Hsq Hint Hr Hc (Hlen & Hsqc & Heof & Hfail & Hholds & Hcells).
  destruct st as [cur [cs eof fail]]. cbn [fst snd chars eofbit failbit] in *.
  subst eof fail.
  destruct (table_lookup_entry table (Z.to_nat r) (Z.to_nat c) Hsq)
    as (row & Hrow & Hv); [lia..|].
  set (v := entry table (Z.to_nat r) (Z.to_nat c)) in *.
  rewrite (list_lookup_total_correct _ _ _ Hrow) in Hholds.
  rewrite (drop_S _ _ _ Hv) in Hholds. cbn [holds_row] in Hholds.
  destruct Hholds as (space & rest & Hspace & -> & Hrest).
  unfold read_file_entry.
  rewrite extract_show; [|eapply Hint|done|done].
  2:{ by eapply list_elem_of_lookup_2. }
  2:{ by eapply list_elem_of_lookup_2. }
  destruct (table_set_spec cur r c v Hsqc)
    as (cur' & -> & Hlen' & Hsq' & Hnew & Hold); [lia..|].
  cbn [mbind res_bind]. eexists. split; [done|].
  split; [cbn [fst]; lia|]. split; [done|]. split; [done|]. split; [done|].
  cbn [fst snd chars]. split.
  - rewrite (list_lookup_total_correct _ _ _ Hrow).
    replace (Z.to_nat (c + 1)) with (S (Z.to_nat c)) by lia.
    apply (holds_row_space _ _ [" "%char]); [done| |done].
    intros cs. by apply holds_rows_space.
  - intros i j Hj Hij.
    destruct (decide (i = Z.to_nat r ∧ j = Z.to_nat c)) as [[-> ->]|Hne].
    + done.
    + rewrite Hold by done. apply Hcells; lia.
Qed.

Lemma read_file_row_spec (table : list (list Z)) (r : Z)
    (st : list (list Z) * istream) :
  square table → int_entries table →
  0 ≤ r < Z.of_nat (length table) →
  read_file_inv table r 0 st →
  ∃ st', for_loop (seqZ 0 (Z.of_nat (length table))) (read_file_entry r) st
         = Ok st'
         ∧ read_file_inv table (r + 1) 0 st'.
Proof.
  intros Hsq Hint Hr Hinv.
  destruct (for_loop_seqZ_total (Z.of_nat (length table))
              (read_file_entry r) (λ c st, read_file_inv table r c st) st)
    as (st' & Hloop & Hinv'); [lia|done| |].
  { intros c st1 Hc Hst1. by apply read_file_entry_spec. }
  exists st'. split; [done|].
  destruct Hinv' as (Hlen & Hsqc & Heof & Hfail & Hholds & Hcells).
  split; [done|]. split; [done|]. split; [done|]. split; [done|].
  destruct (table_lookup_entry table (Z.to_nat r) 0 Hsq)
    as (row & Hrow & _); [lia..|].
  pose proof (square_row_length _ _ _ Hsq Hrow) as Hlrow.
  rewrite (list_lookup_total_correct _ _ _ Hrow) in Hholds.
  rewrite drop_ge in Hholds by lia. cbn [holds_row] in Hholds.
  split.
  - replace (Z.to_nat (r + 1)) with (S (Z.to_nat r)) by lia.
    change (Z.to_nat 0) with 0%nat. rewrite drop_0.
    destruct (table !! S (Z.to_nat r)) as [row'|] eqn:Hrow'.
    + rewrite (list_lookup_total_correct _ _ _ Hrow').
      by rewrite (drop_S _ _ _ Hrow') in Hholds.
    + rewrite list_lookup_total_alt, Hrow'. cbn [default holds_row].
      apply lookup_ge_None in Hrow'. by rewrite drop_ge by lia.
  - intros i j Hj Hij. apply Hcells; lia.
Qed.

Lemma read_file_rows_spec (table : list (list Z)) (file : istream) :
  square table → int_entries table →
  eofbit file = false → failbit file = false →
  holds_rows table (chars file) →
  let n := length table in
  ∃ file', for_loop (seqZ 0 (Z.of_nat n))
    (λ row st, for_loop (seqZ 0 (Z.of_nat n)) (read_file_entry row) st)
    (replicate n (replicate n 0), file)
  = Ok (table, file').
Proof.
  intros Hsq Hint Heof Hfail Hholds n.
  destruct (for_loop_seqZ_total (Z.of_nat n)
              (λ row st, for_loop (seqZ 0 (Z.of_nat n))
                           (read_file_entry row) st)
              (λ r st, read_file_inv table r 0 st)
              (replicate n (replicate n 0), file))
    as ([cur file'] & Hloop & Hinv'); [lia| | |].
  - split; [cbn [fst]; by rewrite length_replicate|].
    split.
    { cbn [fst]. apply Forall_forall. intros row Hrow.
      apply elem_of_replicate in Hrow as [-> _].
      by rewrite !length_replicate. }
    split; [done|]. split; [done|]. split; [|intros; lia].
    cbn [snd]. change (Z.to_nat 0) with 0%nat. rewrite drop_0.
    destruct table as [|row table']; [done|].
    by cbn [lookup_total list_lookup_total drop holds_rows] in *.
  - intros r st Hr Hst. by apply read_file_row_spec.
  - exists file'. rewrite Hloop. f_equal. f_equal.
    destruct Hinv' as (Hlen & Hsqc & _ & _ & _ & Hcells).
    cbn [fst] in *. apply table_ext; [done..|].
    intros i j Hi Hj. apply Hcells; lia.
Qed.

Lemma skip_space_blank (cs : list Ascii.ascii) :
  forallb isspace cs = true → skip_space cs = [].
Proof.
  induction cs as [|c cs IH]; [done|]. cbn [forallb skip_space].
  intros [-> Hcs]%andb_true_iff. by apply IH.
Qed.

(** Whatever follows the order in the file, the loops of
    [readCayleyTableFromFile] end with a square table. *)
Lemma read_file_entry_shape (n : nat) (r c : Z)
    (st : list (list Z) * istream) :
  0 ≤ r < Z.of_nat n → 0 ≤ c < Z.of_nat n →
  length st.1 = n ∧ square st.1 →
  ∃ st', read_file_entry r c st = Ok st' ∧ length st'.1 = n ∧ square st'.1.
Proof.
  intros Hr Hc [Hlen Hsq]. destruct st as [cur file]. cbn [fst] in *.
  unfold read_file_entry. destruct (extract_int file) as [[v|] file'].
  - destruct (table_set_spec cur r c v Hsq)
      as (cur' & -> & Hlen' & Hsq' & _); [lia..|].
    cbn [mbind res_bind]. eexists. split; [done|]. cbn [fst].
    split; [lia|done].
  - eexists. split; [done|]. by cbn [fst].
Qed.

Lemma read_file_loops_shape (n : nat) (file : istream) :
  ∃ table file',
    for_loop (seqZ 0 (Z.of_nat n))
      (λ row st, for_loop (seqZ 0 (Z.of_nat n)) (read_file_entry row) st)
      (replicate n (replicate n 0), file)
    = Ok (table, file')
    ∧ length table = n ∧ square table.
Proof.
  destruct (for_loop_seqZ_total (Z.of_nat n)
              (λ row st, for_loop (seqZ 0 (Z.of_nat n))
                           (read_file_entry row) st)
              (λ _ st, length st.1 = n ∧ square st.1)
              (replicate n (replicate n 0), file))
    as ([cur file'] & Hloop & Hlen & Hsq); [lia| | |].
  - cbn [fst]. split; [by rewrite length_replicate|].
    apply Forall_forall. intros row Hrow.
    apply elem_of_replicate in Hrow as [-> _].
    by rewrite !length_replicate.
  - intros r st Hr Hst.
    apply (for_loop_seqZ_total (Z.of_nat n) (read_file_entry r)
             (λ _ st, length st.1 = n ∧ square st.1) st); [lia|done|].
    intros c st1 Hc Hst1. by apply read_file_entry_shape.
  - by exists cur, file'.
Qed.

(** X20 (writeResultsToFile, main.cpp lines 556-588;
    readCayleyTableFromFile, lines 186-204): a table saved by
    [writeResultsToFile] is the table [readCayleyTableFromFile] loads from
    that file: the order and the rows are read back as they were written,
    and the lines of results after them are never looked at. *)
Theorem writeResultsToFile_readCayleyTableFromFile (fuel : nat)
    (table : list (list Z)) (quasigroup : Quasigroup)
    (content : list Ascii.ascii) :
  square table → int_entries table →
  Z.of_nat (length table) ≤ INT_MAX →
  writeResultsToFile fuel table quasigroup true = Ok (FileReturned content) →
  readCayleyTableFromFile (Some content) = Ok (FileReturned table).
Proof.
  intros Hsq Hint Hmax Hwrite. unfold writeResultsToFile in Hwrite.
  cbn [negb] in Hwrite.
  rewrite wrap_int_id in Hwrite by (unfold INT_MIN; lia).
  destruct (write_table_spec table) as (body & Hbody & Hholds).
  rewrite Hbody in Hwrite.
  destruct (hasSubquasigroups fuel quasigroup true) as [p|]; [|done].
  destruct (hasSubquasigroups fuel quasigroup false) as [t|]; [|done].
  cbn [mbind res_bind] in Hwrite.
  injection Hwrite as <-.
  rewrite <-!(app_assoc (show_int _)). cbn [app].
  rewrite <-!(app_assoc body).
  match goal with
  | |- context [body ++ ?tail] => set (rest := tail)
  end.
  unfold readCayleyTableFromFile, open_file.
  pose proof (extract_show (Z.of_nat (length table)) [] (body ++ rest)
                newline) as Hfirst.
  cbn [app] in Hfirst. rewrite Hfirst; [|unfold INT_MIN; lia|done|done].
  destruct (decide (Z.of_nat (length table) < 0)) as [|_]; [lia|].
  rewrite Nat2Z.id.
  destruct (read_file_rows_spec table
              {| chars := newline :: body ++ rest;
                 eofbit := false; failbit := false |})
    as (file' & Hloop); [done..| |].
  { cbn [chars]. by apply (holds_rows_space _ [newline]). }
  cbn zeta in Hloop. by rewrite Hloop.
Qed.

Lemma writeResultsToFile_readCayleyTableFromFile_witness :
  ∃ content,
    writeResultsToFile 4 [[0; 1; 2]; [1; 2; 0]; [2; 0; 1]]
      (mkQuasigroup [[0; 1; 2]; [1; 2; 0]; [2; 0; 1]]) true
    = Ok (FileReturned content)
    ∧ readCayleyTableFromFile (Some content)
      = Ok (FileReturned [[0; 1; 2]; [1; 2; 0]; [2; 0; 1]]).
Proof.
  eexists. split; [vm_compute; reflexivity|].
  apply (writeResultsToFile_readCayleyTableFromFile 4 _
           (mkQuasigroup [[0; 1; 2]; [1; 2; 0]; [2; 0; 1]])).
  - by repeat constructor.
  - intros row v Hrow Hv. unfold INT_MIN, INT_MAX.
    repeat (apply elem_of_cons in Hrow as [->|Hrow];
      [repeat (apply elem_of_cons in Hv as [->|Hv]; [lia|]);
       by apply elem_of_nil in Hv|]).
    by apply elem_of_nil in Hrow.
  - unfold INT_MAX. cbn. lia.
  - vm_compute. reflexivity.
Defined.

(** X21 (readCayleyTableFromFile, main.cpp lines 186-204): a file that is
    empty, or holds white space only, leaves [int order] without a value:
    the function then builds the table from an uninitialised variable. *)
Theorem readCayleyTableFromFile_blank (content : list Ascii.ascii) :
  forallb isspace content = true →
  readCayleyTableFromFile (Some content) = Err Undefined.
Proof.
  intros Hblank. unfold readCayleyTableFromFile, open_file, extract_int.
  cbn [eofbit failbit chars orb]. by rewrite skip_space_blank.
Qed.

Lemma readCayleyTableFromFile_blank_witness :
  forallb isspace [" "%char; newline] = true
  ∧ readCayleyTableFromFile (Some [" "%char; newline]) = Err Undefined.
Proof.
  split; [reflexivity|].
  apply (readCayleyTableFromFile_blank [" "%char; newline]). reflexivity.
Defined.

(** X22 (readCayleyTableFromFile, main.cpp lines 186-204): once an order
    that is not negative has been read, the function accepts whatever
    follows: it reports no error for entries that are missing, malformed or
    out of range, and returns a square table of that order. *)
Theorem readCayleyTableFromFile_never_rejects (content : list Ascii.ascii)
    (order : Z) (file : istream) :
  extract_int (open_file content) = (Some order, file) → 0 ≤ order →
  ∃ table,
    readCayleyTableFromFile (Some content) = Ok (FileReturned table)
    ∧ Z.of_nat (length table) = order ∧ square table.
Proof.
  intros Hfirst Horder. unfold readCayleyTableFromFile. rewrite Hfirst.
  destruct (decide (order < 0)) as [|_]; [lia|].
  destruct (read_file_loops_shape (Z.to_nat order) file)
    as (table & file' & Hloop & Hlen & Hsq).
  rewrite Z2Nat.id in Hloop by done. rewrite Hloop. cbn [mbind res_bind].
  exists table. split; [done|]. split; [lia|done].
Qed.

Lemma readCayleyTableFromFile_never_rejects_witness :
  ∃ table,
    readCayleyTableFromFile (Some (text "2 7 x"))
    = Ok (FileReturned table)
    ∧ Z.of_nat (length table) = 2 ∧ square table.
Proof.
  apply (readCayleyTableFromFile_never_rejects (text "2 7 x") 2
           {| chars := text " 7 x"; eofbit := false; failbit := false |});
    [reflexivity|lia].
Defined.
